(** * ArkScript: the bytecode compiler and the scope handling of the VM

    A shallow embedding of
      - src/arkreactor/Compiler/Compiler.cpp  (class [Ark::Compiler]),
      - include/Ark/VM/VM.hpp                 (class [Ark::VM_t]),
    and the properties of the specification proved about them.

    Conventions.
      - A [uint8_t] or [uint16_t] is a [Z]; every place where the C++ code
        converts to a narrower type is written out with [u8] or [u16].
      - A [std::vector] is a [list]; [v[i]] is the lookup [v !! i], and an
        index out of range (undefined behaviour in C++) is the error
        [Undefined].
      - The compiler mutates its members and throws exceptions: a computation
        is a function from the compiler's state to a result and the state
        left behind (the members written before a [throw] stay written). *)

From Stdlib Require Import ZArith Lia String Ascii List PrimFloat FloatOps SpecFloat.
From stdpp Require Import base tactics option list strings pretty.

Set Warnings "-register-all".

Open Scope string_scope.
Open Scope list_scope.
Open Scope Z_scope.

(** ** Fixed-width integers *)

(** [static_cast<uint8_t>] *)
Definition u8 (z : Z) : Z := z mod 256.

(** [static_cast<uint16_t>] *)
Definition u16 (z : Z) : Z := z mod 65536.

(** [std::numeric_limits<uint16_t>::max()] *)
Definition uint16_max : Z := 65535.

(** The two bytes [pushNumber] writes for [n]: [(n & 0xff00) >> 8] and
    [n & 0x00ff]. *)
Definition hi_byte (n : Z) : Z := Z.shiftr (Z.land n 65280) 8.
Definition lo_byte (n : Z) : Z := Z.land n 255.
Definition be16 (n : Z) : list Z := [hi_byte n; lo_byte n].

(** What the VM's [readNumber] makes of two bytes:
    [(uint16_t(x) << 8) + uint16_t(y)]. *)
Definition readNumber2 (x y : Z) : Z := Z.shiftl x 8 + y.

(** The bytes of a [std::string], as [m_bytecode.push_back(s[i])] stores
    them. *)
Definition bytes_of_string (s : string) : list Z :=
  map (fun c => Z.of_N (N_of_ascii c)) (list_ascii_of_string s).

(** ** The instruction set

    include/Ark/Compiler/Instructions.hpp is not among the sources: the value
    of each enumerator the compiler names is a parameter.  [Inst_t] is
    [uint8_t], and the compiler compares instructions by value. *)
Class Instruction := {
  HALT : Z;
  SYM_TABLE_START : Z;
  VAL_TABLE_START : Z;
  CODE_SEGMENT_START : Z;
  NUMBER_TYPE : Z;
  STRING_TYPE : Z;
  FUNC_TYPE : Z;
  LOAD_SYMBOL : Z;
  LOAD_CONST : Z;
  POP_JUMP_IF_TRUE : Z;
  STORE : Z;
  LET : Z;
  POP_JUMP_IF_FALSE : Z;
  JUMP : Z;
  RET : Z;
  CALL : Z;
  CAPTURE : Z;
  BUILTIN : Z;
  MUT : Z;
  DEL : Z;
  GET_FIELD : Z;
  PLUGIN : Z;
  LIST : Z;
  APPEND : Z;
  CONCAT : Z;
  APPEND_IN_PLACE : Z;
  CONCAT_IN_PLACE : Z;
  FIRST_OPERATOR : Z;
  ADD : Z;
  SUB : Z;
  MUL : Z;
  DIV : Z;
  MOD : Z;
  AND_ : Z;
  OR_ : Z
}.

(** ** The AST

    include/Ark/Compiler/Node.hpp is not among the sources. *)

Module Keyword.
Inductive t := If | Set_ | Let | Mut | Fun | Begin | While | Import | Quote | Del.
End Keyword.

Module NodeType.
Inductive t := Symbol | Capture | GetField | Keyword | String | Number | List.

Definition eqb (a b : t) : bool :=
  match a, b with
  | Symbol, Symbol | Capture, Capture | GetField, GetField | Keyword, Keyword
  | String, String | Number, Number | List, List => true
  | _, _ => false
  end.
End NodeType.

(** Line and column of a node in its source file. *)
Record Position := { line : nat; col : nat }.

(** Modelled from the spec: the node type of Node.hpp, which is not among the
    sources. "An opaque, immutable tree node with a discriminator among:
    Symbol, String, Number, Keyword(k), Capture, GetField, and List (ordered
    children). Every node carries source location for diagnostics." *)
Inductive Node :=
| Symbol (name : string) (pos : Position)
| Capture (name : string) (pos : Position)
| GetField (name : string) (pos : Position)
| Keyword (k : Keyword.t) (pos : Position)
| String_ (s : string) (pos : Position)
| Number (n : float) (pos : Position)
| List (l : list Node) (pos : Position).

Definition nodeType (x : Node) : NodeType.t :=
  match x with
  | Symbol _ _ => NodeType.Symbol
  | Capture _ _ => NodeType.Capture
  | GetField _ _ => NodeType.GetField
  | Keyword _ _ => NodeType.Keyword
  | String_ _ _ => NodeType.String
  | Number _ _ => NodeType.Number
  | List _ _ => NodeType.List
  end.

(** [Node::string()]: the text of a symbol, capture, field or string node.
    The compiler calls it on other nodes only for a malformed form; the model
    gives the empty string there. *)
Definition string_of (x : Node) : string :=
  match x with
  | Symbol s _ | Capture s _ | GetField s _ | String_ s _ => s
  | _ => ""
  end.

(** [Node::constList()]: the children; a node that is no list has none. *)
Definition constList (x : Node) : list Node :=
  match x with
  | List l _ => l
  | _ => []
  end.

(** [Node::keyword()]. *)
Definition keyword (x : Node) : option Keyword.t :=
  match x with
  | Keyword k _ => Some k
  | _ => None
  end.

Definition isGetField (x : Node) : bool := NodeType.eqb (nodeType x) NodeType.GetField.
Definition isCapture (x : Node) : bool := NodeType.eqb (nodeType x) NodeType.Capture.

(** The induction principle for the nested type: a property holds of a list
    node when it holds of every child. *)
Section Node_induction.
Variable P : Node -> Prop.
Hypothesis HSymbol : forall s pos, P (Symbol s pos).
Hypothesis HCapture : forall s pos, P (Capture s pos).
Hypothesis HGetField : forall s pos, P (GetField s pos).
Hypothesis HKeyword : forall k pos, P (Keyword k pos).
Hypothesis HString : forall s pos, P (String_ s pos).
Hypothesis HNumber : forall n pos, P (Number n pos).
Hypothesis HList : forall l pos, Forall P l -> P (List l pos).

Fixpoint Node_ind' (x : Node) : P x :=
  match x with
  | Symbol s pos => HSymbol s pos
  | Capture s pos => HCapture s pos
  | GetField s pos => HGetField s pos
  | Keyword k pos => HKeyword k pos
  | String_ s pos => HString s pos
  | Number n pos => HNumber n pos
  | List l pos =>
      HList l pos
        ((fix children (l : list Node) : Forall P l :=
            match l with
            | [] => @Stdlib.Lists.List.Forall_nil Node P
            | c :: l' => @Stdlib.Lists.List.Forall_cons Node P c l' (Node_ind' c) (children l')
            end) l)
  end.
End Node_induction.

(** ** The value table

    Modelled from the spec: the entries of include/Ark/Compiler/CValue.hpp,
    which is not among the sources. "Ordered sequence of unique ConstValue
    entries, each tagged one of: Number(f64), String(bytes), PageAddr(u16).
    Equality is structural including tag." The page id is kept as the
    [std::size_t] the compiler stores. *)
Inductive CValue :=
| CNumber (n : float)
| CString (s : string)
| CPageAddr (page_id : Z).

Definition CValue_eqb (a b : CValue) : bool :=
  match a, b with
  | CNumber x, CNumber y => PrimFloat.eqb x y
  | CString x, CString y => String.eqb x y
  | CPageAddr x, CPageAddr y => Z.eqb x y
  | _, _ => false
  end.

(** [ValTableElem(const Node&)]: a number or a string node makes an entry. *)
Definition CValue_of_node (x : Node) : option CValue :=
  match x with
  | Number n _ => Some (CNumber n)
  | String_ s _ => Some (CString s)
  | _ => None
  end.

(** ** Errors *)

Inductive Error :=
| CompilationError (message : string) (node : option Node)
  (** [throw CompilationError(message)]; with [Some node] it is
      [throwCompilerError(message, node)], whose text carries the node's
      position *)
| BadOptionalAccess
  (** [std::optional::value()] on an empty optional *)
| Undefined (what : string)
  (** the C++ behaviour is undefined (a vector read out of range) or the run
      never leaves a loop *).

Inductive Res (A : Type) :=
| Ok (a : A)
| Err (e : Error).
Arguments Ok {A} a.
Arguments Err {A} e.

(** ** The compiler's members *)

Record Compiler := mkCompiler {
  m_symbols : list Node;
  m_defined_symbols : list string;
  m_plugins : list string;
  m_values : list CValue;
  m_code_pages : list (list Z);
  m_temp_pages : list (list Z);
  m_bytecode : list Z
}.

(** A compiler freshly constructed: every table is empty. *)
Definition Compiler_new : Compiler := mkCompiler [] [] [] [] [] [] [].

Definition set_symbols (v : list Node) (st : Compiler) : Compiler :=
  mkCompiler v (m_defined_symbols st) (m_plugins st) (m_values st)
    (m_code_pages st) (m_temp_pages st) (m_bytecode st).
Definition set_defined_symbols (v : list string) (st : Compiler) : Compiler :=
  mkCompiler (m_symbols st) v (m_plugins st) (m_values st)
    (m_code_pages st) (m_temp_pages st) (m_bytecode st).
Definition set_plugins (v : list string) (st : Compiler) : Compiler :=
  mkCompiler (m_symbols st) (m_defined_symbols st) v (m_values st)
    (m_code_pages st) (m_temp_pages st) (m_bytecode st).
Definition set_values (v : list CValue) (st : Compiler) : Compiler :=
  mkCompiler (m_symbols st) (m_defined_symbols st) (m_plugins st) v
    (m_code_pages st) (m_temp_pages st) (m_bytecode st).
Definition set_code_pages (v : list (list Z)) (st : Compiler) : Compiler :=
  mkCompiler (m_symbols st) (m_defined_symbols st) (m_plugins st) (m_values st)
    v (m_temp_pages st) (m_bytecode st).
Definition set_temp_pages (v : list (list Z)) (st : Compiler) : Compiler :=
  mkCompiler (m_symbols st) (m_defined_symbols st) (m_plugins st) (m_values st)
    (m_code_pages st) v (m_bytecode st).
Definition set_bytecode (v : list Z) (st : Compiler) : Compiler :=
  mkCompiler (m_symbols st) (m_defined_symbols st) (m_plugins st) (m_values st)
    (m_code_pages st) (m_temp_pages st) v.

(** ** Computations of the compiler *)

Definition M (A : Type) : Type := Compiler -> Res A * Compiler.

Definition ret {A} (a : A) : M A := fun st => (Ok a, st).

Definition bind {A B} (m : M A) (f : A -> M B) : M B :=
  fun st =>
    match m st with
    | (Ok a, st') => f a st'
    | (Err e, st') => (Err e, st')
    end.

Definition throw {A} (e : Error) : M A := fun st => (Err e, st).

Definition get : M Compiler := fun st => (Ok st, st).
Definition modify (f : Compiler -> Compiler) : M unit := fun st => (Ok tt, f st).

Notation "x <- m ;; k" := (bind m (fun x => k))
  (at level 100, m at next level, right associativity).
Notation "m ;;; k" := (bind m (fun _ => k))
  (at level 100, right associativity).

(** [for (auto e : l) f(e);] *)
Fixpoint for_each {A} (f : A -> M unit) (l : list A) : M unit :=
  match l with
  | [] => ret tt
  | a :: l' => f a ;;; for_each f l'
  end.

(** ** Code pages

    Modelled from the spec: [page] and [page_ptr] are defined in
    inline/Compiler.inl, which is not among the sources. Compiler.hpp
    declares them ("page index, if negative, refers to a temporary code
    page"), the spec has the temp pages "addressed by negative indices", and
    [handleCalls] fixes the indexing: after [m_temp_pages.emplace_back()] the
    page [-m_temp_pages.size()] is [m_temp_pages.back()]. *)
Definition page (i : Z) (st : Compiler) : option (list Z) :=
  if 0 <=? i then m_code_pages st !! Z.to_nat i
  else m_temp_pages st !! Z.to_nat (- i - 1).

Definition set_page (i : Z) (pg : list Z) (st : Compiler) : Compiler :=
  if 0 <=? i then set_code_pages (<[Z.to_nat i := pg]> (m_code_pages st)) st
  else set_temp_pages (<[Z.to_nat (- i - 1) := pg]> (m_temp_pages st)) st.

(** [page(p)], read. *)
Definition page_get (p : Z) : M (list Z) :=
  fun st =>
    match page p st with
    | Some pg => (Ok pg, st)
    | None => (Err (Undefined "page index"), st)
    end.

(** [page(p).size()] *)
Definition page_size (p : Z) : M Z :=
  pg <- page_get p ;; ret (Z.of_nat (length pg)).

(** [page(p).emplace_back(b)] and [page(p).push_back(b)] *)
Definition page_push (p : Z) (b : Z) : M unit :=
  pg <- page_get p ;; modify (set_page p (pg ++ [b])).

(** [page(p)[pos] = v] *)
Definition page_store (p : Z) (pos : Z) (v : Z) : M unit :=
  pg <- page_get p ;;
  if (0 <=? pos) && (pos <? Z.of_nat (length pg))
  then modify (set_page p (<[Z.to_nat pos := v]> pg))
  else throw (Undefined "page offset").

(** [m_bytecode.push_back(b)] *)
Definition bytecode_push (b : Z) : M unit :=
  modify (fun st => set_bytecode (m_bytecode st ++ [b]) st).

(** [Compiler::pushNumber(n, page)]; [None] is the null pointer, [Some p]
    is [page_ptr(p)]. *)
Definition pushNumber (n : Z) (page : option Z) : M unit :=
  match page with
  | None => bytecode_push (hi_byte n) ;;; bytecode_push (lo_byte n)
  | Some p => page_push p (hi_byte n) ;;; page_push p (lo_byte n)
  end.

(** ** Searching the tables *)

(** [std::distance(v.begin(), std::find_if(v.begin(), v.end(), pred))],
    [None] for [v.end()]. *)
Fixpoint find_index {A} (pred : A -> bool) (l : list A) : option nat :=
  match l with
  | [] => None
  | a :: l' => if pred a then Some O else S <$> find_index pred l'
  end.

(** [std::find(v.begin(), v.end(), s) != v.end()] on strings. *)
Definition contains (s : string) (l : list string) : bool :=
  existsb (String.eqb s) l.

(** Modelled from the spec: [Utils::splitString(name, ':')[0]] (Ark/Utils.hpp
    is not among the sources): "prefix = substring before the first `:`". *)
Fixpoint splitString_first (s : string) (sep : ascii) : string :=
  match s with
  | EmptyString => EmptyString
  | String c s' =>
      if Ascii.eqb c sep then EmptyString else String c (splitString_first s' sep)
  end.

(** The number of iterations after which a loop over a [uint16_t] index that
    has not ended never ends: the index has then taken a value twice. *)
Definition uint16_range : nat := Z.to_nat 65536.
Global Opaque uint16_range.

(** The children of a list node, compiled: element [i] is what
    [_compile(x.constList()[i], p)] runs. *)
Abbreviation children_t := (list (Z -> M unit)).

(** [_compile(x.constList()[i], p)] *)
Definition compileChild (acts : children_t) (i : nat) (p : Z) : M unit :=
  match acts !! i with
  | Some a => a p
  | None => throw (Undefined "constList index")
  end.

Section Compiler.

Context {isa : Instruction}.

(** [internal::operators] (Instructions.hpp) and the names of
    [Builtins::builtins] (Builtins.hpp), in table order. *)
Variable operators : list string.
Variable builtins : list string.

(** [Compiler::isSpecific] (inline/Compiler.inl): the opcode of a specific
    form's name. *)
Variable isSpecific : string -> option Z.

(** [std::filesystem::path(plugin).stem().string()] *)
Variable stem : string -> string.

(** [std::to_string(double)] *)
Variable to_string : float -> string.

(** [picosha2::hash256], the digest of a byte sequence. *)
Variable hash256 : list Z -> list Z.

(** Ark/Config.hpp *)
Variable ARK_VERSION_MAJOR : Z.
Variable ARK_VERSION_MINOR : Z.
Variable ARK_VERSION_PATCH : Z.

(** *** Headers and tables *)

Definition pushHeadersPhase1 (timestamp : Z) : M unit :=
  bytecode_push 97 ;;;
  bytecode_push 114 ;;;
  bytecode_push 107 ;;;
  bytecode_push 0 ;;;
  pushNumber (u16 ARK_VERSION_MAJOR) None ;;;
  pushNumber (u16 ARK_VERSION_MINOR) None ;;;
  pushNumber (u16 ARK_VERSION_PATCH) None ;;;
  for_each
    (fun c =>
       let d := 56 - 8 * c in
       let b := u8 (Z.shiftr (Z.land timestamp (Z.shiftl 255 d)) d) in
       bytecode_push b)
    [0; 1; 2; 3; 4; 5; 6; 7].

Definition pushValue (val : CValue) : M unit :=
  match val with
  | CNumber n =>
      bytecode_push NUMBER_TYPE ;;;
      for_each bytecode_push (bytes_of_string (to_string n))
  | CString t =>
      bytecode_push STRING_TYPE ;;;
      for_each bytecode_push (bytes_of_string t)
  | CPageAddr a =>
      bytecode_push FUNC_TYPE ;;;
      pushNumber (u16 a) None
  end ;;;
  bytecode_push 0.

Definition pushHeadersPhase2 : M unit :=
  bytecode_push SYM_TABLE_START ;;;
  st <- get ;;
  pushNumber (u16 (Z.of_nat (length (m_symbols st)))) None ;;;
  for_each
    (fun sym =>
       for_each bytecode_push (bytes_of_string (string_of sym)) ;;;
       bytecode_push 0)
    (m_symbols st) ;;;
  bytecode_push VAL_TABLE_START ;;;
  pushNumber (u16 (Z.of_nat (length (m_values st)))) None ;;;
  for_each pushValue (m_values st).

(** *** Helpers *)

Definition countArkObjects (lst : list Node) : Z :=
  Z.of_nat (length (filter (fun node => negb (isGetField node)) lst)).

Definition isOperator (name : string) : option nat :=
  find_index (String.eqb name) operators.

Definition isBuiltin (name : string) : option nat :=
  find_index (String.eqb name) builtins.

Definition pushSpecificInstArgc (inst : Z) (previous : Z) (p : Z) : M unit :=
  if inst =? LIST then pushNumber previous (Some p)
  else if (inst =? APPEND) || (inst =? APPEND_IN_PLACE) ||
          (inst =? CONCAT) || (inst =? CONCAT_IN_PLACE)
  then pushNumber (u16 (previous - 1)) (Some p)
  else ret tt.

Definition mayBeFromPlugin (name : string) : M bool :=
  st <- get ;;
  let splitted := splitString_first name ":" in
  ret (existsb (fun plugin => String.eqb (stem plugin) splitted) (m_plugins st)).

Definition throwCompilerError {A} (message : string) (node : Node) : M A :=
  throw (CompilationError message (Some node)).

(** *** The tables *)

Definition addSymbol (sym : Node) : M Z :=
  st <- get ;;
  distance <-
    match find_index (fun sym_node => String.eqb (string_of sym_node) (string_of sym))
            (m_symbols st) with
    | Some d => ret (Z.of_nat d)
    | None =>
        modify (set_symbols (m_symbols st ++ [sym])) ;;;
        ret (Z.of_nat (length (m_symbols st)))
    end ;;
  if distance <? uint16_max then ret (u16 distance)
  else throwCompilerError "Too many symbols (exceeds 65'536), aborting compilation." sym.

(** The body the two overloads of [addValue] share. *)
Definition addValueElem (v : CValue) (current : Node) : M Z :=
  st <- get ;;
  distance <-
    match find_index (CValue_eqb v) (m_values st) with
    | Some d => ret (Z.of_nat d)
    | None =>
        modify (set_values (m_values st ++ [v])) ;;;
        ret (Z.of_nat (length (m_values st)))
    end ;;
  if distance <? uint16_max then ret (u16 distance)
  else throwCompilerError "Too many values (exceeds 65'536), aborting compilation." current.

(** [addValue(const Node& x)] *)
Definition addValue (x : Node) : M Z :=
  match CValue_of_node x with
  | Some v => addValueElem v x
  | None => throw (Undefined "ValTableElem of a node that is no value")
  end.

(** [addValue(std::size_t page_id, const Node& current)] *)
Definition addValue_page (page_id : Z) (current : Node) : M Z :=
  addValueElem (CPageAddr page_id) current.

Definition addDefinedSymbol (sym : string) : M unit :=
  st <- get ;;
  if contains sym (m_defined_symbols st) then ret tt
  else modify (set_defined_symbols (m_defined_symbols st ++ [sym])).

Definition checkForUndefinedSymbol : M unit :=
  st <- get ;;
  for_each
    (fun sym =>
       let str := string_of sym in
       is_plugin <- mayBeFromPlugin str ;;
       st <- get ;;
       if negb (contains str (m_defined_symbols st)) && negb is_plugin
       then throwCompilerError "Unbound variable error (variable is used but not defined)" sym
       else ret tt)
    (m_symbols st).

(** *** Lowering

    The functions below take the node [x] and [acts], its children compiled
    (see [children_t]); [_compile] ties the knot. *)

Definition compileSymbol (x : Node) (p : Z) : M unit :=
  let name := string_of x in
  match isBuiltin name with
  | Some it_builtin =>
      page_push p BUILTIN ;;;
      pushNumber (u16 (Z.of_nat it_builtin)) (Some p)
  | None =>
      match isOperator name with
      | Some it_operator => page_push p (u8 (FIRST_OPERATOR + Z.of_nat it_operator))
      | None =>
          i <- addSymbol x ;;
          page_push p LOAD_SYMBOL ;;;
          pushNumber i (Some p)
      end
  end.

(** [while (x.constList()[j].nodeType() == NodeType::GetField) --j;] with
    [j] a [uint16_t]; returns the last [j]. *)
Fixpoint skipGetFields (fuel : nat) (l : list Node) (j : Z) : M Z :=
  match fuel with
  | O => throw (Undefined "endless loop")
  | S fuel' =>
      match l !! Z.to_nat j with
      | None => throw (Undefined "constList index")
      | Some c => if isGetField c then skipGetFields fuel' l (u16 (j - 1)) else ret j
      end
  end.

(** The loop of [compileSpecific], entered with the [uint16_t] index [i]:
    [for (...; i > 0; --i) { ... }]. *)
Fixpoint compileSpecificArgs (fuel : nat) (l : list Node) (acts : children_t)
    (i : Z) (p : Z) : M unit :=
  if 0 <? i then
    match fuel with
    | O => throw (Undefined "endless loop")
    | S fuel' =>
        j <- skipGetFields uint16_range l i ;;
        let diff := u16 (i - j) in
        (* while (j < i) { _compile(x.constList()[j], p); ++j; } *)
        for_each (fun k => compileChild acts k p)
          (seq (Z.to_nat j) (Z.to_nat (i - j))) ;;;
        compileChild acts (Z.to_nat i) p ;;;
        let i := u16 (i - diff) in
        compileSpecificArgs fuel' l acts (u16 (i - 1)) p
    end
  else ret tt.

Definition compileSpecific (c0 : Node) (x : Node) (acts : children_t) (p : Z) : M unit :=
  let name := string_of c0 in
  match isSpecific name with
  | None => throw BadOptionalAccess
  | Some inst =>
      let argc := u16 (countArkObjects (constList x) - 1) in
      if (argc <? 2) && negb (inst =? LIST)
      then throw (CompilationError ("can not use " +:+ name +:+ " with less than 2 arguments") None)
      else
        compileSpecificArgs uint16_range (constList x) acts
          (u16 (Z.of_nat (length (constList x)) - 1)) p ;;;
        page_push p inst ;;;
        pushSpecificInstArgc inst argc p
  end.

Definition compileIf (x : Node) (acts : children_t) (p : Z) : M unit :=
  compileChild acts 1 p ;;;
  page_push p POP_JUMP_IF_TRUE ;;;
  jump_to_if_pos <- page_size p ;;
  pushNumber 0 (Some p) ;;;
  (if Z.of_nat (length (constList x)) =? 4 then compileChild acts 3 p else ret tt) ;;;
  page_push p JUMP ;;;
  jump_to_end_pos <- page_size p ;;
  pushNumber 0 (Some p) ;;;
  size <- page_size p ;;
  page_store p jump_to_if_pos (hi_byte (u16 size)) ;;;
  size <- page_size p ;;
  page_store p (jump_to_if_pos + 1) (lo_byte (u16 size)) ;;;
  compileChild acts 2 p ;;;
  size <- page_size p ;;
  page_store p jump_to_end_pos (hi_byte (u16 size)) ;;;
  size <- page_size p ;;
  page_store p (jump_to_end_pos + 1) (lo_byte (u16 size)).

(** [x.constList()[i]], inspected. *)
Definition child (x : Node) (i : nat) : M Node :=
  match constList x !! i with
  | Some c => ret c
  | None => throw (Undefined "constList index")
  end.

Definition compileFunction (x : Node) (acts : children_t) (p : Z) : M unit :=
  args <- child x 1 ;;
  for_each
    (fun it =>
       if NodeType.eqb (nodeType it) NodeType.Capture then
         st <- get ;;
         (if negb (contains (string_of it) (m_defined_symbols st))
          then throwCompilerError
                 ("Can not capture " +:+ string_of it +:+
                  " because it is referencing an unbound variable.") it
          else ret tt) ;;;
         page_push p CAPTURE ;;;
         addDefinedSymbol (string_of it) ;;;
         var_id <- addSymbol it ;;
         pushNumber var_id (Some p)
       else ret tt)
    (constList args) ;;;
  modify (fun st => set_code_pages (m_code_pages st ++ [[]]) st) ;;;
  st <- get ;;
  let page_id := Z.of_nat (length (m_code_pages st)) - 1 in
  page_push p LOAD_CONST ;;;
  id <- addValue_page page_id x ;;
  pushNumber id (Some p) ;;;
  for_each
    (fun it =>
       if NodeType.eqb (nodeType it) NodeType.Symbol then
         page_push page_id MUT ;;;
         var_id <- addSymbol it ;;
         addDefinedSymbol (string_of it) ;;;
         pushNumber var_id (Some page_id)
       else ret tt)
    (constList args) ;;;
  compileChild acts 2 page_id ;;;
  page_push page_id RET.

(** [for (idx = 2; idx < x.constList().size(); ++idx) _compile(x.constList()[idx], p);] *)
Definition putValue (x : Node) (acts : children_t) (p : Z) : M unit :=
  for_each (fun idx => compileChild acts idx p)
    (seq 2 (length (constList x) - 2)).

Definition compileLetMut (n : Keyword.t) (x : Node) (acts : children_t) (p : Z) : M unit :=
  x1 <- child x 1 ;;
  let name := string_of x1 in
  i <- addSymbol x1 ;;
  addDefinedSymbol name ;;;
  putValue x acts p ;;;
  page_push p (match n with Keyword.Let => LET | _ => MUT end) ;;;
  pushNumber i (Some p).

Definition compileWhile (x : Node) (acts : children_t) (p : Z) : M unit :=
  current <- page_size p ;;
  compileChild acts 1 p ;;;
  page_push p POP_JUMP_IF_FALSE ;;;
  jump_to_end_pos <- page_size p ;;
  pushNumber 0 (Some p) ;;;
  compileChild acts 2 p ;;;
  page_push p JUMP ;;;
  pushNumber (u16 current) (Some p) ;;;
  size <- page_size p ;;
  page_store p jump_to_end_pos (hi_byte (u16 size)) ;;;
  size <- page_size p ;;
  page_store p (jump_to_end_pos + 1) (lo_byte (u16 size)).

Definition compileSet (x : Node) (acts : children_t) (p : Z) : M unit :=
  x1 <- child x 1 ;;
  i <- addSymbol x1 ;;
  putValue x acts p ;;;
  page_push p STORE ;;;
  pushNumber i (Some p).

Definition compileQuote (x : Node) (acts : children_t) (p : Z) : M unit :=
  modify (fun st => set_code_pages (m_code_pages st ++ [[]]) st) ;;;
  st <- get ;;
  let page_id := Z.of_nat (length (m_code_pages st)) - 1 in
  compileChild acts 1 page_id ;;;
  page_push page_id RET ;;;
  id <- addValue_page page_id x ;;
  page_push p LOAD_CONST ;;;
  pushNumber id (Some p).

Definition compilePluginImport (x : Node) (acts : children_t) (p : Z) : M unit :=
  x1 <- child x 1 ;;
  id <- addValue x1 ;;
  modify (fun st => set_plugins (m_plugins st ++ [string_of x1]) st) ;;;
  page_push p PLUGIN ;;;
  pushNumber id (Some p).

Definition compileDel (x : Node) (acts : children_t) (p : Z) : M unit :=
  x1 <- child x 1 ;;
  i <- addSymbol x1 ;;
  page_push p DEL ;;;
  pushNumber i (Some p).

(** [m_temp_pages.back()] *)
Definition temp_back : M (list Z) :=
  st <- get ;;
  match last (m_temp_pages st) with
  | Some pg => ret pg
  | None => throw (Undefined "back of an empty vector")
  end.

(** [m_temp_pages.pop_back()] *)
Definition temp_pop_back : M unit :=
  st <- get ;;
  match m_temp_pages st with
  | [] => throw (Undefined "pop_back of an empty vector")
  | _ => modify (set_temp_pages (removelast (m_temp_pages st)))
  end.

(** The first loop of [handleCalls]: the fields that follow the callee go to
    the callee's page; [count] is [end - n].  Returns the last [n]. *)
Fixpoint handleCallsFields (l : list Node) (acts : children_t) (count : nat)
    (n : nat) (proc_page : Z) : M nat :=
  match count with
  | O => ret n
  | S count' =>
      match l !! n with
      | None => throw (Undefined "constList index")
      | Some c =>
          if isGetField c then
            compileChild acts n proc_page ;;;
            handleCallsFields l acts count' (S n) proc_page
          else ret n
      end
  end.

(** Whether the loop of the operator branch counts one more expression after
    the child at [index]. *)
Definition expressionEnds (l : list Node) (index : nat) : bool :=
  ((index + 1 <? length l)%nat &&
   match l !! (index + 1)%nat with
   | Some next => negb (isGetField next) && negb (isCapture next)
   | None => false
   end)
  || (index + 1 =? length l)%nat.

(** The loop of the operator branch of [handleCalls]; [count] is
    [size - index].  Returns the last [exp_count]. *)
Fixpoint handleCallsOperands (l : list Node) (acts : children_t) (op_inst : Z)
    (count : nat) (index : nat) (exp_count : nat) (p : Z) : M nat :=
  match count with
  | O => ret exp_count
  | S count' =>
      compileChild acts index p ;;;
      let exp_count := if expressionEnds l index then S exp_count else exp_count in
      (if (2 <=? exp_count)%nat then page_push p op_inst else ret tt) ;;;
      handleCallsOperands l acts op_inst count' (S index) exp_count p
  end.

(** The [switch] that closes the operator branch. *)
Definition checkChainedOperator (x : Node) (op_inst : Z) (exp_count : nat) : M unit :=
  if (op_inst =? ADD) || (op_inst =? SUB) || (op_inst =? DIV) || (op_inst =? MUL) ||
     (op_inst =? MOD) || (op_inst =? AND_) || (op_inst =? OR_)
  then ret tt
  else
    let index := op_inst - FIRST_OPERATOR in
    match (if 0 <=? index then operators !! Z.to_nat index else None) with
    | None => throw (Undefined "operators index")
    | Some name =>
        throwCompilerError
          ("can not create a chained expression (of length " +:+ pretty exp_count +:+
           ") for operator `" +:+ name +:+ "'. You most likely forgot a `)'.") x
    end.

Definition handleCalls (x : Node) (acts : children_t) (p : Z) : M unit :=
  modify (fun st => set_temp_pages (m_temp_pages st ++ [[]]) st) ;;;
  st <- get ;;
  let proc_page := - Z.of_nat (length (m_temp_pages st)) in
  compileChild acts 0 proc_page ;;;
  let end_ := length (constList x) in
  n <- handleCallsFields (constList x) acts (end_ - 1) 1 proc_page ;;
  back <- temp_back ;;
  let proc_page_len := Z.of_nat (length back) in
  if 1 <? proc_page_len then
    for_each (fun exp => exp p) (drop n acts) ;;;
    back <- temp_back ;;
    for_each (page_push p) back ;;;
    temp_pop_back ;;;
    page_push p CALL ;;;
    let args_count :=
      length (filter (fun it => negb (isGetField it) && negb (isCapture it))
                (drop 1 (constList x))) in
    pushNumber (u16 (Z.of_nat args_count)) (Some p)
  else
    match back !! O with
    | None => throw (Undefined "index in an empty page")
    | Some op_inst =>
        temp_pop_back ;;;
        exp_count <- handleCallsOperands (constList x) acts op_inst (end_ - n) n 0 p ;;
        (if (exp_count =? 1)%nat then page_push p op_inst else ret tt) ;;;
        if (2 <? exp_count)%nat then checkChainedOperator x op_inst exp_count else ret tt
    end.

(** [_compile(x, p)] once the children of [x] are compiled. *)
Definition compileNode (x : Node) (acts : children_t) (p : Z) : M unit :=
  if NodeType.eqb (nodeType x) NodeType.Symbol then compileSymbol x p
  else if NodeType.eqb (nodeType x) NodeType.GetField then
    i <- addSymbol x ;;
    page_push p GET_FIELD ;;;
    pushNumber i (Some p)
  else if NodeType.eqb (nodeType x) NodeType.String ||
          NodeType.eqb (nodeType x) NodeType.Number then
    i <- addValue x ;;
    page_push p LOAD_CONST ;;;
    pushNumber i (Some p)
  else
    match constList x with
    | [] =>
        match isBuiltin "nil" with
        | None => throw BadOptionalAccess
        | Some it_builtin =>
            page_push p BUILTIN ;;;
            pushNumber (u16 (Z.of_nat it_builtin)) (Some p)
        end
    | c0 :: _ =>
        if NodeType.eqb (nodeType c0) NodeType.Symbol &&
           bool_decide (is_Some (isSpecific (string_of c0)))
        then compileSpecific c0 x acts p
        else if NodeType.eqb (nodeType c0) NodeType.Keyword then
          match keyword c0 with
          | Some Keyword.If => compileIf x acts p
          | Some Keyword.Set_ => compileSet x acts p
          | Some Keyword.Let => compileLetMut Keyword.Let x acts p
          | Some Keyword.Mut => compileLetMut Keyword.Mut x acts p
          | Some Keyword.Fun => compileFunction x acts p
          | Some Keyword.Begin =>
              for_each (fun i => compileChild acts i p)
                (seq 1 (length (constList x) - 1))
          | Some Keyword.While => compileWhile x acts p
          | Some Keyword.Import => compilePluginImport x acts p
          | Some Keyword.Quote => compileQuote x acts p
          | Some Keyword.Del => compileDel x acts p
          | None => ret tt
          end
        else handleCalls x acts p
    end.

Fixpoint _compile (x : Node) : Z -> M unit :=
  match x with
  | List l _ => compileNode x (map _compile l)
  | _ => compileNode x []
  end.

(** *** The container *)

(** The code segments: the two loops that close [compile()]. *)
Definition pushCodeSegments : M unit :=
  st <- get ;;
  for_each
    (fun page =>
       bytecode_push CODE_SEGMENT_START ;;;
       pushNumber (u16 (Z.of_nat (length page) + 1)) None ;;;
       for_each bytecode_push page ;;;
       bytecode_push HALT)
    (m_code_pages st) ;;;
  if (length (m_code_pages st) =? 0)%nat then
    bytecode_push CODE_SEGMENT_START ;;;
    pushNumber 1 None ;;;
    bytecode_push HALT
  else ret tt.

(** [picosha2::k_digest_size] *)
Definition k_digest_size : nat := 32.

Definition header_size : nat := 18.

(** The last three statements of [compile()]: the digest goes into a vector
    of [k_digest_size] bytes, which is inserted after the header. *)
Definition insertHash : M unit :=
  st <- get ;;
  let hash := take k_digest_size (hash256 (drop header_size (m_bytecode st)) ++
                                   repeat 0 k_digest_size) in
  modify (set_bytecode (take header_size (m_bytecode st) ++ hash ++
                        drop header_size (m_bytecode st))).

(** [Compiler::compile()], on the AST [m_optimizer.ast()] and the clock's
    [timestamp]. *)
Definition compile (ast : Node) (timestamp : Z) : M unit :=
  pushHeadersPhase1 timestamp ;;;
  modify (fun st => set_code_pages (m_code_pages st ++ [[]]) st) ;;;
  _compile ast 0 ;;;
  checkForUndefinedSymbol ;;;
  pushHeadersPhase2 ;;;
  pushCodeSegments ;;;
  insertHash.

End Compiler.

(** * The virtual machine: frames and scopes (include/Ark/VM/VM.hpp) *)

Module VM_t.

(** What a member function of the VM gives: a value, or undefined behaviour
    of the C++ code (popping or reading an empty vector, an index out of
    range), or a [VMError] thrown. *)
Inductive Outcome (A : Type) :=
| Done (a : A)
| Undefined_behaviour
| VMError (message : string).
Arguments Done {A} a.
Arguments Undefined_behaviour {A}.
Arguments VMError {A} message.

(** Modelled from the spec: the frame of include/Ark/VM/Frame.hpp, which is
    not among the sources. "Execution record holding: return page id, return
    instruction offset, stack base, and a scope_count_to_delete counter".
    VM.hpp reads the counter with [scopeCountToDelete()] and clears it with
    [resetScopeCountToDelete()]. *)
Record Frame := mkFrame {
  callerPageAddr : Z;
  callerAddr : Z;
  stackBase : nat;
  scopeCountToDelete : Z
}.

Definition resetScopeCountToDelete (f : Frame) : Frame :=
  mkFrame (callerPageAddr f) (callerAddr f) (stackBase f) 0.

Section VM.

(** include/Ark/VM/Value.hpp is not among the sources: the type of values is
    a parameter, with the equality [operator==] decides, and [undefined] is
    [internal::FFI::undefined]. *)
Context {Value : Type} `{EqDecision Value}.
Variable undefined : Value.

(** [Scope_t] is a shared vector of values, indexed by symbol id. *)
Local Abbreviation Scope_t := (list Value).

(** The members of the VM that the functions below use; a vector's back is
    the end of the list. *)
Record VM := mkVM {
  m_ip : Z;
  m_pp : Z;
  m_last_sym_loaded : Z;
  m_stack : list Value;
  m_frames : list Frame;
  m_locals : list Scope_t
}.

Definition set_frames (v : list Frame) (vm : VM) : VM :=
  mkVM (m_ip vm) (m_pp vm) (m_last_sym_loaded vm) (m_stack vm) v (m_locals vm).
Definition set_locals (v : list Scope_t) (vm : VM) : VM :=
  mkVM (m_ip vm) (m_pp vm) (m_last_sym_loaded vm) (m_stack vm) (m_frames vm) v.

(** [v.pop_back()], undefined on an empty vector. *)
Definition pop_back {A} (v : list A) : Outcome (list A) :=
  match v with
  | [] => Undefined_behaviour
  | _ => Done (removelast v)
  end.

(** [while (del_counter != 0) { m_locals.pop_back(); del_counter--; }] *)
Fixpoint pop_scopes (del_counter : nat) (locals : list Scope_t) : Outcome (list Scope_t) :=
  match del_counter with
  | O => Done locals
  | S del_counter' =>
      match pop_back locals with
      | Done locals' => pop_scopes del_counter' locals'
      | Undefined_behaviour => Undefined_behaviour
      | VMError m => VMError m
      end
  end.

(** [m_frames.back().resetScopeCountToDelete()] *)
Definition reset_back (frames : list Frame) : list Frame :=
  match last frames with
  | Some f => removelast frames ++ [resetScopeCountToDelete f]
  | None => frames
  end.

Definition returnFromFuncCall (vm : VM) : Outcome VM :=
  (* m_frames.pop_back(); *)
  match pop_back (m_frames vm) with
  | Done frames =>
      (* uint8_t del_counter = m_frames.back().scopeCountToDelete(); *)
      match last frames with
      | Some back =>
          let del_counter := u8 (scopeCountToDelete back) in
          (* m_locals.pop_back(); *)
          match pop_back (m_locals vm) with
          | Done locals =>
              match pop_scopes (Z.to_nat del_counter) locals with
              | Done locals' =>
                  Done (set_locals locals' (set_frames (reset_back frames) vm))
              | Undefined_behaviour => Undefined_behaviour
              | VMError m => VMError m
              end
          | Undefined_behaviour => Undefined_behaviour
          | VMError m => VMError m
          end
      | None => Undefined_behaviour
      end
  | Undefined_behaviour => Undefined_behaviour
  | VMError m => VMError m
  end.

(** The loop of [findNearestVariable] over [m_locals.rbegin() .. rend()]:
    [n] scopes are still to visit, the next one is [m_locals[n - 1]].  The
    result is the index of the scope whose slot [id] is returned, [None] for
    [nullptr]. *)
Fixpoint findNearestVariable_from (locals : list Scope_t) (id : nat) (n : nat)
    : Outcome (option nat) :=
  match n with
  | O => Done None
  | S n' =>
      match locals !! n' with
      | None => Undefined_behaviour
      | Some scope =>
          match scope !! id with
          | None => Undefined_behaviour
          | Some v =>
              if decide (v <> undefined) then Done (Some n')
              else findNearestVariable_from locals id n'
          end
      end
  end.

(** [findNearestVariable(id)]: [Done (Some i)] stands for the pointer
    to the slot [id] of the scope [m_locals[i]]. *)
Definition findNearestVariable (id : nat) (vm : VM) : Outcome (option nat) :=
  findNearestVariable_from (m_locals vm) id (length (m_locals vm)).

(** The value a pointer returned by [findNearestVariable] points to. *)
Definition slot (vm : VM) (i id : nat) : option Value :=
  scope ← m_locals vm !! i; scope !! id.

(** Modelled from the spec: [loadSymbol] is defined in VM.inl, which is not
    among the sources. "LOAD_SYMBOL id: look up the nearest scope whose slot
    id is not Undefined; push that value. Remember id in last_sym_loaded to
    support bound-method-style calls. Fail if not found." *)
Definition loadSymbol (id : nat) (vm : VM) : Outcome VM :=
  match findNearestVariable id vm with
  | Done (Some i) =>
      match slot vm i id with
      | Some v =>
          Done (mkVM (m_ip vm) (m_pp vm) (Z.of_nat id) (m_stack vm ++ [v])
                  (m_frames vm) (m_locals vm))
      | None => Undefined_behaviour
      end
  | Done None => VMError "couldn't find symbol to load"
  | Undefined_behaviour => Undefined_behaviour
  | VMError m => VMError m
  end.

End VM.

End VM_t.

(** * A sample environment

    The tables and constants the sources do not contain, filled in so that
    the model can be run: the instruction values, the operators and some
    builtins in the style of ArkScript 3.0, the names of the specific
    forms, and stand-ins for the library functions. The theorems below hold
    for every such environment. *)

Module Sample.

Definition isa : Instruction := {|
  HALT := 9;
  SYM_TABLE_START := 1;
  VAL_TABLE_START := 2;
  CODE_SEGMENT_START := 3;
  NUMBER_TYPE := 1;
  STRING_TYPE := 2;
  FUNC_TYPE := 3;
  LOAD_SYMBOL := 1;
  LOAD_CONST := 2;
  POP_JUMP_IF_TRUE := 3;
  STORE := 4;
  LET := 5;
  POP_JUMP_IF_FALSE := 6;
  JUMP := 7;
  RET := 8;
  CALL := 10;
  CAPTURE := 11;
  BUILTIN := 12;
  MUT := 13;
  DEL := 14;
  GET_FIELD := 16;
  PLUGIN := 17;
  LIST := 18;
  APPEND := 19;
  CONCAT := 20;
  APPEND_IN_PLACE := 21;
  CONCAT_IN_PLACE := 22;
  FIRST_OPERATOR := 32;
  ADD := 32;
  SUB := 33;
  MUL := 34;
  DIV := 35;
  MOD := 53;
  AND_ := 51;
  OR_ := 52
|}.

Definition operators : list string :=
  ["+"; "-"; "*"; "/"; ">"; "<"; "<="; ">="; "!="; "="; "len"; "empty?"; "tail";
   "head"; "nil?"; "assert"; "toNumber"; "toString"; "@"; "and"; "or"; "mod";
   "type"; "hasField"; "not"].

Definition builtins : list string := ["false"; "true"; "nil"; "print"].

Definition isSpecific (name : string) : option Z :=
  if String.eqb name "list" then Some 18
  else if String.eqb name "append" then Some 19
  else if String.eqb name "concat" then Some 20
  else if String.eqb name "append!" then Some 21
  else if String.eqb name "concat!" then Some 22
  else if String.eqb name "pop" then Some 23
  else if String.eqb name "pop!" then Some 24
  else None.

(** A stand-in for the stem of a path: the text before the first dot. *)
Definition stem (path : string) : string := splitString_first path ".".

(** [n] as six decimal digits. *)
Definition six_digits (n : Z) : string :=
  let digits := pretty n in
  String.concat "" (repeat "0" (6 - String.length digits)%nat) +:+ digits.

(** A stand-in for [std::to_string(double)], which prints as [%f] does: the
    value rounded to six decimals, to nearest and ties to even. *)
Definition to_string (n : float) : string :=
  match Prim2SF n with
  | S754_zero s => (if s then "-" else "") +:+ "0.000000"
  | S754_infinity s => (if s then "-" else "") +:+ "inf"
  | S754_nan => "nan"
  | S754_finite s m e =>
      let q := Z.pos m * 1000000 in
      let scaled :=
        if 0 <=? e then q * 2 ^ e
        else
          let d := 2 ^ (- e) in
          let r := q mod d in
          if (d <? 2 * r) || ((d =? 2 * r) && Z.odd (q / d)) then q / d + 1 else q / d in
      (if s then "-" else "") +:+ pretty (scaled / 1000000) +:+ "." +:+
      six_digits (scaled mod 1000000)
  end.

(** A stand-in for SHA-256: any function to 32 bytes. *)
Definition hash256 (data : list Z) : list Z := take 32 (data ++ repeat 0 32%nat).

Definition _compile : Node -> Z -> M unit :=
  @_compile isa operators builtins isSpecific.

Definition compile : Node -> Z -> M unit :=
  @compile isa operators builtins isSpecific stem to_string hash256 3 0 13.

Definition at_ : Position := {| line := 1; col := 1 |}.
Definition sym (name : string) : Node := Symbol name at_.
Definition num (n : float) : Node := Number n at_.
Definition kw (k : Keyword.t) : Node := Keyword k at_.
Definition form (l : list Node) : Node := List l at_.

(** Scenario 1 of the specification: [x] is 6, [y] is 7, and the program
    is their product. *)
Definition product : Node :=
  form [kw Keyword.Begin;
        form [kw Keyword.Let; sym "x"; num 6];
        form [kw Keyword.Let; sym "y"; num 7];
        form [sym "*"; sym "x"; sym "y"]].

(** [(begin (let a 1) (fun () b))] *)
Definition unbound_b : Node :=
  form [kw Keyword.Begin;
        form [kw Keyword.Let; sym "a"; num 1];
        form [kw Keyword.Fun; form []; sym "b"]].

(** [(if c t e)], [(not a)], [(append xs 4)] and [(+ a b c.f)] *)
Definition if_c_t_e : Node := form [kw Keyword.If; sym "c"; sym "t"; sym "e"].
Definition not_a : Node := form [sym "not"; sym "a"].
Definition append_xs_4 : Node := form [sym "append"; sym "xs"; num 4].
Definition sum_with_field : Node :=
  form [sym "+"; sym "a"; sym "b"; sym "c"; GetField "f" at_].

(** A compiler with the empty page 0 and nothing else. *)
Definition one_page : Compiler := set_code_pages [[]] Compiler_new.

(** The compiler after [compile()] of [product] at the time 1600000000. *)
Definition product_compiled : Compiler := snd (compile product 1600000000 Compiler_new).

(** The compiler after [compileIf] of [if_c_t_e] onto the empty page 0. *)
Definition if_compiled : Compiler :=
  snd (@compileIf isa if_c_t_e (map _compile (constList if_c_t_e)) 0 one_page).

End Sample.

(** * Reasoning about computations *)

Lemma bind_Ok {A B} (m : M A) (f : A -> M B) st b st' :
  bind m f st = (Ok b, st') <->
  exists a st1, m st = (Ok a, st1) /\ f a st1 = (Ok b, st').
Proof.
  unfold bind. split.
  - destruct (m st) as [[a|e] st1] eqn:E; [eauto | discriminate].
  - intros (a & st1 & -> & H). exact H.
Qed.

Lemma bind_Err {A B} (m : M A) (f : A -> M B) st e st' :
  bind m f st = (Err e, st') <->
  m st = (Err e, st') \/ exists a st1, m st = (Ok a, st1) /\ f a st1 = (Err e, st').
Proof.
  unfold bind. split.
  - destruct (m st) as [[a|e'] st1] eqn:E; [eauto | left; congruence].
  - intros [-> | (a & st1 & -> & H)]; [reflexivity | exact H].
Qed.

Lemma bind_run {A B} (m : M A) (f : A -> M B) st a st1 :
  m st = (Ok a, st1) -> bind m f st = f a st1.
Proof. unfold bind. intros ->. reflexivity. Qed.

Lemma for_each_app {A} (f : A -> M unit) l1 l2 st :
  for_each f (l1 ++ l2) st = (for_each f l1 ;;; for_each f l2) st.
Proof.
  revert st. induction l1 as [|a l1 IH]; intros st; simpl.
  - reflexivity.
  - unfold bind. destruct (f a st) as [[[]|e] st1]; [| reflexivity].
    rewrite IH. reflexivity.
Qed.

(** Inversion of a successful run, one step at a time. *)
Ltac inv_step :=
  match goal with
  | H : bind _ _ _ = (Ok _, _) |- _ =>
      apply bind_Ok in H; destruct H as (? & ? & ? & H)
  | H : ret _ _ = (Ok _, _) |- _ => unfold ret in H; simplify_eq
  | H : get _ = (Ok _, _) |- _ => unfold get in H; simplify_eq
  | H : modify _ _ = (Ok _, _) |- _ => unfold modify in H; simplify_eq
  | H : throw _ _ = (Ok _, _) |- _ => discriminate H
  | H : throwCompilerError _ _ _ = (Ok _, _) |- _ => discriminate H
  end.
Ltac inv_M := repeat inv_step.

(** ** Pages under [set_page] *)

Lemma page_set_page_same p pg pg0 st :
  page p st = Some pg0 -> page p (set_page p pg st) = Some pg.
Proof.
  unfold page, set_page. destruct (0 <=? p); simpl; intros H;
    apply list_lookup_insert_eq; eapply lookup_lt_Some; exact H.
Qed.

Lemma page_set_page_other p q pg st :
  q <> p -> page q (set_page p pg st) = page q st.
Proof.
  intros Hne. unfold page, set_page.
  destruct (0 <=? p) eqn:Ep, (0 <=? q) eqn:Eq; simpl; try reflexivity;
    apply list_lookup_insert_ne; lia.
Qed.

Lemma temp_length_set_page p pg st :
  length (m_temp_pages (set_page p pg st)) = length (m_temp_pages st).
Proof. unfold set_page. destruct (0 <=? p); simpl; [reflexivity | apply length_insert]. Qed.

Lemma bytecode_set_page p pg st : m_bytecode (set_page p pg st) = m_bytecode st.
Proof. unfold set_page. destruct (0 <=? p); reflexivity. Qed.

Lemma symbols_set_page p pg st : m_symbols (set_page p pg st) = m_symbols st.
Proof. unfold set_page. destruct (0 <=? p); reflexivity. Qed.

Lemma defined_set_page p pg st :
  m_defined_symbols (set_page p pg st) = m_defined_symbols st.
Proof. unfold set_page. destruct (0 <=? p); reflexivity. Qed.

Lemma plugins_set_page p pg st : m_plugins (set_page p pg st) = m_plugins st.
Proof. unfold set_page. destruct (0 <=? p); reflexivity. Qed.

(** ** Pages that only grow

    [grow G st st']: from [st] to [st'] the temp stack keeps its height, the
    container is untouched, every page of [st] is still there, the pages in
    [G] may have got bytes at their end, and the others are as they were. *)
Record grow (G : Z -> Prop) (st st' : Compiler) : Prop := {
  grow_temp : length (m_temp_pages st') = length (m_temp_pages st);
  grow_bytecode : m_bytecode st' = m_bytecode st;
  grow_page : forall q pg, page q st = Some pg ->
    exists code, page q st' = Some (pg ++ code) /\ (~ G q -> code = [])
}.

Definition Grow (G : Z -> Prop) {A} (m : M A) : Prop :=
  forall st a st', m st = (Ok a, st') -> grow G st st'.

(** The page [p] alone grows. *)
Abbreviation ext p := (grow (eq p)).
Abbreviation Ext p := (Grow (eq p)).

Lemma grow_refl G st : grow G st st.
Proof.
  split; [reflexivity | reflexivity |].
  intros q pg H. exists []. rewrite app_nil_r. auto.
Qed.

Lemma grow_trans G st1 st2 st3 : grow G st1 st2 -> grow G st2 st3 -> grow G st1 st3.
Proof.
  intros [T1 B1 P1] [T2 B2 P2]. split; [congruence | congruence |].
  intros q pg H. destruct (P1 q pg H) as (c1 & H1 & N1).
  destruct (P2 q _ H1) as (c2 & H2 & N2).
  exists (c1 ++ c2). rewrite app_assoc. split; [exact H2 |].
  intros HG. rewrite (N1 HG), (N2 HG). reflexivity.
Qed.

Lemma grow_mono (G G' : Z -> Prop) st st' :
  (forall q, G q -> G' q) -> grow G st st' -> grow G' st st'.
Proof.
  intros HG [T B P]. split; [exact T | exact B |].
  intros q pg H. destruct (P q pg H) as (c & Hc & N). exists c. split; [exact Hc |].
  intros HG'. apply N. intros Hq. apply HG', HG, Hq.
Qed.

Lemma grow_same_fields G st st' :
  m_code_pages st' = m_code_pages st -> m_temp_pages st' = m_temp_pages st ->
  m_bytecode st' = m_bytecode st -> grow G st st'.
Proof.
  intros HC HT HB. split; [congruence | exact HB |].
  intros q pg H. exists []. rewrite app_nil_r. split; [| auto].
  unfold page in *. rewrite HC, HT. exact H.
Qed.

Lemma ext_page (p : Z) st st' pg :
  ext p st st' -> page p st = Some pg -> exists code, page p st' = Some (pg ++ code).
Proof. intros [_ _ P] H. destruct (P p pg H) as (c & Hc & _). eauto. Qed.

Lemma grow_other (G : Z -> Prop) st st' q pg :
  grow G st st' -> ~ G q -> page q st = Some pg -> page q st' = Some pg.
Proof.
  intros [_ _ P] HG H. destruct (P q pg H) as (c & Hc & N).
  rewrite (N HG), app_nil_r in Hc. exact Hc.
Qed.

Lemma Grow_mono (G G' : Z -> Prop) {A} (m : M A) :
  (forall q, G q -> G' q) -> Grow G m -> Grow G' m.
Proof. intros HG H st a st' E. eapply grow_mono; eauto. Qed.

Lemma Grow_ret G {A} (a : A) : Grow G (ret a).
Proof. intros st b st' E. inv_M. apply grow_refl. Qed.

Lemma Grow_throw G {A} e : Grow G (@throw A e).
Proof. intros st b st' E. discriminate. Qed.

Lemma Grow_bind G {A B} (m : M A) (f : A -> M B) :
  Grow G m -> (forall a, Grow G (f a)) -> Grow G (bind m f).
Proof.
  intros Hm Hf st b st' E. inv_M. eapply grow_trans; [eapply Hm | eapply Hf]; eauto.
Qed.

Lemma Grow_get_bind G {B} (f : Compiler -> M B) :
  (forall st, Grow G (f st)) -> Grow G (bind get f).
Proof. intros Hf. apply Grow_bind; [| exact Hf]. intros st a st' E. inv_M. apply grow_refl. Qed.

Lemma Grow_for_each G {A} (f : A -> M unit) l :
  (forall a, a ∈ l -> Grow G (f a)) -> Grow G (for_each f l).
Proof.
  induction l as [|a l IH]; intros Hf; simpl.
  - apply Grow_ret.
  - apply Grow_bind; [apply Hf; left | intros _; apply IH; intros b Hb; apply Hf; right; exact Hb].
Qed.

Lemma Grow_if G {A} (b : bool) (m1 m2 : M A) :
  Grow G m1 -> Grow G m2 -> Grow G (if b then m1 else m2).
Proof. destruct b; auto. Qed.

Lemma Grow_modify_tables G (f : Compiler -> Compiler) :
  (forall st, m_code_pages (f st) = m_code_pages st) ->
  (forall st, m_temp_pages (f st) = m_temp_pages st) ->
  (forall st, m_bytecode (f st) = m_bytecode st) ->
  Grow G (modify f).
Proof. intros HC HT HB st a st' E. inv_M. apply grow_same_fields; auto. Qed.

Lemma Grow_page_get G p : Grow G (page_get p).
Proof.
  intros st a st' E. unfold page_get in E.
  destruct (page p st); simplify_eq. apply grow_refl.
Qed.

Lemma Grow_page_size G p : Grow G (page_size p).
Proof. apply Grow_bind; [apply Grow_page_get | intros; apply Grow_ret]. Qed.

Lemma page_push_run p b st pg :
  page p st = Some pg -> page_push p b st = (Ok tt, set_page p (pg ++ [b]) st).
Proof. intros H. unfold page_push, bind, page_get. rewrite H. reflexivity. Qed.

Lemma page_push_Ok p b st a st' :
  page_push p b st = (Ok a, st') ->
  exists pg, page p st = Some pg /\ st' = set_page p (pg ++ [b]) st.
Proof.
  unfold page_push, bind, page_get. destruct (page p st) as [pg|]; [| discriminate].
  unfold modify. intros E. simplify_eq. eauto.
Qed.

Lemma ext_set_page_app p pg code st :
  page p st = Some pg -> ext p st (set_page p (pg ++ code) st).
Proof.
  intros H. split.
  - apply temp_length_set_page.
  - apply bytecode_set_page.
  - intros q pg' Hq. destruct (decide (q = p)) as [->|Hne].
    + exists code. rewrite (page_set_page_same _ _ _ _ H). split; [congruence |].
      intros N. contradiction N. reflexivity.
    + exists []. rewrite app_nil_r, page_set_page_other by exact Hne. auto.
Qed.

Lemma Ext_page_push p b : Ext p (page_push p b).
Proof.
  intros st a st' E. apply page_push_Ok in E as (pg & H & ->).
  apply ext_set_page_app, H.
Qed.

Lemma Ext_pushNumber p n : Ext p (pushNumber n (Some p)).
Proof. apply Grow_bind; [apply Ext_page_push | intros _; apply Ext_page_push]. Qed.

Lemma Grow_page_push (G : Z -> Prop) p b : G p -> Grow G (page_push p b).
Proof. intros HG. eapply Grow_mono; [| apply Ext_page_push]. intros q <-. exact HG. Qed.

Lemma Grow_pushNumber (G : Z -> Prop) p n : G p -> Grow G (pushNumber n (Some p)).
Proof. intros HG. eapply Grow_mono; [| apply Ext_pushNumber]. intros q <-. exact HG. Qed.

Lemma Grow_compileChild (G : Z -> Prop) (acts : children_t) i p :
  G p -> Forall (fun a => forall p, Ext p (a p)) acts -> Grow G (compileChild acts i p).
Proof.
  intros HG HA. unfold compileChild. destruct (acts !! i) as [a|] eqn:E.
  - eapply Grow_mono; [| eapply (proj1 (Forall_lookup _ _) HA); exact E].
    intros q <-. exact HG.
  - apply Grow_throw.
Qed.

(** The children of a node, compiled, each only extend the page they are
    given. *)
Definition ChildrenExt (acts : children_t) : Prop :=
  Forall (fun a => forall p, Ext p (a p)) acts.

Section Grow_compiler.

Context {isa : Instruction}.
Variable operators : list string.
Variable builtins : list string.
Variable isSpecific : string -> option Z.

Lemma Grow_addSymbol G sym : Grow G (addSymbol sym).
Proof.
  unfold addSymbol. apply Grow_get_bind; intros st. apply Grow_bind.
  - destruct (find_index _ _); [apply Grow_ret |].
    apply Grow_bind; [| intros; apply Grow_ret].
    apply Grow_modify_tables; reflexivity.
  - intros d. apply Grow_if; [apply Grow_ret | apply Grow_throw].
Qed.

Lemma Grow_addValueElem G v current : Grow G (addValueElem v current).
Proof.
  unfold addValueElem. apply Grow_get_bind; intros st. apply Grow_bind.
  - destruct (find_index _ _); [apply Grow_ret |].
    apply Grow_bind; [| intros; apply Grow_ret].
    apply Grow_modify_tables; reflexivity.
  - intros d. apply Grow_if; [apply Grow_ret | apply Grow_throw].
Qed.

Lemma Grow_addValue G x : Grow G (addValue x).
Proof.
  unfold addValue. destruct (CValue_of_node x); [apply Grow_addValueElem | apply Grow_throw].
Qed.

Lemma Grow_addDefinedSymbol G sym : Grow G (addDefinedSymbol sym).
Proof.
  unfold addDefinedSymbol. apply Grow_get_bind; intros st.
  apply Grow_if; [apply Grow_ret | apply Grow_modify_tables; reflexivity].
Qed.

Lemma Grow_child G x i : Grow G (child x i).
Proof. unfold child. destruct (_ !! _); [apply Grow_ret | apply Grow_throw]. Qed.

Lemma Grow_compileSymbol (G : Z -> Prop) x p :
  G p -> Grow G (compileSymbol operators builtins x p).
Proof.
  intros HG. unfold compileSymbol.
  destruct (isBuiltin _ _).
  { apply Grow_bind; [apply Grow_page_push, HG | intros; apply Grow_pushNumber, HG]. }
  destruct (isOperator _ _); [apply Grow_page_push, HG |].
  apply Grow_bind; [apply Grow_addSymbol | intros i].
  apply Grow_bind; [apply Grow_page_push, HG | intros; apply Grow_pushNumber, HG].
Qed.

Lemma Grow_skipGetFields G fuel l j : Grow G (skipGetFields fuel l j).
Proof.
  revert j. induction fuel as [|fuel IH]; intros j; simpl; [apply Grow_throw |].
  destruct (l !! _); [| apply Grow_throw].
  apply Grow_if; [apply IH | apply Grow_ret].
Qed.

Lemma Grow_compileSpecificArgs (G : Z -> Prop) fuel l acts i p :
  G p -> ChildrenExt acts -> Grow G (compileSpecificArgs fuel l acts i p).
Proof.
  intros HG HA. revert i. induction fuel as [|fuel IH]; intros i; simpl.
  - apply Grow_if; [apply Grow_throw | apply Grow_ret].
  - apply Grow_if; [| apply Grow_ret].
    apply Grow_bind; [apply Grow_skipGetFields | intros j].
    apply Grow_bind; [apply Grow_for_each; intros; apply Grow_compileChild; auto | intros _].
    apply Grow_bind; [apply Grow_compileChild; auto | intros _; apply IH].
Qed.

Lemma Grow_pushSpecificInstArgc (G : Z -> Prop) inst previous p :
  G p -> Grow G (pushSpecificInstArgc inst previous p).
Proof.
  intros HG. unfold pushSpecificInstArgc.
  repeat apply Grow_if; try apply Grow_pushNumber; try apply Grow_ret; exact HG.
Qed.

Lemma Grow_compileSpecific (G : Z -> Prop) c0 x acts p :
  G p -> ChildrenExt acts -> Grow G (compileSpecific isSpecific c0 x acts p).
Proof.
  intros HG HA. unfold compileSpecific. destruct (isSpecific _); [| apply Grow_throw].
  apply Grow_if; [apply Grow_throw |].
  apply Grow_bind; [apply Grow_compileSpecificArgs; auto | intros _].
  apply Grow_bind; [apply Grow_page_push, HG | intros _].
  apply Grow_pushSpecificInstArgc, HG.
Qed.

Lemma Grow_putValue (G : Z -> Prop) x acts p :
  G p -> ChildrenExt acts -> Grow G (putValue x acts p).
Proof. intros HG HA. apply Grow_for_each; intros; apply Grow_compileChild; auto. Qed.

Lemma Grow_compileLetMut (G : Z -> Prop) n x acts p :
  G p -> ChildrenExt acts -> Grow G (compileLetMut n x acts p).
Proof.
  intros HG HA. unfold compileLetMut.
  apply Grow_bind; [apply Grow_child | intros x1].
  apply Grow_bind; [apply Grow_addSymbol | intros i].
  apply Grow_bind; [apply Grow_addDefinedSymbol | intros _].
  apply Grow_bind; [apply Grow_putValue; auto | intros _].
  apply Grow_bind; [apply Grow_page_push, HG | intros _; apply Grow_pushNumber, HG].
Qed.

Lemma Grow_compileSet (G : Z -> Prop) x acts p :
  G p -> ChildrenExt acts -> Grow G (compileSet x acts p).
Proof.
  intros HG HA. unfold compileSet.
  apply Grow_bind; [apply Grow_child | intros x1].
  apply Grow_bind; [apply Grow_addSymbol | intros i].
  apply Grow_bind; [apply Grow_putValue; auto | intros _].
  apply Grow_bind; [apply Grow_page_push, HG | intros _; apply Grow_pushNumber, HG].
Qed.

Lemma Grow_compilePluginImport (G : Z -> Prop) x acts p :
  G p -> Grow G (compilePluginImport x acts p).
Proof.
  intros HG. unfold compilePluginImport.
  apply Grow_bind; [apply Grow_child | intros x1].
  apply Grow_bind; [apply Grow_addValue | intros i].
  apply Grow_bind; [apply Grow_modify_tables; reflexivity | intros _].
  apply Grow_bind; [apply Grow_page_push, HG | intros _; apply Grow_pushNumber, HG].
Qed.

Lemma Grow_compileDel (G : Z -> Prop) x acts p :
  G p -> Grow G (compileDel x acts p).
Proof.
  intros HG. unfold compileDel.
  apply Grow_bind; [apply Grow_child | intros x1].
  apply Grow_bind; [apply Grow_addSymbol | intros i].
  apply Grow_bind; [apply Grow_page_push, HG | intros _; apply Grow_pushNumber, HG].
Qed.

End Grow_compiler.

(** ** Everything but one page

    [others p st st']: from [st] to [st'] nothing but the page [p] (and the
    tables) has changed. Back-patching a jump keeps this, though it does not
    only add bytes at the end of [p]. *)
Record others (p : Z) (st st' : Compiler) : Prop := {
  others_temp : length (m_temp_pages st') = length (m_temp_pages st);
  others_bytecode : m_bytecode st' = m_bytecode st;
  others_page : forall q pg, q <> p -> page q st = Some pg -> page q st' = Some pg
}.

Definition Others (p : Z) {A} (m : M A) : Prop :=
  forall st a st', m st = (Ok a, st') -> others p st st'.

Lemma others_refl p st : others p st st.
Proof. split; auto. Qed.

Lemma others_trans p st1 st2 st3 : others p st1 st2 -> others p st2 st3 -> others p st1 st3.
Proof. intros [T1 B1 P1] [T2 B2 P2]. split; [congruence | congruence | eauto]. Qed.

Lemma ext_others p st st' : ext p st st' -> others p st st'.
Proof.
  intros H. split; [apply H | apply H |].
  intros q pg Hne Hq. eapply grow_other; eauto.
Qed.

Lemma others_ext p st st' :
  others p st st' ->
  (forall pg, page p st = Some pg -> exists code, page p st' = Some (pg ++ code)) ->
  ext p st st'.
Proof.
  intros [T B P] Hp. split; [exact T | exact B |].
  intros q pg Hq. destruct (decide (q = p)) as [->|Hne].
  - destruct (Hp pg Hq) as (c & Hc). exists c. split; [exact Hc |].
    intros N. contradiction N. reflexivity.
  - exists []. rewrite app_nil_r. split; [eauto | auto].
Qed.

Lemma others_set_page p pg st : others p st (set_page p pg st).
Proof.
  split; [apply temp_length_set_page | apply bytecode_set_page |].
  intros q pg' Hne Hq. rewrite page_set_page_other; auto.
Qed.

Lemma Others_Ext p {A} (m : M A) : Ext p m -> Others p m.
Proof. intros H st a st' E. apply ext_others. eapply H, E. Qed.

Lemma Others_bind p {A B} (m : M A) (f : A -> M B) :
  Others p m -> (forall a, Others p (f a)) -> Others p (bind m f).
Proof.
  intros Hm Hf st b st' E. inv_M. eapply others_trans; [eapply Hm | eapply Hf]; eauto.
Qed.

Lemma page_get_Ok p st pg st' :
  page_get p st = (Ok pg, st') -> page p st = Some pg /\ st' = st.
Proof. unfold page_get. destruct (page p st); intros E; simplify_eq. auto. Qed.

Lemma Others_page_store p pos v : Others p (page_store p pos v).
Proof.
  intros st a st' E. unfold page_store in E.
  apply bind_Ok in E as (pg & st1 & E1 & E). apply page_get_Ok in E1 as [_ ->].
  destruct (_ && _); inv_M. apply others_set_page.
Qed.

(** ** Running the page primitives on a page that is there *)

Lemma set_page_set_page p a b st : set_page p b (set_page p a st) = set_page p b st.
Proof.
  unfold set_page. destruct (0 <=? p); unfold set_code_pages, set_temp_pages; simpl;
    rewrite list_insert_insert_eq; reflexivity.
Qed.

Lemma page_size_run p st pg :
  page p st = Some pg -> page_size p st = (Ok (Z.of_nat (length pg)), st).
Proof. intros H. unfold page_size, bind, page_get. rewrite H. reflexivity. Qed.

Lemma pushNumber_run p n st pg :
  page p st = Some pg ->
  pushNumber n (Some p) st = (Ok tt, set_page p (pg ++ be16 n) st).
Proof.
  intros H. unfold pushNumber.
  rewrite (bind_run _ _ _ _ _ (page_push_run _ _ _ _ H)).
  rewrite (page_push_run _ _ _ _ (page_set_page_same _ _ _ _ H)).
  rewrite set_page_set_page, <- app_assoc. reflexivity.
Qed.

Lemma page_store_run p pos v st pg :
  page p st = Some pg -> (pos < length pg)%nat ->
  page_store p (Z.of_nat pos) v st = (Ok tt, set_page p (<[pos := v]> pg) st).
Proof.
  intros H Hlt. unfold page_store, bind, page_get. rewrite H.
  replace (0 <=? Z.of_nat pos) with true by (symmetry; apply Z.leb_le; lia).
  replace (Z.of_nat pos <? Z.of_nat (length pg)) with true by (symmetry; apply Z.ltb_lt; lia).
  simpl. rewrite Nat2Z.id. reflexivity.
Qed.

(** Overwriting the two placeholder bytes that follow [pre]. *)
Lemma patch_placeholder (pre post : list Z) a b x y :
  <[S (length pre) := y]> (<[length pre := x]> (pre ++ a :: b :: post)) =
  pre ++ x :: y :: post.
Proof.
  rewrite (insert_app_r_alt pre _ (length pre)) by lia.
  rewrite Nat.sub_diag. simpl.
  rewrite (insert_app_r_alt pre _ (S (length pre))) by lia.
  replace (S (length pre) - length pre)%nat with 1%nat by lia. reflexivity.
Qed.

(** Back-patching: the two [page_store]s that overwrite a placeholder with
    the current size of the page. *)
Lemma backpatch_run p st pre post a b {B} (k : M B) :
  page p st = Some (pre ++ a :: b :: post) ->
  let target := u16 (Z.of_nat (length (pre ++ a :: b :: post))) in
  (size <- page_size p ;;
   page_store p (Z.of_nat (length pre)) (hi_byte (u16 size)) ;;;
   size <- page_size p ;;
   page_store p (Z.of_nat (length pre) + 1) (lo_byte (u16 size)) ;;; k) st =
  k (set_page p (pre ++ be16 target ++ post) st).
Proof.
  intros H target.
  rewrite (bind_run _ _ _ _ _ (page_size_run _ _ _ H)).
  rewrite (bind_run _ _ _ _ _ (page_store_run _ (length pre) _ _ _ H
             ltac:(rewrite length_app; simpl; lia))).
  pose proof (page_set_page_same p (<[length pre := hi_byte target]> (pre ++ a :: b :: post)) _ _ H) as H1.
  rewrite (bind_run _ _ _ _ _ (page_size_run _ _ _ H1)).
  rewrite length_insert.
  replace (Z.of_nat (length pre) + 1) with (Z.of_nat (S (length pre))) by lia.
  rewrite (bind_run _ _ _ _ _ (page_store_run _ (S (length pre)) _ _ _ H1
             ltac:(rewrite length_insert, length_app; simpl; lia))).
  rewrite set_page_set_page. fold target. rewrite patch_placeholder. reflexivity.
Qed.

Ltac app_eq :=
  unfold be16; repeat rewrite <- app_assoc; simpl; repeat rewrite <- app_assoc; simpl;
  reflexivity.

Section Jumps.

Context {isa : Instruction}.

Lemma compileChild_ext (acts : children_t) i p st st' pg :
  ChildrenExt acts -> compileChild acts i p st = (Ok tt, st') -> page p st = Some pg ->
  exists code, page p st' = Some (pg ++ code).
Proof.
  intros HA E Hp. eapply ext_page; [| exact Hp].
  eapply (Grow_compileChild (eq p)); eauto.
Qed.

Lemma Others_compileChild (acts : children_t) i p :
  ChildrenExt acts -> Others p (compileChild acts i p).
Proof. intros HA. apply Others_Ext, Grow_compileChild; auto. Qed.

Lemma backpatch_last p st pre post a b :
  page p st = Some (pre ++ a :: b :: post) ->
  let target := u16 (Z.of_nat (length (pre ++ a :: b :: post))) in
  (size <- page_size p ;;
   page_store p (Z.of_nat (length pre)) (hi_byte (u16 size)) ;;;
   size <- page_size p ;;
   page_store p (Z.of_nat (length pre) + 1) (lo_byte (u16 size))) st =
  (Ok tt, set_page p (pre ++ be16 target ++ post) st).
Proof.
  intros H target.
  rewrite (bind_run _ _ _ _ _ (page_size_run _ _ _ H)).
  rewrite (bind_run _ _ _ _ _ (page_store_run _ (length pre) _ _ _ H
             ltac:(rewrite length_app; simpl; lia))).
  pose proof (page_set_page_same p (<[length pre := hi_byte target]> (pre ++ a :: b :: post)) _ _ H) as H1.
  rewrite (bind_run _ _ _ _ _ (page_size_run _ _ _ H1)).
  rewrite length_insert.
  replace (Z.of_nat (length pre) + 1) with (Z.of_nat (S (length pre))) by lia.
  rewrite (page_store_run _ (S (length pre)) _ _ _ H1
             ltac:(rewrite length_insert, length_app; simpl; lia)).
  rewrite set_page_set_page. fold target. rewrite patch_placeholder. reflexivity.
Qed.

(** The layout [compileIf] leaves on the page, with the states in which the
    three children are compiled. *)
Lemma compileIf_run x (acts : children_t) p st st' pg :
  ChildrenExt acts -> page p st = Some pg ->
  compileIf x acts p st = (Ok tt, st') ->
  exists st1 c1 st2 c2 st3 c3,
    compileChild acts 1 p st = (Ok tt, st1) /\ page p st1 = Some (pg ++ c1) /\
    let P1 := pg ++ c1 ++ [POP_JUMP_IF_TRUE; 0; 0] in
    (if Z.of_nat (length (constList x)) =? 4 then compileChild acts 3 p else ret tt)
      (set_page p P1 st1) = (Ok tt, st2) /\
    page p st2 = Some (P1 ++ c2) /\
    let A := Z.of_nat (length (P1 ++ c2 ++ [JUMP; 0; 0])) in
    let P2 := pg ++ c1 ++ POP_JUMP_IF_TRUE :: be16 (u16 A) ++ c2 ++ [JUMP; 0; 0] in
    compileChild acts 2 p (set_page p P2 st2) = (Ok tt, st3) /\
    page p st3 = Some (P2 ++ c3) /\
    let B := Z.of_nat (length (P2 ++ c3)) in
    st' = set_page p
            (pg ++ c1 ++ POP_JUMP_IF_TRUE :: be16 (u16 A) ++ c2 ++ JUMP :: be16 (u16 B) ++ c3)
            st3.
Proof.
  intros HA Hp H. unfold compileIf in H.
  apply bind_Ok in H as ([] & st1 & E1 & H).
  destruct (compileChild_ext _ _ _ _ _ _ HA E1 Hp) as (c1 & Hp1).
  rewrite (bind_run _ _ _ _ _ (page_push_run _ _ _ _ Hp1)) in H.
  pose proof (page_set_page_same p ((pg ++ c1) ++ [POP_JUMP_IF_TRUE]) _ _ Hp1) as Hp1'.
  rewrite (bind_run _ _ _ _ _ (page_size_run _ _ _ Hp1')) in H.
  rewrite (bind_run _ _ _ _ _ (pushNumber_run _ _ _ _ Hp1')) in H.
  rewrite set_page_set_page in H.
  set (P1 := pg ++ c1 ++ [POP_JUMP_IF_TRUE; 0; 0]).
  replace (((pg ++ c1) ++ [POP_JUMP_IF_TRUE]) ++ be16 0) with P1 in H
    by (subst P1; rewrite <- !app_assoc; reflexivity).
  pose proof (page_set_page_same p P1 _ _ Hp1) as HP1.
  apply bind_Ok in H as ([] & st2 & E2 & H).
  assert (exists c2, page p st2 = Some (P1 ++ c2)) as (c2 & Hp2).
  { destruct (_ =? 4).
    - eapply compileChild_ext; eauto.
    - inv_M. exists []. rewrite app_nil_r. exact HP1. }
  rewrite (bind_run _ _ _ _ _ (page_push_run _ _ _ _ Hp2)) in H.
  pose proof (page_set_page_same p ((P1 ++ c2) ++ [JUMP]) _ _ Hp2) as Hp2'.
  rewrite (bind_run _ _ _ _ _ (page_size_run _ _ _ Hp2')) in H.
  rewrite (bind_run _ _ _ _ _ (pushNumber_run _ _ _ _ Hp2')) in H.
  rewrite set_page_set_page in H.
  (* the first back-patch *)
  set (pre1 := (pg ++ c1) ++ [POP_JUMP_IF_TRUE]) in *.
  set (post1 := c2 ++ [JUMP; 0; 0]).
  assert (((P1 ++ c2) ++ [JUMP]) ++ be16 0 = pre1 ++ 0 :: 0 :: post1) as EQ1.
  { subst P1 pre1 post1. rewrite <- !app_assoc. reflexivity. }
  rewrite EQ1 in H.
  pose proof (page_set_page_same p (pre1 ++ 0 :: 0 :: post1) _ _ Hp2) as Hq.
  replace (Z.of_nat (length ((P1 ++ c2) ++ [JUMP]))) with (Z.of_nat (length pre1 + 2 + length c2 + 1)) in H
    by (subst P1 pre1; rewrite !length_app; simpl; lia).
  rewrite (backpatch_run p _ pre1 post1 0 0 _ Hq) in H.
  rewrite set_page_set_page in H.
  set (A := Z.of_nat (length (pre1 ++ 0 :: 0 :: post1))) in *.
  set (P2 := pre1 ++ be16 (u16 A) ++ post1) in *.
  pose proof (page_set_page_same p P2 _ _ Hp2) as HP2.
  apply bind_Ok in H as ([] & st3 & E3 & H).
  destruct (compileChild_ext _ _ _ _ _ _ HA E3 HP2) as (c3 & Hp3).
  (* the second back-patch *)
  set (pre2 := pre1 ++ be16 (u16 A) ++ c2 ++ [JUMP]).
  assert (P2 ++ c3 = pre2 ++ 0 :: 0 :: c3) as EQ2.
  { subst P2 pre2 post1. app_eq. }
  rewrite EQ2 in Hp3.
  replace (length pre1 + 2 + length c2 + 1)%nat with (length pre2) in H
    by (subst pre2; rewrite !length_app; simpl; lia).
  rewrite (backpatch_last p st3 pre2 c3 0 0 Hp3) in H.
  exists st1, c1, st2, c2, st3, c3. cbv zeta.
  assert (Z.of_nat (length ((pg ++ c1 ++ [POP_JUMP_IF_TRUE; 0; 0]) ++ c2 ++ [JUMP; 0; 0])) = A) as EA.
  { subst A P1 pre1 post1. f_equal. f_equal. app_eq. }
  rewrite EA.
  assert (pg ++ c1 ++ POP_JUMP_IF_TRUE :: be16 (u16 A) ++ c2 ++ [JUMP; 0; 0] = P2) as EP2.
  { subst P2 pre1 post1. app_eq. }
  rewrite EP2, EQ2.
  split; [exact E1 |]. split; [exact Hp1 |]. split; [exact E2 |]. split; [exact Hp2 |].
  split; [exact E3 |]. split; [exact Hp3 |].
  injection H as <-. f_equal. subst pre2 pre1. app_eq.
Qed.


Lemma Others_backpatch p pos1 pos2 :
  Others p (size <- page_size p ;;
            page_store p pos1 (hi_byte (u16 size)) ;;;
            size <- page_size p ;;
            page_store p pos2 (lo_byte (u16 size))).
Proof.
  apply Others_bind; [apply Others_Ext, Grow_page_size | intros size].
  apply Others_bind; [apply Others_page_store | intros _].
  apply Others_bind; [apply Others_Ext, Grow_page_size | intros size'].
  apply Others_page_store.
Qed.

Lemma Others_compileIf x (acts : children_t) p :
  ChildrenExt acts -> Others p (compileIf x acts p).
Proof.
  intros HA. unfold compileIf.
  apply Others_bind; [apply Others_compileChild, HA | intros _].
  apply Others_bind; [apply Others_Ext, Ext_page_push | intros _].
  apply Others_bind; [apply Others_Ext, Grow_page_size | intros pos1].
  apply Others_bind; [apply Others_Ext, Ext_pushNumber | intros _].
  apply Others_bind.
  { destruct (_ =? 4); [apply Others_compileChild, HA | apply Others_Ext, Grow_ret]. }
  intros _.
  apply Others_bind; [apply Others_Ext, Ext_page_push | intros _].
  apply Others_bind; [apply Others_Ext, Grow_page_size | intros pos2].
  apply Others_bind; [apply Others_Ext, Ext_pushNumber | intros _].
  apply Others_bind; [apply Others_Ext, Grow_page_size | intros size].
  apply Others_bind; [apply Others_page_store | intros _].
  apply Others_bind; [apply Others_Ext, Grow_page_size | intros size'].
  apply Others_bind; [apply Others_page_store | intros _].
  apply Others_bind; [apply Others_compileChild, HA | intros _].
  apply Others_backpatch.
Qed.

Lemma Ext_compileIf x (acts : children_t) p :
  ChildrenExt acts -> Ext p (compileIf x acts p).
Proof.
  intros HA st [] st' H. apply others_ext; [eapply Others_compileIf; eauto |].
  intros pg Hp.
  destruct (compileIf_run _ _ _ _ _ _ HA Hp H)
    as (st1 & c1 & st2 & c2 & st3 & c3 & _ & _ & _ & _ & _ & Hp3 & ->).
  eexists. erewrite page_set_page_same by exact Hp3. reflexivity.
Qed.

Lemma compileWhile_page x (acts : children_t) p st st' pg :
  ChildrenExt acts -> page p st = Some pg ->
  compileWhile x acts p st = (Ok tt, st') ->
  exists code, page p st' = Some (pg ++ code).
Proof.
  intros HA Hp H. unfold compileWhile in H.
  rewrite (bind_run _ _ _ _ _ (page_size_run _ _ _ Hp)) in H.
  apply bind_Ok in H as ([] & st1 & E1 & H).
  destruct (compileChild_ext _ _ _ _ _ _ HA E1 Hp) as (c1 & Hp1).
  rewrite (bind_run _ _ _ _ _ (page_push_run _ _ _ _ Hp1)) in H.
  pose proof (page_set_page_same p ((pg ++ c1) ++ [POP_JUMP_IF_FALSE]) _ _ Hp1) as Hp1'.
  rewrite (bind_run _ _ _ _ _ (page_size_run _ _ _ Hp1')) in H.
  rewrite (bind_run _ _ _ _ _ (pushNumber_run _ _ _ _ Hp1')) in H.
  rewrite set_page_set_page in H.
  set (pre := (pg ++ c1) ++ [POP_JUMP_IF_FALSE]) in *.
  pose proof (page_set_page_same p (pre ++ be16 0) _ _ Hp1) as HP1.
  apply bind_Ok in H as ([] & st2 & E2 & H).
  destruct (compileChild_ext _ _ _ _ _ _ HA E2 HP1) as (c2 & Hp2).
  rewrite (bind_run _ _ _ _ _ (page_push_run _ _ _ _ Hp2)) in H.
  pose proof (page_set_page_same p (((pre ++ be16 0) ++ c2) ++ [JUMP]) _ _ Hp2) as Hp2'.
  rewrite (bind_run _ _ _ _ _ (pushNumber_run _ _ _ _ Hp2')) in H.
  rewrite set_page_set_page in H.
  set (post := c2 ++ JUMP :: be16 (u16 (Z.of_nat (length pg)))).
  assert ((((pre ++ be16 0) ++ c2) ++ [JUMP]) ++ be16 (u16 (Z.of_nat (length pg))) =
          pre ++ 0 :: 0 :: post) as EQ by (subst post; app_eq).
  rewrite EQ in H.
  pose proof (page_set_page_same p (pre ++ 0 :: 0 :: post) _ _ Hp2) as Hq.
  rewrite (backpatch_last p _ pre post 0 0 Hq) in H.
  injection H as <-. rewrite set_page_set_page.
  erewrite page_set_page_same by exact Hp2.
  eexists. f_equal. subst pre. rewrite <- !app_assoc. reflexivity.
Qed.

Lemma Others_compileWhile x (acts : children_t) p :
  ChildrenExt acts -> Others p (compileWhile x acts p).
Proof.
  intros HA. unfold compileWhile.
  apply Others_bind; [apply Others_Ext, Grow_page_size | intros current].
  apply Others_bind; [apply Others_compileChild, HA | intros _].
  apply Others_bind; [apply Others_Ext, Ext_page_push | intros _].
  apply Others_bind; [apply Others_Ext, Grow_page_size | intros pos].
  apply Others_bind; [apply Others_Ext, Ext_pushNumber | intros _].
  apply Others_bind; [apply Others_compileChild, HA | intros _].
  apply Others_bind; [apply Others_Ext, Ext_page_push | intros _].
  apply Others_bind; [apply Others_Ext, Ext_pushNumber | intros _].
  apply Others_backpatch.
Qed.

Lemma Ext_compileWhile x (acts : children_t) p :
  ChildrenExt acts -> Ext p (compileWhile x acts p).
Proof.
  intros HA st [] st' H. apply others_ext; [eapply Others_compileWhile; eauto |].
  intros pg Hp. eapply compileWhile_page; eauto.
Qed.

End Jumps.

(** ** New pages and the temp stack *)

Lemma page_push_code_page q pg st :
  page q st = Some pg ->
  page q (set_code_pages (m_code_pages st ++ [[]]) st) = Some pg.
Proof.
  unfold page. destruct (0 <=? q); simpl; [| auto].
  intros H. rewrite lookup_app_l; [exact H | eapply lookup_lt_Some; exact H].
Qed.

Lemma page_push_temp_page q pg st :
  page q st = Some pg ->
  page q (set_temp_pages (m_temp_pages st ++ [[]]) st) = Some pg.
Proof.
  unfold page. destruct (0 <=? q); simpl; [auto |].
  intros H. rewrite lookup_app_l; [exact H | eapply lookup_lt_Some; exact H].
Qed.

Lemma lookup_removelast {A} (l : list A) i :
  (S i < length l)%nat -> removelast l !! i = l !! i.
Proof.
  intros H. rewrite removelast_firstn_len. apply lookup_take_lt. lia.
Qed.

Lemma length_removelast {A} (l : list A) : length (removelast l) = pred (length l).
Proof. rewrite removelast_firstn_len, length_take. lia. Qed.

(** A page allocated meanwhile may have been written. *)
Lemma grow_new_code_page p st st' :
  let st_b := set_code_pages (m_code_pages st ++ [[]]) st in
  grow (fun q => p = q \/ Z.of_nat (length (m_code_pages st_b)) - 1 = q) st_b st' ->
  ext p st st'.
Proof.
  intros st_b [T B P]. split; [exact T | exact B |].
  intros q pg Hq. destruct (P q pg (page_push_code_page _ _ _ Hq)) as (c & Hc & N).
  exists c. split; [exact Hc |]. intros Hne. apply N. intros [?|E]; [auto |].
  subst st_b. simpl in E. rewrite length_app in E. simpl in E.
  unfold page in Hq. destruct (0 <=? q) eqn:Eq; [| lia].
  apply lookup_lt_Some in Hq. lia.
Qed.

(** A temp page pushed meanwhile may have been written, and is popped. *)
Lemma grow_temp_page p st st' :
  let st_b := set_temp_pages (m_temp_pages st ++ [[]]) st in
  grow (fun q => p = q \/ - Z.of_nat (length (m_temp_pages st_b)) = q) st_b st' ->
  ext p st (set_temp_pages (removelast (m_temp_pages st')) st').
Proof.
  intros st_b [T B P].
  assert (length (m_temp_pages st') = S (length (m_temp_pages st))) as HT.
  { rewrite T. subst st_b. simpl. rewrite length_app. simpl. lia. }
  split.
  - simpl. rewrite length_removelast, HT. reflexivity.
  - exact B.
  - intros q pg Hq. destruct (P q pg (page_push_temp_page _ _ _ Hq)) as (c & Hc & N).
    exists c. split.
    + unfold page in *. destruct (0 <=? q) eqn:Eq; simpl; [exact Hc |].
      rewrite lookup_removelast; [exact Hc |].
      apply lookup_lt_Some in Hq. lia.
    + intros Hne. apply N. intros [?|E]; [auto |].
      subst st_b. simpl in E. rewrite length_app in E. simpl in E.
      unfold page in Hq. destruct (0 <=? q) eqn:Eq; [lia |].
      apply lookup_lt_Some in Hq. lia.
Qed.

Lemma temp_back_Ok st pg st' :
  temp_back st = (Ok pg, st') -> st' = st /\ last (m_temp_pages st) = Some pg.
Proof.
  unfold temp_back, bind, get. destruct (last _); intros E; inv_M. auto.
Qed.

Lemma temp_pop_back_Ok st a st' :
  temp_pop_back st = (Ok a, st') ->
  st' = set_temp_pages (removelast (m_temp_pages st)) st.
Proof.
  unfold temp_pop_back, bind, get. destruct (m_temp_pages st) eqn:E; intros H; inv_M.
  reflexivity.
Qed.

Lemma modify_bind_run {B} f (k : M B) st : (modify f ;;; k) st = k (f st).
Proof. reflexivity. Qed.

Lemma get_bind_run {B} (k : Compiler -> M B) st : (s <- get ;; k s) st = k st st.
Proof. reflexivity. Qed.

Section Grow_calls.

Context {isa : Instruction}.
Variable operators : list string.

Lemma Grow_temp_back G : Grow G temp_back.
Proof. intros st a st' E. apply temp_back_Ok in E as [-> _]. apply grow_refl. Qed.

Lemma Grow_handleCallsFields (G : Z -> Prop) l acts count n proc_page :
  G proc_page -> ChildrenExt acts -> Grow G (handleCallsFields l acts count n proc_page).
Proof.
  intros HG HA. revert n. induction count as [|count IH]; intros n; simpl.
  - apply Grow_ret.
  - destruct (l !! n); [| apply Grow_throw].
    apply Grow_if; [| apply Grow_ret].
    apply Grow_bind; [apply Grow_compileChild; auto | intros _; apply IH].
Qed.

Lemma Grow_handleCallsOperands (G : Z -> Prop) l acts op_inst count index exp_count p :
  G p -> ChildrenExt acts ->
  Grow G (handleCallsOperands l acts op_inst count index exp_count p).
Proof.
  intros HG HA. revert index exp_count. induction count as [|count IH];
    intros index exp_count; simpl.
  - apply Grow_ret.
  - apply Grow_bind; [apply Grow_compileChild; auto | intros _].
    apply Grow_bind; [apply Grow_if; [apply Grow_page_push, HG | apply Grow_ret] | intros _].
    apply IH.
Qed.

Lemma Grow_checkChainedOperator G x op_inst exp_count :
  Grow G (checkChainedOperator operators x op_inst exp_count).
Proof.
  unfold checkChainedOperator. apply Grow_if; [apply Grow_ret |].
  cbv zeta. match goal with |- Grow _ (match ?e with _ => _ end) => destruct e end;
    apply Grow_throw.
Qed.

Lemma Ext_handleCalls x (acts : children_t) p :
  ChildrenExt acts -> Ext p (handleCalls operators x acts p).
Proof.
  intros HA st0 [] st' H. unfold handleCalls in H.
  rewrite modify_bind_run, get_bind_run in H.
  set (st1 := set_temp_pages (m_temp_pages st0 ++ [[]]) st0) in *.
  set (proc_page := - Z.of_nat (length (m_temp_pages st1))) in *.
  set (G := fun q => p = q \/ proc_page = q).
  assert (G p) as Gp by (left; reflexivity).
  assert (G proc_page) as Gq by (right; reflexivity).
  apply bind_Ok in H as ([] & st2 & E2 & H).
  apply (Grow_compileChild G _ _ _ Gq HA) in E2.
  apply bind_Ok in H as (n & st3 & E3 & H).
  apply (Grow_handleCallsFields G _ _ _ _ _ Gq HA) in E3.
  apply bind_Ok in H as (back & ? & E4 & H). apply temp_back_Ok in E4 as [-> _].
  pose proof (grow_trans _ _ _ _ E2 E3) as G13.
  destruct (1 <? _).
  - apply bind_Ok in H as ([] & st4 & E5 & H).
    assert (grow G st3 st4) as G34.
    { revert E5. apply Grow_for_each. intros a Ha.
      eapply Grow_mono; [| eapply (proj1 (Forall_forall _ _) HA), (subseteq_drop n), Ha].
      intros q <-. exact Gp. }
    apply bind_Ok in H as (back' & ? & E6 & H). apply temp_back_Ok in E6 as [-> _].
    apply bind_Ok in H as ([] & st5 & E7 & H).
    assert (grow G st4 st5) as G45.
    { revert E7. apply Grow_for_each. intros; apply Grow_page_push, Gp. }
    apply bind_Ok in H as ([] & st6 & E8 & H). apply temp_pop_back_Ok in E8 as ->.
    eapply grow_trans.
    + apply grow_temp_page. eapply grow_trans; [exact G13 |].
      eapply grow_trans; [exact G34 | exact G45].
    + revert H. apply Grow_bind; [apply Ext_page_push | intros _; apply Ext_pushNumber].
  - destruct (back !! O) as [op_inst|]; [| discriminate].
    apply bind_Ok in H as ([] & st4 & E5 & H). apply temp_pop_back_Ok in E5 as ->.
    eapply grow_trans; [apply grow_temp_page; exact G13 |].
    revert H. apply Grow_bind; [apply Grow_handleCallsOperands; auto | intros exp_count].
    apply Grow_bind; [apply Grow_if; [apply Ext_page_push | apply Grow_ret] | intros _].
    apply Grow_if; [apply Grow_checkChainedOperator | apply Grow_ret].
Qed.

Lemma Ext_compileFunction x (acts : children_t) p :
  ChildrenExt acts -> Ext p (compileFunction x acts p).
Proof.
  intros HA st0 [] st' H. unfold compileFunction in H.
  apply bind_Ok in H as (args & ? & E0 & H).
  apply (Grow_child (eq p)) in E0.
  apply bind_Ok in H as ([] & st1 & E1 & H).
  assert (ext p x0 st1) as G01.
  { revert E1. apply Grow_for_each. intros it _. apply Grow_if; [| apply Grow_ret].
    apply Grow_get_bind; intros st.
    apply Grow_bind; [apply Grow_if; [apply Grow_throw | apply Grow_ret] | intros _].
    apply Grow_bind; [apply Ext_page_push | intros _].
    apply Grow_bind; [apply Grow_addDefinedSymbol | intros _].
    apply Grow_bind; [apply Grow_addSymbol | intros; apply Ext_pushNumber]. }
  rewrite modify_bind_run, get_bind_run in H.
  eapply grow_trans; [exact E0 |]. eapply grow_trans; [exact G01 |].
  apply grow_new_code_page. cbv zeta.
  set (st2 := set_code_pages (m_code_pages st1 ++ [[]]) st1) in *.
  set (page_id := Z.of_nat (length (m_code_pages st2)) - 1) in *.
  set (G := fun q => p = q \/ page_id = q).
  assert (G p) as Gp by (left; reflexivity).
  assert (G page_id) as Gq by (right; reflexivity).
  revert H.
  apply Grow_bind; [apply Grow_page_push, Gp | intros _].
  apply Grow_bind; [apply Grow_addValueElem | intros id].
  apply Grow_bind; [apply Grow_pushNumber, Gp | intros _].
  apply Grow_bind.
  { apply Grow_for_each. intros it _. apply Grow_if; [| apply Grow_ret].
    apply Grow_bind; [apply Grow_page_push, Gq | intros _].
    apply Grow_bind; [apply Grow_addSymbol | intros var_id].
    apply Grow_bind; [apply Grow_addDefinedSymbol | intros _; apply Grow_pushNumber, Gq]. }
  intros _.
  apply Grow_bind; [apply Grow_compileChild; auto | intros _; apply Grow_page_push, Gq].
Qed.

Lemma Ext_compileQuote x (acts : children_t) p :
  ChildrenExt acts -> Ext p (compileQuote x acts p).
Proof.
  intros HA st0 [] st' H. unfold compileQuote in H.
  rewrite modify_bind_run, get_bind_run in H.
  apply grow_new_code_page. cbv zeta.
  set (st1 := set_code_pages (m_code_pages st0 ++ [[]]) st0) in *.
  set (page_id := Z.of_nat (length (m_code_pages st1)) - 1) in *.
  set (G := fun q => p = q \/ page_id = q).
  assert (G p) as Gp by (left; reflexivity).
  assert (G page_id) as Gq by (right; reflexivity).
  revert H.
  apply Grow_bind; [apply Grow_compileChild; auto | intros _].
  apply Grow_bind; [apply Grow_page_push, Gq | intros _].
  apply Grow_bind; [apply Grow_addValueElem | intros id].
  apply Grow_bind; [apply Grow_page_push, Gp | intros _; apply Grow_pushNumber, Gp].
Qed.

End Grow_calls.

(** ** Lowering only extends the page it is given *)

Section Ext_compile.

Context {isa : Instruction}.
Variable operators : list string.
Variable builtins : list string.
Variable isSpecific : string -> option Z.

Lemma Ext_compileNode x (acts : children_t) p :
  ChildrenExt acts -> Ext p (compileNode operators builtins isSpecific x acts p).
Proof.
  intros HA. unfold compileNode.
  apply Grow_if; [apply Grow_compileSymbol; reflexivity |].
  apply Grow_if.
  { apply Grow_bind; [apply Grow_addSymbol | intros i].
    apply Grow_bind; [apply Ext_page_push | intros _; apply Ext_pushNumber]. }
  apply Grow_if.
  { apply Grow_bind; [apply Grow_addValue | intros i].
    apply Grow_bind; [apply Ext_page_push | intros _; apply Ext_pushNumber]. }
  destruct (constList x) as [|c0 l] eqn:El.
  { destruct (isBuiltin _ _); [| apply Grow_throw].
    apply Grow_bind; [apply Ext_page_push | intros _; apply Ext_pushNumber]. }
  apply Grow_if; [apply Grow_compileSpecific; auto |].
  apply Grow_if; [| apply Ext_handleCalls, HA].
  destruct (keyword c0) as [[]|].
  - apply Ext_compileIf, HA.
  - apply Grow_compileSet; auto.
  - apply Grow_compileLetMut; auto.
  - apply Grow_compileLetMut; auto.
  - apply Ext_compileFunction, HA.
  - apply Grow_for_each. intros; apply Grow_compileChild; auto.
  - apply Ext_compileWhile, HA.
  - apply Grow_compilePluginImport; auto.
  - apply Ext_compileQuote, HA.
  - apply Grow_compileDel; auto.
  - apply Grow_ret.
Qed.

(** [_compile(x, p)], when it returns, has added bytes at the end of the
    page [p] and changed no other page, nor the height of the temp stack,
    nor the container. *)
Lemma Ext_compile x : forall p, Ext p (_compile operators builtins isSpecific x p).
Proof.
  induction x as [s pos|s pos|s pos|k pos|s pos|n pos|l pos IH] using Node_ind';
    intros p; simpl; try (apply Ext_compileNode; constructor).
  apply Ext_compileNode. unfold ChildrenExt. apply Forall_fmap.
  eapply Forall_impl; [exact IH |]. intros c Hc q. apply Hc.
Qed.

Lemma ChildrenExt_compile l :
  ChildrenExt (map (_compile operators builtins isSpecific) l).
Proof. apply Forall_fmap, Forall_forall. intros c _ p. apply Ext_compile. Qed.

End Ext_compile.

(** * The virtual machine: returning from a call and resolving a variable *)

Module VM_proofs.
Import VM_t.

Section VM.

Context {Value : Type} `{EqDecision Value}.
Variable undefined : Value.

Lemma pop_back_snoc {A} (l : list A) x : pop_back (l ++ [x]) = Done l.
Proof.
  unfold pop_back. destruct (l ++ [x]) eqn:E.
  - destruct l; discriminate.
  - rewrite <- E, removelast_last. reflexivity.
Qed.

Lemma pop_scopes_app (scopes base : list (list Value)) :
  pop_scopes (length scopes) (base ++ scopes) = Done base.
Proof.
  induction scopes as [|s scopes IH] using rev_ind; simpl.
  - rewrite app_nil_r. reflexivity.
  - rewrite length_app, Nat.add_comm. simpl.
    rewrite app_assoc, pop_back_snoc. exact IH.
Qed.

(** The slots [id] of the scopes from [k] up to [n] (not included) hold the
    sentinel. *)
Definition undefined_between (locals : list (list Value)) (id k n : nat) : Prop :=
  forall j scope, (k <= j < n)%nat -> locals !! j = Some scope ->
    scope !! id = Some undefined.

Lemma findNearestVariable_from_some locals id n i :
  findNearestVariable_from undefined locals id n = Done (Some i) ->
  (i < n)%nat /\
  (exists scope v, locals !! i = Some scope /\ scope !! id = Some v /\ v <> undefined) /\
  undefined_between locals id (S i) n.
Proof.
  induction n as [|n IH]; simpl; [discriminate |].
  destruct (locals !! n) as [scope|] eqn:En; [| discriminate].
  destruct (scope !! id) as [v|] eqn:Ev; [| discriminate].
  destruct (decide (v <> undefined)) as [Hv|Hv].
  - intros E. simplify_eq. split; [lia |]. split; [eauto |].
    intros j sc Hj. lia.
  - intros E. destruct (IH E) as (Hi & Hs & Hu). split; [lia |]. split; [exact Hs |].
    intros j sc Hj Hsc. destruct (decide (j = n)) as [->|Hne].
    + assert (v = undefined) as ->
        by (destruct (decide (v = undefined)); [assumption | contradiction]).
      congruence.
    + apply (Hu j sc); [lia | exact Hsc].
Qed.

Lemma findNearestVariable_from_none locals id n :
  findNearestVariable_from undefined locals id n = Done None ->
  undefined_between locals id 0 n.
Proof.
  induction n as [|n IH]; simpl.
  - intros _ j sc Hj. lia.
  - destruct (locals !! n) as [scope|] eqn:En; [| discriminate].
    destruct (scope !! id) as [v|] eqn:Ev; [| discriminate].
    destruct (decide (v <> undefined)) as [Hv|Hv]; [discriminate |].
    intros E j sc Hj Hsc. destruct (decide (j = n)) as [->|Hne].
    + assert (v = undefined) as ->
        by (destruct (decide (v = undefined)); [assumption | contradiction]).
      congruence.
    + apply (IH E j sc); [lia | exact Hsc].
Qed.

(** When every scope has a slot [id], the search gives an answer. *)
Lemma findNearestVariable_from_total locals id n :
  (n <= length locals)%nat ->
  Forall (fun scope : list Value => (id < length scope)%nat) locals ->
  exists r, findNearestVariable_from undefined locals id n = Done r.
Proof.
  intros Hn HF. induction n as [|n IH]; simpl; [eauto |].
  destruct (lookup_lt_is_Some_2 locals n ltac:(lia)) as [scope En]. rewrite En.
  pose proof (proj1 (Forall_lookup _ _) HF n scope En) as Hid. simpl in Hid.
  destruct (lookup_lt_is_Some_2 scope id Hid) as [v Ev]. rewrite Ev.
  destruct (decide (v <> undefined)); [eauto | apply IH; lia].
Qed.

Lemma findNearestVariable_from_le locals id n i :
  findNearestVariable_from undefined locals id n = Done (Some i) -> (i < n)%nat.
Proof. intros E. apply findNearestVariable_from_some in E. apply E. Qed.

(** A scope chain in which every scope has a slot [id]. *)
Definition has_slot (id : nat) (vm : @VM Value) : Prop :=
  Forall (fun scope : list Value => (id < length scope)%nat) (m_locals vm).

(** [i] is the innermost scope of [vm] whose slot [id] is not the sentinel. *)
Definition nearest (vm : @VM Value) (id i : nat) : Prop :=
  (exists v, slot vm i id = Some v /\ v <> undefined) /\
  undefined_between (m_locals vm) id (S i) (length (m_locals vm)).

Lemma slot_lookup (vm : @VM Value) i id v :
  slot vm i id = Some v <->
  exists scope, m_locals vm !! i = Some scope /\ scope !! id = Some v.
Proof.
  unfold slot. destruct (m_locals vm !! i) as [scope|]; simpl.
  - split; [eauto | intros (sc & E & Hv); simplify_eq; exact Hv].
  - split; [discriminate | intros (sc & E & _); discriminate].
Qed.

(** C9. Variable resolution walks the scope chain from the innermost scope
    outwards: [findNearestVariable] returns the slot of the nearest scope
    whose entry at the symbol id is not the Undefined sentinel, and returns
    no result exactly when the slot of every scope holds the sentinel, in
    which case LOAD_SYMBOL raises a runtime error. *)
Theorem findNearestVariable_nearest (vm : @VM Value) (id : nat) :
  has_slot id vm ->
  (forall i, findNearestVariable undefined id vm = Done (Some i) <-> nearest vm id i) /\
  (findNearestVariable undefined id vm = Done None <->
   undefined_between (m_locals vm) id 0 (length (m_locals vm))) /\
  (findNearestVariable undefined id vm = Done None ->
   exists message, loadSymbol undefined id vm = VMError message).
Proof.
  intros HF. unfold findNearestVariable, nearest.
  destruct (findNearestVariable_from_total _ id _ (Nat.le_refl _) HF) as [r Hr].
  assert (forall i scope v, m_locals vm !! i = Some scope -> scope !! id = Some v ->
            v <> undefined ->
            undefined_between (m_locals vm) id (S i) (length (m_locals vm)) ->
            r = Some i) as Huniq.
  { intros i scope v Hsc Hv Hne Hu. destruct r as [i'|].
    - destruct (findNearestVariable_from_some _ _ _ _ Hr) as (Hi' & (sc' & v' & Hsc' & Hv' & Hne') & Hu').
      f_equal. destruct (lt_eq_lt_dec i i') as [[Hlt|Heq]|Hgt]; [| congruence |].
      + pose proof (Hu i' sc' ltac:(lia) Hsc'). congruence.
      + pose proof (Hu' i scope ltac:(split; [lia | eapply lookup_lt_Some; eauto]) Hsc).
        congruence.
    - pose proof (findNearestVariable_from_none _ _ _ Hr i scope
                    ltac:(split; [lia | eapply lookup_lt_Some; eauto]) Hsc).
      congruence. }
  split; [| split].
  - intros i. split.
    + intros E. destruct (findNearestVariable_from_some _ _ _ _ E) as (_ & (sc & v & Hsc & Hv & Hne) & Hu).
      split; [| exact Hu]. exists v. split; [| exact Hne]. apply slot_lookup. eauto.
    + intros [(v & Hs & Hne) Hu]. apply slot_lookup in Hs as (sc & Hsc & Hv).
      rewrite Hr. f_equal. eapply Huniq; eauto.
  - split; [apply findNearestVariable_from_none |].
    intros Hu. rewrite Hr. f_equal. destruct r as [i|]; [| reflexivity].
    destruct (findNearestVariable_from_some _ _ _ _ Hr) as (Hi & (sc & v & Hsc & Hv & Hne) & _).
    pose proof (Hu i sc ltac:(lia) Hsc). congruence.
  - intros E. unfold loadSymbol, findNearestVariable. rewrite E. eauto.
Qed.

(** What [returnFromFuncCall] does to a VM whose two topmost frames are
    [caller] and [active] and whose scope chain ends with as many scopes as
    the counter of [caller] says and one more. *)
Lemma returnFromFuncCall_run (vm : @VM Value) frames caller active base scopes fresh :
  m_frames vm = frames ++ [caller; active] ->
  0 <= scopeCountToDelete caller < 256 ->
  m_locals vm = base ++ scopes ++ [fresh] ->
  length scopes = Z.to_nat (scopeCountToDelete caller) ->
  returnFromFuncCall vm =
  Done (mkVM (m_ip vm) (m_pp vm) (m_last_sym_loaded vm) (m_stack vm)
          (frames ++ [resetScopeCountToDelete caller]) base).
Proof.
  intros HF Hc HL Hn. unfold returnFromFuncCall.
  replace (m_frames vm) with ((frames ++ [caller]) ++ [active])
    by (rewrite HF, <- app_assoc; reflexivity).
  rewrite pop_back_snoc, last_snoc.
  replace (m_locals vm) with ((base ++ scopes) ++ [fresh])
    by (rewrite HL, <- app_assoc; reflexivity).
  rewrite pop_back_snoc.
  unfold u8. rewrite Z.mod_small by lia. rewrite <- Hn, pop_scopes_app.
  unfold reset_back. rewrite last_snoc, removelast_last. reflexivity.
Qed.

(** C8, as the code has it. [returnFromFuncCall] pops the active frame, then
    one scope and as many more as the [scope_count_to_delete] counter of the
    frame under it says (the caller's frame, current again), and clears
    that counter; the page id and the instruction offset are left as they
    are. So when the scope chain was [base] and since then one scope per
    count of the caller's counter and one more were pushed, the scope chain
    after the return is [base] again. *)
Theorem returnFromFuncCall_scopes (vm : @VM Value) frames caller active base scopes fresh :
  m_frames vm = frames ++ [caller; active] ->
  0 <= scopeCountToDelete caller < 256 ->
  m_locals vm = base ++ scopes ++ [fresh] ->
  length scopes = Z.to_nat (scopeCountToDelete caller) ->
  exists vm',
    returnFromFuncCall vm = Done vm' /\
    m_frames vm' = frames ++ [resetScopeCountToDelete caller] /\
    m_locals vm' = base /\
    m_ip vm' = m_ip vm /\ m_pp vm' = m_pp vm /\ m_stack vm' = m_stack vm.
Proof.
  intros HF Hc HL Hn. eexists. split.
  - eapply returnFromFuncCall_run; eauto.
  - simpl. repeat split.
Qed.

End VM.

(** A machine whose values are integers, [0] for the sentinel:
    the frame [mkFrame 0 7 0 0] is active, the caller's counter is 1, and
    three scopes are on the chain. *)
Definition vm_in_call : @VM Z :=
  mkVM 4 1 0 [] [mkFrame 0 0 0 1; mkFrame 0 7 0 0] [[5; 0]; [0; 6]; [0; 0]].

(** C8 as stated fails: the counter of the active frame is 0, its caller's
    is 1, and the return pops two scopes; the page id and the instruction
    offset are not restored. *)
Lemma returnFromFuncCall_counts_on_caller :
  last (m_frames vm_in_call) = Some (mkFrame 0 7 0 0) /\
  returnFromFuncCall vm_in_call = Done (mkVM 4 1 0 [] [mkFrame 0 0 0 0] [[5; 0]]) /\
  (length (m_locals vm_in_call) - 1 <> Z.to_nat (scopeCountToDelete (mkFrame 0 7 0 0)))%nat.
Proof. split; [reflexivity |]. split; [reflexivity |]. simpl. lia. Qed.

Lemma returnFromFuncCall_scopes_witness :
  exists vm',
    returnFromFuncCall vm_in_call = Done vm' /\
    m_frames vm' = [] ++ [resetScopeCountToDelete (mkFrame 0 0 0 1)] /\
    m_locals vm' = [[5; 0]] /\
    m_ip vm' = m_ip vm_in_call /\ m_pp vm' = m_pp vm_in_call /\
    m_stack vm' = m_stack vm_in_call.
Proof.
  apply (returnFromFuncCall_scopes vm_in_call [] (mkFrame 0 0 0 1) (mkFrame 0 7 0 0)
           [[5; 0]] [[0; 6]] [0; 0]); simpl; [reflexivity | lia | reflexivity | reflexivity].
Defined.

Lemma findNearestVariable_nearest_witness :
  (forall i, findNearestVariable 0 1 vm_in_call = Done (Some i) <-> nearest 0 vm_in_call 1 i) /\
  (findNearestVariable 0 1 vm_in_call = Done None <->
   undefined_between 0 (m_locals vm_in_call) 1 0 (length (m_locals vm_in_call))) /\
  (findNearestVariable 0 1 vm_in_call = Done None ->
   exists message, loadSymbol 0 1 vm_in_call = VMError message).
Proof.
  apply (findNearestVariable_nearest 0 vm_in_call 1).
  unfold has_slot. simpl. repeat constructor.
Defined.

(** The symbol 1 resolves in the middle scope, the symbol 0 in the outermost
    one. *)
Example findNearestVariable_runs :
  findNearestVariable 0 1 vm_in_call = Done (Some 1%nat) /\
  findNearestVariable 0 0 vm_in_call = Done (Some 0%nat) /\
  findNearestVariable 0 0 (set_locals [[0; 0]; [0; 6]] vm_in_call) = Done None.
Proof. repeat split. Qed.

End VM_proofs.

(** * The container *)

(** The state once [l] is appended to the container. *)
Definition emitted (l : list Z) (st : Compiler) : Compiler :=
  set_bytecode (m_bytecode st ++ l) st.

(** Run from [st], the computation [m] appends [l] to the container and does
    nothing else. *)
Definition Emits (m : M unit) (st : Compiler) (l : list Z) : Prop :=
  m st = (Ok tt, emitted l st).

Lemma emitted_emitted l1 l2 st : emitted l2 (emitted l1 st) = emitted (l1 ++ l2) st.
Proof. unfold emitted, set_bytecode. simpl. rewrite <- app_assoc. reflexivity. Qed.

Lemma emitted_nil st : emitted [] st = st.
Proof. unfold emitted, set_bytecode. rewrite app_nil_r. destruct st; reflexivity. Qed.

Lemma Emits_eq m st l l' : Emits m st l -> l = l' -> Emits m st l'.
Proof. intros H <-. exact H. Qed.

Lemma Emits_ret st : Emits (ret tt) st [].
Proof. unfold Emits, ret. rewrite emitted_nil. reflexivity. Qed.

Lemma Emits_bind (m1 m2 : M unit) st l1 l2 :
  Emits m1 st l1 -> Emits m2 (emitted l1 st) l2 -> Emits (m1 ;;; m2) st (l1 ++ l2).
Proof.
  unfold Emits. intros H1 H2. rewrite (bind_run _ _ _ _ _ H1), H2, emitted_emitted.
  reflexivity.
Qed.

Lemma Emits_get (k : Compiler -> M unit) st l :
  Emits (k st) st l -> Emits (s <- get ;; k s) st l.
Proof. intros H. exact H. Qed.

Lemma Emits_bytecode_push b st : Emits (bytecode_push b) st [b].
Proof. reflexivity. Qed.

Lemma Emits_pushNumber n st : Emits (pushNumber n None) st (be16 n).
Proof. apply (Emits_bind _ _ _ [_] [_]); apply Emits_bytecode_push. Qed.

Lemma Emits_for_each {A} (f : A -> M unit) (g : A -> list Z) l st :
  (forall a st, Emits (f a) st (g a)) -> Emits (for_each f l) st (concat (map g l)).
Proof.
  intros Hf. revert st. induction l as [|a l IH]; intros st; simpl.
  - apply Emits_ret.
  - apply Emits_bind; [apply Hf | apply IH].
Qed.

Lemma Emits_for_each_push l st : Emits (for_each bytecode_push l) st l.
Proof.
  eapply Emits_eq; [apply (Emits_for_each _ (fun b => [b])); intros; apply Emits_bytecode_push |].
  induction l as [|b l IH]; simpl; [reflexivity | rewrite IH; reflexivity].
Qed.

Section Container.

Context {isa : Instruction}.
Variable to_string : float -> string.
Variable ARK_VERSION_MAJOR : Z.
Variable ARK_VERSION_MINOR : Z.
Variable ARK_VERSION_PATCH : Z.

(** The byte [c] (0 the most significant) of the 64-bit [timestamp]. *)
Definition timestamp_byte (timestamp : Z) (c : Z) : Z :=
  let d := 56 - 8 * c in
  u8 (Z.shiftr (Z.land timestamp (Z.shiftl 255 d)) d).

(** The fixed header, section 6.1 of the specification. *)
Definition header (timestamp : Z) : list Z :=
  [97; 114; 107; 0] ++
  be16 (u16 ARK_VERSION_MAJOR) ++ be16 (u16 ARK_VERSION_MINOR) ++
  be16 (u16 ARK_VERSION_PATCH) ++
  map (timestamp_byte timestamp) [0; 1; 2; 3; 4; 5; 6; 7].

Lemma header_length timestamp : length (header timestamp) = header_size.
Proof. reflexivity. Qed.

Lemma Emits_pushHeadersPhase1 timestamp st :
  Emits (pushHeadersPhase1 ARK_VERSION_MAJOR ARK_VERSION_MINOR ARK_VERSION_PATCH timestamp)
    st (header timestamp).
Proof.
  unfold pushHeadersPhase1. simpl for_each.
  eapply Emits_eq.
  - repeat (apply Emits_bind;
            [first [apply Emits_bytecode_push | apply Emits_pushNumber] |]).
    apply Emits_ret.
  - reflexivity.
Qed.

(** One entry of the value table. *)
Definition value_bytes (val : CValue) : list Z :=
  match val with
  | CNumber n => NUMBER_TYPE :: bytes_of_string (to_string n)
  | CString t => STRING_TYPE :: bytes_of_string t
  | CPageAddr a => FUNC_TYPE :: be16 (u16 a)
  end ++ [0].

(** The symbol table and the value table. *)
Definition tables (symbols : list Node) (values : list CValue) : list Z :=
  SYM_TABLE_START :: be16 (u16 (Z.of_nat (length symbols))) ++
  concat (map (fun sym => bytes_of_string (string_of sym) ++ [0]) symbols) ++
  VAL_TABLE_START :: be16 (u16 (Z.of_nat (length values))) ++
  concat (map value_bytes values).

Lemma Emits_pushValue val st : Emits (pushValue to_string val) st (value_bytes val).
Proof.
  unfold pushValue, value_bytes. destruct val as [n|t|a].
  - apply (Emits_bind _ _ _ (_ :: _) [_]); [| apply Emits_bytecode_push].
    apply (Emits_bind _ _ _ [_]); [apply Emits_bytecode_push | apply Emits_for_each_push].
  - apply (Emits_bind _ _ _ (_ :: _) [_]); [| apply Emits_bytecode_push].
    apply (Emits_bind _ _ _ [_]); [apply Emits_bytecode_push | apply Emits_for_each_push].
  - apply (Emits_bind _ _ _ (_ :: _) [_]); [| apply Emits_bytecode_push].
    apply (Emits_bind _ _ _ [_]); [apply Emits_bytecode_push | apply Emits_pushNumber].
Qed.

Lemma Emits_pushHeadersPhase2 st :
  Emits (pushHeadersPhase2 to_string) st (tables (m_symbols st) (m_values st)).
Proof.
  unfold pushHeadersPhase2, tables.
  apply (Emits_bind _ _ _ [_]); [apply Emits_bytecode_push |].
  apply Emits_get. simpl m_symbols. simpl m_values.
  apply Emits_bind; [apply Emits_pushNumber |].
  apply Emits_bind.
  { apply Emits_for_each. intros sym s.
    apply Emits_bind; [apply Emits_for_each_push | apply Emits_bytecode_push]. }
  apply (Emits_bind _ _ _ [_]); [apply Emits_bytecode_push |].
  apply Emits_bind; [apply Emits_pushNumber |].
  apply Emits_for_each. intros; apply Emits_pushValue.
Qed.

(** One code segment. *)
Definition segment (page : list Z) : list Z :=
  CODE_SEGMENT_START :: be16 (u16 (Z.of_nat (length page) + 1)) ++ page ++ [HALT].

(** The code segments of the container. *)
Definition segments (pages : list (list Z)) : list Z :=
  match pages with
  | [] => CODE_SEGMENT_START :: be16 1 ++ [HALT]
  | _ => concat (map segment pages)
  end.

Lemma Emits_pushCodeSegments st :
  Emits pushCodeSegments st (segments (m_code_pages st)).
Proof.
  unfold pushCodeSegments. apply Emits_get.
  eapply Emits_eq.
  - apply Emits_bind.
    + apply (Emits_for_each _ segment). intros page s. unfold segment.
      apply (Emits_bind _ _ _ [_]); [apply Emits_bytecode_push |].
      apply Emits_bind; [apply Emits_pushNumber |].
      apply Emits_bind; [apply Emits_for_each_push | apply Emits_bytecode_push].
    + simpl m_code_pages.
      instantiate (1 := match m_code_pages st with
                        | [] => CODE_SEGMENT_START :: be16 1 ++ [HALT]
                        | _ => []
                        end).
      destruct (m_code_pages st); cbn [length Nat.eqb].
      * apply (Emits_bind _ _ _ [_]); [apply Emits_bytecode_push |].
        apply Emits_bind; [apply Emits_pushNumber | apply Emits_bytecode_push].
      * apply Emits_ret.
  - unfold segments. destruct (m_code_pages st); [reflexivity |].
    rewrite app_nil_r. reflexivity.
Qed.

End Container.

(** * The undefined-symbol check *)

Section Undefined_symbols.

Variable stem : string -> string.

(** The test [checkForUndefinedSymbol] makes on a symbol of the table. *)
Definition unbound (st : Compiler) (sym : Node) : bool :=
  negb (contains (string_of sym) (m_defined_symbols st)) &&
  negb (existsb (fun plugin => String.eqb (stem plugin)
                                 (splitString_first (string_of sym) ":"))
          (m_plugins st)).

(** The name of [sym] is not in the defined-symbol set, and its prefix
    before the first [:] is the file stem of no entry of the plugin list. *)
Definition is_unbound (st : Compiler) (sym : Node) : Prop :=
(string_of sym ∉ m_defined_symbols st) /\
  forall plugin, plugin ∈ m_plugins st ->
    stem plugin <> splitString_first (string_of sym) ":".

Lemma contains_elem_of s l : contains s l = true <-> s ∈ l.
Proof.
  unfold contains. rewrite existsb_exists. split.
  - intros (x & Hx & E). apply String.eqb_eq in E as ->. apply list_elem_of_In, Hx.
  - intros H. exists s. split; [apply list_elem_of_In, H | apply String.eqb_refl].
Qed.

Lemma unbound_is_unbound st sym : unbound st sym = true <-> is_unbound st sym.
Proof.
  unfold unbound, is_unbound. rewrite andb_true_iff, !negb_true_iff.
  rewrite <- !not_true_iff_false, contains_elem_of, existsb_exists. split.
  - intros [H1 H2]. split; [exact H1 |]. intros plugin Hp E. apply H2.
    exists plugin. split; [apply list_elem_of_In, Hp | apply String.eqb_eq, E].
  - intros [H1 H2]. split; [exact H1 |]. intros (plugin & Hp & E).
    apply (H2 plugin); [apply list_elem_of_In, Hp | apply String.eqb_eq, E].
Qed.

Definition unbound_error (sym : Node) : Error :=
  CompilationError "Unbound variable error (variable is used but not defined)" (Some sym).

Lemma checkForUndefinedSymbol_run st :
  checkForUndefinedSymbol stem st =
  match find (unbound st) (m_symbols st) with
  | Some sym => (Err (unbound_error sym), st)
  | None => (Ok tt, st)
  end.
Proof.
  unfold checkForUndefinedSymbol. rewrite get_bind_run.
  induction (m_symbols st) as [|sym l IH]; simpl; [reflexivity |].
  cbv beta iota zeta delta [bind mayBeFromPlugin get ret throwCompilerError throw] in *.
  fold (unbound st sym).
  destruct (unbound st sym); [reflexivity |]. exact IH.
Qed.

Lemma checkForUndefinedSymbol_Ok st a st' :
  checkForUndefinedSymbol stem st = (Ok a, st') ->
  st' = st /\ Forall (fun sym => ~ is_unbound st sym) (m_symbols st).
Proof.
  rewrite checkForUndefinedSymbol_run. destruct (find _ _) eqn:E; intros H; simplify_eq.
  split; [reflexivity |]. apply Forall_forall. intros sym Hs Hu.
  apply unbound_is_unbound in Hu.
  eapply find_none in E; [| apply list_elem_of_In, Hs]. congruence.
Qed.

Lemma checkForUndefinedSymbol_Err st e st' :
  checkForUndefinedSymbol stem st = (Err e, st') ->
  st' = st /\ exists sym, e = unbound_error sym /\ sym ∈ m_symbols st /\ is_unbound st sym.
Proof.
  rewrite checkForUndefinedSymbol_run. destruct (find _ _) as [sym|] eqn:E;
    intros H; simplify_eq.
  split; [reflexivity |]. exists sym. split; [reflexivity |].
  apply find_some in E as [Hin Hu]. split; [apply list_elem_of_In, Hin |].
  apply unbound_is_unbound, Hu.
Qed.

Lemma checkForUndefinedSymbol_unbound st sym :
  sym ∈ m_symbols st -> is_unbound st sym ->
  exists sym', checkForUndefinedSymbol stem st = (Err (unbound_error sym'), st).
Proof.
  intros Hin Hu. rewrite checkForUndefinedSymbol_run.
  destruct (find _ _) as [sym'|] eqn:E; [eauto |].
  eapply find_none in E; [| apply list_elem_of_In, Hin].
  apply unbound_is_unbound in Hu. congruence.
Qed.

End Undefined_symbols.

(** * [compile()] as a whole *)

Section Compile.

Context {isa : Instruction}.
Variable operators : list string.
Variable builtins : list string.
Variable isSpecific : string -> option Z.
Variable stem : string -> string.
Variable to_string : float -> string.
Variable hash256 : list Z -> list Z.
Variable ARK_VERSION_MAJOR : Z.
Variable ARK_VERSION_MINOR : Z.
Variable ARK_VERSION_PATCH : Z.

Local Abbreviation compile' :=
  (compile operators builtins isSpecific stem to_string hash256
     ARK_VERSION_MAJOR ARK_VERSION_MINOR ARK_VERSION_PATCH).
Local Abbreviation header' :=
  (header ARK_VERSION_MAJOR ARK_VERSION_MINOR ARK_VERSION_PATCH).

(** The first three statements of [compile()]: the header, the empty page 0
    and the lowering of the AST into it. *)
Definition lower (ast : Node) (timestamp : Z) (st : Compiler) : Res unit * Compiler :=
  _compile operators builtins isSpecific ast 0
    (set_code_pages (m_code_pages st ++ [[]]) (emitted (header' timestamp) st)).

(** What [compile()] stores as the hash of [data]. *)
Definition digest (data : list Z) : list Z :=
  take k_digest_size (hash256 data ++ repeat 0 k_digest_size).

(** Everything after the header and the hash: the tables and the code
    segments. *)
Definition body (st : Compiler) : list Z :=
  tables to_string (m_symbols st) (m_values st) ++ segments (m_code_pages st).

Lemma lower_bytecode ast timestamp st st1 :
  lower ast timestamp st = (Ok tt, st1) ->
  m_bytecode st1 = m_bytecode st ++ header' timestamp.
Proof.
  intros H. apply Ext_compile in H. rewrite (grow_bytecode _ _ _ H). reflexivity.
Qed.

(** [compile()] on a compiler whose container is still empty. *)
Lemma compile_run ast timestamp st :
  m_bytecode st = [] ->
  compile' ast timestamp st =
  match lower ast timestamp st with
  | (Ok _, st1) =>
      match find (unbound stem st1) (m_symbols st1) with
      | Some sym => (Err (unbound_error sym), st1)
      | None =>
          (Ok tt, set_bytecode (header' timestamp ++ digest (body st1) ++ body st1) st1)
      end
  | (Err e, st1) => (Err e, st1)
  end.
Proof.
  intros Hb. unfold compile.
  rewrite (bind_run _ _ _ _ _ (Emits_pushHeadersPhase1 _ _ _ _ _)).
  rewrite modify_bind_run. unfold bind at 1.
  change (_compile operators builtins isSpecific ast 0 _) with (lower ast timestamp st).
  destruct (lower ast timestamp st) as [[[]|e] st1] eqn:EL; [| reflexivity].
  pose proof (lower_bytecode _ _ _ _ EL) as Hb1. rewrite Hb in Hb1. simpl in Hb1.
  unfold bind at 1. rewrite checkForUndefinedSymbol_run.
  destruct (find _ _); [reflexivity |].
  rewrite (bind_run _ _ _ _ _ (Emits_pushHeadersPhase2 _ _)).
  rewrite (bind_run _ _ _ _ _ (Emits_pushCodeSegments _)).
  rewrite emitted_emitted. unfold insertHash. rewrite get_bind_run.
  unfold modify, emitted, set_bytecode. simpl. rewrite Hb1. fold (body st1).
  rewrite take_app_length' by reflexivity.
  rewrite drop_app_length' by reflexivity. reflexivity.
Qed.

Lemma compile_Ok ast timestamp st st' :
  m_bytecode st = [] ->
  compile' ast timestamp st = (Ok tt, st') ->
  exists st1,
    lower ast timestamp st = (Ok tt, st1) /\
    Forall (fun sym => ~ is_unbound stem st1 sym) (m_symbols st1) /\
    st' = set_bytecode (header' timestamp ++ digest (body st1) ++ body st1) st1.
Proof.
  intros Hb H. rewrite (compile_run _ _ _ Hb) in H.
  destruct (lower ast timestamp st) as [[[]|e] st1] eqn:EL; [| discriminate].
  destruct (find _ _) eqn:EF; [discriminate |]. injection H as <-.
  exists st1. split; [reflexivity |]. split; [| reflexivity].
  apply Forall_forall. intros sym Hs Hu. apply unbound_is_unbound in Hu.
  eapply find_none in EF; [| apply list_elem_of_In, Hs]. congruence.
Qed.

(** [compile()] always allocates page 0. *)
Lemma lower_code_pages ast timestamp st st1 :
  lower ast timestamp st = (Ok tt, st1) -> m_code_pages st1 <> [].
Proof.
  intros H. apply Ext_compile in H.
  destruct (grow_page _ _ _ H (Z.of_nat (length (m_code_pages st))) []) as (c & Hc & _).
  - unfold page. replace (0 <=? _) with true by (symmetry; apply Z.leb_le; lia).
    simpl. rewrite Nat2Z.id, lookup_app_r by lia.
    rewrite Nat.sub_diag. reflexivity.
  - unfold page in Hc. replace (0 <=? _) with true in Hc by (symmetry; apply Z.leb_le; lia).
    intros E. rewrite E in Hc. discriminate.
Qed.

(** C1. After [compile()] has finished, the 32 bytes at offsets 18..49 of
    the bytecode are the SHA-256 digest of every byte from offset 50 to the
    end, and these bytes are the tables followed by the code segments: for
    every AST, the hash stored right after the 18-byte header is the hash of
    the post-header region. *)
Theorem compile_hash ast timestamp st st' :
  (forall data, length (hash256 data) = k_digest_size) ->
  m_bytecode st = [] ->
  compile' ast timestamp st = (Ok tt, st') ->
  take 32 (drop 18 (m_bytecode st')) = hash256 (drop 50 (m_bytecode st')) /\
  take 18 (m_bytecode st') = header' timestamp /\
  drop 50 (m_bytecode st') = body st'.
Proof.
  intros Hlen Hb H. destruct (compile_Ok _ _ _ _ Hb H) as (st1 & _ & _ & ->).
  change (m_bytecode (set_bytecode ?v _)) with v.
  change (body (set_bytecode _ st1)) with (body st1).
  assert (digest (body st1) = hash256 (body st1)) as Hd.
  { unfold digest. rewrite take_app_length' by (symmetry; apply Hlen). reflexivity. }
  assert (length (digest (body st1)) = 32%nat) as Hl by (rewrite Hd; apply Hlen).
  assert (drop 50 (header' timestamp ++ digest (body st1) ++ body st1) = body st1) as Hdrop.
  { rewrite app_assoc. apply drop_app_length'. rewrite length_app, Hl. reflexivity. }
  rewrite Hdrop. split; [| split; [apply take_app_length'; reflexivity | reflexivity]].
  rewrite (drop_app_length' _ _ 18) by reflexivity.
  rewrite take_app_length' by (symmetry; exact Hl). exact Hd.
Qed.

Lemma hi_byte_div n : 0 <= n < 65536 -> hi_byte n = n / 256.
Proof.
  intros Hn. unfold hi_byte. rewrite Z.shiftr_land.
  change (Z.shiftr 65280 8) with (Z.ones 8).
  rewrite Z.land_ones, Z.shiftr_div_pow2 by lia.
  change (2 ^ 8) with 256. apply Z.mod_small.
  split; [apply Z.div_pos; lia | apply Z.div_lt_upper_bound; lia].
Qed.

Lemma lo_byte_mod n : lo_byte n = n mod 256.
Proof. unfold lo_byte. change 255 with (Z.ones 8). rewrite Z.land_ones by lia. reflexivity. Qed.

(** The VM reads back what [pushNumber] wrote. *)
Lemma readNumber2_be16 n :
  0 <= n < 65536 -> readNumber2 (hi_byte n) (lo_byte n) = n.
Proof.
  intros Hn. unfold readNumber2. rewrite hi_byte_div, lo_byte_mod by exact Hn.
  rewrite Z.shiftl_mul_pow2 by lia. change (2 ^ 8) with 256.
  pose proof (Z.div_mod n 256 ltac:(lia)). lia.
Qed.

(** C7, as the code has it. In the container [compile()] produces, each
    code page is serialised as the [CODE_SEGMENT_START] byte, a big-endian
    [u16] that holds the page's byte count plus one modulo 2^16, the page's
    bytes and a trailing [HALT]; for a page of fewer than 65535 bytes the
    length read back is the byte count plus one. With no code page a single
    segment of length 1 holding just [HALT] is emitted; [compile()] always
    has a page, so every container has a code segment and every segment
    ends with [HALT]. *)
Theorem compile_code_segments ast timestamp st st' :
  m_bytecode st = [] ->
  compile' ast timestamp st = (Ok tt, st') ->
  m_code_pages st' <> [] /\
  m_bytecode st' =
    header' timestamp ++ digest (body st') ++
    tables to_string (m_symbols st') (m_values st') ++
    concat (map (fun page =>
                   CODE_SEGMENT_START :: be16 (u16 (Z.of_nat (length page) + 1)) ++
                   page ++ [HALT])
              (m_code_pages st')) /\
  (forall page, page ∈ m_code_pages st' -> Z.of_nat (length page) < 65535 ->
     readNumber2 (hi_byte (u16 (Z.of_nat (length page) + 1)))
       (lo_byte (u16 (Z.of_nat (length page) + 1))) = Z.of_nat (length page) + 1) /\
  (forall s, m_code_pages s = [] ->
     pushCodeSegments s = (Ok tt, emitted [CODE_SEGMENT_START; 0; 1; HALT] s)).
Proof.
  intros Hb H. destruct (compile_Ok _ _ _ _ Hb H) as (st1 & HL & _ & ->).
  pose proof (lower_code_pages _ _ _ _ HL) as Hne.
  split; [exact Hne |]. split; [| split].
  - change (m_bytecode (set_bytecode ?v _)) with v.
    change (m_symbols (set_bytecode _ st1)) with (m_symbols st1).
    change (m_values (set_bytecode _ st1)) with (m_values st1).
    change (m_code_pages (set_bytecode _ st1)) with (m_code_pages st1).
    change (body (set_bytecode _ st1)) with (body st1). unfold body at 2.
    unfold segments. destruct (m_code_pages st1); [contradiction | reflexivity].
  - intros page _ Hlt. unfold u16. rewrite Z.mod_small by lia.
    apply readNumber2_be16. lia.
  - intros s Hs. pose proof (Emits_pushCodeSegments s) as E. rewrite Hs in E. exact E.
Qed.

End Compile.

(** * The symbol table *)

Lemma find_index_Some {A} (pred : A -> bool) l d :
  find_index pred l = Some d ->
  (d < length l)%nat /\ exists a, l !! d = Some a /\ pred a = true.
Proof.
  revert d. induction l as [|a l IH]; intros d; simpl; [discriminate |].
  destruct (pred a) eqn:Ea.
  - intros E. simplify_eq. split; [lia | eauto].
  - destruct (find_index pred l) as [d'|]; simpl; [| discriminate].
    intros E. simplify_eq. destruct (IH d' eq_refl) as (Hd & b & Hb & Hp).
    split; [lia | eauto].
Qed.

Lemma find_index_None {A} (pred : A -> bool) l :
  find_index pred l = None <-> Forall (fun a => pred a = false) l.
Proof.
  induction l as [|a l IH]; simpl.
  - split; [constructor | reflexivity].
  - destruct (pred a) eqn:Ea.
    + split; [discriminate | intros H; inversion H; congruence].
    + destruct (find_index pred l); simpl.
      * split; [discriminate |]. intros H. inversion H; subst.
        apply IH in H3. discriminate.
      * split; [| reflexivity]. intros _. constructor; [exact Ea | apply IH; reflexivity].
Qed.

Lemma find_index_app_l {A} (pred : A -> bool) l l' d :
  find_index pred l = Some d -> find_index pred (l ++ l') = Some d.
Proof.
  revert d. induction l as [|a l IH]; intros d; simpl; [discriminate |].
  destruct (pred a); [auto |].
  destruct (find_index pred l) as [d'|]; simpl; [| discriminate].
  intros E. simplify_eq. rewrite (IH d' eq_refl). reflexivity.
Qed.

Lemma find_index_snoc {A} (pred : A -> bool) l a :
  find_index pred l = None -> pred a = true ->
  find_index pred (l ++ [a]) = Some (length l).
Proof.
  intros HN Ha. induction l as [|b l IH]; simpl in *.
  - rewrite Ha. reflexivity.
  - destruct (pred b); [discriminate |].
    destruct (find_index pred l); [discriminate |]. rewrite IH by reflexivity. reflexivity.
Qed.

(** The name is the name of a symbol of the table. *)
Definition known (name : string) (symbols : list Node) : Prop :=
  exists sym, sym ∈ symbols /\ string_of sym = name.

Definition too_many_symbols (sym : Node) : Error :=
  CompilationError "Too many symbols (exceeds 65'536), aborting compilation." (Some sym).

(** The index [addSymbol] gives for the table position [d]. *)
Definition symbol_index (sym : Node) (d : nat) : Res Z :=
  if Z.of_nat d <? uint16_max then Ok (Z.of_nat d) else Err (too_many_symbols sym).

Lemma addSymbol_run sym st :
  addSymbol sym st =
  match find_index (fun sym_node => String.eqb (string_of sym_node) (string_of sym))
          (m_symbols st) with
  | Some d => (symbol_index sym d, st)
  | None => (symbol_index sym (length (m_symbols st)), set_symbols (m_symbols st ++ [sym]) st)
  end.
Proof.
  unfold addSymbol, symbol_index. rewrite get_bind_run.
  destruct (find_index _ _) as [d|]; unfold bind, ret, modify; simpl.
  - destruct (Z.of_nat d <? uint16_max) eqn:E; [| reflexivity].
    apply Z.ltb_lt in E. unfold u16, uint16_max in *. rewrite Z.mod_small by lia. reflexivity.
  - destruct (_ <? uint16_max) eqn:E; [| reflexivity].
    apply Z.ltb_lt in E. unfold u16, uint16_max in *. rewrite Z.mod_small by lia. reflexivity.
Qed.

Lemma find_index_known sym symbols :
  find_index (fun sym_node => String.eqb (string_of sym_node) (string_of sym)) symbols = None <->
  ~ known (string_of sym) symbols.
Proof.
  rewrite find_index_None, Forall_forall. split.
  - intros H (s & Hs & E). specialize (H s Hs). simpl in H.
    rewrite E, String.eqb_refl in H. discriminate.
  - intros H s Hs. simpl. destruct (String.eqb_spec (string_of s) (string_of sym)) as [E|E];
      [| reflexivity]. contradiction H. exists s. auto.
Qed.

(** C6. [addSymbol] is idempotent by name equality: a second call with a
    node of the same name returns the same index and leaves the compiler,
    so the symbol table, unchanged; a new name is appended and receives the
    previous length of the table as its index; every index returned lies in
    [0, 2^16); and asking for the index of the 65 536th distinct symbol is a
    compile error, not an index. *)
Theorem addSymbol_idempotent sym sym' st :
  let r := fst (addSymbol sym st) in
  let st1 := snd (addSymbol sym st) in
  (string_of sym' = string_of sym ->
     snd (addSymbol sym' st1) = st1 /\
     forall i, r = Ok i -> fst (addSymbol sym' st1) = Ok i) /\
  (~ known (string_of sym) (m_symbols st) ->
     m_symbols st1 = m_symbols st ++ [sym] /\
     forall i, r = Ok i -> i = Z.of_nat (length (m_symbols st))) /\
  (known (string_of sym) (m_symbols st) -> st1 = st) /\
  (forall i, r = Ok i -> 0 <= i < 65536) /\
  (~ known (string_of sym) (m_symbols st) -> length (m_symbols st) = Z.to_nat 65535 ->
     r = Err (too_many_symbols sym)).
Proof.
  cbv zeta. rewrite (addSymbol_run sym st).
  set (pred := fun sym_node => String.eqb (string_of sym_node) (string_of sym)).
  assert (forall d i, symbol_index sym d = Ok i ->
            i = Z.of_nat d /\ 0 <= i < 65535 /\ forall s, symbol_index s d = Ok i) as Hidx.
  { intros d i. unfold symbol_index, uint16_max.
    destruct (Z.of_nat d <? 65535) eqn:E; intros H; simplify_eq.
    apply Z.ltb_lt in E. repeat split; lia. }
  destruct (find_index pred (m_symbols st)) as [d|] eqn:EF; simpl.
  - assert (known (string_of sym) (m_symbols st)) as Hk.
    { destruct (find_index_Some _ _ _ EF) as (_ & a & Ha & Hp).
      exists a. split; [eapply list_elem_of_lookup_2, Ha | apply String.eqb_eq, Hp]. }
    split; [| split; [| split; [| split]]].
    + intros En. rewrite (addSymbol_run sym' st), En. fold pred. rewrite EF. simpl.
      split; [reflexivity |]. intros i Hi. apply Hidx in Hi as (_ & _ & Hi). apply Hi.
    + intros Hn. contradiction.
    + reflexivity.
    + intros i Hi. apply Hidx in Hi. lia.
    + intros Hn. contradiction.
  - assert (~ known (string_of sym) (m_symbols st)) as Hk by (apply find_index_known, EF).
    split; [| split; [| split; [| split]]].
    + intros En. rewrite addSymbol_run, En. fold pred. simpl m_symbols.
      rewrite (find_index_snoc pred _ sym EF) by apply String.eqb_refl. simpl.
      split; [reflexivity |]. intros i Hi. apply Hidx in Hi as (_ & _ & Hi). apply Hi.
    + intros _. split; [reflexivity |]. intros i Hi. apply Hidx in Hi. lia.
    + intros Hn. contradiction.
    + intros i Hi. apply Hidx in Hi. lia.
    + intros _ Hlen. unfold symbol_index, uint16_max. rewrite Hlen, Z2Nat.id by lia.
      reflexivity.
Qed.

(** * Specific forms *)

Section Specific.

Context {isa : Instruction}.
Variable isSpecific : string -> option Z.

(** The opcode takes its operand from the number of arguments less one. *)
Definition takes_argc_minus_one (inst : Z) : Prop :=
  inst = APPEND \/ inst = APPEND_IN_PLACE \/ inst = CONCAT \/ inst = CONCAT_IN_PLACE.

Lemma takes_argc_minus_one_test inst :
  (inst =? APPEND) || (inst =? APPEND_IN_PLACE) || (inst =? CONCAT) ||
  (inst =? CONCAT_IN_PLACE) = true <-> takes_argc_minus_one inst.
Proof. unfold takes_argc_minus_one. rewrite !orb_true_iff, !Z.eqb_eq. tauto. Qed.

Lemma countArkObjects_cons c0 args :
  isGetField c0 = false ->
  countArkObjects (c0 :: args) - 1 =
  Z.of_nat (length (filter (fun node => negb (isGetField node)) args)).
Proof.
  intros H. unfold countArkObjects. rewrite filter_cons.
  destruct (decide _) as [_|N]; [simpl; lia |].
  contradiction N. rewrite H. reflexivity.
Qed.

End Specific.

(** * Conditionals *)

Section If.

Context {isa : Instruction}.
Variable operators : list string.
Variable builtins : list string.
Variable isSpecific : string -> option Z.

Local Abbreviation _compile' := (_compile operators builtins isSpecific).

Lemma u16_le n : 0 <= n -> 0 <= u16 n <= n.
Proof.
  intros H. unfold u16. split; [apply Z.mod_pos_bound; lia |].
  apply Z.mod_le; lia.
Qed.

(** C2, as the code has it. For an [(if cond then)] or [(if cond then
    else)] node, [compileIf] emits onto the current page, in order: the code
    of [cond], [POP_JUMP_IF_TRUE] and its operand, the code of [else] when
    there is one, [JUMP] and its operand, then the code of [then]. The
    operands are first the placeholder 0; the operand of [POP_JUMP_IF_TRUE]
    is back-patched to the page offset [A] at which the code of [then]
    begins, and the operand of [JUMP] to the page offset [B] just after it,
    both converted to [uint16_t]: the operands are [A] and [B] modulo 2^16,
    they lie within the page, and they are [A] and [B] themselves when the
    page stays shorter than 65536 bytes. *)
Theorem compileIf_layout kw cond then_ (else_ : option Node) pos p st st' pg :
  let x := List (kw :: cond :: then_ :: option_list else_) pos in
  page p st = Some pg ->
  compileIf x (map _compile' (constList x)) p st = (Ok tt, st') ->
  exists st1 st2 st3 c_cond c_else c_then,
    _compile' cond p st = (Ok tt, st1) /\
    page p st1 = Some (pg ++ c_cond) /\
    let P1 := pg ++ c_cond ++ [POP_JUMP_IF_TRUE; 0; 0] in
    match else_ with
    | Some e => _compile' e p (set_page p P1 st1) = (Ok tt, st2)
    | None => st2 = set_page p P1 st1 /\ c_else = []
    end /\
    page p st2 = Some (P1 ++ c_else) /\
    let A := Z.of_nat (length (P1 ++ c_else ++ [JUMP; 0; 0])) in
    let P2 := pg ++ c_cond ++ POP_JUMP_IF_TRUE :: be16 (u16 A) ++ c_else ++ [JUMP; 0; 0] in
    _compile' then_ p (set_page p P2 st2) = (Ok tt, st3) /\
    page p st3 = Some (P2 ++ c_then) /\
    let B := A + Z.of_nat (length c_then) in
    let P3 := pg ++ c_cond ++ POP_JUMP_IF_TRUE :: be16 (u16 A) ++ c_else ++
              JUMP :: be16 (u16 B) ++ c_then in
    page p st' = Some P3 /\
    B = Z.of_nat (length P3) /\
    0 <= u16 A <= A /\ A <= B /\ 0 <= u16 B <= B /\
    (B < 65536 ->
       readNumber2 (hi_byte (u16 A)) (lo_byte (u16 A)) = A /\
       readNumber2 (hi_byte (u16 B)) (lo_byte (u16 B)) = B).
Proof.
  intros x Hp H.
  pose proof (ChildrenExt_compile operators builtins isSpecific (constList x)) as HA.
  destruct (compileIf_run _ _ _ _ _ _ HA Hp H)
    as (st1 & c1 & st2 & c2 & st3 & c3 & E1 & Hp1 & E2 & Hp2 & E3 & Hp3 & ->).
  exists st1, st2, st3, c1, c2, c3. cbv zeta.
  set (P1 := pg ++ c1 ++ [POP_JUMP_IF_TRUE; 0; 0]) in *.
  set (A := Z.of_nat (length (P1 ++ c2 ++ [JUMP; 0; 0]))) in *.
  set (P2 := pg ++ c1 ++ POP_JUMP_IF_TRUE :: be16 (u16 A) ++ c2 ++ [JUMP; 0; 0]) in *.
  assert (Z.of_nat (length (P2 ++ c3)) = A + Z.of_nat (length c3)) as EB.
  { subst P2 A P1. unfold be16. repeat (rewrite length_app; simpl). lia. }
  rewrite EB in *.
  set (B := A + Z.of_nat (length c3)) in *.
  split; [exact E1 |]. split; [exact Hp1 |].
  split.
  { subst x. destruct else_ as [e|]; cbn [constList option_list length] in E2.
    - exact E2.
    - simpl in E2. unfold ret in E2. injection E2 as <-. split; [reflexivity |].
      rewrite (page_set_page_same p P1 _ _ Hp1) in Hp2. injection Hp2 as Hp2.
      rewrite <- (app_nil_r P1) in Hp2 at 1. apply app_inv_head in Hp2. auto. }
  split; [exact Hp2 |]. split; [exact E3 |]. split; [exact Hp3 |].
  split; [apply (page_set_page_same _ _ _ _ Hp3) |].
  assert (0 <= A) by (subst A; lia).
  split.
  { subst B A P1. unfold be16. repeat (rewrite length_app; simpl). lia. }
  split; [apply u16_le; lia |]. split; [subst B; lia |].
  split; [apply u16_le; subst B; lia |].
  intros HB. unfold u16. rewrite !Z.mod_small by (subst B; lia).
  split; apply readNumber2_be16; subst B; lia.
Qed.

End If.

(** * Calls of operators *)

Lemma bind_assoc {A B C} (m : M A) (f : A -> M B) (g : B -> M C) st :
  bind (bind m f) g st = bind m (fun a => bind (f a) g) st.
Proof. unfold bind. destruct (m st) as [[a|e] st1]; reflexivity. Qed.

Lemma bind_ext {A B} (m : M A) (f g : A -> M B) st :
  (forall a s, f a s = g a s) -> bind m f st = bind m g st.
Proof. intros H. unfold bind. destruct (m st) as [[a|e] st1]; [apply H | reflexivity]. Qed.

(** An argument that counts as an expression of its own. *)
Definition plain (c : Node) : bool := negb (isGetField c) && negb (isCapture c).

(** The number of expressions the operator loop counts from [index] on, over
    [count] children. *)
Definition count_ends (l : list Node) (index count : nat) : nat :=
  length (filter (fun i => expressionEnds l i = true) (seq index count)).

Lemma count_ends_S l index count :
  count_ends l index (S count) =
  ((if expressionEnds l index then 1 else 0) + count_ends l (S index) count)%nat.
Proof.
  unfold count_ends. simpl seq. rewrite filter_cons.
  destruct (expressionEnds l index); destruct (decide _); simpl; congruence.
Qed.

Lemma expressionEnds_last l index : S index = length l -> expressionEnds l index = true.
Proof.
  intros H. unfold expressionEnds. replace (index + 1)%nat with (length l) by lia.
  rewrite Nat.eqb_refl. apply orb_true_r.
Qed.

Lemma expressionEnds_inner l index c :
  l !! S index = Some c -> expressionEnds l index = plain c.
Proof.
  intros H. pose proof (lookup_lt_Some _ _ _ H) as Hlt.
  unfold expressionEnds. replace (index + 1)%nat with (S index) by lia. rewrite H.
  replace (S index <? length l)%nat with true by (symmetry; apply Nat.ltb_lt; lia).
  replace (S index =? length l)%nat with false by (symmetry; apply Nat.eqb_neq; lia).
  rewrite orb_false_r. reflexivity.
Qed.

Lemma count_ends_pos l index count :
  (index + S count = length l)%nat -> (1 <= count_ends l index (S count))%nat.
Proof.
  revert index. induction count as [|count IH]; intros index H.
  - rewrite count_ends_S, expressionEnds_last by lia. simpl. lia.
  - rewrite count_ends_S. specialize (IH (S index) ltac:(lia)). lia.
Qed.

Lemma count_ends_plain pre c rest :
  count_ends (pre ++ c :: rest) (length pre) (S (length rest)) =
  S (length (filter (fun c => plain c = true) rest)).
Proof.
  revert pre c. induction rest as [|c' rest IH]; intros pre c.
  - rewrite count_ends_S, expressionEnds_last by (rewrite length_app; simpl; lia).
    reflexivity.
  - cbn [length]. rewrite count_ends_S.
    rewrite (expressionEnds_inner _ _ c').
    2:{ rewrite lookup_app_r by lia. replace (S (length pre) - length pre)%nat with 1%nat by lia.
        reflexivity. }
    specialize (IH (pre ++ [c]) c'). rewrite <- app_assoc, length_app in IH.
    cbn [app length] in IH. rewrite Nat.add_1_r in IH. rewrite IH.
    rewrite filter_cons. destruct (plain c'); destruct (decide _); simpl; congruence.
Qed.

Lemma bind_assoc_run {A B} (m : M A) (f : A -> M unit) (g : M B) st :
  (x <- m ;; f x ;;; g) st = ((x <- m ;; f x) ;;; g) st.
Proof. unfold bind. destruct (m st) as [[a|e] st1]; reflexivity. Qed.

Section Operators.

Context {isa : Instruction}.
Variable operators : list string.
Variable builtins : list string.
Variable isSpecific : string -> option Z.

Local Abbreviation _compile' := (_compile operators builtins isSpecific).

(** The operator loop when it counts at most two expressions in all: the
    operator is not pushed before the last child; after the last child it
    is pushed when the count has reached two. *)
Lemma handleCallsOperands_few l (acts : children_t) op_inst count index exp_count p st :
  (index + count = length l)%nat ->
  (exp_count + count_ends l index count <= 2)%nat ->
  (0 < count)%nat ->
  handleCallsOperands l acts op_inst count index exp_count p st =
  (for_each (fun i => compileChild acts i p) (seq index count) ;;;
   (if (2 <=? exp_count + count_ends l index count)%nat then page_push p op_inst else ret tt) ;;;
   ret (exp_count + count_ends l index count)%nat) st.
Proof.
  revert index exp_count st. induction count as [|count IH]; intros index e st Hsz Hle Hpos;
    [lia |].
  cbn [handleCallsOperands seq for_each]. rewrite count_ends_S in *.
  rewrite bind_assoc. apply bind_ext. intros [] st1.
  destruct count as [|count].
  - (* the last child *)
    unfold count_ends in *. cbn [seq filter list_filter length] in *.
    rewrite expressionEnds_last in * by lia. rewrite Nat.add_0_r in *.
    replace (e + 1)%nat with (S e) by lia.
    cbn [handleCallsOperands for_each]. unfold bind, ret.
    destruct ((if (2 <=? S e)%nat then page_push p op_inst else _) st1) as [[[]|err] st2];
      reflexivity.
  - pose proof (count_ends_pos l (S index) count ltac:(lia)) as Hc.
    assert ((if expressionEnds l index then S e else e)
            = (e + (if expressionEnds l index then 1 else 0))%nat) as ->
      by (destruct (expressionEnds l index); lia).
    set (e' := (e + (if expressionEnds l index then 1 else 0))%nat) in *.
    assert (e' <= 1)%nat by lia.
    replace (2 <=? e')%nat with false by (symmetry; apply Nat.leb_gt; lia).
    unfold bind at 1. unfold ret at 1.
    rewrite IH by lia.
    replace (e + ((if expressionEnds l index then 1 else 0) + count_ends l (S index) (S count)))%nat
      with (e' + count_ends l (S index) (S count))%nat by lia.
    reflexivity.
Qed.

(** The callee part of [handleCalls] when the callee is the symbol of an
    operator and no field follows it: the operator's byte goes to a temp
    page, which is popped again, and the operands are compiled. *)
Lemma handleCalls_operator name pos0 args pos k p st :
  let callee := Symbol name pos0 in
  let op_inst := u8 (FIRST_OPERATOR + Z.of_nat k) in
  isBuiltin builtins name = None ->
  isOperator operators name = Some k ->
  match args with a :: _ => isGetField a = false | [] => True end ->
  handleCalls operators (List (callee :: args) pos) (map _compile' (callee :: args)) p st =
  (exp_count <- handleCallsOperands (callee :: args) (map _compile' (callee :: args))
                  op_inst (length args) 1 0 p ;;
   (if (exp_count =? 1)%nat then page_push p op_inst else ret tt) ;;;
   if (2 <? exp_count)%nat
   then checkChainedOperator operators (List (callee :: args) pos) op_inst exp_count
   else ret tt) st.
Proof.
  intros callee op_inst HB HO Hargs. unfold handleCalls.
  rewrite modify_bind_run, get_bind_run.
  set (st1 := set_temp_pages (m_temp_pages st ++ [[]]) st).
  set (proc_page := - Z.of_nat (length (m_temp_pages st1))).
  assert (page proc_page st1 = Some []) as Hq.
  { unfold page, proc_page, st1. cbn [m_temp_pages set_temp_pages].
    rewrite length_app. cbn [length].
    replace (0 <=? _) with false by (symmetry; apply Z.leb_gt; lia).
    replace (Z.to_nat _) with (length (m_temp_pages st)) by lia.
    rewrite lookup_app_r, Nat.sub_diag by lia. reflexivity. }
  assert (compileChild (map _compile' (callee :: args)) 0 proc_page st1 =
          (Ok tt, set_page proc_page [op_inst] st1)) as E0.
  { unfold compileChild. cbn [map lookup list_lookup]. subst callee. cbn [_compile].
    unfold compileNode. cbn [nodeType NodeType.eqb]. unfold compileSymbol.
    cbn [string_of]. rewrite HB, HO. apply (page_push_run _ _ _ _ Hq). }
  rewrite (bind_run _ _ _ _ _ E0). cbn [constList length].
  replace (S (length args) - 1)%nat with (length args) by lia.
  assert (handleCallsFields (callee :: args) (map _compile' (callee :: args))
            (length args) 1 proc_page (set_page proc_page [op_inst] st1) =
          (Ok 1%nat, set_page proc_page [op_inst] st1)) as E1.
  { destruct args as [|a args]; [reflexivity |].
    cbn [length handleCallsFields lookup list_lookup]. rewrite Hargs. reflexivity. }
  rewrite (bind_run _ _ _ _ _ E1).
  assert (m_temp_pages (set_page proc_page [op_inst] st1) = m_temp_pages st ++ [[op_inst]]) as ET.
  { unfold set_page, proc_page, st1. cbn [m_temp_pages set_temp_pages].
    rewrite length_app. cbn [length].
    replace (0 <=? _) with false by (symmetry; apply Z.leb_gt; lia).
    cbn [m_temp_pages set_temp_pages].
    replace (Z.to_nat _) with (length (m_temp_pages st) + 0)%nat by lia.
    rewrite insert_app_r. reflexivity. }
  assert (temp_back (set_page proc_page [op_inst] st1) =
          (Ok [op_inst], set_page proc_page [op_inst] st1)) as E2.
  { unfold temp_back. rewrite get_bind_run, ET, last_snoc. reflexivity. }
  rewrite (bind_run _ _ _ _ _ E2). cbn [length Z.of_nat Z.ltb Z.compare Pos.compare
    Pos.compare_cont lookup list_lookup].
  assert (temp_pop_back (set_page proc_page [op_inst] st1) = (Ok tt, st)) as E3.
  { unfold temp_pop_back. rewrite get_bind_run, ET.
    destruct (m_temp_pages st ++ [[op_inst]]) eqn:E; [destruct (m_temp_pages st); discriminate |].
    rewrite <- E, removelast_last. unfold modify. f_equal.
    unfold set_page, proc_page, st1, set_temp_pages. cbn [m_temp_pages].
    rewrite length_app. cbn [length].
    replace (0 <=? _) with false by (symmetry; apply Z.leb_gt; lia).
    destruct st; reflexivity. }
  change (1 <? Z.of_nat 1) with false. cbv iota.
  replace (S (length args) - 1)%nat with (length args) by lia.
  rewrite (bind_run _ _ _ _ _ E3). reflexivity.
Qed.

Lemma for_each_compileChild_map (l : list Node) (pre : list (Z -> M unit)) p st :
  for_each (fun i => compileChild (pre ++ map _compile' l) i p)
    (seq (length pre) (length l)) st =
  for_each (fun a => _compile' a p) l st.
Proof.
  revert pre st. induction l as [|a l IH]; intros pre st; [reflexivity |].
  cbn [length seq for_each map]. unfold bind.
  unfold compileChild at 1. rewrite lookup_app_r, Nat.sub_diag by lia. cbn [lookup list_lookup].
  destruct (_compile' a p st) as [[[]|e] st1]; [| reflexivity].
  specialize (IH (pre ++ [_compile' a]) st1).
  rewrite <- app_assoc, length_app in IH. cbn [app length] in IH.
  rewrite Nat.add_1_r in IH. exact IH.
Qed.

(** C10. For a call of an operator with exactly one argument that is
    neither a [GetField] nor a [Capture], such as [(not A)], [handleCalls]
    compiles the arguments in order and then emits the operator's byte
    once: on the page, the code of the argument is followed by exactly one
    operator byte, though the loop emits the operator only from the second
    expression on. *)
Theorem handleCalls_unary name pos0 args pos k p st :
  let callee := Symbol name pos0 in
  let op_inst := u8 (FIRST_OPERATOR + Z.of_nat k) in
  let x := List (callee :: args) pos in
  isBuiltin builtins name = None ->
  isOperator operators name = Some k ->
  match args with a :: _ => isGetField a = false | [] => True end ->
  length (filter (fun c => plain c = true) args) = 1%nat ->
  handleCalls operators x (map _compile' (constList x)) p st =
    (for_each (fun a => _compile' a p) args ;;; page_push p op_inst) st /\
  forall st' pg,
    page p st = Some pg ->
    handleCalls operators x (map _compile' (constList x)) p st = (Ok tt, st') ->
    exists st1 code,
      for_each (fun a => _compile' a p) args st = (Ok tt, st1) /\
      page p st1 = Some (pg ++ code) /\
      st' = set_page p (pg ++ code ++ [op_inst]) st1.
Proof.
  intros callee op_inst x HB HO Hargs Hone. subst x. cbn [constList].
  assert (handleCalls operators (List (callee :: args) pos) (map _compile' (callee :: args)) p st =
          (for_each (fun a => _compile' a p) args ;;; page_push p op_inst) st) as Hrun.
  { subst callee.
    rewrite (handleCalls_operator name pos0 args pos k p st HB HO Hargs).
    fold op_inst.
    destruct args as [|a args]; [discriminate Hone |].
    pose proof (count_ends_plain [Symbol name pos0] a args) as Hc. cbn [app length] in Hc.
    rewrite filter_cons in Hone.
    unfold bind at 1.
    rewrite handleCallsOperands_few;
      [| cbn [length]; lia
       | cbn [length]; rewrite Hc; destruct (decide (plain a = true)); simpl in Hone; lia
       | cbn [length]; lia].
    cbn [length]. rewrite Hc.
    pose proof (for_each_compileChild_map (a :: args) [_compile' (Symbol name pos0)] p) as Hf.
    cbn [app length map] in Hf.
    unfold bind. cbn [map]. rewrite Hf.
    destruct (for_each _ (a :: args) st) as [[[]|e] st1]; [| reflexivity].
    destruct (decide (plain a = true)); simpl in Hone.
    - replace (length (filter (fun c => plain c = true) args)) with 0%nat by lia.
      simpl. unfold ret. destruct (page_push p op_inst st1) as [[[]|e'] st2]; reflexivity.
    - replace (length (filter (fun c => plain c = true) args)) with 1%nat by lia.
      simpl. unfold ret. destruct (page_push p op_inst st1) as [[[]|e'] st2]; reflexivity. }
  split; [exact Hrun |].
  intros st' pg Hp H. rewrite Hrun in H.
  apply bind_Ok in H as ([] & st1 & E1 & H).
  assert (ext p st st1) as Hext.
  { revert E1. apply Grow_for_each. intros a _. apply Ext_compile. }
  destruct (ext_page _ _ _ _ Hext Hp) as (code & Hp1).
  apply page_push_Ok in H as (pg' & Hp' & ->). rewrite Hp1 in Hp'. injection Hp' as <-.
  exists st1, code. split; [exact E1 |]. split; [exact Hp1 |].
  rewrite <- app_assoc. reflexivity.
Qed.

End Operators.

(** * The sample environment, run *)

Lemma Sample_hash256_length data : length (Sample.hash256 data) = k_digest_size.
Proof.
  unfold Sample.hash256. rewrite length_take, length_app, repeat_length. unfold k_digest_size. lia.
Qed.

Example compile_product :
  Sample.compile Sample.product 1600000000 Compiler_new = (Ok tt, Sample.product_compiled) /\
  m_code_pages Sample.product_compiled = [[2; 0; 0; 5; 0; 0; 2; 0; 1; 5; 0; 1;
                                           1; 0; 0; 1; 0; 1; 34]] /\
  length (m_bytecode Sample.product_compiled) = 103%nat.
Proof. vm_compute. repeat split. Qed.

(** Scenario 5 of the specification: [b] is used and never bound. *)
Example compile_unbound_b :
  exists st,
    Sample.compile Sample.unbound_b 0 Compiler_new =
    (Err (unbound_error (Sample.sym "b")), st).
Proof. eexists. vm_compute. reflexivity. Qed.

Lemma compile_hash_witness :
  take 32 (drop 18 (m_bytecode Sample.product_compiled)) =
    Sample.hash256 (drop 50 (m_bytecode Sample.product_compiled)) /\
  take 18 (m_bytecode Sample.product_compiled) = header 3 0 13 1600000000 /\
  drop 50 (m_bytecode Sample.product_compiled) =
    @body Sample.isa Sample.to_string Sample.product_compiled.
Proof.
  apply (@compile_hash Sample.isa Sample.operators Sample.builtins Sample.isSpecific
           Sample.stem Sample.to_string Sample.hash256 3 0 13
           Sample.product 1600000000 Compiler_new Sample.product_compiled).
  - exact Sample_hash256_length.
  - reflexivity.
  - vm_compute. reflexivity.
Defined.

Lemma compile_code_segments_witness :
  m_code_pages Sample.product_compiled <> [] /\
  m_bytecode Sample.product_compiled =
    header 3 0 13 1600000000 ++
    digest Sample.hash256 (@body Sample.isa Sample.to_string Sample.product_compiled) ++
    @tables Sample.isa Sample.to_string (m_symbols Sample.product_compiled)
      (m_values Sample.product_compiled) ++
    concat (map (fun page =>
                   @CODE_SEGMENT_START Sample.isa ::
                   be16 (u16 (Z.of_nat (length page) + 1)) ++ page ++ [@HALT Sample.isa])
              (m_code_pages Sample.product_compiled)) /\
  (forall page, page ∈ m_code_pages Sample.product_compiled ->
     Z.of_nat (length page) < 65535 ->
     readNumber2 (hi_byte (u16 (Z.of_nat (length page) + 1)))
       (lo_byte (u16 (Z.of_nat (length page) + 1))) = Z.of_nat (length page) + 1) /\
  (forall s, m_code_pages s = [] ->
     @pushCodeSegments Sample.isa s =
     (Ok tt, emitted [@CODE_SEGMENT_START Sample.isa; 0; 1; @HALT Sample.isa] s)).
Proof.
  apply (@compile_code_segments Sample.isa Sample.operators Sample.builtins
           Sample.isSpecific Sample.stem Sample.to_string Sample.hash256 3 0 13
           Sample.product 1600000000 Compiler_new Sample.product_compiled).
  - reflexivity.
  - vm_compute. reflexivity.
Defined.

Example compileIf_if_c_t_e :
  @compileIf Sample.isa Sample.if_c_t_e (map Sample._compile (constList Sample.if_c_t_e)) 0
    Sample.one_page = (Ok tt, Sample.if_compiled) /\
  m_code_pages Sample.if_compiled = [[1; 0; 0; 3; 0; 12; 1; 0; 1; 7; 0; 15; 1; 0; 2]].
Proof. vm_compute. split; reflexivity. Qed.

Lemma compileIf_layout_witness :
  exists st1 st2 st3 c_cond c_else c_then,
    Sample._compile (Sample.sym "c") 0 Sample.one_page = (Ok tt, st1) /\
    page 0 st1 = Some ([] ++ c_cond) /\
    let P1 := [] ++ c_cond ++ [@POP_JUMP_IF_TRUE Sample.isa; 0; 0] in
    Sample._compile (Sample.sym "e") 0 (set_page 0 P1 st1) = (Ok tt, st2) /\
    page 0 st2 = Some (P1 ++ c_else) /\
    let A := Z.of_nat (length (P1 ++ c_else ++ [@JUMP Sample.isa; 0; 0])) in
    let P2 := [] ++ c_cond ++ @POP_JUMP_IF_TRUE Sample.isa :: be16 (u16 A) ++ c_else ++
              [@JUMP Sample.isa; 0; 0] in
    Sample._compile (Sample.sym "t") 0 (set_page 0 P2 st2) = (Ok tt, st3) /\
    page 0 st3 = Some (P2 ++ c_then) /\
    let B := A + Z.of_nat (length c_then) in
    let P3 := [] ++ c_cond ++ @POP_JUMP_IF_TRUE Sample.isa :: be16 (u16 A) ++ c_else ++
              @JUMP Sample.isa :: be16 (u16 B) ++ c_then in
    page 0 Sample.if_compiled = Some P3 /\
    B = Z.of_nat (length P3) /\
    0 <= u16 A <= A /\ A <= B /\ 0 <= u16 B <= B /\
    (B < 65536 ->
       readNumber2 (hi_byte (u16 A)) (lo_byte (u16 A)) = A /\
       readNumber2 (hi_byte (u16 B)) (lo_byte (u16 B)) = B).
Proof.
  apply (@compileIf_layout Sample.isa Sample.operators Sample.builtins Sample.isSpecific
           (Sample.kw Keyword.If) (Sample.sym "c") (Sample.sym "t") (Some (Sample.sym "e"))
           Sample.at_ 0 Sample.one_page Sample.if_compiled []).
  - reflexivity.
  - vm_compute. reflexivity.
Defined.

(** [(append xs 4)] compiles to the arguments in reverse, [APPEND] and the
    operand 1. *)
Example compileSpecific_append_xs_4 :
  exists st,
    Sample._compile Sample.append_xs_4 0 Sample.one_page = (Ok tt, st) /\
    m_code_pages st = [[2; 0; 0; 1; 0; 0; 19; 0; 1]].
Proof. eexists. vm_compute. split; reflexivity. Qed.

Lemma handleCalls_unary_witness :
  let x := Sample.not_a in
  let args := [Sample.sym "a"] in
  let op_inst := u8 (@FIRST_OPERATOR Sample.isa + Z.of_nat 24) in
  @handleCalls Sample.isa Sample.operators x (map Sample._compile (constList x)) 0
    Sample.one_page =
    (for_each (fun a => Sample._compile a 0) args ;;; page_push 0 op_inst) Sample.one_page /\
  forall st' pg,
    page 0 Sample.one_page = Some pg ->
    @handleCalls Sample.isa Sample.operators x (map Sample._compile (constList x)) 0
      Sample.one_page = (Ok tt, st') ->
    exists st1 code,
      for_each (fun a => Sample._compile a 0) args Sample.one_page = (Ok tt, st1) /\
      page 0 st1 = Some (pg ++ code) /\
      st' = set_page 0 (pg ++ code ++ [op_inst]) st1.
Proof.
  apply (@handleCalls_unary Sample.isa Sample.operators Sample.builtins Sample.isSpecific
           "not" Sample.at_ [Sample.sym "a"] Sample.at_ 24 0 Sample.one_page).
  - reflexivity.
  - reflexivity.
  - reflexivity.
  - reflexivity.
Defined.

(** [(not a)] compiles to [LOAD_SYMBOL a] and the byte of [not]. *)
Example handleCalls_not_a :
  exists st,
    Sample._compile Sample.not_a 0 Sample.one_page = (Ok tt, st) /\
    m_code_pages st = [[1; 0; 0; 56]].
Proof. eexists. vm_compute. split; reflexivity. Qed.

(** C3, where the code departs from it. In [(+ a b c.f)] the third argument
    has a field: the loop of [handleCalls] emits the operator after [c]
    and again after the field [f], so the page holds three [ADD] bytes for
    three arguments, one of them between [c] and the [GET_FIELD] that
    belongs to it. Lowering [(+ a b c)] gives [a b ADD c ADD], one operator
    after the second argument and one after the third. *)
Lemma handleCalls_field_after_operator :
  (exists st,
     Sample._compile Sample.sum_with_field 0 Sample.one_page = (Ok tt, st) /\
     m_symbols st = [Sample.sym "a"; Sample.sym "b"; Sample.sym "c"; GetField "f" Sample.at_] /\
     m_code_pages st =
       [[@LOAD_SYMBOL Sample.isa; 0; 0; @LOAD_SYMBOL Sample.isa; 0; 1; @ADD Sample.isa;
         @LOAD_SYMBOL Sample.isa; 0; 2; @ADD Sample.isa;
         @GET_FIELD Sample.isa; 0; 3; @ADD Sample.isa]]) /\
  (exists st,
     Sample._compile (Sample.form [Sample.sym "+"; Sample.sym "a"; Sample.sym "b"; Sample.sym "c"])
       0 Sample.one_page = (Ok tt, st) /\
     m_code_pages st =
       [[@LOAD_SYMBOL Sample.isa; 0; 0; @LOAD_SYMBOL Sample.isa; 0; 1; @ADD Sample.isa;
         @LOAD_SYMBOL Sample.isa; 0; 2; @ADD Sample.isa]]).
Proof. split; eexists; vm_compute; repeat split. Qed.

(** * Pages of more than 65535 bytes

    Nothing in the compiler bounds the size of a page, and the operands of
    the jumps and the length of a segment are converted to [uint16_t]. The
    lemmas below lower a [begin] over many builtins, which is the shortest
    way to a long page. *)

Section Long_pages.

Context {isa : Instruction}.
Variable operators : list string.
Variable builtins : list string.
Variable isSpecific : string -> option Z.

Local Abbreviation _compile' := (_compile operators builtins isSpecific).

(** The code of a symbol that names the builtin of index [k]. *)
Definition load_builtin (k : nat) : list Z := BUILTIN :: be16 (u16 (Z.of_nat k)).

Lemma set_page_id p pg st : page p st = Some pg -> set_page p pg st = st.
Proof.
  unfold page, set_page. destruct st; destruct (0 <=? p); simpl; intros H;
    unfold set_code_pages, set_temp_pages; simpl; rewrite list_insert_id by exact H;
    reflexivity.
Qed.

Lemma length_concat_repeat {A} (c : list A) n :
  length (concat (repeat c n)) = (n * length c)%nat.
Proof. induction n as [|n IH]; simpl; [reflexivity |]. rewrite length_app, IH. reflexivity. Qed.

Lemma _compile_builtin name pos k p st pg :
  isBuiltin builtins name = Some k -> page p st = Some pg ->
  _compile' (Symbol name pos) p st = (Ok tt, set_page p (pg ++ load_builtin k) st).
Proof.
  intros Hk Hp. cbn [_compile]. unfold compileNode. cbn [nodeType NodeType.eqb].
  unfold compileSymbol. cbn [string_of]. rewrite Hk.
  rewrite (bind_run _ _ _ _ _ (page_push_run _ _ _ _ Hp)).
  rewrite (pushNumber_run _ _ _ _ (page_set_page_same _ _ _ _ Hp)).
  rewrite set_page_set_page, <- app_assoc. reflexivity.
Qed.

Lemma for_each_builtin name pos k p n st pg :
  isBuiltin builtins name = Some k -> page p st = Some pg ->
  for_each (fun a => _compile' a p) (repeat (Symbol name pos) n) st =
  (Ok tt, set_page p (pg ++ concat (repeat (load_builtin k) n)) st).
Proof.
  intros Hk. revert st pg. induction n as [|n IH]; intros st pg Hp.
  - cbn [repeat for_each concat]. rewrite app_nil_r, (set_page_id _ _ _ Hp). reflexivity.
  - cbn [repeat for_each concat].
    rewrite (bind_run _ _ _ _ _ (_compile_builtin _ _ _ _ _ _ Hk Hp)).
    rewrite (IH _ _ (page_set_page_same _ _ _ _ Hp)).
    rewrite set_page_set_page, <- app_assoc. reflexivity.
Qed.

(** [(begin a b ...)] lowers its children in order. *)
Lemma _compile_begin kwpos l pos p st :
  _compile' (List (Keyword Keyword.Begin kwpos :: l) pos) p st =
  for_each (fun a => _compile' a p) l st.
Proof.
  cbn [_compile]. unfold compileNode.
  cbn [nodeType NodeType.eqb constList keyword andb orb length map].
  rewrite Nat.sub_succ, Nat.sub_0_r.
  apply (for_each_compileChild_map operators builtins isSpecific l
           [_compile' (Keyword Keyword.Begin kwpos)]).
Qed.

(** A [begin] over [n] uses of a builtin and then [rest]. *)
Lemma _compile_begin_builtins name k n rest kwpos pos pos' p st pg :
  isBuiltin builtins name = Some k -> page p st = Some pg ->
  _compile' (List (Keyword Keyword.Begin kwpos :: repeat (Symbol name pos) n ++ rest) pos') p st =
  for_each (fun a => _compile' a p) rest
    (set_page p (pg ++ concat (repeat (load_builtin k) n)) st).
Proof.
  intros Hk Hp. rewrite _compile_begin, for_each_app.
  rewrite (bind_run _ _ _ _ _ (for_each_builtin name pos k p n st pg Hk Hp)). reflexivity.
Qed.

(** [compileIf] on an [if] without [else], run forward. *)
Lemma compileIf_then_run kw cond then_ pos p st st1 st3 pg c1 c3 :
  let x := List [kw; cond; then_] pos in
  _compile' cond p st = (Ok tt, st1) ->
  page p st1 = Some (pg ++ c1) ->
  let A := Z.of_nat (length (pg ++ c1 ++ [POP_JUMP_IF_TRUE; 0; 0; JUMP; 0; 0])) in
  let P2 := pg ++ c1 ++ POP_JUMP_IF_TRUE :: be16 (u16 A) ++ [JUMP; 0; 0] in
  _compile' then_ p (set_page p P2 st1) = (Ok tt, st3) ->
  page p st3 = Some (P2 ++ c3) ->
  let B := A + Z.of_nat (length c3) in
  compileIf x (map _compile' (constList x)) p st =
  (Ok tt, set_page p (pg ++ c1 ++ POP_JUMP_IF_TRUE :: be16 (u16 A) ++
                      JUMP :: be16 (u16 B) ++ c3) st3).
Proof.
  intros x E1 Hp1 A P2 E3 Hp3 B. unfold compileIf.
  cbn [x constList map length]. unfold compileChild. cbn [lookup list_lookup].
  rewrite (bind_run _ _ _ _ _ E1).
  rewrite (bind_run _ _ _ _ _ (page_push_run _ _ _ _ Hp1)).
  pose proof (page_set_page_same p ((pg ++ c1) ++ [POP_JUMP_IF_TRUE]) _ _ Hp1) as Hp1'.
  rewrite (bind_run _ _ _ _ _ (page_size_run _ _ _ Hp1')).
  rewrite (bind_run _ _ _ _ _ (pushNumber_run _ _ _ _ Hp1')).
  rewrite set_page_set_page.
  change (Z.of_nat 3 =? 4) with false. cbv iota.
  rewrite (bind_run (ret tt) _ _ tt _ eq_refl).
  set (pre1 := (pg ++ c1) ++ [POP_JUMP_IF_TRUE]) in *.
  pose proof (page_set_page_same p (pre1 ++ be16 0) _ _ Hp1) as HP1.
  rewrite (bind_run _ _ _ _ _ (page_push_run _ _ _ _ HP1)).
  rewrite set_page_set_page.
  pose proof (page_set_page_same p ((pre1 ++ be16 0) ++ [JUMP]) _ _ Hp1) as Hp2'.
  rewrite (bind_run _ _ _ _ _ (page_size_run _ _ _ Hp2')).
  rewrite (bind_run _ _ _ _ _ (pushNumber_run _ _ _ _ Hp2')).
  rewrite set_page_set_page.
  assert (((pre1 ++ be16 0) ++ [JUMP]) ++ be16 0 = pre1 ++ 0 :: 0 :: [JUMP; 0; 0]) as EQ1.
  { rewrite <- !app_assoc. reflexivity. }
  rewrite EQ1.
  pose proof (page_set_page_same p (pre1 ++ 0 :: 0 :: [JUMP; 0; 0]) _ _ Hp1) as Hq.
  replace (Z.of_nat (length ((pre1 ++ be16 0) ++ [JUMP])))
    with (Z.of_nat (length (pre1 ++ be16 (u16 A) ++ [JUMP])))
    by (unfold be16; rewrite !length_app; simpl; lia).
  rewrite (backpatch_run p _ pre1 [JUMP; 0; 0] 0 0 _ Hq).
  rewrite set_page_set_page.
  assert (Z.of_nat (length (pre1 ++ 0 :: 0 :: [JUMP; 0; 0])) = A) as EA.
  { subst A pre1. f_equal. f_equal. app_eq. }
  rewrite EA.
  assert (pre1 ++ be16 (u16 A) ++ [JUMP; 0; 0] = P2) as EP2.
  { subst P2 pre1. app_eq. }
  rewrite EP2. rewrite (bind_run _ _ _ _ _ E3).
  set (pre2 := pre1 ++ be16 (u16 A) ++ [JUMP]).
  assert (P2 ++ c3 = pre2 ++ 0 :: 0 :: c3) as EQ2.
  { subst P2 pre2 pre1. app_eq. }
  rewrite EQ2 in Hp3.
  rewrite (backpatch_last p st3 pre2 c3 0 0 Hp3).
  assert (Z.of_nat (length (pre2 ++ 0 :: 0 :: c3)) = B) as EB.
  { subst B A pre2 pre1. unfold be16. repeat (rewrite length_app; simpl). lia. }
  rewrite EB. f_equal. f_equal. subst pre2 pre1. app_eq.
Qed.

End Long_pages.

(** 21845 times [nil], three bytes each: a page of 65535 bytes. *)
Definition nils : nat := Z.to_nat 21845.

Definition long_begin (rest : list Node) : Node :=
  Sample.form (Sample.kw Keyword.Begin :: repeat (Sample.sym "nil") nils ++ rest).

Definition long_page : list Z := concat (repeat (@load_builtin Sample.isa 2) nils).

Lemma long_page_length : Z.of_nat (length long_page) = 65535.
Proof.
  unfold long_page. rewrite length_concat_repeat.
  change (length (@load_builtin Sample.isa 2)) with 3%nat. unfold nils. lia.
Qed.

Lemma _compile_long_begin rest st pg :
  page 0 st = Some pg ->
  Sample._compile (long_begin rest) 0 st =
  for_each (fun a => Sample._compile a 0) rest (set_page 0 (pg ++ long_page) st).
Proof.
  intros Hp. unfold long_begin, Sample.form, Sample.kw, Sample.sym, Sample._compile.
  apply (@_compile_begin_builtins Sample.isa); [reflexivity | exact Hp].
Qed.

(** [(if nil nil)] *)
Definition if_nil_nil : Node :=
  Sample.form [Sample.kw Keyword.If; Sample.sym "nil"; Sample.sym "nil"].

Section Offset_65535.

Variable pre : list Z.
Hypothesis pre_length : Z.of_nat (length pre) = 65535.

Lemma compileIf_at_65535 :
  @compileIf Sample.isa if_nil_nil (map Sample._compile (constList if_nil_nil)) 0
    (set_page 0 pre Sample.one_page) =
  (Ok tt, set_page 0 (pre ++ [12; 0; 2; 3; 0; 8; 7; 0; 11; 12; 0; 2]) Sample.one_page).
Proof.
  set (st := set_page 0 pre Sample.one_page).
  assert (page 0 st = Some pre) as Hst by reflexivity.
  set (c := [12; 0; 2]).
  assert (forall s pg, page 0 s = Some pg ->
            Sample._compile (Sample.sym "nil") 0 s = (Ok tt, set_page 0 (pg ++ c) s)) as Hnil.
  { intros s pg Hs.
    exact (@_compile_builtin Sample.isa Sample.operators Sample.builtins Sample.isSpecific
             "nil" Sample.at_ 2 0 s pg eq_refl Hs). }
  assert (Z.of_nat (length (pre ++ c ++ [3; 0; 0; 7; 0; 0])) = 65544) as EA.
  { rewrite length_app, Nat2Z.inj_add, pre_length. reflexivity. }
  set (P2 := pre ++ c ++ 3 :: be16 (u16 65544) ++ [7; 0; 0]).
  set (st1 := set_page 0 (pre ++ c) st).
  set (st3 := set_page 0 (P2 ++ c) (set_page 0 P2 st1)).
  pose proof (page_set_page_same 0 (pre ++ c) _ _ Hst : page 0 st1 = _) as Hp1.
  pose proof (page_set_page_same 0 P2 _ _ Hp1) as HP2.
  pose proof (page_set_page_same 0 (P2 ++ c) _ _ HP2 : page 0 st3 = _) as Hp3.
  pose proof (@compileIf_then_run Sample.isa Sample.operators Sample.builtins
                Sample.isSpecific (Sample.kw Keyword.If) (Sample.sym "nil")
                (Sample.sym "nil") Sample.at_ 0 st st1 st3 pre c c (Hnil _ _ Hst) Hp1) as R.
  cbv zeta in R.
  change (@POP_JUMP_IF_TRUE Sample.isa) with 3 in R.
  change (@JUMP Sample.isa) with 7 in R.
  rewrite EA in R. specialize (R (Hnil _ _ HP2) Hp3).
  unfold if_nil_nil, Sample.form, Sample._compile.
  etransitivity; [exact R |].
  subst st3 st1 st. rewrite 3 set_page_set_page. reflexivity.
Qed.

Lemma code_segment_of_65535 (st : Compiler) :
  m_symbols st = [] -> m_values st = [] -> m_code_pages st = [pre] ->
  @body Sample.isa Sample.to_string st =
  [@SYM_TABLE_START Sample.isa; 0; 0; @VAL_TABLE_START Sample.isa; 0; 0] ++
  [@CODE_SEGMENT_START Sample.isa; 0; 0] ++ pre ++ [@HALT Sample.isa].
Proof.
  intros Hs Hv Hc. unfold body, tables, segments, segment. rewrite Hs, Hv, Hc.
  cbn [map concat]. rewrite pre_length, !app_nil_r. reflexivity.
Qed.

Lemma compile_at_65535 ast timestamp :
  let st0 := set_code_pages [[]] (emitted (header 3 0 13 timestamp) Compiler_new) in
  Sample._compile ast 0 st0 = (Ok tt, set_page 0 pre st0) ->
  exists st',
    Sample.compile ast timestamp Compiler_new = (Ok tt, st') /\
    m_code_pages st' = [pre] /\
    drop 50 (m_bytecode st') =
      [@SYM_TABLE_START Sample.isa; 0; 0; @VAL_TABLE_START Sample.isa; 0; 0] ++
      [@CODE_SEGMENT_START Sample.isa; 0; 0] ++ pre ++ [@HALT Sample.isa].
Proof.
  intros st0 HL. unfold Sample.compile. rewrite compile_run by reflexivity.
  unfold lower.
  change (_compile Sample.operators Sample.builtins Sample.isSpecific ast 0 _)
    with (Sample._compile ast 0 st0).
  rewrite HL.
  change (find _ (m_symbols (set_page 0 pre st0))) with (@None Node).
  eexists. split; [reflexivity |]. split; [reflexivity |].
  change (m_bytecode (set_bytecode ?v _)) with v.
  rewrite app_assoc, drop_app_length'.
  - apply code_segment_of_65535; reflexivity.
  - rewrite length_app, header_length. unfold digest.
    rewrite length_take, length_app, repeat_length. unfold header_size, k_digest_size. lia.
Qed.

End Offset_65535.

(** C2, where it fails: [(begin nil ... nil (if nil nil))] with 21845 times
    [nil] before the [if]. The code of the [if] starts at the offset 65535
    of page 0; the code of [then] begins at the offset 65544 and ends at
    65547, and the operands written are 8 and 11: neither is the offset at
    which the code of [then] begins or ends. *)
Lemma compileIf_operand_wraps :
  exists st st',
    Sample._compile (long_begin []) 0 Sample.one_page = (Ok tt, st) /\
    page 0 st = Some long_page /\
    @compileIf Sample.isa if_nil_nil (map Sample._compile (constList if_nil_nil)) 0 st
      = (Ok tt, st') /\
    Sample._compile (long_begin [if_nil_nil]) 0 Sample.one_page = (Ok tt, st') /\
    page 0 st' =
      Some (long_page ++ [@BUILTIN Sample.isa; 0; 2; @POP_JUMP_IF_TRUE Sample.isa; 0; 8;
                          @JUMP Sample.isa; 0; 11; @BUILTIN Sample.isa; 0; 2]) /\
    Z.of_nat (length (long_page ++ [@BUILTIN Sample.isa; 0; 2;
                                    @POP_JUMP_IF_TRUE Sample.isa; 0; 8;
                                    @JUMP Sample.isa; 0; 11])) = 65544 /\
    readNumber2 0 8 = 8 /\ readNumber2 0 11 = 11.
Proof.
  assert (page 0 Sample.one_page = Some []) as Hp by reflexivity.
  pose proof (compileIf_at_65535 long_page long_page_length) as HI.
  pose proof long_page_length as HL.
  pose proof (_compile_long_begin [] _ _ Hp) as E0.
  pose proof (_compile_long_begin [if_nil_nil] _ _ Hp) as E1.
  rewrite app_nil_l in E0, E1.
  revert HI HL E0 E1. generalize long_page (long_begin []) (long_begin [if_nil_nil]).
  intros pre b0 b1 HI HL E0 E1.
  exists (set_page 0 pre Sample.one_page).
  exists (set_page 0 (pre ++ [12; 0; 2; 3; 0; 8; 7; 0; 11; 12; 0; 2]) Sample.one_page).
  split; [rewrite E0; reflexivity |].
  split; [reflexivity |].
  split; [exact HI |].
  split.
  { rewrite E1. cbn [for_each].
    change (Sample._compile if_nil_nil 0)
      with (@compileIf Sample.isa if_nil_nil (map Sample._compile (constList if_nil_nil)) 0).
    rewrite (bind_run _ _ _ _ _ HI). reflexivity. }
  split; [reflexivity |].
  split; [| split; reflexivity].
  rewrite length_app, Nat2Z.inj_add, HL. reflexivity.
Qed.

(** C7, where it fails: [(begin nil ... nil)] with 21845 times [nil]
    compiles to one page of 65535 bytes, and the length written in its
    segment is 0, not the byte count plus one. *)
Lemma compile_segment_length_wraps :
  exists st',
    Sample.compile (long_begin []) 1600000000 Compiler_new = (Ok tt, st') /\
    m_code_pages st' = [long_page] /\
    drop 50 (m_bytecode st') =
      [@SYM_TABLE_START Sample.isa; 0; 0; @VAL_TABLE_START Sample.isa; 0; 0] ++
      [@CODE_SEGMENT_START Sample.isa; 0; 0] ++ long_page ++ [@HALT Sample.isa] /\
    Z.of_nat (length long_page) + 1 = 65536 /\
    readNumber2 0 0 = 0.
Proof.
  pose proof (_compile_long_begin []
                (set_code_pages [[]] (emitted (header 3 0 13 1600000000) Compiler_new))
                [] eq_refl) as HL.
  rewrite app_nil_l in HL.
  destruct (compile_at_65535 long_page long_page_length _ _ HL) as (st' & H1 & H2 & H3).
  exists st'. split; [exact H1 |]. split; [exact H2 |]. split; [exact H3 |].
  split; [rewrite long_page_length |]; reflexivity.
Qed.

(** * The specific forms *)

Lemma uint16_range_eq : uint16_range = Z.to_nat 65536.
Proof. reflexivity. Qed.

Lemma u16_small z : 0 <= z < 65536 -> u16 z = z.
Proof. intros H. unfold u16. apply Z.mod_small. lia. Qed.

(** The arguments of a form, each with the fields that follow it:
    [a b.f.g c] gives [[a]; [b; f; g]; [c]]. *)
Fixpoint groups (l : list Node) : list (list Node) :=
  match l with
  | [] => []
  | a :: l' =>
      match l' with
      | f :: _ =>
          match groups l' with
          | g :: gs => if isGetField f then (a :: g) :: gs else [a] :: g :: gs
          | [] => [[a]]
          end
      | [] => [[a]]
      end
  end.

(** A group: an expression that is no field, and the fields that follow. *)
Definition group (g : list Node) : Prop :=
  exists h fs, g = h :: fs /\ isGetField h = false /\ Forall (fun f => isGetField f = true) fs.

Lemma groups_cons a l :
  exists g gs,
    groups (a :: l) = (a :: g) :: gs /\ a :: l = (a :: g) ++ concat gs /\
    Forall (fun f => isGetField f = true) g /\ Forall group gs.
Proof.
  revert a. induction l as [|f l IH]; intros a.
  - exists [], []. repeat split; constructor.
  - destruct (IH f) as (g & gs & E & EC & Hg & Hgs).
    change (groups (a :: f :: l)) with
      (match groups (f :: l) with
       | g :: gs => if isGetField f then (a :: g) :: gs else [a] :: g :: gs
       | [] => [[a]]
       end).
    rewrite E.
    destruct (isGetField f) eqn:Ef.
    + exists (f :: g), gs. rewrite EC. repeat split; auto.
    + exists [], ((f :: g) :: gs). rewrite EC. repeat split; auto.
      constructor; [exists f, g; auto | exact Hgs].
Qed.

Lemma concat_groups l : concat (groups l) = l.
Proof.
  destruct l as [|a l]; [reflexivity |].
  destruct (groups_cons a l) as (g & gs & -> & -> & _). reflexivity.
Qed.

Lemma groups_nonempty l : Forall (fun g => g <> []) (groups l).
Proof.
  destruct l as [|a l]; [constructor |].
  destruct (groups_cons a l) as (g & gs & -> & _ & _ & Hgs).
  constructor; [discriminate |].
  eapply Forall_impl; [exact Hgs |]. intros g' (h & fs & -> & _). discriminate.
Qed.

Lemma groups_group l :
  match l with a :: _ => isGetField a = false | [] => True end ->
  Forall group (groups l).
Proof.
  destruct l as [|a l]; [constructor |]. intros Ha.
  destruct (groups_cons a l) as (g & gs & -> & _ & Hg & Hgs).
  constructor; [exists a, g; auto | exact Hgs].
Qed.

Example groups_fields :
  groups [Sample.sym "a"; Sample.sym "b"; GetField "f" Sample.at_; GetField "g" Sample.at_;
          Sample.sym "c"] =
  [[Sample.sym "a"]; [Sample.sym "b"; GetField "f" Sample.at_; GetField "g" Sample.at_];
   [Sample.sym "c"]].
Proof. reflexivity. Qed.

Section Specific_loop.

Context {isa : Instruction}.
Variable operators : list string.
Variable builtins : list string.
Variable isSpecific : string -> option Z.

Local Abbreviation _compile' := (_compile operators builtins isSpecific).

(** [j] walks down over the fields that follow the child at [k]. *)
Lemma skipGetFields_run fuel l k m h st :
  l !! k = Some h -> isGetField h = false ->
  (forall i f, (k < i <= k + m)%nat -> l !! i = Some f -> isGetField f = true) ->
  (k + m < length l)%nat -> Z.of_nat (k + m) < 65536 -> (m < fuel)%nat ->
  skipGetFields fuel l (Z.of_nat (k + m)) st = (Ok (Z.of_nat k), st).
Proof.
  intros Hk Hh. revert fuel. induction m as [|m IH]; intros fuel Hf Hlen Hlt Hfuel;
    (destruct fuel as [|fuel]; [lia |]); cbn [skipGetFields]; rewrite Nat2Z.id.
  - rewrite Nat.add_0_r, Hk, Hh. reflexivity.
  - destruct (lookup_lt_is_Some_2 l (k + S m) Hlen) as [f Ef]. rewrite Ef.
    rewrite (Hf (k + S m)%nat f ltac:(lia) Ef).
    replace (u16 (Z.of_nat (k + S m) - 1)) with (Z.of_nat (k + m))
      by (unfold u16; rewrite Z.mod_small; lia).
    apply IH; [| lia | lia | lia].
    intros i f' Hi. apply Hf. lia.
Qed.

(** The children [k .. k + n - 1], lowered in order. *)
Lemma for_each_compileChild_mid (apre arest : children_t) (g : list Node) p st :
  for_each (fun i => compileChild (apre ++ map _compile' g ++ arest) i p)
    (seq (length apre) (length g)) st =
  for_each (fun a => _compile' a p) g st.
Proof.
  revert apre st. induction g as [|a g IH]; intros apre st; [reflexivity |].
  cbn [length seq for_each map app]. unfold bind.
  unfold compileChild at 1. rewrite lookup_app_r, Nat.sub_diag by lia. cbn [lookup list_lookup].
  destruct (_compile' a p st) as [[[]|e] st1]; [| reflexivity].
  specialize (IH (apre ++ [_compile' a]) st1).
  rewrite <- app_assoc, length_app in IH. cbn [app length] in IH.
  rewrite Nat.add_1_r in IH. exact IH.
Qed.

Lemma for_each_compileChild_seq (pre g rest : list Node) p st :
  for_each (fun i => compileChild (map _compile' (pre ++ g ++ rest)) i p)
    (seq (length pre) (length g)) st =
  for_each (fun a => _compile' a p) g st.
Proof.
  rewrite !map_app. rewrite <- (length_map _compile' pre).
  apply for_each_compileChild_mid.
Qed.

(** The loop of [compileSpecific] over the groups of the arguments: the
    last group first, each group in its order. *)
Lemma compileSpecificArgs_groups c0 gs rest fuel p st :
  let l := c0 :: concat gs ++ rest in
  Forall group gs -> Z.of_nat (length l) <= 65536 -> (length gs <= fuel)%nat ->
  compileSpecificArgs fuel l (map _compile' l) (Z.of_nat (length (concat gs))) p st =
  for_each (fun a => _compile' a p) (concat (rev gs)) st.
Proof.
  intros l. subst l. revert rest fuel st.
  induction gs as [|g gs IH] using rev_ind; intros rest fuel st HG Hlen Hfuel.
  - destruct fuel; reflexivity.
  - apply Forall_app in HG as [HG Hg]. inversion Hg as [|? ? (h & fs & -> & Hh & Hfs) _]; subst.
    rewrite length_app in Hfuel. cbn [length] in Hfuel.
    destruct fuel as [|fuel]; [lia |].
    rewrite concat_app in *. cbn [concat] in *. rewrite app_nil_r in *.
    set (pre := concat gs) in *.
    remember (c0 :: (pre ++ h :: fs) ++ rest) as l eqn:Hl.
    assert (length l = S (length pre + S (length fs) + length rest)) as EL.
    { subst l. cbn [length]. rewrite !length_app. cbn [length]. lia. }
    remember (S (length pre)) as k eqn:Hkdef.
    assert (l = (c0 :: pre) ++ (h :: fs) ++ rest) as Esplit.
    { rewrite Hl. cbn [app]. rewrite <- !app_assoc. reflexivity. }
    assert (l !! k = Some h) as Hk.
    { rewrite Esplit, Hkdef. rewrite lookup_app_r by (cbn [length]; lia).
      cbn [length]. rewrite Nat.sub_diag. reflexivity. }
    assert (forall i f, (k < i <= k + length fs)%nat -> l !! i = Some f -> isGetField f = true)
      as Hfields.
    { intros i f Hi. rewrite Hkdef in Hi. rewrite Esplit.
      rewrite lookup_app_r by (cbn [length]; lia).
      cbn [length]. replace (i - S (length pre))%nat with (S (i - S (length pre) - 1)) by lia.
      change (((h :: fs) ++ rest) !! S (i - S (length pre) - 1))
        with ((fs ++ rest) !! (i - S (length pre) - 1)%nat).
      rewrite lookup_app_l by lia.
      intros Hf. eapply (proj1 (Forall_lookup _ _) Hfs); eauto. }
    rewrite length_app. cbn [length].
    replace (length pre + S (length fs))%nat with (k + length fs)%nat by lia.
    cbn [compileSpecificArgs].
    replace (0 <? Z.of_nat (k + length fs)) with true by (symmetry; apply Z.ltb_lt; lia).
    rewrite (bind_run _ _ _ _ _
               (skipGetFields_run uint16_range l k (length fs) h st Hk Hh Hfields
                  ltac:(lia) ltac:(lia) ltac:(rewrite uint16_range_eq; lia))).
    replace (Z.to_nat (Z.of_nat k)) with k by lia.
    replace (Z.to_nat (Z.of_nat (k + length fs) - Z.of_nat k)) with (length fs) by lia.
    assert (Z.of_nat (k + length fs) < 65536) as Hb by lia.
    replace (Z.to_nat (Z.of_nat (k + length fs))) with (k + length fs)%nat by lia.
    replace (Z.of_nat (k + length fs) - Z.of_nat k) with (Z.of_nat (length fs)) by lia.
    rewrite (u16_small (Z.of_nat (length fs))) by lia.
    replace (Z.of_nat (k + length fs) - Z.of_nat (length fs)) with (Z.of_nat k) by lia.
    rewrite (u16_small (Z.of_nat k)) by lia.
    replace (Z.of_nat k - 1) with (Z.of_nat (length pre)) by lia.
    rewrite (u16_small (Z.of_nat (length pre))) by lia.
    rewrite rev_app_distr.
    change (concat (rev [h :: fs] ++ rev gs)) with ((h :: fs) ++ concat (rev gs)).
    (* the group, in its order *)
    assert (forall s,
              (for_each (fun i => compileChild (map _compile' l) i p) (seq k (length fs)) ;;;
               compileChild (map _compile' l) (k + length fs) p) s =
              for_each (fun a => _compile' a p) (h :: fs) s) as Hgroup.
    { intros s.
      rewrite <- (for_each_compileChild_seq (c0 :: pre) (h :: fs) rest p s).
      rewrite <- Esplit. change (length (c0 :: pre)) with (S (length pre)). rewrite <- Hkdef.
      cbn [length]. rewrite seq_S, for_each_app. cbn [for_each].
      unfold bind. destruct (for_each _ (seq k (length fs)) s) as [[[]|e] s1]; [| reflexivity].
      destruct (compileChild _ _ p s1) as [[[]|e] s2]; reflexivity. }
    rewrite for_each_app.
    rewrite bind_assoc_run. unfold bind at 1. rewrite Hgroup. unfold bind.
    destruct (for_each (fun a => _compile' a p) (h :: fs) st) as [[[]|e] st1]; [| reflexivity].
    specialize (IH ((h :: fs) ++ rest) fuel st1 HG).
    rewrite Hl. subst pre. rewrite <- app_assoc. apply IH; [| lia].
    cbn [length]. rewrite !length_app. cbn [length]. lia.
Qed.

End Specific_loop.

Section Specific_form.

Context {isa : Instruction}.
Variable operators : list string.
Variable builtins : list string.
Variable isSpecific : string -> option Z.

Local Abbreviation _compile' := (_compile operators builtins isSpecific).

(** The operand [pushSpecificInstArgc] pushes after the opcode. *)
Definition specific_operand (inst argc : Z) : list Z :=
  if inst =? LIST then be16 argc
  else if (inst =? APPEND) || (inst =? APPEND_IN_PLACE) ||
          (inst =? CONCAT) || (inst =? CONCAT_IN_PLACE)
  then be16 (u16 (argc - 1))
  else [].

Lemma pushSpecificInstArgc_operand inst argc p st pg :
  page p st = Some pg ->
  pushSpecificInstArgc inst argc p st =
  (Ok tt, set_page p (pg ++ specific_operand inst argc) st).
Proof.
  intros Hp. unfold pushSpecificInstArgc, specific_operand.
  destruct (inst =? LIST); [apply pushNumber_run, Hp |].
  destruct (_ || _); [apply pushNumber_run, Hp |].
  rewrite app_nil_r, (set_page_id _ _ _ Hp). reflexivity.
Qed.

(** The number of arguments [compileSpecific] keeps, a [uint16_t]. *)
Definition specific_argc (args : list Node) : Z :=
  u16 (Z.of_nat (length (filter (fun node => negb (isGetField node)) args))).

(** [compileSpecific], run: the test on the number of arguments, the loop
    over the children, the opcode and its operand. *)
Lemma compileSpecific_run c0 args pos (acts : children_t) p inst st :
  isSpecific (string_of c0) = Some inst ->
  isGetField c0 = false ->
  compileSpecific isSpecific c0 (List (c0 :: args) pos) acts p st =
  if (specific_argc args <? 2) && negb (inst =? LIST)
  then (Err (CompilationError
               ("can not use " +:+ string_of c0 +:+ " with less than 2 arguments") None), st)
  else
    match compileSpecificArgs uint16_range (c0 :: args) acts
            (u16 (Z.of_nat (length args))) p st with
    | (Ok _, st1) =>
        match page p st1 with
        | Some pg =>
            (Ok tt, set_page p (pg ++ inst :: specific_operand inst (specific_argc args)) st1)
        | None => (Err (Undefined "page index"), st1)
        end
    | (Err e, st1) => (Err e, st1)
    end.
Proof.
  intros HS HG. unfold compileSpecific. rewrite HS. cbn [constList].
  rewrite (countArkObjects_cons _ _ HG). fold (specific_argc args).
  destruct (_ && _); [reflexivity |].
  replace (Z.of_nat (length (c0 :: args)) - 1) with (Z.of_nat (length args))
    by (cbn [length]; lia).
  unfold bind at 1.
  destruct (compileSpecificArgs _ _ _ _ _ _) as [[[]|e] st1]; [| reflexivity].
  destruct (page p st1) as [pg|] eqn:Hp.
  - rewrite (bind_run _ _ _ _ _ (page_push_run _ _ _ _ Hp)).
    rewrite (pushSpecificInstArgc_operand _ _ _ _ _ (page_set_page_same _ _ _ _ Hp)).
    rewrite set_page_set_page, <- app_assoc. reflexivity.
  - unfold bind, page_push, bind, page_get. rewrite Hp. reflexivity.
Qed.

(** A list whose head is the name of a specific form goes to
    [compileSpecific]. *)
Lemma _compile_specific name pos0 args pos inst p st :
  isSpecific name = Some inst ->
  _compile' (List (Symbol name pos0 :: args) pos) p st =
  compileSpecific isSpecific (Symbol name pos0) (List (Symbol name pos0 :: args) pos)
    (map _compile' (Symbol name pos0 :: args)) p st.
Proof.
  intros HS. cbn [_compile]. unfold compileNode.
  cbn [nodeType NodeType.eqb constList orb andb string_of]. rewrite HS.
  rewrite bool_decide_eq_true_2 by eauto. reflexivity.
Qed.

(** The loop of [compileSpecific] on a form whose first argument is no
    field and whose children a [uint16_t] counts: the groups of the
    arguments, the last group first. *)
Lemma compileSpecificArgs_order c0 args p st :
  match args with a :: _ => isGetField a = false | [] => True end ->
  Z.of_nat (length args) < 65536 ->
  compileSpecificArgs uint16_range (c0 :: args) (map _compile' (c0 :: args))
    (u16 (Z.of_nat (length args))) p st =
  for_each (fun a => _compile' a p) (concat (rev (groups args))) st.
Proof.
  intros Hfirst Hlen. rewrite u16_small by lia.
  pose proof (compileSpecificArgs_groups operators builtins isSpecific c0 (groups args) []
                uint16_range p st) as HL.
  cbv zeta in HL. rewrite app_nil_r, concat_groups in HL. apply HL.
  - apply groups_group, Hfirst.
  - cbn [length]. lia.
  - rewrite uint16_range_eq.
    assert (length (groups args) <= length args)%nat; [| lia].
    rewrite <- (concat_groups args) at 2. clear.
    pose proof (groups_nonempty args) as HN. induction HN as [|g gs Hg _ IH]; [simpl; lia |].
    cbn [concat length]. rewrite length_app. destruct g; [congruence | simpl; lia].
Qed.


End Specific_form.


(** 65536 arguments. *)
Definition many_xs : list Node := repeat (Sample.sym "x") uint16_range.

Lemma filter_repeat {A} (P : A -> Prop) `{forall a, Decision (P a)} a n :
  P a -> filter P (repeat a n) = repeat a n.
Proof.
  intros Ha. induction n as [|n IH]; [reflexivity |].
  cbn [repeat]. rewrite filter_cons_True by exact Ha. rewrite IH. reflexivity.
Qed.


(** * The tables: lookup after insertion *)

Lemma find_index_first {A} (pred : A -> bool) l d :
  find_index pred l = Some d ->
  forall j a, (j < d)%nat -> l !! j = Some a -> pred a = false.
Proof.
  revert d. induction l as [|b l IH]; intros d; simpl; [discriminate |].
  destruct (pred b) eqn:Eb.
  - intros E j a Hj. simplify_eq. lia.
  - destruct (find_index pred l) as [d'|]; simpl; [| discriminate].
    intros E j a Hj Ha. simplify_eq. destruct j as [|j]; simpl in Ha.
    + simplify_eq. exact Eb.
    + eapply IH; [reflexivity | | exact Ha]. lia.
Qed.

(** The index [addSymbol] returns is the position of a symbol with the name
    asked for. *)
Lemma addSymbol_Ok sym st i st' :
  addSymbol sym st = (Ok i, st') ->
  exists s, m_symbols st' !! Z.to_nat i = Some s /\ string_of s = string_of sym.
Proof.
  rewrite addSymbol_run. unfold symbol_index, uint16_max.
  destruct (find_index _ _) as [d|] eqn:EF; intros H; injection H as Hr <-.
  - destruct (Z.of_nat d <? 65535); simplify_eq. rewrite Nat2Z.id.
    destruct (find_index_Some _ _ _ EF) as (_ & a & Ha & Hp).
    exists a. split; [exact Ha | apply String.eqb_eq, Hp].
  - destruct (_ <? 65535); simplify_eq. rewrite Nat2Z.id. exists sym.
    cbn [m_symbols set_symbols]. rewrite lookup_app_r, Nat.sub_diag by lia. auto.
Qed.

(** X1. The index [addSymbol] returns is the position of the first symbol of
    the table, as it is after the call, that has the name asked for; the
    symbols that were in the table keep their positions. *)
Theorem addSymbol_lookup sym st i st' :
  addSymbol sym st = (Ok i, st') ->
  (exists s, m_symbols st' !! Z.to_nat i = Some s /\ string_of s = string_of sym) /\
  (forall j s, (j < Z.to_nat i)%nat -> m_symbols st' !! j = Some s ->
     string_of s <> string_of sym) /\
  (forall j s, m_symbols st !! j = Some s -> m_symbols st' !! j = Some s) /\
  0 <= i < 65535.
Proof.
  rewrite addSymbol_run.
  set (pred := fun sym_node => String.eqb (string_of sym_node) (string_of sym)).
  assert (forall d, symbol_index sym d = Ok i -> Z.to_nat i = d /\ 0 <= i < 65535) as Hidx.
  { intros d. unfold symbol_index, uint16_max.
    destruct (Z.of_nat d <? 65535) eqn:E; intros H; simplify_eq.
    apply Z.ltb_lt in E. lia. }
  destruct (find_index pred (m_symbols st)) as [d|] eqn:EF; intros H;
    injection H as Hr <-.
  - destruct (Hidx d Hr) as [-> Hi].
    destruct (find_index_Some _ _ _ EF) as (_ & a & Ha & Hp).
    split; [exists a; split; [exact Ha | apply String.eqb_eq, Hp] |].
    split; [| split; [auto | exact Hi]].
    intros j s Hj Hs E. pose proof (find_index_first _ _ _ EF j s Hj Hs) as Hf.
    unfold pred in Hf. rewrite E, String.eqb_refl in Hf. discriminate.
  - destruct (Hidx _ Hr) as [-> Hi]. cbn [m_symbols set_symbols].
    split; [exists sym; split; [| reflexivity] |].
    { rewrite lookup_app_r, Nat.sub_diag by lia. reflexivity. }
    split; [| split; [| exact Hi]].
    + intros j s Hj Hs E. rewrite lookup_app_l in Hs by exact Hj.
      apply find_index_None in EF. rewrite Forall_forall in EF.
      specialize (EF s (list_elem_of_lookup_2 _ _ _ Hs)). unfold pred in EF.
      rewrite E, String.eqb_refl in EF. discriminate.
    + intros j s Hs. apply lookup_app_l_Some, Hs.
Qed.

(** X2. [addDefinedSymbol] never fails and keeps [m_defined_symbols] a set: the
    name is in it afterwards, next to the names that were; a name that was
    there already changes nothing; no name is entered twice. *)
Theorem addDefinedSymbol_set sym st :
  exists st',
    addDefinedSymbol sym st = (Ok tt, st') /\
    (forall s, s ∈ m_defined_symbols st' <-> s = sym \/ s ∈ m_defined_symbols st) /\
    (sym ∈ m_defined_symbols st -> st' = st) /\
    (sym ∉ m_defined_symbols st -> m_defined_symbols st' = m_defined_symbols st ++ [sym]) /\
    (NoDup (m_defined_symbols st) -> NoDup (m_defined_symbols st')).
Proof.
  unfold addDefinedSymbol. rewrite get_bind_run.
  destruct (contains sym (m_defined_symbols st)) eqn:E.
  - apply contains_elem_of in E. exists st. split; [reflexivity |].
    split; [intros s; split; [auto | intros [-> | H]; auto] |].
    split; [auto |]. split; [intros H; contradiction | auto].
  - assert (sym ∉ m_defined_symbols st) as Hn.
    { intros H. apply contains_elem_of in H. congruence. }
    eexists. split; [reflexivity |]. cbn [m_defined_symbols set_defined_symbols].
    split; [| split; [intros H; contradiction | split; [reflexivity |]]].
    + intros s. rewrite elem_of_app, list_elem_of_singleton. tauto.
    + intros HN. apply NoDup_app. split; [exact HN |].
      split; [| apply NoDup_singleton].
      intros s Hs Hs'. apply list_elem_of_singleton in Hs'. subst. contradiction.
Qed.

(** X3. The index the two overloads of [addValue] return is the position of
    the first entry of the value table equal to the value asked for; the
    entries that were in the table keep their positions; and a second
    request for a value that equals itself returns the same index and
    changes nothing. *)
Theorem addValueElem_lookup v current st i st' :
  addValueElem v current st = (Ok i, st') ->
  (exists w, m_values st' !! Z.to_nat i = Some w /\
             (CValue_eqb v w = true \/ (w = v /\ m_values st' = m_values st ++ [v]))) /\
  (forall j w, (j < Z.to_nat i)%nat -> m_values st' !! j = Some w -> CValue_eqb v w = false) /\
  (forall j w, m_values st !! j = Some w -> m_values st' !! j = Some w) /\
  0 <= i < 65535 /\
  (CValue_eqb v v = true -> forall current', addValueElem v current' st' = (Ok i, st')).
Proof.
  unfold addValueElem. rewrite get_bind_run.
  assert (forall d s, (if Z.of_nat d <? uint16_max then ret (u16 (Z.of_nat d))
                       else throwCompilerError
                              "Too many values (exceeds 65'536), aborting compilation." current) s
                      = (Ok i, st') ->
            Z.to_nat i = d /\ 0 <= i < 65535 /\ s = st' /\
            (Z.of_nat d <? uint16_max) = true /\ u16 (Z.of_nat d) = i) as Hidx.
  { intros d s. unfold uint16_max. destruct (Z.of_nat d <? 65535) eqn:E; [| discriminate].
    apply Z.ltb_lt in E. unfold ret, u16. rewrite Z.mod_small by lia.
    intros H. simplify_eq. repeat split; lia. }
  destruct (find_index (CValue_eqb v) (m_values st)) as [d|] eqn:EF.
  - rewrite (bind_run _ _ _ _ _ (eq_refl : ret (Z.of_nat d) st = (Ok (Z.of_nat d), st))).
    intros H. destruct (Hidx _ _ H) as (Ei & Hi & <- & Hlt & Hu). rewrite Ei.
    destruct (find_index_Some _ _ _ EF) as (_ & a & Ha & Hp).
    split; [exists a; auto |].
    split; [intros j w Hj Hw; eapply find_index_first; eauto |].
    split; [auto |]. split; [exact Hi |].
    intros _ current'. rewrite get_bind_run, EF.
    rewrite (bind_run _ _ _ _ _ (eq_refl : ret (Z.of_nat d) st = (Ok (Z.of_nat d), st))).
    rewrite Hlt, Hu. reflexivity.
  - unfold bind at 1. unfold bind at 1. unfold modify, ret at 1.
    intros H. destruct (Hidx _ _ H) as (Ei & Hi & <- & Hlt & Hu).
    cbn [m_values set_values]. rewrite Ei.
    split; [exists v; split; [| right; auto] |].
    { rewrite lookup_app_r, Nat.sub_diag by lia. reflexivity. }
    split; [| split; [intros j w Hw; apply lookup_app_l_Some, Hw | split; [exact Hi |]]].
    + intros j w Hj Hw. rewrite lookup_app_l in Hw by exact Hj.
      apply find_index_None in EF. rewrite Forall_forall in EF.
      apply EF. eapply list_elem_of_lookup_2, Hw.
    + intros Hv current'. rewrite get_bind_run. cbn [m_values set_values].
      rewrite (find_index_snoc _ _ _ EF Hv).
      match goal with |- bind (ret ?a) _ ?s = _ =>
        rewrite (bind_run _ _ _ _ _ (eq_refl : ret a s = (Ok a, s))) end.
      rewrite Hlt, Hu. reflexivity.
Qed.

Lemma addSymbol_lookup_witness :
  (exists s, m_symbols (set_symbols [Sample.sym "a"] Compiler_new) !! Z.to_nat 0 = Some s /\
             string_of s = string_of (Sample.sym "a")) /\
  (forall j s, (j < Z.to_nat 0)%nat ->
     m_symbols (set_symbols [Sample.sym "a"] Compiler_new) !! j = Some s ->
     string_of s <> string_of (Sample.sym "a")) /\
  (forall j s, m_symbols Compiler_new !! j = Some s ->
     m_symbols (set_symbols [Sample.sym "a"] Compiler_new) !! j = Some s) /\
  0 <= 0 < 65535.
Proof.
  apply (addSymbol_lookup (Sample.sym "a") Compiler_new 0
           (set_symbols [Sample.sym "a"] Compiler_new)).
  reflexivity.
Defined.

Lemma addValueElem_lookup_witness :
  let v := CPageAddr 1 in
  let st' := set_values [v] Compiler_new in
  (exists w, m_values st' !! Z.to_nat 0 = Some w /\
             (CValue_eqb v w = true \/ (w = v /\ m_values st' = m_values Compiler_new ++ [v]))) /\
  (forall j w, (j < Z.to_nat 0)%nat -> m_values st' !! j = Some w -> CValue_eqb v w = false) /\
  (forall j w, m_values Compiler_new !! j = Some w -> m_values st' !! j = Some w) /\
  0 <= 0 < 65535 /\
  (CValue_eqb v v = true ->
   forall current', addValueElem v current' st' = (Ok 0, st')).
Proof.
  apply (addValueElem_lookup (CPageAddr 1) (Sample.sym "f") Compiler_new 0
           (set_values [CPageAddr 1] Compiler_new)).
  reflexivity.
Defined.

(** * What lowering keeps

    [Keeps R m]: a run of [m] that returns takes the compiler from a state
    to one that [R] relates to it. *)

Definition Keeps (R : Compiler -> Compiler -> Prop) {A} (m : M A) : Prop :=
  forall st a st', m st = (Ok a, st') -> R st st'.

Section Keeps.

Variable R : Compiler -> Compiler -> Prop.
Hypothesis R_refl : forall st, R st st.
Hypothesis R_trans : forall st1 st2 st3, R st1 st2 -> R st2 st3 -> R st1 st3.

Lemma Keeps_ret {A} (a : A) : Keeps R (ret a).
Proof. intros st b st' E. inv_M. apply R_refl. Qed.

Lemma Keeps_throw {A} e : Keeps R (@throw A e).
Proof. intros st b st' E. discriminate. Qed.

Lemma Keeps_bind {A B} (m : M A) (f : A -> M B) :
  Keeps R m -> (forall a, Keeps R (f a)) -> Keeps R (bind m f).
Proof. intros Hm Hf st b st' E. inv_M. eapply R_trans; [eapply Hm | eapply Hf]; eauto. Qed.

Lemma Keeps_get_bind {B} (f : Compiler -> M B) :
  (forall st, Keeps R (f st)) -> Keeps R (bind get f).
Proof. intros Hf. apply Keeps_bind; [| exact Hf]. intros st a st' E. inv_M. apply R_refl. Qed.

Lemma Keeps_for_each {A} (f : A -> M unit) l :
  (forall a, a ∈ l -> Keeps R (f a)) -> Keeps R (for_each f l).
Proof.
  induction l as [|a l IH]; intros Hf; simpl.
  - apply Keeps_ret.
  - apply Keeps_bind; [apply Hf; left | intros _; apply IH; intros b Hb; apply Hf; right; exact Hb].
Qed.

Lemma Keeps_if {A} (b : bool) (m1 m2 : M A) :
  Keeps R m1 -> Keeps R m2 -> Keeps R (if b then m1 else m2).
Proof. destruct b; auto. Qed.

Lemma Keeps_compileChild (acts : children_t) i p :
  Forall (fun a => forall p, Keeps R (a p)) acts -> Keeps R (compileChild acts i p).
Proof.
  intros HA. unfold compileChild. destruct (acts !! i) as [a|] eqn:E.
  - eapply (proj1 (Forall_lookup _ _) HA); exact E.
  - apply Keeps_throw.
Qed.

End Keeps.

(** ** The tables only grow

    [tables_grow st st']: the four tables of [st] are the beginnings of the
    tables of [st'], so every index handed out stays valid, and the names of
    the symbol table and of the defined symbols are still without
    repetition if they were. *)
Record tables_grow (st st' : Compiler) : Prop := {
  tg_symbols : m_symbols st `prefix_of` m_symbols st';
  tg_values : m_values st `prefix_of` m_values st';
  tg_defined : m_defined_symbols st `prefix_of` m_defined_symbols st';
  tg_plugins : m_plugins st `prefix_of` m_plugins st';
  tg_names : NoDup (map string_of (m_symbols st)) -> NoDup (map string_of (m_symbols st'));
  tg_defined_names : NoDup (m_defined_symbols st) -> NoDup (m_defined_symbols st')
}.

Lemma tables_grow_refl st : tables_grow st st.
Proof. split; auto. Qed.

Lemma tables_grow_trans st1 st2 st3 :
  tables_grow st1 st2 -> tables_grow st2 st3 -> tables_grow st1 st3.
Proof. intros [] []. split; try (etransitivity; eassumption); auto. Qed.

Lemma tables_grow_same st st' :
  m_symbols st' = m_symbols st -> m_values st' = m_values st ->
  m_defined_symbols st' = m_defined_symbols st -> m_plugins st' = m_plugins st ->
  tables_grow st st'.
Proof. intros E1 E2 E3 E4. split; rewrite ?E1, ?E2, ?E3, ?E4; auto. Qed.

Abbreviation Tables := (Keeps tables_grow).

Create HintDb tables discriminated.

Lemma Tables_ret {A} (a : A) : Tables (ret a).
Proof. apply Keeps_ret, tables_grow_refl. Qed.

Lemma Tables_throw {A} e : Tables (@throw A e).
Proof. apply Keeps_throw. Qed.

Lemma Tables_throwCompilerError {A} m n : Tables (@throwCompilerError A m n).
Proof. apply Keeps_throw. Qed.

Lemma Tables_bind {A B} (m : M A) (f : A -> M B) :
  Tables m -> (forall a, Tables (f a)) -> Tables (bind m f).
Proof. apply Keeps_bind, tables_grow_trans. Qed.

Lemma Tables_get_bind {B} (f : Compiler -> M B) :
  (forall st, Tables (f st)) -> Tables (bind get f).
Proof. apply Keeps_get_bind; [apply tables_grow_refl | apply tables_grow_trans]. Qed.

Lemma Tables_for_each {A} (f : A -> M unit) l :
  (forall a, Tables (f a)) -> Tables (for_each f l).
Proof.
  intros Hf. apply Keeps_for_each; [apply tables_grow_refl | apply tables_grow_trans | auto].
Qed.

Lemma Tables_if {A} (b : bool) (m1 m2 : M A) :
  Tables m1 -> Tables m2 -> Tables (if b then m1 else m2).
Proof. apply Keeps_if. Qed.

Lemma Tables_set_page p pg : Tables (modify (set_page p pg)).
Proof.
  intros st a st' E. inv_M.
  apply tables_grow_same; unfold set_page; destruct (0 <=? p); reflexivity.
Qed.

Lemma Tables_modify_pages (f : Compiler -> Compiler) :
  (forall st, m_symbols (f st) = m_symbols st) ->
  (forall st, m_values (f st) = m_values st) ->
  (forall st, m_defined_symbols (f st) = m_defined_symbols st) ->
  (forall st, m_plugins (f st) = m_plugins st) ->
  Tables (modify f).
Proof. intros H1 H2 H3 H4 st a st' E. inv_M. apply tables_grow_same; auto. Qed.

Lemma Tables_page_get p : Tables (page_get p).
Proof. intros st a st' E. apply page_get_Ok in E as [_ ->]. apply tables_grow_refl. Qed.

Lemma Tables_page_size p : Tables (page_size p).
Proof. apply Tables_bind; [apply Tables_page_get | intros; apply Tables_ret]. Qed.

Lemma Tables_page_push p b : Tables (page_push p b).
Proof. apply Tables_bind; [apply Tables_page_get | intros; apply Tables_set_page]. Qed.

Lemma Tables_pushNumber p n : Tables (pushNumber n (Some p)).
Proof. apply Tables_bind; [apply Tables_page_push | intros; apply Tables_page_push]. Qed.

Lemma Tables_page_store p pos v : Tables (page_store p pos v).
Proof.
  apply Tables_bind; [apply Tables_page_get | intros pg].
  apply Tables_if; [apply Tables_set_page | apply Tables_throw].
Qed.

Lemma Tables_temp_back : Tables temp_back.
Proof. intros st a st' E. apply temp_back_Ok in E as [-> _]. apply tables_grow_refl. Qed.

Lemma Tables_temp_pop_back : Tables temp_pop_back.
Proof.
  intros st a st' E. apply temp_pop_back_Ok in E as ->. apply tables_grow_same; reflexivity.
Qed.

Lemma Tables_child x i : Tables (child x i).
Proof. unfold child. destruct (_ !! _); [apply Tables_ret | apply Tables_throw]. Qed.

Lemma Tables_addSymbol sym : Tables (addSymbol sym).
Proof.
  intros st i st' E. rewrite addSymbol_run in E.
  destruct (find_index _ _) eqn:EF; injection E as _ <-; [apply tables_grow_refl |].
  apply find_index_known in EF.
  split; cbn [set_symbols m_symbols m_values m_defined_symbols m_plugins]; auto;
    try reflexivity.
  - apply prefix_app_r. reflexivity.
  - intros HN. rewrite map_app. apply NoDup_app. split; [exact HN |].
    split; [| apply NoDup_singleton].
    intros s Hs Hs'. apply list_elem_of_singleton in Hs'. subst.
    apply list_elem_of_fmap in Hs as (y & Hy & Hin). apply EF. exists y. auto.
Qed.

Lemma Tables_addValueElem v current : Tables (addValueElem v current).
Proof.
  intros st i st' E. unfold addValueElem in E. rewrite get_bind_run in E.
  destruct (find_index _ _).
  - unfold bind, ret in E. destruct (_ <? _); [| discriminate].
    injection E as _ <-. apply tables_grow_refl.
  - unfold bind, ret, modify in E. destruct (_ <? _); [| discriminate].
    injection E as _ <-.
    split; cbn [set_values m_symbols m_values m_defined_symbols m_plugins]; auto;
      try reflexivity.
    apply prefix_app_r. reflexivity.
Qed.

Lemma Tables_addValue x : Tables (addValue x).
Proof.
  unfold addValue. destruct (CValue_of_node x); [apply Tables_addValueElem | apply Tables_throw].
Qed.

Lemma Tables_addDefinedSymbol sym : Tables (addDefinedSymbol sym).
Proof.
  intros st a st' H. unfold addDefinedSymbol in H. rewrite get_bind_run in H.
  destruct (contains sym (m_defined_symbols st)) eqn:E; inv_M; [apply tables_grow_refl |].
  split; cbn [set_defined_symbols m_symbols m_values m_defined_symbols m_plugins]; auto;
    try reflexivity.
  - apply prefix_app_r. reflexivity.
  - intros HN. apply NoDup_app. split; [exact HN |].
    split; [| apply NoDup_singleton].
    intros x Hx Hx'. apply list_elem_of_singleton in Hx'. subst.
    apply contains_elem_of in Hx. congruence.
Qed.

Lemma Tables_add_plugin name :
  Tables (modify (fun st => set_plugins (m_plugins st ++ [name]) st)).
Proof.
  intros s a s' H. inv_M.
  split; cbn [set_plugins m_symbols m_values m_defined_symbols m_plugins]; auto;
    try reflexivity.
  apply prefix_app_r. reflexivity.
Qed.

#[local] Hint Resolve Tables_ret Tables_throw Tables_throwCompilerError Tables_page_get
  Tables_page_size Tables_page_push Tables_pushNumber Tables_page_store Tables_temp_back
  Tables_temp_pop_back Tables_child Tables_addSymbol Tables_addValueElem Tables_addValue
  Tables_addDefinedSymbol Tables_add_plugin : tables.

(** One step through a computation built from the pieces above. *)
Ltac tables_step :=
  first
    [ solve [auto with tables]
    | match goal with
      | |- Keeps _ (bind get _) => apply Tables_get_bind; intros ?
      | |- Keeps _ (bind _ _) => apply Tables_bind; [| intros ?]
      | |- Keeps _ (for_each _ _) => apply Tables_for_each; intros ?
      | |- Keeps _ (if _ then _ else _) => apply Tables_if
      | |- Keeps _ (modify _) => apply Tables_modify_pages; reflexivity
      | |- Keeps _ (match ?e with _ => _ end) => destruct e
      end ].
Ltac tables := cbv zeta; repeat tables_step.

(** The children of a node, compiled, keep the tables growing. *)
Definition ChildrenTables (acts : children_t) : Prop :=
  Forall (fun a => forall p, Tables (a p)) acts.

Lemma Tables_compileChild (acts : children_t) i p :
  ChildrenTables acts -> Tables (compileChild acts i p).
Proof. apply Keeps_compileChild. Qed.

Section Tables_compiler.

Context {isa : Instruction}.
Variable operators : list string.
Variable builtins : list string.
Variable isSpecific : string -> option Z.

Lemma Tables_skipGetFields fuel l j : Tables (skipGetFields fuel l j).
Proof.
  revert j. induction fuel as [|fuel IH]; intros j; simpl; [apply Tables_throw |].
  destruct (l !! _); [| apply Tables_throw].
  apply Tables_if; [apply IH | apply Tables_ret].
Qed.

Lemma Tables_compileSpecificArgs fuel l acts i p :
  ChildrenTables acts -> Tables (compileSpecificArgs fuel l acts i p).
Proof.
  intros HA. revert i. induction fuel as [|fuel IH]; intros i; simpl.
  - apply Tables_if; [apply Tables_throw | apply Tables_ret].
  - apply Tables_if; [| apply Tables_ret].
    apply Tables_bind; [apply Tables_skipGetFields | intros j].
    apply Tables_bind;
      [apply Tables_for_each; intros; apply Tables_compileChild, HA | intros _].
    apply Tables_bind; [apply Tables_compileChild, HA | intros _; apply IH].
Qed.

Lemma Tables_handleCallsFields l acts count n proc_page :
  ChildrenTables acts -> Tables (handleCallsFields l acts count n proc_page).
Proof.
  intros HA. revert n. induction count as [|count IH]; intros n; simpl.
  - apply Tables_ret.
  - destruct (l !! n); [| apply Tables_throw].
    apply Tables_if; [| apply Tables_ret].
    apply Tables_bind; [apply Tables_compileChild, HA | intros _; apply IH].
Qed.

Lemma Tables_handleCallsOperands l acts op_inst count index exp_count p :
  ChildrenTables acts ->
  Tables (handleCallsOperands l acts op_inst count index exp_count p).
Proof.
  intros HA. revert index exp_count. induction count as [|count IH];
    intros index exp_count; simpl.
  - apply Tables_ret.
  - apply Tables_bind; [apply Tables_compileChild, HA | intros _].
    apply Tables_bind; [apply Tables_if; auto with tables | intros _]. apply IH.
Qed.

Section Children.

Variable acts : children_t.
Hypothesis HA : ChildrenTables acts.

Local Hint Resolve Tables_compileChild Tables_compileSpecificArgs Tables_handleCallsFields
  Tables_handleCallsOperands : tables.

Lemma Tables_compileSymbol x p : Tables (compileSymbol operators builtins x p).
Proof. unfold compileSymbol. tables. Qed.

Lemma Tables_compileSpecific c0 x p : Tables (compileSpecific isSpecific c0 x acts p).
Proof. unfold compileSpecific, pushSpecificInstArgc. tables. Qed.

Lemma Tables_compileIf x p : Tables (compileIf x acts p).
Proof. unfold compileIf. tables. Qed.

Lemma Tables_compileFunction x p : Tables (compileFunction x acts p).
Proof. unfold compileFunction, addValue_page. tables. Qed.

Lemma Tables_compileLetMut n x p : Tables (compileLetMut n x acts p).
Proof. unfold compileLetMut, putValue. tables. Qed.

Lemma Tables_compileWhile x p : Tables (compileWhile x acts p).
Proof. unfold compileWhile. tables. Qed.

Lemma Tables_compileSet x p : Tables (compileSet x acts p).
Proof. unfold compileSet, putValue. tables. Qed.

Lemma Tables_compileQuote x p : Tables (compileQuote x acts p).
Proof. unfold compileQuote, addValue_page. tables. Qed.

Lemma Tables_compilePluginImport x p : Tables (compilePluginImport x acts p).
Proof. unfold compilePluginImport. tables. Qed.

Lemma Tables_compileDel x p : Tables (compileDel x acts p).
Proof. unfold compileDel. tables. Qed.

Lemma Tables_handleCalls x p : Tables (handleCalls operators x acts p).
Proof.
  assert (forall n q, Tables (for_each (fun exp : Z -> M unit => exp q) (drop n acts))) as HD.
  { intros n q. apply Keeps_for_each; [apply tables_grow_refl | apply tables_grow_trans |].
    intros a Ha. eapply (proj1 (Forall_forall _ _) HA), (subseteq_drop n), Ha. }
  unfold handleCalls, checkChainedOperator. tables.
Qed.

Lemma Tables_compileNode x p : Tables (compileNode operators builtins isSpecific x acts p).
Proof.
  unfold compileNode.
  apply Tables_if; [apply Tables_compileSymbol |].
  apply Tables_if; [tables |]. apply Tables_if; [tables |].
  destruct (constList x) as [|c0 l] eqn:El; [tables |].
  apply Tables_if; [apply Tables_compileSpecific |].
  apply Tables_if; [| apply Tables_handleCalls].
  destruct (keyword c0) as [[]|]; auto using Tables_compileIf, Tables_compileSet,
    Tables_compileLetMut, Tables_compileFunction, Tables_compileWhile,
    Tables_compilePluginImport, Tables_compileQuote, Tables_compileDel, Tables_ret.
  apply Tables_for_each. intros i. apply Tables_compileChild, HA.
Qed.

End Children.

Lemma Tables_compile x : forall p, Tables (_compile operators builtins isSpecific x p).
Proof.
  induction x as [s pos|s pos|s pos|k pos|s pos|n pos|l pos IH] using Node_ind';
    intros p; simpl; try (apply Tables_compileNode; constructor).
  apply Tables_compileNode. unfold ChildrenTables. apply Forall_fmap.
  eapply Forall_impl; [exact IH |]. intros c Hc q. apply Hc.
Qed.

End Tables_compiler.

Section Lowering_keeps.

Context {isa : Instruction}.
Variable operators : list string.
Variable builtins : list string.
Variable isSpecific : string -> option Z.
Variable stem : string -> string.
Variable to_string : float -> string.
Variable hash256 : list Z -> list Z.
Variable ARK_VERSION_MAJOR : Z.
Variable ARK_VERSION_MINOR : Z.
Variable ARK_VERSION_PATCH : Z.

Local Abbreviation _compile' := (_compile operators builtins isSpecific).

(** X4. [_compile(x, p)], whatever the node, only adds bytes at the end of
    the page [p]: when it returns, the page [p] is what it was followed by
    the new code, every other page that existed, code page or temp page, is
    as it was, the temp stack has its height again, and the container is
    untouched. *)
Theorem _compile_appends x p st st' :
  _compile' x p st = (Ok tt, st') ->
  (forall pg, page p st = Some pg -> exists code, page p st' = Some (pg ++ code)) /\
  (forall q pg, q <> p -> page q st = Some pg -> page q st' = Some pg) /\
  length (m_temp_pages st') = length (m_temp_pages st) /\
  (length (m_code_pages st) <= length (m_code_pages st'))%nat /\
  m_bytecode st' = m_bytecode st.
Proof.
  intros H. apply Ext_compile in H. split; [| split; [| split; [| split]]].
  - intros pg Hp. eapply ext_page; eauto.
  - intros q pg Hq Hp. eapply grow_other; eauto.
  - apply (grow_temp _ _ _ H).
  - destruct (m_code_pages st) as [|pg0 l] eqn:E using rev_ind; [simpl; lia |].
    clear IHl. destruct (grow_page _ _ _ H (Z.of_nat (length l)) pg0) as (c & Hc & _).
    + unfold page. replace (0 <=? _) with true by (symmetry; apply Z.leb_le; lia).
      rewrite E, Nat2Z.id, lookup_app_r, Nat.sub_diag by lia. reflexivity.
    + unfold page in Hc. replace (0 <=? _) with true in Hc by (symmetry; apply Z.leb_le; lia).
      rewrite Nat2Z.id in Hc. apply lookup_lt_Some in Hc.
      rewrite length_app. simpl. lia.
  - apply (grow_bytecode _ _ _ H).
Qed.


(** X6. In what [compile()] makes of a fresh compiler, no two symbols of the
    symbol table have the same name. *)
Theorem compile_symbols_unique ast timestamp st' :
  compile operators builtins isSpecific stem to_string hash256
    ARK_VERSION_MAJOR ARK_VERSION_MINOR ARK_VERSION_PATCH ast timestamp Compiler_new
    = (Ok tt, st') ->
  NoDup (map string_of (m_symbols st')) /\ NoDup (m_defined_symbols st').
Proof.
  intros H. apply compile_Ok in H as (st1 & HL & _ & ->); [| reflexivity].
  cbn [m_symbols m_defined_symbols set_bytecode].
  unfold lower in HL. apply Tables_compile in HL.
  split; [apply (tg_names _ _ HL) | apply (tg_defined_names _ _ HL)]; constructor.
Qed.

End Lowering_keeps.

Lemma _compile_appends_witness :
  (forall pg, page 0 Sample.one_page = Some pg ->
     exists code, page 0 (snd (Sample._compile Sample.product 0 Sample.one_page))
                  = Some (pg ++ code)) /\
  (forall q pg, q <> 0 -> page q Sample.one_page = Some pg ->
     page q (snd (Sample._compile Sample.product 0 Sample.one_page)) = Some pg) /\
  length (m_temp_pages (snd (Sample._compile Sample.product 0 Sample.one_page))) =
    length (m_temp_pages Sample.one_page) /\
  (length (m_code_pages Sample.one_page) <=
   length (m_code_pages (snd (Sample._compile Sample.product 0 Sample.one_page))))%nat /\
  m_bytecode (snd (Sample._compile Sample.product 0 Sample.one_page)) =
    m_bytecode Sample.one_page.
Proof.
  apply (@_compile_appends Sample.isa Sample.operators Sample.builtins Sample.isSpecific
           Sample.product 0 Sample.one_page).
  vm_compute. reflexivity.
Defined.


Lemma compile_symbols_unique_witness :
  NoDup (map string_of (m_symbols Sample.product_compiled)) /\
  NoDup (m_defined_symbols Sample.product_compiled).
Proof.
  apply (@compile_symbols_unique Sample.isa Sample.operators Sample.builtins
           Sample.isSpecific Sample.stem Sample.to_string Sample.hash256 3 0 13
           Sample.product 1600000000).
  vm_compute. reflexivity.
Defined.


(** * Programs that use a variable nothing binds *)

Definition isSymbol (x : Node) : bool := NodeType.eqb (nodeType x) NodeType.Symbol.

(** The names a form binds itself: the variable of a [let] or a [mut], the
    parameters and the captures of a [fun]. *)
Definition form_binders (l : list Node) : list string :=
  match l with
  | c0 :: n :: _ =>
      match keyword c0 with
      | Some Keyword.Let | Some Keyword.Mut => [string_of n]
      | Some Keyword.Fun =>
          map string_of (filter (fun it => isSymbol it || isCapture it = true) (constList n))
      | _ => []
      end
  | _ => []
  end.

(** The path a form imports. *)
Definition form_imports (l : list Node) : list string :=
  match l with
  | c0 :: n :: _ =>
      match keyword c0 with
      | Some Keyword.Import => [string_of n]
      | _ => []
      end
  | _ => []
  end.

(** The names bound somewhere in the program, and the paths imported
    somewhere in it. *)
Fixpoint binders (x : Node) : list string :=
  match x with
  | List l _ => form_binders l ++ concat (map binders l)
  | _ => []
  end.

Fixpoint imports (x : Node) : list string :=
  match x with
  | List l _ => form_imports l ++ concat (map imports l)
  | _ => []
  end.

(** Whether the child [i] is marked in [ub]. *)
Definition marked (ub : list bool) (i : nat) : bool :=
  match ub !! i with
  | Some b => b
  | None => false
  end.

Section Uses.

Variable operators : list string.
Variable builtins : list string.
Variable isSpecific : string -> option Z.
Variable name : string.

(** Whether lowering the node [x] enters [name] into the symbol table as a
    variable in use; [ub] tells it of the children of [x]. The cases are
    those of [_compile]: a symbol that names neither a builtin nor an
    operator, a field, and in a list the children that the form lowers and
    the name a [set] or a [del] looks up. For a specific form they are the
    arguments, when the first is no field and a [uint16_t] counts them. *)
Definition usesNode (x : Node) (ub : list bool) : bool :=
  match x with
  | Symbol s _ =>
      String.eqb s name &&
      match isBuiltin builtins s, isOperator operators s with
      | None, None => true
      | _, _ => false
      end
  | GetField s _ => String.eqb s name
  | List (c0 :: args) _ =>
      if isSymbol c0 && bool_decide (is_Some (isSpecific (string_of c0))) then
        match args with a :: _ => negb (isGetField a) | [] => true end &&
        (Z.of_nat (length args) <? 65536) && existsb id (drop 1 ub)
      else if NodeType.eqb (nodeType c0) NodeType.Keyword then
        match keyword c0 with
        | Some Keyword.If =>
            marked ub 1 || marked ub 2 || ((length args =? 3)%nat && marked ub 3)
        | Some Keyword.Set_ =>
            match args with
            | n :: _ => String.eqb (string_of n) name
            | [] => false
            end || existsb id (drop 2 ub)
        | Some Keyword.Let | Some Keyword.Mut => existsb id (drop 2 ub)
        | Some Keyword.Fun => marked ub 2
        | Some Keyword.Begin => existsb id (drop 1 ub)
        | Some Keyword.While => marked ub 1 || marked ub 2
        | Some Keyword.Import => false
        | Some Keyword.Quote => marked ub 1
        | Some Keyword.Del =>
            match args with
            | n :: _ => String.eqb (string_of n) name
            | [] => false
            end
        | None => false
        end
      else existsb id ub
  | _ => false
  end.

Fixpoint uses (x : Node) : bool :=
  match x with
  | List l _ => usesNode x (map uses l)
  | _ => usesNode x []
  end.

End Uses.

Example uses_unbound_b :
  uses Sample.operators Sample.builtins Sample.isSpecific "b" Sample.unbound_b = true /\
  binders Sample.unbound_b = ["a"] /\ imports Sample.unbound_b = [].
Proof. repeat split. Qed.

(** ** A name enters the symbol table *)

Definition Enters (name : string) {A} (m : M A) : Prop :=
  forall st a st', m st = (Ok a, st') -> known name (m_symbols st').

Lemma known_grow name st st' :
  tables_grow st st' -> known name (m_symbols st) -> known name (m_symbols st').
Proof.
  intros [[k ->] _ _ _ _ _] (s & Hs & E). exists s. split; [| exact E].
  apply elem_of_app. auto.
Qed.

Lemma Enters_bind_l name {A B} (m : M A) (f : A -> M B) :
  Enters name m -> (forall a, Tables (f a)) -> Enters name (bind m f).
Proof.
  intros Hm Hf st b st' E. apply bind_Ok in E as (a & st1 & E1 & E2).
  eapply known_grow; [eapply Hf, E2 | eapply Hm, E1].
Qed.

Lemma Enters_bind_r name {A B} (m : M A) (f : A -> M B) :
  (forall a, Enters name (f a)) -> Enters name (bind m f).
Proof. intros Hf st b st' E. apply bind_Ok in E as (a & st1 & E1 & E2). eapply Hf, E2. Qed.

Lemma Enters_for_each name {A} (f : A -> M unit) l a :
  a ∈ l -> Enters name (f a) -> (forall b, b ∈ l -> Tables (f b)) ->
  Enters name (for_each f l).
Proof.
  intros Ha Hf HT. induction l as [|b l IH]; [inversion Ha |].
  cbn [for_each]. apply elem_of_cons in Ha as [<- | Ha].
  - apply Enters_bind_l; [exact Hf |]. intros _.
    apply Keeps_for_each; [apply tables_grow_refl | apply tables_grow_trans |].
    intros b' Hb. apply HT. right. exact Hb.
  - apply Enters_bind_r. intros _. apply IH; [exact Ha |].
    intros b' Hb. apply HT. right. exact Hb.
Qed.

Lemma Enters_addSymbol sym : Enters (string_of sym) (addSymbol sym).
Proof.
  intros st i st' E. destruct (addSymbol_Ok _ _ _ _ E) as (s & Hs & En).
  exists s. split; [eapply list_elem_of_lookup_2, Hs | exact En].
Qed.

Lemma Enters_set_page name p (f : list Z -> list Z) {A} (m : M A) :
  Enters name m ->
  forall st a st1 pg, m st = (Ok a, st1) -> known name (m_symbols (set_page p pg st1)).
Proof. intros Hm st a st1 pg E. rewrite symbols_set_page. eapply Hm, E. Qed.

Lemma existsb_drop_map {A} (u : A -> bool) k l :
  existsb id (drop k (map u l)) = true ->
  exists i c, (k <= i)%nat /\ l !! i = Some c /\ u c = true.
Proof.
  rewrite existsb_exists. intros (b & Hb & E). unfold id in E. subst b.
  apply list_elem_of_In, list_elem_of_lookup in Hb as (j & Hj).
  rewrite lookup_drop, list_lookup_fmap in Hj.
  destruct (l !! (k + j)%nat) as [c|] eqn:Ec; [| discriminate].
  simpl in Hj. exists (k + j)%nat, c. split; [lia |]. split; [exact Ec | congruence].
Qed.

Lemma marked_map {A} (u : A -> bool) l i :
  marked (map u l) i = true -> exists c, l !! i = Some c /\ u c = true.
Proof.
  unfold marked. rewrite list_lookup_fmap. destruct (l !! i) as [c|]; [| discriminate].
  simpl. eauto.
Qed.

Lemma elem_of_concat_rev {A} (a : A) (gs : list (list A)) :
  a ∈ concat gs -> a ∈ concat (rev gs).
Proof.
  rewrite !list_elem_of_In, !in_concat. intros (g & Hg & Ha).
  exists g. split; [apply in_rev; rewrite rev_involutive; exact Hg | exact Ha].
Qed.

Section Uses_enter.

Context {isa : Instruction}.
Variable operators : list string.
Variable builtins : list string.
Variable isSpecific : string -> option Z.
Variable name : string.

Local Abbreviation _compile' := (_compile operators builtins isSpecific).
Local Abbreviation uses' := (uses operators builtins isSpecific name).

(** The children of a list whose uses of [name] enter it. *)
Definition ChildrenEnter (l : list Node) : Prop :=
  Forall (fun c => uses' c = true -> forall p, Enters name (_compile' c p)) l.

Lemma ChildrenTables_compile (l : list Node) : ChildrenTables (map _compile' l).
Proof. apply Forall_fmap, Forall_forall. intros c _ p. apply Tables_compile. Qed.

Lemma Enters_compileChild l i c p :
  ChildrenEnter l -> l !! i = Some c -> uses' c = true ->
  Enters name (compileChild (map _compile' l) i p).
Proof.
  intros HE Hi Hu. unfold compileChild. rewrite list_lookup_fmap, Hi. simpl.
  eapply (proj1 (Forall_lookup _ _) HE); eauto.
Qed.

Lemma Enters_children_seq l i c k n p :
  ChildrenEnter l -> l !! i = Some c -> uses' c = true -> (k <= i < k + n)%nat ->
  Enters name (for_each (fun j => compileChild (map _compile' l) j p) (seq k n)).
Proof.
  intros HE Hi Hu Hr. apply (Enters_for_each name _ _ i).
  - apply elem_of_seq. lia.
  - eapply Enters_compileChild; eauto.
  - intros j _. apply Tables_compileChild, ChildrenTables_compile.
Qed.

Lemma Enters_handleCallsOperands l i c op_inst count index exp_count p :
  ChildrenEnter l -> l !! i = Some c -> uses' c = true ->
  (index <= i < index + count)%nat ->
  Enters name (handleCallsOperands l (map _compile' l) op_inst count index exp_count p).
Proof.
  intros HE Hi Hu. revert index exp_count. induction count as [|count IH];
    intros index exp_count Hr; [lia |].
  cbn [handleCallsOperands]. destruct (decide (i = index)) as [E|Hne].
  - subst index. apply Enters_bind_l; [eapply Enters_compileChild; eauto |]. intros _.
    apply Tables_bind; [apply Tables_if; auto with tables |]. intros _.
    apply Tables_handleCallsOperands, ChildrenTables_compile.
  - apply Enters_bind_r. intros _. apply Enters_bind_r. intros _. apply IH. lia.
Qed.

(** The loop over the fields of the callee: a child it passes is lowered. *)
Lemma handleCallsFields_enters l i c count n0 q st n st' :
  ChildrenEnter l -> l !! i = Some c -> uses' c = true ->
  handleCallsFields l (map _compile' l) count n0 q st = (Ok n, st') ->
  (n0 <= i)%nat -> known name (m_symbols st') \/ (n <= i)%nat.
Proof.
  intros HE Hi Hu. revert n0 st. induction count as [|count IH]; intros n0 st H Hr.
  - cbn [handleCallsFields] in H. inv_M. auto.
  - cbn [handleCallsFields] in H. destruct (l !! n0) as [c'|]; [| discriminate].
    destruct (isGetField c'); [| inv_M; auto].
    apply bind_Ok in H as ([] & st1 & E1 & H).
    destruct (decide (i = n0)) as [E|Hne].
    + subst n0. left. eapply known_grow.
      * eapply (Tables_handleCallsFields _ _ _ _ _ (ChildrenTables_compile l)), H.
      * eapply Enters_compileChild; eauto.
    + eapply IH; [exact H | lia].
Qed.

Lemma Enters_child x i c {B} (f : Node -> M B) :
  constList x !! i = Some c -> Enters name (f c) -> Enters name (bind (child x i) f).
Proof.
  intros Hc Hf st b st' E. unfold bind, child in E. rewrite Hc in E. eapply Hf, E.
Qed.

Local Hint Resolve Tables_compileChild Tables_compileSpecificArgs Tables_handleCallsFields
  Tables_handleCallsOperands ChildrenTables_compile : tables.

(** Through a sequence to the step that enters the name. *)
Ltac enters_find tac :=
  cbv beta iota zeta;
  first
    [ solve [tac]
    | apply Enters_bind_l; [solve [tac] | intros ?; solve [tables]]
    | apply Enters_bind_r; intros ?; enters_find tac ].

Lemma Enters_handleCalls l pos i c p :
  ChildrenEnter l -> l !! i = Some c -> uses' c = true ->
  Enters name (handleCalls operators (List l pos) (map _compile' l) p).
Proof.
  intros HE Hi Hu.
  assert (forall n q, Tables (for_each (fun exp : Z -> M unit => exp q)
                                (drop n (map _compile' l)))) as HD.
  { intros n q. apply Keeps_for_each; [apply tables_grow_refl | apply tables_grow_trans |].
    intros a Ha. eapply (proj1 (Forall_forall _ _) (ChildrenTables_compile l)),
      (subseteq_drop n), Ha. }
  unfold handleCalls, checkChainedOperator. cbn [constList].
  apply Enters_bind_r. intros _. apply Enters_bind_r. intros st0. cbv zeta.
  destruct i as [|i].
  { apply Enters_bind_l; [eapply Enters_compileChild; eauto |]. intros _. tables. }
  apply Enters_bind_r. intros _. intros st [] st' E.
  apply bind_Ok in E as (n & st1 & EF & E).
  destruct (handleCallsFields_enters _ _ _ _ _ _ _ _ _ HE Hi Hu EF ltac:(lia)) as [HK|Hn].
  { eapply known_grow; [| exact HK].
    revert E. match goal with |- ?m st1 = _ -> _ => assert (Tables m) as HT by tables end.
    apply HT. }
  apply bind_Ok in E as (back & st2 & EB & E).
  assert (st2 = st1) as -> by (unfold temp_back in EB; rewrite get_bind_run in EB;
                                destruct (last _); inv_M; reflexivity).
  revert E. destruct (1 <? _).
  - match goal with |- ?m st1 = _ -> _ => assert (Enters name m) as HT; [| apply HT] end.
    apply Enters_bind_l; [| intros _; tables].
    apply (Enters_for_each name _ _ (_compile' c)).
    + apply list_elem_of_lookup. exists (S i - n)%nat.
      rewrite lookup_drop, list_lookup_fmap.
      replace (n + (S i - n))%nat with (S i) by lia. rewrite Hi. reflexivity.
    + eapply (proj1 (Forall_lookup _ _) HE); eauto.
    + intros b Hb. eapply (proj1 (Forall_forall _ _) (ChildrenTables_compile l)),
        (subseteq_drop n), Hb.
  - destruct (back !! 0%nat) as [op_inst|]; [| discriminate].
    match goal with |- ?m st1 = _ -> _ => assert (Enters name m) as HT; [| apply HT] end.
    apply Enters_bind_r. intros _. apply Enters_bind_l; [| intros ?; tables].
    eapply Enters_handleCallsOperands; eauto.
    apply lookup_lt_Some in Hi. lia.
Qed.

Lemma Enters_compileSpecific c0 args pos i c p :
  ChildrenEnter (c0 :: args) -> args !! i = Some c -> uses' c = true ->
  isSymbol c0 = true -> is_Some (isSpecific (string_of c0)) ->
  match args with a :: _ => isGetField a = false | [] => True end ->
  Z.of_nat (length args) < 65536 ->
  Enters name (compileSpecific isSpecific c0 (List (c0 :: args) pos)
                 (map _compile' (c0 :: args)) p).
Proof.
  intros HE Hi Hu HS [inst Hinst] Hfirst Hlen st [] st' E.
  assert (isGetField c0 = false) as HG by (destruct c0; (discriminate || reflexivity)).
  rewrite (compileSpecific_run isSpecific _ _ _ _ _ _ _ Hinst HG) in E.
  destruct (_ && _); [discriminate |].
  rewrite (compileSpecificArgs_order operators builtins isSpecific _ _ _ _ Hfirst Hlen) in E.
  destruct (for_each _ _ st) as [[[]|e] st1] eqn:EF; [| discriminate].
  destruct (page p st1); [| discriminate]. injection E as <-.
  rewrite symbols_set_page. revert EF.
  apply (Enters_for_each name _ _ c).
  - apply elem_of_concat_rev. rewrite concat_groups. eapply list_elem_of_lookup_2, Hi.
  - inversion HE as [|? ? _ HE']; subst. eapply (proj1 (Forall_lookup _ _) HE'); eauto.
  - intros b _. apply Tables_compile.
Qed.

(** A node that uses [name] enters it into the symbol table, when its
    lowering returns. *)
Lemma uses_enters x : uses' x = true -> forall p, Enters name (_compile' x p).
Proof.
  induction x as [s pos|s pos|s pos|k pos|s pos|n pos|l pos IH] using Node_ind';
    intros Hu p; try discriminate.
  - cbn [uses usesNode] in Hu. apply andb_true_iff in Hu as [En Hb].
    apply String.eqb_eq in En. subst name.
    cbn [_compile]. unfold compileNode. cbn [nodeType NodeType.eqb]. unfold compileSymbol.
    cbn [string_of] in *. destruct (isBuiltin builtins s); [discriminate |].
    destruct (isOperator operators s); [discriminate |].
    apply Enters_bind_l; [apply (Enters_addSymbol (Symbol s pos)) | intros; tables].
  - cbn [uses usesNode] in Hu. apply String.eqb_eq in Hu. subst name.
    cbn [_compile]. unfold compileNode. cbn [nodeType NodeType.eqb].
    apply Enters_bind_l; [apply (Enters_addSymbol (GetField s pos)) | intros; tables].
  - fold (ChildrenEnter l) in IH.
    change (usesNode operators builtins isSpecific name (List l pos) (map uses' l) = true) in Hu.
    destruct l as [|c0 args]; [discriminate |]. unfold usesNode in Hu.
    cbn [_compile]. unfold compileNode. cbn [nodeType NodeType.eqb orb constList].
    fold (isSymbol c0). set (l := c0 :: args) in *.
    destruct (isSymbol c0 && _) eqn:ES.
    { apply andb_true_iff in ES as [ES1 ES2]. apply bool_decide_eq_true in ES2.
      apply andb_true_iff in Hu as [Hu Hex]. apply andb_true_iff in Hu as [Hfirst Hlen].
      apply Z.ltb_lt in Hlen.
      apply existsb_drop_map in Hex as (i & c & Hi1 & Hi & Hc).
      destruct i as [|i]; [lia |]. subst l.
      eapply Enters_compileSpecific; eauto.
      destruct args as [|a ?]; [exact I | apply negb_true_iff, Hfirst]. }
    destruct (NodeType.eqb (nodeType c0) NodeType.Keyword) eqn:EK.
    2:{ change (existsb id (drop 0 (map uses' l)) = true) in Hu.
        apply existsb_drop_map in Hu as (i & c & _ & Hi & Hc).
        eapply Enters_handleCalls; eauto. }
    assert (length l = S (length args)) as Hlen by reflexivity.
    assert (forall j, l !! S j = args !! j) as Hl by reflexivity.
    destruct (keyword c0) as [[]|]; try discriminate.
    + (* if *)
      unfold compileIf. cbn [constList].
      apply orb_true_iff in Hu as [Hu|Hu]; [apply orb_true_iff in Hu as [Hu|Hu] |].
      * apply marked_map in Hu as (c & Hi & Hc).
        enters_find ltac:(eapply Enters_compileChild; eauto).
      * apply marked_map in Hu as (c & Hi & Hc).
        enters_find ltac:(eapply Enters_compileChild; eauto).
      * apply andb_true_iff in Hu as [H3 Hu]. apply Nat.eqb_eq in H3.
        apply marked_map in Hu as (c & Hi & Hc).
        replace (Z.of_nat (length l) =? 4) with true by (symmetry; apply Z.eqb_eq; lia).
        enters_find ltac:(eapply Enters_compileChild; eauto).
    + (* set *)
      unfold compileSet, putValue. cbn [constList].
      apply orb_true_iff in Hu as [Hu|Hu].
      * destruct args as [|n args']; [discriminate |]. apply String.eqb_eq in Hu.
        apply (Enters_child _ 1 n); [reflexivity |].
        apply Enters_bind_l; [rewrite <- Hu; apply Enters_addSymbol | intros; tables].
      * apply existsb_drop_map in Hu as (i & c & Hi1 & Hi & Hc).
        pose proof (lookup_lt_Some _ _ _ Hi).
        enters_find ltac:(eapply Enters_children_seq; eauto; lia).
    + (* let *)
      unfold compileLetMut, putValue. cbn [constList].
      apply existsb_drop_map in Hu as (i & c & Hi1 & Hi & Hc).
      pose proof (lookup_lt_Some _ _ _ Hi).
      enters_find ltac:(eapply Enters_children_seq; eauto; lia).
    + (* mut *)
      unfold compileLetMut, putValue. cbn [constList].
      apply existsb_drop_map in Hu as (i & c & Hi1 & Hi & Hc).
      pose proof (lookup_lt_Some _ _ _ Hi).
      enters_find ltac:(eapply Enters_children_seq; eauto; lia).
    + (* fun *)
      unfold compileFunction, addValue_page.
      apply marked_map in Hu as (c & Hi & Hc).
      enters_find ltac:(eapply Enters_compileChild; eauto).
    + (* begin *)
      apply existsb_drop_map in Hu as (i & c & Hi1 & Hi & Hc).
      pose proof (lookup_lt_Some _ _ _ Hi).
      eapply Enters_children_seq; eauto. lia.
    + (* while *)
      unfold compileWhile.
      apply orb_true_iff in Hu as [Hu|Hu]; apply marked_map in Hu as (c & Hi & Hc);
        enters_find ltac:(eapply Enters_compileChild; eauto).
    + (* quote *)
      unfold compileQuote, addValue_page.
      apply marked_map in Hu as (c & Hi & Hc).
      enters_find ltac:(eapply Enters_compileChild; eauto).
    + (* del *)
      unfold compileDel. destruct args as [|n args']; [discriminate |].
      apply String.eqb_eq in Hu.
      apply (Enters_child _ 1 n); [reflexivity |].
      apply Enters_bind_l; [rewrite <- Hu; apply Enters_addSymbol | intros; tables].
Qed.

End Uses_enter.

(** ** What lowering binds

    [binds_within B I st st']: every defined symbol of [st'] is one of [st]
    or a name of [B], and every plugin of [st'] is one of [st] or a path of
    [I]. *)
Record binds_within (B I : list string) (st st' : Compiler) : Prop := {
  bw_defined : forall s, s ∈ m_defined_symbols st' -> s ∈ m_defined_symbols st \/ s ∈ B;
  bw_plugins : forall s, s ∈ m_plugins st' -> s ∈ m_plugins st \/ s ∈ I
}.

Abbreviation Binds B I := (Keeps (binds_within B I)).

Lemma binds_within_refl B I st : binds_within B I st st.
Proof. split; auto. Qed.

Lemma binds_within_trans B I st1 st2 st3 :
  binds_within B I st1 st2 -> binds_within B I st2 st3 -> binds_within B I st1 st3.
Proof.
  intros [D1 P1] [D2 P2]. split; intros s Hs.
  - destruct (D2 s Hs) as [H|H]; auto.
  - destruct (P2 s Hs) as [H|H]; auto.
Qed.

Lemma binds_within_same B I st st' :
  m_defined_symbols st' = m_defined_symbols st -> m_plugins st' = m_plugins st ->
  binds_within B I st st'.
Proof. intros E1 E2. split; rewrite ?E1, ?E2; auto. Qed.

Lemma Binds_mono B I B' I' {A} (m : M A) :
  B ⊆ B' -> I ⊆ I' -> Binds B I m -> Binds B' I' m.
Proof.
  intros HB HI Hm st a st' E. destruct (Hm st a st' E) as [D P].
  split; intros s Hs; [destruct (D s Hs) | destruct (P s Hs)]; auto.
Qed.

Create HintDb binds discriminated.

Section Binds.

Variables B I : list string.

Lemma Binds_ret {A} (a : A) : Binds B I (ret a).
Proof. apply Keeps_ret, binds_within_refl. Qed.

Lemma Binds_throw {A} e : Binds B I (@throw A e).
Proof. apply Keeps_throw. Qed.

Lemma Binds_throwCompilerError {A} m n : Binds B I (@throwCompilerError A m n).
Proof. apply Keeps_throw. Qed.

Lemma Binds_bind {A C} (m : M A) (f : A -> M C) :
  Binds B I m -> (forall a, Binds B I (f a)) -> Binds B I (bind m f).
Proof. apply Keeps_bind, binds_within_trans. Qed.

Lemma Binds_get_bind {C} (f : Compiler -> M C) :
  (forall st, Binds B I (f st)) -> Binds B I (bind get f).
Proof. apply Keeps_get_bind; [apply binds_within_refl | apply binds_within_trans]. Qed.

Lemma Binds_for_each {A} (f : A -> M unit) l :
  (forall a, a ∈ l -> Binds B I (f a)) -> Binds B I (for_each f l).
Proof. apply Keeps_for_each; [apply binds_within_refl | apply binds_within_trans]. Qed.

(** A computation under which the tables grow and that leaves the defined
    symbols and the plugins alone. *)
Lemma Binds_modify (f : Compiler -> Compiler) :
  (forall st, m_defined_symbols (f st) = m_defined_symbols st) ->
  (forall st, m_plugins (f st) = m_plugins st) ->
  Binds B I (modify f).
Proof. intros H1 H2 st a st' E. inv_M. apply binds_within_same; auto. Qed.

Lemma Binds_set_page p pg : Binds B I (modify (set_page p pg)).
Proof.
  apply Binds_modify; intros st; unfold set_page; destruct (0 <=? p); reflexivity.
Qed.

Lemma Binds_page_get p : Binds B I (page_get p).
Proof. intros st a st' E. apply page_get_Ok in E as [_ ->]. apply binds_within_refl. Qed.

Lemma Binds_page_size p : Binds B I (page_size p).
Proof. apply Binds_bind; [apply Binds_page_get | intros; apply Binds_ret]. Qed.

Lemma Binds_page_push p b : Binds B I (page_push p b).
Proof. apply Binds_bind; [apply Binds_page_get | intros; apply Binds_set_page]. Qed.

Lemma Binds_pushNumber p n : Binds B I (pushNumber n (Some p)).
Proof. apply Binds_bind; [apply Binds_page_push | intros; apply Binds_page_push]. Qed.

Lemma Binds_page_store p pos v : Binds B I (page_store p pos v).
Proof.
  apply Binds_bind; [apply Binds_page_get | intros pg].
  apply Keeps_if; [apply Binds_set_page | apply Binds_throw].
Qed.

Lemma Binds_temp_back : Binds B I temp_back.
Proof. intros st a st' E. apply temp_back_Ok in E as [-> _]. apply binds_within_refl. Qed.

Lemma Binds_temp_pop_back : Binds B I temp_pop_back.
Proof.
  intros st a st' E. apply temp_pop_back_Ok in E as ->. apply binds_within_same; reflexivity.
Qed.

Lemma Binds_child x i : Binds B I (child x i).
Proof. unfold child. destruct (_ !! _); [apply Binds_ret | apply Binds_throw]. Qed.

Lemma Binds_addSymbol sym : Binds B I (addSymbol sym).
Proof.
  intros st i st' E. rewrite addSymbol_run in E.
  destruct (find_index _ _); injection E as _ <-; apply binds_within_same; reflexivity.
Qed.

Lemma Binds_addValueElem v current : Binds B I (addValueElem v current).
Proof.
  intros st i st' E. unfold addValueElem in E. rewrite get_bind_run in E.
  destruct (find_index _ _); unfold bind, ret, modify in E;
    (destruct (_ <? _); [| discriminate]); injection E as _ <-;
    apply binds_within_same; reflexivity.
Qed.

Lemma Binds_addValue x : Binds B I (addValue x).
Proof.
  unfold addValue. destruct (CValue_of_node x); [apply Binds_addValueElem | apply Binds_throw].
Qed.

(** [addDefinedSymbol] of a name of [B]. *)
Lemma Binds_addDefinedSymbol sym : sym ∈ B -> Binds B I (addDefinedSymbol sym).
Proof.
  intros HB st a st' H. unfold addDefinedSymbol in H. rewrite get_bind_run in H.
  destruct (contains sym (m_defined_symbols st)); inv_M; [apply binds_within_refl |].
  split; cbn [set_defined_symbols m_defined_symbols m_plugins]; auto.
  intros s Hs. apply elem_of_app in Hs as [Hs|Hs]; [auto |].
  apply list_elem_of_singleton in Hs. subst. auto.
Qed.

(** The plugin list takes a path of [I]. *)
Lemma Binds_add_plugin path :
  path ∈ I -> Binds B I (modify (fun st => set_plugins (m_plugins st ++ [path]) st)).
Proof.
  intros HI s a s' H. inv_M.
  split; cbn [set_plugins m_defined_symbols m_plugins]; auto.
  intros p Hp. apply elem_of_app in Hp as [Hp|Hp]; [auto |].
  apply list_elem_of_singleton in Hp. subst. auto.
Qed.

End Binds.

#[local] Hint Resolve Binds_ret Binds_throw Binds_throwCompilerError Binds_page_get
  Binds_page_size Binds_page_push Binds_pushNumber Binds_page_store Binds_temp_back
  Binds_temp_pop_back Binds_child Binds_addSymbol Binds_addValueElem Binds_addValue
  Binds_addDefinedSymbol Binds_add_plugin : binds.

Ltac binds_step :=
  first
    [ solve [auto with binds]
    | match goal with
      | |- Keeps _ (bind get _) => apply Binds_get_bind; intros ?
      | |- Keeps _ (bind _ _) => apply Binds_bind; [| intros ?]
      | |- Keeps _ (for_each _ _) => apply Binds_for_each; intros ? ?
      | |- Keeps _ (if _ then _ else _) => apply Keeps_if
      | |- Keeps _ (modify _) => apply Binds_modify; reflexivity
      | |- Keeps _ (match ?e with _ => _ end) => destruct e
      end ].
Ltac binds := cbv zeta; repeat binds_step.

(** The children of a node keep the bindings within [B] and [I]. *)
Definition ChildrenBind (B I : list string) (acts : children_t) : Prop :=
  Forall (fun a => forall p, Binds B I (a p)) acts.

Lemma Binds_compileChild B I (acts : children_t) i p :
  ChildrenBind B I acts -> Binds B I (compileChild acts i p).
Proof. apply Keeps_compileChild. Qed.

Section Binds_compiler.

Context {isa : Instruction}.
Variable operators : list string.
Variable builtins : list string.
Variable isSpecific : string -> option Z.
Variables B I : list string.

Lemma Binds_skipGetFields fuel l j : Binds B I (skipGetFields fuel l j).
Proof.
  revert j. induction fuel as [|fuel IH]; intros j; simpl; [apply Binds_throw |].
  destruct (l !! _); [| apply Binds_throw].
  apply Keeps_if; [apply IH | apply Binds_ret].
Qed.

Section Children.

Variable acts : children_t.
Hypothesis HA : ChildrenBind B I acts.

Local Hint Resolve Binds_compileChild Binds_skipGetFields : binds.

Lemma Binds_compileSpecificArgs fuel l i p : Binds B I (compileSpecificArgs fuel l acts i p).
Proof.
  revert i. induction fuel as [|fuel IH]; intros i; simpl; binds.
Qed.

Lemma Binds_handleCallsFields l count n proc_page :
  Binds B I (handleCallsFields l acts count n proc_page).
Proof. revert n. induction count as [|count IH]; intros n; simpl; binds. Qed.

Lemma Binds_handleCallsOperands l op_inst count index exp_count p :
  Binds B I (handleCallsOperands l acts op_inst count index exp_count p).
Proof.
  revert index exp_count. induction count as [|count IH]; intros index exp_count; simpl; binds.
Qed.

Local Hint Resolve Binds_compileSpecificArgs Binds_handleCallsFields
  Binds_handleCallsOperands : binds.

Lemma Binds_handleCalls x p : Binds B I (handleCalls operators x acts p).
Proof.
  assert (forall n q, Binds B I (for_each (fun exp : Z -> M unit => exp q) (drop n acts)))
    as HD.
  { intros n q. apply Binds_for_each.
    intros a Ha. eapply (proj1 (Forall_forall _ _) HA), (subseteq_drop n), Ha. }
  unfold handleCalls, checkChainedOperator. binds.
Qed.

Lemma Keeps_child_bind R x i {C} (f : Node -> M C) :
  (forall c, constList x !! i = Some c -> Keeps R (f c)) -> Keeps R (bind (child x i) f).
Proof.
  intros H st a st' E. unfold bind, child in E.
  destruct (constList x !! i) as [c|] eqn:Ec; [| discriminate]. eapply H; eauto.
Qed.

(** The forms that bind: the name of a [let] or [mut], the parameters and
    the captures of a [fun], the path of an [import]. *)
Lemma Binds_compileLetMut n c0 x p :
  constList x !! 0%nat = Some c0 -> (keyword c0 = Some Keyword.Let \/ keyword c0 = Some Keyword.Mut) ->
  form_binders (constList x) ⊆ B ->
  Binds B I (compileLetMut n x acts p).
Proof.
  intros H0 Hk HB. unfold compileLetMut, putValue. apply Keeps_child_bind. intros x1 H1.
  assert (string_of x1 ∈ B) as Hx1.
  { apply HB. destruct (constList x) as [|c0' [|n' l]]; try discriminate.
    injection H0 as ->. injection H1 as ->. cbn [form_binders].
    destruct Hk as [-> | ->]; left. }
  binds.
Qed.

Lemma Binds_compileFunction c0 x p :
  constList x !! 0%nat = Some c0 -> keyword c0 = Some Keyword.Fun ->
  form_binders (constList x) ⊆ B ->
  Binds B I (compileFunction x acts p).
Proof.
  intros H0 Hk HB. unfold compileFunction, addValue_page. apply Keeps_child_bind.
  intros args H1.
  assert (forall it, it ∈ constList args -> isSymbol it || isCapture it = true ->
                     string_of it ∈ B) as Hit.
  { intros it Hin Ht. apply HB. destruct (constList x) as [|c0' [|n' l]]; try discriminate.
    injection H0 as ->. injection H1 as ->. cbn [form_binders]. rewrite Hk.
    apply list_elem_of_fmap. exists it. split; [reflexivity |].
    apply list_elem_of_filter. split; [exact Ht | exact Hin]. }
  apply Binds_bind.
  { apply Binds_for_each. intros it Hin.
    destruct (NodeType.eqb (nodeType it) NodeType.Capture) eqn:EC; [| binds].
    assert (string_of it ∈ B) by (apply Hit; [exact Hin |]; unfold isCapture; rewrite EC;
                                  apply orb_true_r).
    binds. }
  intros _. apply Binds_bind; [binds | intros _]. apply Binds_get_bind. intros st. cbv zeta.
  apply Binds_bind; [binds | intros _]. apply Binds_bind; [binds | intros id].
  apply Binds_bind; [binds | intros _]. apply Binds_bind; [| intros _; binds].
  apply Binds_for_each. intros it Hin.
  destruct (NodeType.eqb (nodeType it) NodeType.Symbol) eqn:ES; [| binds].
  assert (string_of it ∈ B) by (apply Hit; [exact Hin |]; unfold isSymbol; rewrite ES;
                                reflexivity).
  binds.
Qed.

Lemma Binds_compilePluginImport c0 x p :
  constList x !! 0%nat = Some c0 -> keyword c0 = Some Keyword.Import ->
  form_imports (constList x) ⊆ I ->
  Binds B I (compilePluginImport x acts p).
Proof.
  intros H0 Hk HI. unfold compilePluginImport. apply Keeps_child_bind. intros x1 H1.
  assert (string_of x1 ∈ I) as Hx1.
  { apply HI. destruct (constList x) as [|c0' [|n' l]]; try discriminate.
    injection H0 as ->. injection H1 as ->. cbn [form_imports]. rewrite Hk. left. }
  binds.
Qed.

Lemma Binds_compileNode x p :
  form_binders (constList x) ⊆ B -> form_imports (constList x) ⊆ I ->
  Binds B I (compileNode operators builtins isSpecific x acts p).
Proof.
  intros HB HI. unfold compileNode.
  apply Keeps_if; [unfold compileSymbol; binds |].
  apply Keeps_if; [binds |]. apply Keeps_if; [binds |].
  destruct (constList x) as [|c0 l] eqn:El; [binds |].
  apply Keeps_if; [unfold compileSpecific, pushSpecificInstArgc; binds |].
  apply Keeps_if; [| apply Binds_handleCalls].
  assert (constList x !! 0%nat = Some c0) as H0 by (rewrite El; reflexivity).
  rewrite <- El in HB, HI.
  destruct (keyword c0) as [[]|] eqn:Ek.
  - unfold compileIf. binds.
  - unfold compileSet, putValue. binds.
  - eapply Binds_compileLetMut; eauto.
  - eapply Binds_compileLetMut; eauto.
  - eapply Binds_compileFunction; eauto.
  - binds.
  - unfold compileWhile. binds.
  - eapply Binds_compilePluginImport; eauto.
  - unfold compileQuote, addValue_page. binds.
  - unfold compileDel. binds.
  - binds.
Qed.

End Children.

End Binds_compiler.

Section Binds_program.

Context {isa : Instruction}.
Variable operators : list string.
Variable builtins : list string.
Variable isSpecific : string -> option Z.

Lemma elem_of_concat_map {A} (f : Node -> list A) l c a :
  c ∈ l -> a ∈ f c -> a ∈ concat (map f l).
Proof.
  intros Hc Ha. apply list_elem_of_In, in_concat. exists (f c).
  split; [apply in_map, list_elem_of_In, Hc | apply list_elem_of_In, Ha].
Qed.

(** Lowering defines only names the program binds, and loads only plugins
    the program imports. *)
Lemma Binds_compile x :
  forall p, Binds (binders x) (imports x) (_compile operators builtins isSpecific x p).
Proof.
  induction x as [s pos|s pos|s pos|k pos|s pos|n pos|l pos IH] using Node_ind';
    intros p; cbn [_compile];
    try (apply Binds_compileNode; [constructor | intros ? H; exact H | intros ? H; exact H]).
  apply Binds_compileNode.
  - apply Forall_fmap, Forall_forall. intros c Hc q. cbn [compose].
    eapply Binds_mono; [| | apply (proj1 (Forall_forall _ _) IH c Hc)].
    + intros s Hs. cbn [binders]. apply elem_of_app. right.
      eapply elem_of_concat_map; eauto.
    + intros s Hs. cbn [imports]. apply elem_of_app. right.
      eapply elem_of_concat_map; eauto.
  - intros s Hs. cbn [binders constList]. apply elem_of_app. left. exact Hs.
  - intros s Hs. cbn [imports constList]. apply elem_of_app. left. exact Hs.
Qed.

End Binds_program.

Section Unbound_programs.

Context {isa : Instruction}.
Variable operators : list string.
Variable builtins : list string.
Variable isSpecific : string -> option Z.
Variable stem : string -> string.
Variable to_string : float -> string.
Variable hash256 : list Z -> list Z.
Variable ARK_VERSION_MAJOR : Z.
Variable ARK_VERSION_MINOR : Z.
Variable ARK_VERSION_PATCH : Z.

Local Abbreviation compile' :=
  (compile operators builtins isSpecific stem to_string hash256
     ARK_VERSION_MAJOR ARK_VERSION_MINOR ARK_VERSION_PATCH).
Local Abbreviation lower' :=
  (lower operators builtins isSpecific ARK_VERSION_MAJOR ARK_VERSION_MINOR ARK_VERSION_PATCH).

(** Lowering a program that uses [name], binds it nowhere and imports no
    plugin of that name leaves a symbol of that name, unbound, in the
    table. *)
Lemma lower_unbound ast timestamp name st1 :
  uses operators builtins isSpecific name ast = true ->
  name ∉ binders ast ->
  (forall path, path ∈ imports ast -> stem path <> splitString_first name ":") ->
  lower' ast timestamp Compiler_new = (Ok tt, st1) ->
  exists sym, sym ∈ m_symbols st1 /\ string_of sym = name /\ is_unbound stem st1 sym.
Proof.
  intros Hu Hb Hi HL. unfold lower in HL.
  destruct (uses_enters _ _ _ _ _ Hu _ _ _ _ HL) as (sym & Hs & En).
  destruct (Binds_compile _ _ _ _ _ _ _ _ HL) as [HD HP].
  exists sym. split; [exact Hs |]. split; [exact En |]. split.
  - rewrite En. intros Hd. destruct (HD _ Hd) as [H|H]; [inversion H | auto].
  - rewrite En. intros plugin Hp. destruct (HP _ Hp) as [H|H]; [inversion H | auto].
Qed.

(** [compile()] returns: with an error, or with the container. *)
Lemma compile_returns ast timestamp st :
  m_bytecode st = [] ->
  (exists e st', compile' ast timestamp st = (Err e, st')) \/
  (exists st', compile' ast timestamp st = (Ok tt, st')).
Proof.
  intros Hb. rewrite (compile_run _ _ _ _ _ _ _ _ _ _ _ _ Hb).
  destruct (lower _ _ _ _ _ _ _ _ _) as [[[]|e] st1]; [| eauto].
  destruct (find _ _); eauto.
Qed.


End Unbound_programs.



(** * The keyword forms *)

Lemma ret_bind_run {A B} (a : A) (k : A -> M B) st : (x <- ret a ;; k x) st = k a st.
Proof. reflexivity. Qed.

(** An instruction and its operand, pushed on the page [p]. *)
Lemma emit_run p b n st pg :
  page p st = Some pg ->
  (page_push p b ;;; pushNumber n (Some p)) st = (Ok tt, set_page p (pg ++ b :: be16 n) st).
Proof.
  intros H. rewrite (bind_run _ _ _ _ _ (page_push_run _ _ _ _ H)).
  rewrite (pushNumber_run _ _ _ _ (page_set_page_same _ _ _ _ H)).
  rewrite set_page_set_page, <- app_assoc. reflexivity.
Qed.

Lemma addSymbol_page sym st r st1 q :
  addSymbol sym st = (r, st1) -> page q st1 = page q st.
Proof.
  rewrite addSymbol_run. destruct (find_index _ _); intros E; injection E as _ <-; reflexivity.
Qed.

Lemma addSymbol_defined sym st r st1 :
  addSymbol sym st = (r, st1) ->
  m_defined_symbols st1 = m_defined_symbols st /\ m_plugins st1 = m_plugins st /\
  m_values st1 = m_values st.
Proof.
  rewrite addSymbol_run. destruct (find_index _ _); intros E; injection E as _ <-; auto.
Qed.

Lemma addDefinedSymbol_run sym st :
  addDefinedSymbol sym st =
  (Ok tt, if contains sym (m_defined_symbols st) then st
          else set_defined_symbols (m_defined_symbols st ++ [sym]) st).
Proof.
  unfold addDefinedSymbol. rewrite get_bind_run. destruct (contains _ _); reflexivity.
Qed.

Lemma addDefinedSymbol_page sym st r st1 q :
  addDefinedSymbol sym st = (r, st1) -> page q st1 = page q st.
Proof.
  rewrite addDefinedSymbol_run. destruct (contains _ _); intros E; injection E as _ <-;
    reflexivity.
Qed.

Lemma addDefinedSymbol_defined sym st r st1 :
  addDefinedSymbol sym st = (r, st1) -> sym ∈ m_defined_symbols st1.
Proof.
  rewrite addDefinedSymbol_run. destruct (contains _ _) eqn:E; intros H; injection H as _ <-.
  - apply contains_elem_of, E.
  - cbn [m_defined_symbols set_defined_symbols]. apply elem_of_app. right. left.
Qed.

(** What [addValue(page_id, current)] returns is the index of the page's
    address in the value table; no page changes. *)
Lemma addValue_page_Ok page_id current st i st1 :
  addValue_page page_id current st = (Ok i, st1) ->
  m_values st1 !! Z.to_nat i = Some (CPageAddr page_id) /\
  (forall q, page q st1 = page q st) /\
  m_symbols st1 = m_symbols st /\ m_defined_symbols st1 = m_defined_symbols st /\
  m_plugins st1 = m_plugins st.
Proof.
  unfold addValue_page, addValueElem. rewrite get_bind_run.
  destruct (find_index _ _) as [d|] eqn:EF.
  - rewrite ret_bind_run. unfold uint16_max, ret.
    destruct (Z.of_nat d <? 65535) eqn:E; [| discriminate]. apply Z.ltb_lt in E.
    intros H. injection H as <- <-. unfold u16. rewrite Z.mod_small, Nat2Z.id by lia.
    destruct (find_index_Some _ _ _ EF) as (_ & a & Ha & Hp).
    destruct a; simpl in Hp; try discriminate. apply Z.eqb_eq in Hp. subst. auto.
  - unfold bind at 1. unfold bind at 1. unfold modify, ret at 1. unfold uint16_max, ret.
    destruct (_ <? 65535) eqn:E; [| discriminate]. apply Z.ltb_lt in E.
    intros H. injection H as <- <-. unfold u16. rewrite Z.mod_small, Nat2Z.id by lia.
    cbn [m_values set_values]. rewrite lookup_app_r, Nat.sub_diag by lia. auto.
Qed.

Lemma addValueElem_fields v current st r st1 :
  addValueElem v current st = (r, st1) ->
  (forall q, page q st1 = page q st) /\
  m_symbols st1 = m_symbols st /\ m_defined_symbols st1 = m_defined_symbols st /\
  m_plugins st1 = m_plugins st.
Proof.
  unfold addValueElem. rewrite get_bind_run. unfold bind, ret, modify, throwCompilerError, throw.
  destruct (find_index _ _); destruct (_ <? _); intros H; injection H as _ <-; auto.
Qed.

Section Forms.

Context {isa : Instruction}.
Variable operators : list string.
Variable builtins : list string.
Variable isSpecific : string -> option Z.

Local Abbreviation _compile' := (_compile operators builtins isSpecific).

Lemma Ext_for_each_compile l p : Ext p (for_each (fun a => _compile' a p) l).
Proof. apply Grow_for_each. intros a _. apply Ext_compile. Qed.

Lemma Tables_for_each_compile l p : Tables (for_each (fun a => _compile' a p) l).
Proof. apply Tables_for_each. intros a. apply Tables_compile. Qed.

(** [putValue] of [(let|mut|set name value ...)] lowers the values in order. *)
Lemma putValue_run kw name_node values pos p st :
  putValue (List (kw :: name_node :: values) pos)
    (map _compile' (kw :: name_node :: values)) p st =
  for_each (fun v => _compile' v p) values st.
Proof.
  unfold putValue. cbn [constList length].
  replace (S (S (length values)) - 2)%nat with (length values) by lia.
  apply (for_each_compileChild_map operators builtins isSpecific values
           [_compile' kw; _compile' name_node]).
Qed.

(** X7. [(let name value)] and [(mut name value)]: the name gets its index in
    the symbol table (a new entry if need be) and enters the defined symbols
    before the value is lowered; the page receives the code of the value,
    then [LET] or [MUT], then the index on two bytes. Afterwards the name
    is a defined symbol. *)
Theorem compileLetMut_layout n kw name_node values pos p st st' pg :
  let x := List (kw :: name_node :: values) pos in
  page p st = Some pg ->
  compileLetMut n x (map _compile' (constList x)) p st = (Ok tt, st') ->
  exists i st1 st2 st3 code,
    addSymbol name_node st = (Ok i, st1) /\
    addDefinedSymbol (string_of name_node) st1 = (Ok tt, st2) /\
    for_each (fun v => _compile' v p) values st2 = (Ok tt, st3) /\
    page p st3 = Some (pg ++ code) /\
    st' = set_page p
            (pg ++ code ++ (match n with Keyword.Let => LET | _ => MUT end) :: be16 i) st3 /\
    string_of name_node ∈ m_defined_symbols st' /\
    (exists s, m_symbols st' !! Z.to_nat i = Some s /\ string_of s = string_of name_node).
Proof.
  intros x Hp H. subst x. unfold compileLetMut in H. cbn [constList] in H.
  change (child (List (kw :: name_node :: values) pos) 1) with (@ret Node name_node) in H.
  rewrite ret_bind_run in H.
  apply bind_Ok in H as (i & st1 & E1 & H).
  apply bind_Ok in H as ([] & st2 & E2 & H).
  apply bind_Ok in H as ([] & st3 & E3 & H). rewrite putValue_run in E3.
  assert (page p st2 = Some pg) as Hp2.
  { rewrite (addDefinedSymbol_page _ _ _ _ _ E2), (addSymbol_page _ _ _ _ _ E1). exact Hp. }
  destruct (ext_page _ _ _ _ (Ext_for_each_compile _ _ _ _ _ E3) Hp2) as (code & Hp3).
  rewrite (emit_run _ _ _ _ _ Hp3) in H. injection H as <-.
  exists i, st1, st2, st3, code. rewrite <- app_assoc.
  split; [exact E1 |]. split; [exact E2 |]. split; [exact E3 |]. split; [exact Hp3 |].
  split; [reflexivity |].
  pose proof (Tables_for_each_compile _ _ _ _ _ E3) as HT.
  split.
  - rewrite defined_set_page. destruct (tg_defined _ _ HT) as [k ->].
    apply elem_of_app. left. eapply addDefinedSymbol_defined, E2.
  - rewrite symbols_set_page.
    destruct (addSymbol_Ok _ _ _ _ E1) as (s & Hs & En).
    exists s. split; [| exact En].
    destruct (tg_symbols _ _ HT) as [k ->]. apply lookup_app_l_Some.
    rewrite addDefinedSymbol_run in E2.
    destruct (contains _ _); injection E2 as <-; exact Hs.
Qed.

(** X8. [(set name value)]: the name gets its index in the symbol table, the
    page receives the code of the value, then [STORE] and the index; unlike
    [let] and [mut], [set] itself enters nothing into the defined symbols. *)
Theorem compileSet_layout kw name_node values pos p st st' pg :
  let x := List (kw :: name_node :: values) pos in
  page p st = Some pg ->
  compileSet x (map _compile' (constList x)) p st = (Ok tt, st') ->
  exists i st1 st3 code,
    addSymbol name_node st = (Ok i, st1) /\
    m_defined_symbols st1 = m_defined_symbols st /\
    for_each (fun v => _compile' v p) values st1 = (Ok tt, st3) /\
    page p st3 = Some (pg ++ code) /\
    st' = set_page p (pg ++ code ++ STORE :: be16 i) st3 /\
    m_defined_symbols st' = m_defined_symbols st3.
Proof.
  intros x Hp H. subst x. unfold compileSet in H. cbn [constList] in H.
  change (child (List (kw :: name_node :: values) pos) 1) with (@ret Node name_node) in H.
  rewrite ret_bind_run in H.
  apply bind_Ok in H as (i & st1 & E1 & H).
  apply bind_Ok in H as ([] & st3 & E3 & H). rewrite putValue_run in E3.
  assert (page p st1 = Some pg) as Hp1 by (rewrite (addSymbol_page _ _ _ _ _ E1); exact Hp).
  destruct (ext_page _ _ _ _ (Ext_for_each_compile _ _ _ _ _ E3) Hp1) as (code & Hp3).
  rewrite (emit_run _ _ _ _ _ Hp3) in H. injection H as <-.
  exists i, st1, st3, code. rewrite <- app_assoc.
  split; [exact E1 |]. split; [apply (addSymbol_defined _ _ _ _ E1) |].
  split; [exact E3 |]. split; [exact Hp3 |]. split; [reflexivity |].
  apply defined_set_page.
Qed.

(** X9. [(del name)]: the page receives [DEL] and the index of the name in
    the symbol table, where the name is entered if it was not there; the
    defined symbols and the plugins stay as they are, so a [del] does not
    keep the name from being reported as unbound. *)
Theorem compileDel_layout kw name_node rest pos p st st' pg :
  let x := List (kw :: name_node :: rest) pos in
  page p st = Some pg ->
  compileDel x (map _compile' (constList x)) p st = (Ok tt, st') ->
  exists i st1,
    addSymbol name_node st = (Ok i, st1) /\
    st' = set_page p (pg ++ DEL :: be16 i) st1 /\
    (exists s, m_symbols st' !! Z.to_nat i = Some s /\ string_of s = string_of name_node) /\
    m_defined_symbols st' = m_defined_symbols st /\
    m_plugins st' = m_plugins st.
Proof.
  intros x Hp H. subst x. unfold compileDel in H. cbn [constList] in H.
  change (child (List (kw :: name_node :: rest) pos) 1) with (@ret Node name_node) in H.
  rewrite ret_bind_run in H.
  apply bind_Ok in H as (i & st1 & E1 & H).
  assert (page p st1 = Some pg) as Hp1 by (rewrite (addSymbol_page _ _ _ _ _ E1); exact Hp).
  rewrite (emit_run _ _ _ _ _ Hp1) in H. injection H as <-.
  exists i, st1. split; [exact E1 |]. split; [reflexivity |].
  rewrite symbols_set_page, defined_set_page, plugins_set_page.
  destruct (addSymbol_defined _ _ _ _ E1) as (Hd & Hpl & _).
  split; [apply (addSymbol_Ok _ _ _ _ E1) | auto].
Qed.

(** X10. [(import path)]: the path is entered into the value table and into
    the plugin list, and the page receives [PLUGIN] and the index of the
    path among the values. From then on every name whose prefix before the
    first [:] is the file stem of the path is taken for a name of the
    plugin. *)
Theorem compilePluginImport_registers stem kw path pos1 rest pos p st st' pg :
  let x := List (kw :: String_ path pos1 :: rest) pos in
  page p st = Some pg ->
  compilePluginImport x (map _compile' (constList x)) p st = (Ok tt, st') ->
  (exists id st1,
     addValue (String_ path pos1) st = (Ok id, st1) /\
     st' = set_page p (pg ++ PLUGIN :: be16 id) (set_plugins (m_plugins st1 ++ [path]) st1)) /\
  m_plugins st' = m_plugins st ++ [path] /\
  forall name, splitString_first name ":" = stem path ->
    mayBeFromPlugin stem name st' = (Ok true, st').
Proof.
  intros x Hp H. subst x. unfold compilePluginImport in H. cbn [constList] in H.
  change (child (List (kw :: String_ path pos1 :: rest) pos) 1)
    with (@ret Node (String_ path pos1)) in H.
  rewrite ret_bind_run in H.
  apply bind_Ok in H as (id & st1 & E1 & H).
  rewrite modify_bind_run in H. cbn [string_of] in H.
  assert (page p (set_plugins (m_plugins st1 ++ [path]) st1) = Some pg /\
          m_plugins st1 = m_plugins st) as [Hp1 Hpl].
  { unfold addValue in E1. cbn [CValue_of_node] in E1.
    destruct (addValueElem_fields _ _ _ _ _ E1) as (Hq & _ & _ & Hpl).
    split; [| exact Hpl]. rewrite <- Hp, <- (Hq p). reflexivity. }
  rewrite (emit_run _ _ _ _ _ Hp1) in H. injection H as <-.
  split; [exists id, st1; auto |].
  rewrite plugins_set_page. cbn [m_plugins set_plugins]. rewrite Hpl.
  split; [reflexivity |].
  intros name Hn. unfold mayBeFromPlugin. rewrite get_bind_run. unfold ret. f_equal.
  f_equal. rewrite plugins_set_page. cbn [m_plugins set_plugins].
  rewrite existsb_app. cbn [existsb]. rewrite Hn, String.eqb_refl.
  rewrite orb_true_r. reflexivity.
Qed.

(** X11. [(while cond body)]: the page receives the code of [cond],
    [POP_JUMP_IF_FALSE] and its operand, the code of [body], then [JUMP]
    and its operand. The operand of [JUMP] is the offset at which the code
    of [cond] begins, the operand of [POP_JUMP_IF_FALSE], first a
    placeholder, is back-patched to the offset just after the loop, both
    converted to [uint16_t]: they are these offsets whenever the page stays
    shorter than 65536 bytes. *)
Theorem compileWhile_layout kw cond body rest pos p st st' pg :
  let x := List (kw :: cond :: body :: rest) pos in
  page p st = Some pg ->
  compileWhile x (map _compile' (constList x)) p st = (Ok tt, st') ->
  exists st1 st2 c_cond c_body,
    _compile' cond p st = (Ok tt, st1) /\
    page p st1 = Some (pg ++ c_cond) /\
    let start := Z.of_nat (length pg) in
    let P1 := pg ++ c_cond ++ [POP_JUMP_IF_FALSE; 0; 0] in
    _compile' body p (set_page p P1 st1) = (Ok tt, st2) /\
    page p st2 = Some (P1 ++ c_body) /\
    let end_ := Z.of_nat (length (P1 ++ c_body ++ [JUMP; 0; 0])) in
    st' = set_page p (pg ++ c_cond ++ POP_JUMP_IF_FALSE :: be16 (u16 end_) ++
                      c_body ++ JUMP :: be16 (u16 start)) st2 /\
    end_ = Z.of_nat (length (pg ++ c_cond ++ POP_JUMP_IF_FALSE :: be16 (u16 end_) ++
                             c_body ++ JUMP :: be16 (u16 start))) /\
    (end_ < 65536 ->
       readNumber2 (hi_byte (u16 end_)) (lo_byte (u16 end_)) = end_ /\
       readNumber2 (hi_byte (u16 start)) (lo_byte (u16 start)) = start).
Proof.
  intros x Hp H. subst x. unfold compileWhile in H. cbn [constList map] in H.
  unfold compileChild in H. cbn [lookup list_lookup] in H.
  rewrite (bind_run _ _ _ _ _ (page_size_run _ _ _ Hp)) in H.
  apply bind_Ok in H as ([] & st1 & E1 & H).
  destruct (ext_page _ _ _ _ (Ext_compile _ _ _ _ _ _ _ _ E1) Hp) as (c1 & Hp1).
  rewrite (bind_run _ _ _ _ _ (page_push_run _ _ _ _ Hp1)) in H.
  pose proof (page_set_page_same p ((pg ++ c1) ++ [POP_JUMP_IF_FALSE]) _ _ Hp1) as Hp1'.
  rewrite (bind_run _ _ _ _ _ (page_size_run _ _ _ Hp1')) in H.
  rewrite (bind_run _ _ _ _ _ (pushNumber_run _ _ _ _ Hp1')) in H.
  rewrite set_page_set_page in H.
  set (pre := (pg ++ c1) ++ [POP_JUMP_IF_FALSE]) in *.
  assert (pre ++ be16 0 = pg ++ c1 ++ [POP_JUMP_IF_FALSE; 0; 0]) as EP1
    by (subst pre; rewrite <- !app_assoc; reflexivity).
  rewrite EP1 in H.
  set (P1 := pg ++ c1 ++ [POP_JUMP_IF_FALSE; 0; 0]) in *.
  pose proof (page_set_page_same p P1 _ _ Hp1) as HP1.
  apply bind_Ok in H as ([] & st2 & E2 & H).
  destruct (ext_page _ _ _ _ (Ext_compile _ _ _ _ _ _ _ _ E2) HP1) as (c2 & Hp2).
  rewrite (bind_run _ _ _ _ _ (page_push_run _ _ _ _ Hp2)) in H.
  pose proof (page_set_page_same p ((P1 ++ c2) ++ [JUMP]) _ _ Hp2) as Hp2'.
  rewrite (bind_run _ _ _ _ _ (pushNumber_run _ _ _ _ Hp2')) in H.
  rewrite set_page_set_page in H.
  set (start := Z.of_nat (length pg)) in *.
  set (post := c2 ++ JUMP :: be16 (u16 start)).
  assert (((P1 ++ c2) ++ [JUMP]) ++ be16 (u16 start) = pre ++ 0 :: 0 :: post) as EQ
    by (subst post P1 pre; app_eq).
  rewrite EQ in H.
  pose proof (page_set_page_same p (pre ++ 0 :: 0 :: post) _ _ Hp2) as Hq.
  rewrite (backpatch_last p _ pre post 0 0 Hq) in H.
  injection H as <-. rewrite set_page_set_page.
  exists st1, st2, c1, c2. cbv zeta. fold P1.
  assert (Z.of_nat (length (pre ++ 0 :: 0 :: post)) =
          Z.of_nat (length (P1 ++ c2 ++ [JUMP; 0; 0]))) as EL.
  { subst post P1 pre. unfold be16. repeat (rewrite length_app; simpl). lia. }
  rewrite EL.
  set (end_ := Z.of_nat (length (P1 ++ c2 ++ [JUMP; 0; 0]))) in *.
  split; [exact E1 |]. split; [exact Hp1 |]. split; [exact E2 |]. split; [exact Hp2 |].
  split; [f_equal; subst post pre; app_eq |].
  split.
  { subst end_ P1. unfold be16. repeat (rewrite length_app; simpl). lia. }
  intros HB.
  assert (0 <= start <= end_).
  { subst start end_ P1. repeat (rewrite length_app; simpl). lia. }
  unfold u16. rewrite !Z.mod_small by lia.
  split; apply readNumber2_be16; lia.
Qed.

(** X12. [(quote code)]: a new code page is opened, its index is the number
    of pages there were; the quoted code is lowered into it and [RET] is
    put at its end; the address of the page is entered into the value
    table, and the current page receives only [LOAD_CONST] and the index of
    that address. *)
Theorem compileQuote_layout kw body rest pos p st st' pg :
  let x := List (kw :: body :: rest) pos in
  let page_id := Z.of_nat (length (m_code_pages st)) in
  page p st = Some pg ->
  compileQuote x (map _compile' (constList x)) p st = (Ok tt, st') ->
  exists st1 c_body id,
    _compile' body page_id (set_code_pages (m_code_pages st ++ [[]]) st) = (Ok tt, st1) /\
    page page_id st1 = Some c_body /\
    page page_id st' = Some (c_body ++ [RET]) /\
    page p st' = Some (pg ++ LOAD_CONST :: be16 id) /\
    m_values st' !! Z.to_nat id = Some (CPageAddr page_id).
Proof.
  intros x page_id Hp H. subst x. unfold compileQuote in H.
  rewrite modify_bind_run, get_bind_run in H. cbv zeta in H.
  cbn [m_code_pages set_code_pages constList map] in H.
  rewrite length_app in H. cbn [length] in H.
  replace (Z.of_nat (length (m_code_pages st) + 1) - 1) with page_id in H
    by (subst page_id; lia).
  set (st0 := set_code_pages (m_code_pages st ++ [[]]) st) in *.
  assert (p <> page_id) as Hne.
  { intros ->. unfold page, page_id in Hp.
    replace (0 <=? _) with true in Hp by (symmetry; apply Z.leb_le; lia).
    rewrite Nat2Z.id in Hp. apply lookup_lt_Some in Hp. lia. }
  assert (page page_id st0 = Some []) as Hq0.
  { unfold page, page_id, st0. cbn [m_code_pages set_code_pages].
    replace (0 <=? _) with true by (symmetry; apply Z.leb_le; lia).
    rewrite Nat2Z.id, lookup_app_r, Nat.sub_diag by lia. reflexivity. }
  assert (page p st0 = Some pg) as Hp0.
  { revert Hp. unfold page, st0. cbn [m_code_pages m_temp_pages set_code_pages].
    destruct (0 <=? p); [apply lookup_app_l_Some | auto]. }
  unfold compileChild in H. cbn [lookup list_lookup] in H.
  apply bind_Ok in H as ([] & st1 & E1 & H).
  pose proof (Ext_compile _ _ _ _ _ _ _ _ E1) as HE.
  destruct (ext_page _ _ _ _ HE Hq0) as (c & Hq1). simpl in Hq1.
  pose proof (grow_other _ _ _ _ _ HE (not_eq_sym Hne) Hp0) as Hp1.
  rewrite (bind_run _ _ _ _ _ (page_push_run _ _ _ _ Hq1)) in H.
  apply bind_Ok in H as (id & st2 & E2 & H).
  destruct (addValue_page_Ok _ _ _ _ _ E2) as (Hv & Hpg & _).
  assert (page p st2 = Some pg) as Hp2.
  { rewrite Hpg, page_set_page_other by exact Hne. exact Hp1. }
  rewrite (emit_run _ _ _ _ _ Hp2) in H. injection H as <-.
  exists st1, c, id. split; [exact E1 |]. split; [exact Hq1 |].
  split; [| split].
  - rewrite page_set_page_other by (apply not_eq_sym, Hne).
    rewrite Hpg. apply (page_set_page_same _ _ _ _ Hq1).
  - apply (page_set_page_same _ _ _ _ Hp2).
  - unfold set_page. destruct (0 <=? p); exact Hv.
Qed.

(** X13. A symbol that names a builtin compiles to [BUILTIN] and the index of
    the builtin, whatever the tables hold; if not, a symbol that names an
    operator compiles to the single byte of the operator; in both cases the
    symbol table is left alone. Any other symbol is entered into the symbol
    table and compiles to [LOAD_SYMBOL] and its index. *)
Theorem compileSymbol_precedence x p st pg :
  page p st = Some pg ->
  match isBuiltin builtins (string_of x), isOperator operators (string_of x) with
  | Some b, _ =>
      compileSymbol operators builtins x p st =
      (Ok tt, set_page p (pg ++ BUILTIN :: be16 (u16 (Z.of_nat b))) st)
  | None, Some o =>
      compileSymbol operators builtins x p st =
      (Ok tt, set_page p (pg ++ [u8 (FIRST_OPERATOR + Z.of_nat o)]) st)
  | None, None =>
      forall st', compileSymbol operators builtins x p st = (Ok tt, st') ->
      exists i st1,
        addSymbol x st = (Ok i, st1) /\
        st' = set_page p (pg ++ LOAD_SYMBOL :: be16 i) st1 /\
        exists s, m_symbols st' !! Z.to_nat i = Some s /\ string_of s = string_of x
  end.
Proof.
  intros Hp. unfold compileSymbol.
  destruct (isBuiltin builtins (string_of x)) as [b|]; [apply (emit_run _ _ _ _ _ Hp) |].
  destruct (isOperator operators (string_of x)) as [o|]; [apply (page_push_run _ _ _ _ Hp) |].
  intros st' H. apply bind_Ok in H as (i & st1 & E1 & H).
  assert (page p st1 = Some pg) as Hp1 by (rewrite (addSymbol_page _ _ _ _ _ E1); exact Hp).
  rewrite (emit_run _ _ _ _ _ Hp1) in H. injection H as <-.
  exists i, st1. split; [exact E1 |]. split; [reflexivity |].
  rewrite symbols_set_page. apply (addSymbol_Ok _ _ _ _ E1).
Qed.

End Forms.

(** ** The keyword forms, run *)


(** [(let x 6)] on the empty page 0. *)
Lemma compileLetMut_layout_witness :
  let l := [Sample.kw Keyword.Let; Sample.sym "x"; Sample.num 6] in
  let st' := snd (@compileLetMut Sample.isa Keyword.Let (Sample.form l)
                    (map Sample._compile l) 0 Sample.one_page) in
  exists i st3 code,
    page 0 st3 = Some ([] ++ code) /\
    st' = set_page 0 ([] ++ code ++ @LET Sample.isa :: be16 i) st3 /\
    "x" ∈ m_defined_symbols st'.
Proof.
  intros l st'.
  assert (page 0 Sample.one_page = Some []) as Hp by reflexivity.
  assert (@compileLetMut Sample.isa Keyword.Let (Sample.form l) (map Sample._compile l) 0
            Sample.one_page = (Ok tt, st')) as Hrun by (vm_compute; reflexivity).
  destruct (@compileLetMut_layout Sample.isa Sample.operators Sample.builtins
              Sample.isSpecific Keyword.Let (Sample.kw Keyword.Let) (Sample.sym "x")
              [Sample.num 6] Sample.at_ 0 Sample.one_page st' [] Hp Hrun)
    as (i & st1 & st2 & st3 & code & _ & _ & _ & Hp3 & E & Hd & _).
  exists i, st3, code. auto.
Defined.

Example compileLetMut_let_x_6 :
  exists st,
    Sample._compile (Sample.form [Sample.kw Keyword.Let; Sample.sym "x"; Sample.num 6]) 0
      Sample.one_page = (Ok tt, st) /\
    m_code_pages st = [[@LOAD_CONST Sample.isa; 0; 0; @LET Sample.isa; 0; 0]] /\
    m_defined_symbols st = ["x"].
Proof. eexists. vm_compute. repeat split. Qed.

(** [(set x 1)] on the empty page 0. *)
Lemma compileSet_layout_witness :
  let l := [Sample.kw Keyword.Set_; Sample.sym "x"; Sample.num 1] in
  let st' := snd (@compileSet Sample.isa (Sample.form l) (map Sample._compile l) 0
                    Sample.one_page) in
  exists i st3 code,
    page 0 st3 = Some ([] ++ code) /\
    st' = set_page 0 ([] ++ code ++ @STORE Sample.isa :: be16 i) st3 /\
    m_defined_symbols st' = m_defined_symbols st3.
Proof.
  intros l st'.
  assert (page 0 Sample.one_page = Some []) as Hp by reflexivity.
  assert (@compileSet Sample.isa (Sample.form l) (map Sample._compile l) 0
            Sample.one_page = (Ok tt, st')) as Hrun by (vm_compute; reflexivity).
  destruct (@compileSet_layout Sample.isa Sample.operators Sample.builtins
              Sample.isSpecific (Sample.kw Keyword.Set_) (Sample.sym "x")
              [Sample.num 1] Sample.at_ 0 Sample.one_page st' [] Hp Hrun)
    as (i & st1 & st3 & code & _ & _ & _ & Hp3 & E & Hd).
  exists i, st3, code. auto.
Defined.

(** [(set x 1)] alone does not compile: [x] is not defined. *)
Example compile_set_unbound :
  exists st,
    Sample.compile (Sample.form [Sample.kw Keyword.Set_; Sample.sym "x"; Sample.num 1])
      0 Compiler_new = (Err (unbound_error (Sample.sym "x")), st).
Proof. eexists. vm_compute. reflexivity. Qed.

(** [(del x)] on the empty page 0. *)
Lemma compileDel_layout_witness :
  let l := [Sample.kw Keyword.Del; Sample.sym "x"] in
  let st' := snd (@compileDel Sample.isa (Sample.form l) (map Sample._compile l) 0
                    Sample.one_page) in
  exists i st1,
    st' = set_page 0 ([] ++ @DEL Sample.isa :: be16 i) st1 /\
    m_defined_symbols st' = m_defined_symbols Sample.one_page /\
    m_plugins st' = m_plugins Sample.one_page.
Proof.
  intros l st'.
  assert (page 0 Sample.one_page = Some []) as Hp by reflexivity.
  assert (@compileDel Sample.isa (Sample.form l) (map Sample._compile l) 0
            Sample.one_page = (Ok tt, st')) as Hrun by (vm_compute; reflexivity).
  destruct (@compileDel_layout Sample.isa Sample.operators Sample.builtins
              Sample.isSpecific (Sample.kw Keyword.Del) (Sample.sym "x") [] Sample.at_ 0
              Sample.one_page st' [] Hp Hrun)
    as (i & st1 & _ & E & _ & Hd & Hpl).
  exists i, st1. auto.
Defined.

(** [(import "console.arkm")]: afterwards [console:log] is a name of the
    plugin. *)
Lemma compilePluginImport_registers_witness :
  let x := Sample.form [Sample.kw Keyword.Import; String_ "console.arkm" Sample.at_] in
  let st' := snd (@compilePluginImport Sample.isa x (map Sample._compile (constList x)) 0
                    Sample.one_page) in
  m_plugins st' = m_plugins Sample.one_page ++ ["console.arkm"] /\
  mayBeFromPlugin Sample.stem "console:log" st' = (Ok true, st').
Proof.
  intros x st'.
  assert (page 0 Sample.one_page = Some []) as Hp by reflexivity.
  assert (@compilePluginImport Sample.isa x (map Sample._compile (constList x)) 0
            Sample.one_page = (Ok tt, st')) as Hrun by (vm_compute; reflexivity).
  assert (splitString_first "console:log" ":" = Sample.stem "console.arkm") as Hn
    by (vm_compute; reflexivity).
  destruct (@compilePluginImport_registers Sample.isa Sample.operators Sample.builtins
              Sample.isSpecific Sample.stem (Sample.kw Keyword.Import) "console.arkm"
              Sample.at_ [] Sample.at_ 0 Sample.one_page st' [] Hp Hrun)
    as (_ & Hpl & Hm).
  split; [exact Hpl | apply Hm, Hn].
Defined.

(** [(while c t)] on the empty page 0. *)
Lemma compileWhile_layout_witness :
  let x := Sample.form [Sample.kw Keyword.While; Sample.sym "c"; Sample.sym "t"] in
  let st' := snd (@compileWhile Sample.isa x (map Sample._compile (constList x)) 0
                    Sample.one_page) in
  exists st2 c_cond c_body,
    st' =
    set_page 0
      ([] ++ c_cond ++ @POP_JUMP_IF_FALSE Sample.isa ::
       be16 (u16 (Z.of_nat (length (([] ++ c_cond ++ [@POP_JUMP_IF_FALSE Sample.isa; 0; 0]) ++
                                    c_body ++ [@JUMP Sample.isa; 0; 0])))) ++
       c_body ++ @JUMP Sample.isa :: be16 (u16 (Z.of_nat (length (@nil Z))))) st2.
Proof.
  intros x st'.
  assert (page 0 Sample.one_page = Some []) as Hp by reflexivity.
  assert (@compileWhile Sample.isa x (map Sample._compile (constList x)) 0
            Sample.one_page = (Ok tt, st')) as Hrun by (vm_compute; reflexivity).
  destruct (@compileWhile_layout Sample.isa Sample.operators Sample.builtins
              Sample.isSpecific (Sample.kw Keyword.While) (Sample.sym "c") (Sample.sym "t")
              [] Sample.at_ 0 Sample.one_page st' [] Hp Hrun)
    as (st1 & st2 & c1 & c2 & _ & _ & _ & _ & E & _).
  exists st2, c1, c2. exact E.
Defined.

Example compileWhile_while_c_t :
  exists st,
    Sample._compile (Sample.form [Sample.kw Keyword.While; Sample.sym "c"; Sample.sym "t"]) 0
      Sample.one_page = (Ok tt, st) /\
    m_code_pages st =
      [[@LOAD_SYMBOL Sample.isa; 0; 0; @POP_JUMP_IF_FALSE Sample.isa; 0; 12;
        @LOAD_SYMBOL Sample.isa; 0; 1; @JUMP Sample.isa; 0; 0]].
Proof. eexists. vm_compute. repeat split. Qed.

(** [(quote a)] on the empty page 0: the code goes to the page 1. *)
Lemma compileQuote_layout_witness :
  let x := Sample.form [Sample.kw Keyword.Quote; Sample.sym "a"] in
  let st' := snd (@compileQuote Sample.isa x (map Sample._compile (constList x)) 0
                    Sample.one_page) in
  exists c_body id,
    page 1 st' = Some (c_body ++ [@RET Sample.isa]) /\
    page 0 st' = Some ([] ++ @LOAD_CONST Sample.isa :: be16 id) /\
    m_values st' !! Z.to_nat id = Some (CPageAddr 1).
Proof.
  intros x st'.
  assert (page 0 Sample.one_page = Some []) as Hp by reflexivity.
  assert (@compileQuote Sample.isa x (map Sample._compile (constList x)) 0
            Sample.one_page = (Ok tt, st')) as Hrun by (vm_compute; reflexivity).
  destruct (@compileQuote_layout Sample.isa Sample.operators Sample.builtins
              Sample.isSpecific (Sample.kw Keyword.Quote) (Sample.sym "a") [] Sample.at_ 0
              Sample.one_page st' [] Hp Hrun)
    as (st1 & c & id & _ & _ & H1 & H2 & H3).
  exists c, id. auto.
Defined.

Example compileQuote_quote_a :
  exists st,
    Sample._compile (Sample.form [Sample.kw Keyword.Quote; Sample.sym "a"]) 0
      Sample.one_page = (Ok tt, st) /\
    m_code_pages st = [[@LOAD_CONST Sample.isa; 0; 0];
                       [@LOAD_SYMBOL Sample.isa; 0; 0; @RET Sample.isa]] /\
    m_values st = [CPageAddr 1].
Proof. eexists. vm_compute. repeat split. Qed.

(** [print] is a builtin of the sample environment: on the empty page 0 it
    compiles to [BUILTIN 3]. *)
Lemma compileSymbol_precedence_witness :
  @compileSymbol Sample.isa Sample.operators Sample.builtins (Sample.sym "print") 0
    Sample.one_page =
  (Ok tt, set_page 0 ([] ++ @BUILTIN Sample.isa :: be16 (u16 (Z.of_nat 3))) Sample.one_page).
Proof.
  assert (page 0 Sample.one_page = Some []) as Hp by reflexivity.
  pose proof (@compileSymbol_precedence Sample.isa Sample.operators Sample.builtins
                (Sample.sym "print") 0 Sample.one_page [] Hp) as H.
  assert (isBuiltin Sample.builtins (string_of (Sample.sym "print")) = Some 3%nat) as Eb
    by reflexivity.
  rewrite Eb in H. exact H.
Defined.

(** * Functions: captures and parameters *)

Section Functions.

Context {isa : Instruction}.
Variable operators : list string.
Variable builtins : list string.
Variable isSpecific : string -> option Z.

Local Abbreviation _compile' := (_compile operators builtins isSpecific).

(** The two loops of [compileFunction] over the argument list. *)
Definition capture_step (p : Z) (it : Node) : M unit :=
  if NodeType.eqb (nodeType it) NodeType.Capture then
    st <- get ;;
    (if negb (contains (string_of it) (m_defined_symbols st))
     then throwCompilerError
            ("Can not capture " +:+ string_of it +:+
             " because it is referencing an unbound variable.") it
     else ret tt) ;;;
    page_push p CAPTURE ;;;
    addDefinedSymbol (string_of it) ;;;
    var_id <- addSymbol it ;;
    pushNumber var_id (Some p)
  else ret tt.

Definition param_step (page_id : Z) (it : Node) : M unit :=
  if NodeType.eqb (nodeType it) NodeType.Symbol then
    page_push page_id MUT ;;;
    var_id <- addSymbol it ;;
    addDefinedSymbol (string_of it) ;;;
    pushNumber var_id (Some page_id)
  else ret tt.

Lemma compileFunction_steps x acts p :
  compileFunction x acts p =
  (args <- child x 1 ;;
   for_each (capture_step p) (constList args) ;;;
   modify (fun st => set_code_pages (m_code_pages st ++ [[]]) st) ;;;
   st <- get ;;
   let page_id := Z.of_nat (length (m_code_pages st)) - 1 in
   page_push p LOAD_CONST ;;;
   id <- addValue_page page_id x ;;
   pushNumber id (Some p) ;;;
   for_each (param_step page_id) (constList args) ;;;
   compileChild acts 2 page_id ;;;
   page_push page_id RET).
Proof. reflexivity. Qed.

Lemma values_set_page p pg st : m_values (set_page p pg st) = m_values st.
Proof. unfold set_page. destruct (0 <=? p); reflexivity. Qed.

Lemma capture_step_skip p l st :
  Forall (fun it => isCapture it = false) l -> for_each (capture_step p) l st = (Ok tt, st).
Proof.
  induction 1 as [|it l Hit _ IH]; [reflexivity |].
  cbn [for_each]. unfold capture_step at 1. unfold isCapture in Hit. rewrite Hit.
  exact IH.
Qed.

(** X18. A function that captures a name that is not a defined symbol does
    not compile: the first capture of the argument list whose name no
    [let], [mut], parameter or capture has defined before stops
    [compileFunction] with a compile error on that node, before anything
    is written. *)
Theorem compileFunction_capture_unbound kw pre name cpos post apos rest pos acts p st :
  let x := List (kw :: List (pre ++ Capture name cpos :: post) apos :: rest) pos in
  Forall (fun it => isCapture it = false) pre ->
  name ∉ m_defined_symbols st ->
  compileFunction x acts p st =
  (Err (CompilationError
          ("Can not capture " +:+ name +:+ " because it is referencing an unbound variable.")
          (Some (Capture name cpos))), st).
Proof.
  intros x Hpre Hn. subst x. rewrite compileFunction_steps.
  change (child (List (kw :: List (pre ++ Capture name cpos :: post) apos :: rest) pos) 1)
    with (@ret Node (List (pre ++ Capture name cpos :: post) apos)).
  rewrite ret_bind_run. cbn [constList]. unfold bind at 1.
  rewrite for_each_app. unfold bind at 1. rewrite (capture_step_skip _ _ _ Hpre).
  cbn [for_each]. unfold capture_step at 1. cbn [nodeType NodeType.eqb string_of].
  unfold bind at 1. rewrite get_bind_run.
  replace (contains name (m_defined_symbols st)) with false; [reflexivity |].
  symmetry. apply not_true_iff_false. intros E. apply contains_elem_of in E. contradiction.
Qed.

(** The loop over the parameters, all of them symbols: every parameter
    gets [MUT] and its index on the page of the function, and is a defined
    symbol afterwards. *)
Lemma param_steps_run q params : forall st st1 pg,
  Forall (fun it => isSymbol it = true) params ->
  page q st = Some pg ->
  for_each (param_step q) params st = (Ok tt, st1) ->
  exists idxs,
    page q st1 = Some (pg ++ concat (map (fun i => MUT :: be16 i) idxs)) /\
    Forall2 (fun it i => exists s, m_symbols st1 !! Z.to_nat i = Some s /\
                                   string_of s = string_of it) params idxs /\
    Forall (fun it => string_of it ∈ m_defined_symbols st1) params /\
    (forall r, r <> q -> page r st1 = page r st) /\
    m_values st1 = m_values st /\
    tables_grow st st1.
Proof.
  induction params as [|it params IH]; intros st st1 pg Hs Hp H.
  - injection H as <-. exists []. rewrite app_nil_r.
    repeat split; auto using tables_grow_refl.
  - inversion Hs as [|? ? Hit Hs']; subst. cbn [for_each] in H.
    apply bind_Ok in H as ([] & st_a & E & H).
    unfold param_step in E. unfold isSymbol in Hit. rewrite Hit in E.
    rewrite (bind_run _ _ _ _ _ (page_push_run _ _ _ _ Hp)) in E.
    apply bind_Ok in E as (i & s1 & E1 & E).
    apply bind_Ok in E as ([] & s2 & E2 & E).
    assert (page q s2 = Some (pg ++ [MUT])) as Hp2.
    { rewrite (addDefinedSymbol_page _ _ _ _ _ E2), (addSymbol_page _ _ _ _ _ E1).
      apply (page_set_page_same _ _ _ _ Hp). }
    rewrite (pushNumber_run _ _ _ _ Hp2) in E. injection E as <-.
    destruct (IH _ _ _ Hs' (page_set_page_same _ _ _ _ Hp2) H)
      as (idxs & Hq & HF & HD & HO & HV & HT).
    exists (i :: idxs). cbn [map concat]. rewrite <- !app_assoc in Hq. cbn [app] in Hq.
    assert (tables_grow (set_page q (pg ++ [MUT]) st) s2) as HT12.
    { eapply tables_grow_trans; [eapply Tables_addSymbol, E1 |].
      eapply Tables_addDefinedSymbol, E2. }
    assert (tables_grow s2 st1) as HT2.
    { eapply tables_grow_trans; [| exact HT]. apply tables_grow_same;
        rewrite ?symbols_set_page, ?defined_set_page, ?plugins_set_page; try reflexivity.
      unfold set_page. destruct (0 <=? q); reflexivity. }
    split; [exact Hq |]. split; [| split; [| split; [| split]]].
    + constructor; [| exact HF].
      destruct (addSymbol_Ok _ _ _ _ E1) as (s & Hs1 & En). exists s. split; [| exact En].
      destruct (tg_symbols _ _ HT2) as [k ->]. apply lookup_app_l_Some.
      rewrite addDefinedSymbol_run in E2. destruct (contains _ _); injection E2 as <-; exact Hs1.
    + constructor; [| exact HD].
      destruct (tg_defined _ _ HT2) as [k ->]. apply elem_of_app. left.
      eapply addDefinedSymbol_defined, E2.
    + intros r Hr. rewrite (HO r Hr), page_set_page_other by exact Hr.
      rewrite (addDefinedSymbol_page _ _ _ _ _ E2), (addSymbol_page _ _ _ _ _ E1).
      apply page_set_page_other, Hr.
    + rewrite HV, values_set_page.
      assert (m_values s2 = m_values s1) as ->
        by (rewrite addDefinedSymbol_run in E2; destruct (contains _ _); injection E2 as <-;
            reflexivity).
      destruct (addSymbol_defined _ _ _ _ E1) as (_ & _ & ->). apply values_set_page.
    + eapply tables_grow_trans; [| exact HT2]. eapply tables_grow_trans; [| exact HT12].
      apply tables_grow_same;
        rewrite ?symbols_set_page, ?defined_set_page, ?plugins_set_page; try reflexivity.
      unfold set_page. destruct (0 <=? q); reflexivity.
Qed.

Lemma isSymbol_isCapture it : isSymbol it = true -> isCapture it = false.
Proof. destruct it; (discriminate || reflexivity). Qed.


End Functions.

(** [(fun (&b) b)] where [b] is not defined. *)
Lemma compileFunction_capture_unbound_witness :
  let x := Sample.form [Sample.kw Keyword.Fun; Sample.form [Capture "b" Sample.at_];
                        Sample.sym "b"] in
  @compileFunction Sample.isa x (map Sample._compile (constList x)) 0 Sample.one_page =
  (Err (CompilationError
          ("Can not capture " +:+ "b" +:+ " because it is referencing an unbound variable.")
          (Some (Capture "b" Sample.at_))), Sample.one_page).
Proof.
  intros x.
  apply (@compileFunction_capture_unbound Sample.isa (Sample.kw Keyword.Fun) [] "b" Sample.at_
           [] Sample.at_ [Sample.sym "b"] Sample.at_ (map Sample._compile (constList x)) 0
           Sample.one_page).
  - constructor.
  - intros Hin. apply list_elem_of_In in Hin. destruct Hin.
Defined.


Example compileFunction_fun_a_b :
  exists st,
    Sample._compile (Sample.form [Sample.kw Keyword.Fun;
                                  Sample.form [Sample.sym "a"; Sample.sym "b"];
                                  Sample.sym "a"]) 0 Sample.one_page = (Ok tt, st) /\
    m_code_pages st =
      [[@LOAD_CONST Sample.isa; 0; 0];
       [@MUT Sample.isa; 0; 0; @MUT Sample.isa; 0; 1; @LOAD_SYMBOL Sample.isa; 0; 0;
        @RET Sample.isa]] /\
    m_defined_symbols st = ["a"; "b"].
Proof. eexists. vm_compute. repeat split. Qed.

(** * Calls of functions *)

Section Calls.

Context {isa : Instruction}.
Variable operators : list string.
Variable builtins : list string.
Variable isSpecific : string -> option Z.

Local Abbreviation _compile' := (_compile operators builtins isSpecific).

Lemma for_each_page_push p l : forall st pg,
  page p st = Some pg ->
  for_each (page_push p) l st = (Ok tt, set_page p (pg ++ l) st).
Proof.
  induction l as [|b l IH]; intros st pg Hp.
  - rewrite app_nil_r, (set_page_id _ _ _ Hp). reflexivity.
  - cbn [for_each]. rewrite (bind_run _ _ _ _ _ (page_push_run _ _ _ _ Hp)).
    rewrite (IH _ _ (page_set_page_same _ _ _ _ Hp)), set_page_set_page, <- app_assoc.
    reflexivity.
Qed.

Lemma for_each_acts (l : list Node) p st :
  for_each (fun exp : Z -> M unit => exp p) (map _compile' l) st =
  for_each (fun a => _compile' a p) l st.
Proof.
  revert st. induction l as [|a l IH]; intros st; [reflexivity |].
  cbn [map for_each]. unfold bind. destruct (_compile' a p st) as [[[]|e] st1]; auto.
Qed.

(** The page on top of the temp stack. *)
Lemma last_temp_page st pg :
  m_temp_pages st <> [] ->
  page (- Z.of_nat (length (m_temp_pages st))) st = Some pg ->
  last (m_temp_pages st) = Some pg.
Proof.
  intros Hne Hp. unfold page in Hp.
  assert (0 < length (m_temp_pages st))%nat
    by (destruct (m_temp_pages st); [contradiction | simpl; lia]).
  replace (0 <=? _) with false in Hp by (symmetry; apply Z.leb_gt; lia).
  rewrite last_lookup. rewrite <- Hp. f_equal. lia.
Qed.

(** X23. A call [(f a b ...)] whose callee is a symbol that compiles to no
    operator, with no field right after it: the callee is lowered to a
    temp page first, then the arguments are lowered in order on the page,
    then the code of the callee is copied behind them, then [CALL] and,
    on two bytes, the number of arguments that are neither fields nor
    captures. *)
Theorem handleCalls_call name pos0 args pos p st st' pg :
  let callee := Symbol name pos0 in
  let x := List (callee :: args) pos in
  let st_t := set_temp_pages (m_temp_pages st ++ [[]]) st in
  let proc_page := - Z.of_nat (length (m_temp_pages st_t)) in
  let args_count :=
    length (filter (fun it => negb (isGetField it) && negb (isCapture it)) args) in
  (isBuiltin builtins name <> None \/ isOperator operators name = None) ->
  match args with a :: _ => isGetField a = false | [] => True end ->
  page p st = Some pg ->
  handleCalls operators x (map _compile' (constList x)) p st = (Ok tt, st') ->
  exists st1 st2 callee_code args_code,
    compileSymbol operators builtins callee proc_page st_t = (Ok tt, st1) /\
    page proc_page st1 = Some callee_code /\
    length callee_code = 3%nat /\
    for_each (fun a => _compile' a p) args st1 = (Ok tt, st2) /\
    page p st2 = Some (pg ++ args_code) /\
    page p st' = Some (pg ++ args_code ++ callee_code ++
                       CALL :: be16 (u16 (Z.of_nat args_count))) /\
    length (m_temp_pages st') = length (m_temp_pages st).
Proof.
  intros callee x st_t proc_page args_count Hcallee Hargs Hp H.
  subst x. unfold handleCalls in H. rewrite modify_bind_run, get_bind_run in H.
  cbv zeta in H. fold st_t in H. fold proc_page in H. cbn [constList] in H.
  assert (length (m_temp_pages st_t) = S (length (m_temp_pages st))) as HT
    by (unfold st_t; cbn [m_temp_pages set_temp_pages]; rewrite length_app; simpl; lia).
  assert (page proc_page st_t = Some []) as Hq.
  { unfold page, proc_page. rewrite HT.
    replace (0 <=? _) with false by (symmetry; apply Z.leb_gt; lia).
    replace (Z.to_nat _) with (length (m_temp_pages st)) by lia.
    unfold st_t. cbn [m_temp_pages set_temp_pages].
    rewrite lookup_app_r, Nat.sub_diag by lia. reflexivity. }
  assert (proc_page <> p) as Hne.
  { intros <-. unfold page, proc_page in Hp. rewrite HT in Hp.
    replace (0 <=? _) with false in Hp by (symmetry; apply Z.leb_gt; lia).
    apply lookup_lt_Some in Hp. lia. }
  assert (page p st_t = Some pg) as Hpt by apply (page_push_temp_page _ _ _ Hp).
  (* the callee, on the temp page *)
  apply bind_Ok in H as ([] & st1 & E0 & H).
  assert (compileChild (map _compile' (callee :: args)) 0 proc_page st_t =
          compileSymbol operators builtins callee proc_page st_t) as EC by reflexivity.
  assert (Ext proc_page (compileChild (map _compile' (callee :: args)) 0 proc_page)) as HX0.
  { intros s a s' E. unfold compileChild in E. cbn [map lookup list_lookup] in E.
    eapply Ext_compile, E. }
  pose proof (HX0 _ _ _ E0) as HE0. rewrite EC in E0.
  assert (exists callee_code, page proc_page st1 = Some callee_code /\
                              length callee_code = 3%nat) as (code & Hq1 & Hlen).
  { unfold compileSymbol in E0. cbn [string_of callee] in E0.
    destruct (isBuiltin builtins name) as [b|].
    - rewrite (emit_run _ _ _ _ _ Hq) in E0. injection E0 as <-.
      eexists. split; [apply (page_set_page_same _ _ _ _ Hq) | reflexivity].
    - destruct Hcallee as [Hb | HO]; [contradiction |]. rewrite HO in E0.
      apply bind_Ok in E0 as (i & s & E1 & E0).
      assert (page proc_page s = Some []) as Hqs
        by (rewrite (addSymbol_page _ _ _ _ _ E1); exact Hq).
      rewrite (emit_run _ _ _ _ _ Hqs) in E0. injection E0 as <-.
      eexists. split; [apply (page_set_page_same _ _ _ _ Hqs) | reflexivity]. }
  assert (length (m_temp_pages st1) = length (m_temp_pages st_t)) as HT1
    by apply (grow_temp _ _ _ HE0).
  assert (page p st1 = Some pg) as Hp1
    by apply (grow_other _ _ _ _ _ HE0 Hne Hpt).
  (* no field follows the callee *)
  replace (length (callee :: args) - 1)%nat with (length args) in H by (cbn [length]; lia).
  assert (handleCallsFields (callee :: args) (map _compile' (callee :: args))
            (length args) 1 proc_page st1 = (Ok 1%nat, st1)) as E1.
  { destruct args as [|a args']; [reflexivity |].
    cbn [length handleCallsFields lookup list_lookup]. rewrite Hargs. reflexivity. }
  rewrite (bind_run _ _ _ _ _ E1) in H.
  assert (forall s, length (m_temp_pages s) = length (m_temp_pages st_t) ->
            page proc_page s = Some code -> temp_back s = (Ok code, s)) as Hback.
  { intros s Hs Hqs. unfold temp_back. rewrite get_bind_run.
    rewrite (last_temp_page s code); [reflexivity | | ].
    - intros E. rewrite E in Hs. rewrite HT in Hs. discriminate.
    - rewrite Hs. exact Hqs. }
  rewrite (bind_run _ _ _ _ _ (Hback _ HT1 Hq1)) in H. cbv zeta in H. rewrite Hlen in H.
  change (1 <? Z.of_nat 3) with true in H. cbv iota in H.
  (* the arguments, on the page *)
  change (drop 1 (map _compile' (callee :: args))) with (map _compile' args) in H.
  apply bind_Ok in H as ([] & st2 & E2 & H). rewrite for_each_acts in E2.
  pose proof (Ext_for_each_compile operators builtins isSpecific _ _ _ _ _ E2) as HE2.
  destruct (ext_page _ _ _ _ HE2 Hp1) as (args_code & Hp2).
  assert (page proc_page st2 = Some code) as Hq2
    by apply (grow_other _ _ _ _ _ HE2 (not_eq_sym Hne) Hq1).
  assert (length (m_temp_pages st2) = length (m_temp_pages st_t)) as HT2
    by (rewrite (grow_temp _ _ _ HE2); exact HT1).
  rewrite (bind_run _ _ _ _ _ (Hback _ HT2 Hq2)) in H.
  (* the callee behind them, and the call *)
  rewrite (bind_run _ _ _ _ _ (for_each_page_push _ _ _ _ Hp2)) in H.
  set (s3 := set_page p ((pg ++ args_code) ++ code) st2) in *.
  apply bind_Ok in H as ([] & s4 & E4 & H). apply temp_pop_back_Ok in E4.
  assert (length (m_temp_pages s3) = S (length (m_temp_pages st))) as HT3
    by (unfold s3; rewrite temp_length_set_page, HT2; exact HT).
  assert (page p s4 = Some ((pg ++ args_code) ++ code)) as Hp4.
  { pose proof (page_set_page_same _ ((pg ++ args_code) ++ code) _ _ Hp2) as Hp3.
    fold s3 in Hp3. rewrite E4. revert Hp3. unfold page.
    cbn [m_code_pages m_temp_pages set_temp_pages].
    destruct (0 <=? p) eqn:E0p; [auto |]. intros Hp3.
    rewrite lookup_removelast; [exact Hp3 |].
    apply Z.leb_gt in E0p. rewrite HT3.
    assert (Z.to_nat (- p - 1) <> length (m_temp_pages st)) as Hidx.
    { intros E. apply Hne. unfold proc_page. rewrite HT. lia. }
    apply lookup_lt_Some in Hp3. rewrite HT3 in Hp3. lia. }
  rewrite (emit_run _ _ _ _ _ Hp4) in H. injection H as <-.
  exists st1, st2, code, args_code.
  split; [exact E0 |]. split; [exact Hq1 |]. split; [exact Hlen |].
  split; [exact E2 |]. split; [exact Hp2 |]. split.
  - rewrite (page_set_page_same _ _ _ _ Hp4), <- !app_assoc. reflexivity.
  - rewrite temp_length_set_page, E4. cbn [m_temp_pages set_temp_pages].
    rewrite length_removelast, HT3. reflexivity.
Qed.

End Calls.

(** [(f a 1)] on the empty page 0. *)
Lemma handleCalls_call_witness :
  let args := [Sample.sym "a"; Sample.num 1] in
  let x := Sample.form (Sample.sym "f" :: args) in
  let st' := snd (@handleCalls Sample.isa Sample.operators x
                    (map Sample._compile (constList x)) 0 Sample.one_page) in
  exists callee_code args_code,
    length callee_code = 3%nat /\
    page 0 st' = Some ([] ++ args_code ++ callee_code ++
                       @CALL Sample.isa :: be16 (u16 (Z.of_nat 2))) /\
    length (m_temp_pages st') = length (m_temp_pages Sample.one_page).
Proof.
  intros args x st'.
  assert (isBuiltin Sample.builtins "f" <> None \/ isOperator Sample.operators "f" = None)
    as Hc by (right; reflexivity).
  assert (page 0 Sample.one_page = Some []) as Hp by reflexivity.
  assert (@handleCalls Sample.isa Sample.operators x (map Sample._compile (constList x)) 0
            Sample.one_page = (Ok tt, st')) as Hrun by (vm_compute; reflexivity).
  destruct (@handleCalls_call Sample.isa Sample.operators Sample.builtins Sample.isSpecific
              "f" Sample.at_ args Sample.at_ 0 Sample.one_page st' [] Hc eq_refl Hp Hrun)
    as (st1 & st2 & cc & ac & _ & _ & Hl & _ & _ & Hpage & Ht).
  exists cc, ac. auto.
Defined.

Example handleCalls_f_a_1 :
  exists st,
    Sample._compile (Sample.form [Sample.sym "f"; Sample.sym "a"; Sample.num 1]) 0
      Sample.one_page = (Ok tt, st) /\
    m_code_pages st =
      [[@LOAD_SYMBOL Sample.isa; 0; 1; @LOAD_CONST Sample.isa; 0; 0;
        @LOAD_SYMBOL Sample.isa; 0; 0; @CALL Sample.isa; 0; 2]] /\
    m_temp_pages st = [].
Proof. eexists. vm_compute. repeat split. Qed.

(** * The header: magic, version, timestamp *)

Section Header.

Variable ARK_VERSION_MAJOR : Z.
Variable ARK_VERSION_MINOR : Z.
Variable ARK_VERSION_PATCH : Z.

(** The number that the bytes [l] are, the most significant first. *)
Definition big_endian (l : list Z) : Z := fold_left (fun acc b => acc * 256 + b) l 0.

Lemma timestamp_byte_eq timestamp c :
  0 <= timestamp -> 0 <= c <= 7 ->
  timestamp_byte timestamp c = (timestamp / 2 ^ (56 - 8 * c)) mod 256.
Proof.
  intros Ht Hc. unfold timestamp_byte, u8. cbv zeta.
  rewrite Z.shiftr_land, Z.shiftr_shiftl_l, Z.sub_diag by lia.
  change (Z.shiftl 255 0) with (Z.ones 8). rewrite Z.land_ones by lia.
  rewrite Z.shiftr_div_pow2 by lia. change (2 ^ 8) with 256.
  apply Z.mod_small. apply Z.mod_pos_bound. lia.
Qed.

Lemma div_step t d : 0 <= t -> 0 <= d -> t / 2 ^ d = (t / 2 ^ (d + 8)) * 256 + (t / 2 ^ d) mod 256.
Proof.
  intros Ht Hd. rewrite Z.pow_add_r by lia. change (2 ^ 8) with 256.
  rewrite <- Z.div_div by lia.
  pose proof (Z.div_mod (t / 2 ^ d) 256 ltac:(lia)). lia.
Qed.

(** X17. [pushHeadersPhase1] cannot fail and appends 18 bytes to the
    container: the characters [ark] and a zero byte, the three parts of the
    version on two bytes each, and the eight bytes of the timestamp, the
    most significant first, so that a timestamp of 64 bits and version
    parts of 16 bits are read back as they were. *)
Theorem pushHeadersPhase1_header timestamp st :
  0 <= timestamp < 2 ^ 64 ->
  0 <= ARK_VERSION_MAJOR < 65536 ->
  0 <= ARK_VERSION_MINOR < 65536 ->
  0 <= ARK_VERSION_PATCH < 65536 ->
  exists h,
    pushHeadersPhase1 ARK_VERSION_MAJOR ARK_VERSION_MINOR ARK_VERSION_PATCH timestamp st =
      (Ok tt, emitted h st) /\
    length h = header_size /\
    take 4 h = [97; 114; 107; 0] /\
    map big_endian [take 2 (drop 4 h); take 2 (drop 6 h); take 2 (drop 8 h)] =
      [ARK_VERSION_MAJOR; ARK_VERSION_MINOR; ARK_VERSION_PATCH] /\
    big_endian (drop 10 h) = timestamp /\
    Forall (fun b => 0 <= b < 256) (drop 10 h).
Proof.
  intros Ht H1 H2 H3.
  exists (header ARK_VERSION_MAJOR ARK_VERSION_MINOR ARK_VERSION_PATCH timestamp).
  split; [apply Emits_pushHeadersPhase1 |]. split; [reflexivity |].
  split; [reflexivity |]. split; [| split].
  - unfold header. cbn [app take drop map be16 big_endian fold_left].
    assert (forall n, 0 <= n < 65536 -> (0 * 256 + hi_byte (u16 n)) * 256 + lo_byte (u16 n) = n)
      as Hn.
    { intros n Hr. rewrite u16_small by exact Hr.
      pose proof (readNumber2_be16 n Hr) as E. unfold readNumber2 in E.
      rewrite Z.shiftl_mul_pow2 in E by lia. change (2 ^ 8) with 256 in E. lia. }
    rewrite !Hn by assumption. reflexivity.
  - unfold header. cbn [app drop map big_endian fold_left be16].
    rewrite !timestamp_byte_eq by lia.
    change (56 - 8 * 0) with 56. change (56 - 8 * 1) with 48. change (56 - 8 * 2) with 40.
    change (56 - 8 * 3) with 32. change (56 - 8 * 4) with 24. change (56 - 8 * 5) with 16.
    change (56 - 8 * 6) with 8. change (56 - 8 * 7) with 0.
    assert (timestamp / 2 ^ 56 < 256) as Htop
      by (apply Z.div_lt_upper_bound; [lia | change (2 ^ 56 * 256) with (2 ^ 64); lia]).
    assert (0 <= timestamp / 2 ^ 56) as Htop0 by (apply Z.div_pos; lia).
    rewrite (Z.mod_small (timestamp / 2 ^ 56)) by lia.
    pose proof (div_step timestamp 48 ltac:(lia) ltac:(lia)) as E48.
    pose proof (div_step timestamp 40 ltac:(lia) ltac:(lia)) as E40.
    pose proof (div_step timestamp 32 ltac:(lia) ltac:(lia)) as E32.
    pose proof (div_step timestamp 24 ltac:(lia) ltac:(lia)) as E24.
    pose proof (div_step timestamp 16 ltac:(lia) ltac:(lia)) as E16.
    pose proof (div_step timestamp 8 ltac:(lia) ltac:(lia)) as E8.
    pose proof (div_step timestamp 0 ltac:(lia) ltac:(lia)) as E0.
    change (48 + 8) with 56 in E48. change (40 + 8) with 48 in E40.
    change (32 + 8) with 40 in E32. change (24 + 8) with 32 in E24.
    change (16 + 8) with 24 in E16. change (8 + 8) with 16 in E8.
    change (0 + 8) with 8 in E0.
    rewrite Z.mul_0_l, Z.add_0_l, <- E48, <- E40, <- E32, <- E24, <- E16, <- E8, <- E0.
    change (2 ^ 0) with 1. apply Z.div_1_r.
  - unfold header. cbn [app drop map be16].
    repeat (constructor; [rewrite timestamp_byte_eq by lia; apply Z.mod_pos_bound; lia |]).
    constructor.
Qed.

End Header.

(** The header of version 3.0.13 at the second 1600000000. *)
Lemma pushHeadersPhase1_header_witness :
  exists h,
    pushHeadersPhase1 3 0 13 1600000000 Compiler_new = (Ok tt, emitted h Compiler_new) /\
    length h = header_size /\
    take 4 h = [97; 114; 107; 0] /\
    map big_endian [take 2 (drop 4 h); take 2 (drop 6 h); take 2 (drop 8 h)] = [3; 0; 13] /\
    big_endian (drop 10 h) = 1600000000 /\
    Forall (fun b => 0 <= b < 256) (drop 10 h).
Proof.
  apply (pushHeadersPhase1_header 3 0 13 1600000000 Compiler_new); lia.
Defined.

(** * The VM: reading the bytecode (readNumber, getPageSize) *)

Module VM_pages.
Import VM_t.

(** [v[i]] for a signed index [i], converted to [std::size_t]: a negative
    index is out of range. *)
Definition at_index (v : list Z) (i : Z) : Outcome Z :=
  if 0 <=? i then
    match v !! Z.to_nat i with
    | Some b => Done b
    | None => Undefined_behaviour
    end
  else Undefined_behaviour.

(** [readNumber()] on the bytes [m_pages] with the instruction pointer
    [m_ip]: the number read and the new [m_ip]. *)
Definition readNumber (m_pages : list Z) (m_ip : Z) : Outcome (Z * Z) :=
  match at_index m_pages m_ip with
  | Done x =>
      let m_ip := m_ip + 1 in
      match at_index m_pages m_ip with
      | Done y => Done (u16 (readNumber2 (u16 x) (u16 y)), m_ip)
      | Undefined_behaviour => Undefined_behaviour
      | VMError m => VMError m
      end
  | Undefined_behaviour => Undefined_behaviour
  | VMError m => VMError m
  end.

Section Size.

(** The width of [std::size_t], which the platform sets. *)
Variable size_bits : Z.

Definition size_t (z : Z) : Z := z mod 2 ^ size_bits.

(** [getPageSize(pp)] on the table [m_pages_table] of the offsets at which
    the pages begin in [m_pages]. *)
Definition getPageSize (m_pages_table : list Z) (m_pages : list Z) (pp : Z) : Outcome Z :=
  match (if pp + 1 <? Z.of_nat (length m_pages_table)
         then at_index m_pages_table (pp + 1)
         else Done (Z.of_nat (length m_pages))) with
  | Done next =>
      match at_index m_pages_table pp with
      | Done start => Done (size_t (next - start))
      | Undefined_behaviour => Undefined_behaviour
      | VMError m => VMError m
      end
  | Undefined_behaviour => Undefined_behaviour
  | VMError m => VMError m
  end.

End Size.

Lemma at_index_app (pre l : list Z) (k : nat) :
  at_index (pre ++ l) (Z.of_nat (length pre) + Z.of_nat k) =
  match l !! k with Some b => Done b | None => Undefined_behaviour end.
Proof.
  unfold at_index. replace (0 <=? _) with true by (symmetry; apply Z.leb_le; lia).
  replace (Z.to_nat (Z.of_nat (length pre) + Z.of_nat k)) with (length pre + k)%nat by lia.
  rewrite lookup_app_r by lia. replace (length pre + k - length pre)%nat with k by lia.
  reflexivity.
Qed.

(** X15. The VM reads back what the compiler wrote: [pushNumber] puts the
    two bytes of [n] at the end of the page, and [readNumber], started at
    that offset of these bytes, whatever follows them, returns [n]; it
    leaves the instruction pointer on the second byte of the number, one
    further, not two. *)
Theorem readNumber_pushNumber n p st pg :
  0 <= n < 65536 ->
  page p st = Some pg ->
  exists st' code,
    pushNumber n (Some p) st = (Ok tt, st') /\
    page p st' = Some code /\
    length code = (length pg + 2)%nat /\
    forall rest,
      readNumber (code ++ rest) (Z.of_nat (length pg)) =
      Done (n, Z.of_nat (length pg) + 1).
Proof.
  intros Hn Hp. exists (set_page p (pg ++ be16 n) st), (pg ++ be16 n).
  split; [apply pushNumber_run, Hp |].
  split; [apply (page_set_page_same _ _ _ _ Hp) |].
  split; [rewrite length_app; reflexivity |]. intros rest.
  unfold readNumber. rewrite <- app_assoc.
  pose proof (at_index_app pg (be16 n ++ rest) 0) as H0. rewrite Z.add_0_r in H0.
  rewrite H0. pose proof (at_index_app pg (be16 n ++ rest) 1) as H1.
  change (Z.of_nat 1) with 1 in H1. rewrite H1. cbn [be16 app lookup list_lookup].
  assert (0 <= hi_byte n < 256) as Hh.
  { rewrite hi_byte_div by exact Hn.
    split; [apply Z.div_pos; lia | apply Z.div_lt_upper_bound; lia]. }
  assert (0 <= lo_byte n < 256) as Hl
    by (rewrite lo_byte_mod; apply Z.mod_pos_bound; lia).
  rewrite (u16_small (hi_byte n)), (u16_small (lo_byte n)) by lia.
  rewrite readNumber2_be16 by exact Hn. rewrite u16_small by lia. reflexivity.
Qed.

(** [readNumber] at the last byte, or outside of the bytes, reads out of
    range. *)
Lemma readNumber_out_of_range m_pages m_ip :
  (m_ip < 0 \/ Z.of_nat (length m_pages) <= m_ip + 1) ->
  readNumber m_pages m_ip = Undefined_behaviour.
Proof.
  intros Hr. unfold readNumber, at_index.
  destruct (0 <=? m_ip) eqn:E0; [| reflexivity]. apply Z.leb_le in E0.
  destruct (m_pages !! Z.to_nat m_ip); [| reflexivity].
  replace (0 <=? m_ip + 1) with true by (symmetry; apply Z.leb_le; lia).
  rewrite (lookup_ge_None_2 m_pages (Z.to_nat (m_ip + 1))) by lia. reflexivity.
Qed.

(** The offsets at which consecutive pages of the lengths [lens] begin, the
    first one at [start]. *)
Fixpoint offsets (start : Z) (lens : list nat) : list Z :=
  match lens with
  | [] => []
  | n :: lens' => start :: offsets (start + Z.of_nat n) lens'
  end.

Fixpoint total (lens : list nat) : Z :=
  match lens with
  | [] => 0
  | n :: lens' => Z.of_nat n + total lens'
  end.

Lemma length_offsets start lens : length (offsets start lens) = length lens.
Proof. revert start. induction lens as [|n l IH]; intros start; simpl; auto. Qed.

Lemma total_nonneg lens : 0 <= total lens.
Proof. induction lens; simpl; lia. Qed.

Section Page_sizes.

Variable size_bits : Z.

(** [getPageSize] with the indices as naturals. *)
Lemma getPageSize_nat table m_pages (pp : nat) :
  getPageSize size_bits table m_pages (Z.of_nat pp) =
  match (if (S pp <? length table)%nat then table !! S pp
         else Some (Z.of_nat (length m_pages))), table !! pp with
  | Some next, Some start => Done (size_t size_bits (next - start))
  | _, _ => Undefined_behaviour
  end.
Proof.
  unfold getPageSize, at_index.
  replace (0 <=? Z.of_nat pp + 1) with true by (symmetry; apply Z.leb_le; lia).
  replace (0 <=? Z.of_nat pp) with true by (symmetry; apply Z.leb_le; lia).
  replace (Z.to_nat (Z.of_nat pp + 1)) with (S pp) by lia. rewrite Nat2Z.id.
  replace (Z.of_nat pp + 1 <? Z.of_nat (length table)) with (S pp <? length table)%nat.
  2:{ destruct (S pp <? length table)%nat eqn:E; symmetry.
      - apply Nat.ltb_lt in E. apply Z.ltb_lt. lia.
      - apply Nat.ltb_ge in E. apply Z.ltb_ge. lia. }
  destruct (S pp <? length table)%nat; [destruct (table !! S pp) |];
    destruct (table !! pp); reflexivity.
Qed.

Lemma getPageSize_offsets_nat lens : forall start len pp n,
  len = start + total lens ->
  lens !! pp = Some n ->
  match (if (S pp <? length (offsets start lens))%nat then offsets start lens !! S pp
         else Some len), offsets start lens !! pp with
  | Some next, Some first => next - first = Z.of_nat n
  | _, _ => False
  end.
Proof.
  induction lens as [|n0 lens IH]; intros start len pp n Hlen Hpp; [discriminate |].
  destruct pp as [|pp].
  - injection Hpp as ->. cbn [offsets length lookup list_lookup].
    destruct lens as [|n1 lens]; cbn [offsets length lookup list_lookup total] in *.
    + cbn. lia.
    + cbn. lia.
  - cbn [offsets length]. change (S (S pp) <? S ?a)%nat with (S pp <? a)%nat.
    change ((?a :: ?l) !! S ?k) with (l !! k).
    apply (IH (start + Z.of_nat n0) len pp n); [cbn [total] in Hlen; lia | exact Hpp].
Qed.

(** X16. Where the table holds the offsets at which consecutive pages
    begin in [m_pages], and [m_pages] ends with the last page,
    [getPageSize(pp)] is the length of the page [pp]: the distance to the
    next offset, or to the end of [m_pages] for the last page. For a [pp]
    that is no page of the table it reads the table out of range. *)
Theorem getPageSize_offsets start lens m_pages :
  0 <= start ->
  Z.of_nat (length m_pages) = start + total lens ->
  Z.of_nat (length m_pages) < 2 ^ size_bits ->
  (forall pp n, lens !! pp = Some n ->
     getPageSize size_bits (offsets start lens) m_pages (Z.of_nat pp) = Done (Z.of_nat n)) /\
  (forall pp, (length lens <= pp)%nat ->
     getPageSize size_bits (offsets start lens) m_pages (Z.of_nat pp) = Undefined_behaviour).
Proof.
  intros Hs Hlen Hbits. split.
  - intros pp n Hpp. rewrite getPageSize_nat.
    pose proof (getPageSize_offsets_nat lens start _ pp n Hlen Hpp) as H.
    destruct (if (S pp <? _)%nat then _ else _) as [next|]; [| contradiction].
    destruct (offsets start lens !! pp) as [first|]; [| contradiction].
    rewrite H. unfold size_t. rewrite Z.mod_small; [reflexivity |].
    split; [lia |]. eapply Z.le_lt_trans; [| exact Hbits]. rewrite Hlen.
    clear - Hpp Hs. revert pp Hpp. induction lens as [|n0 l IH]; intros pp Hpp;
      [discriminate |].
    destruct pp as [|pp]; cbn [total].
    + injection Hpp as ->. pose proof (total_nonneg l). lia.
    + specialize (IH pp Hpp). lia.
  - intros pp Hpp. rewrite getPageSize_nat.
    rewrite (lookup_ge_None_2 (offsets start lens) pp) by (rewrite length_offsets; lia).
    destruct (if (S pp <? _)%nat then _ else _); reflexivity.
Qed.

End Page_sizes.

(** [pushNumber 258] on the empty page 0, read back. *)
Lemma readNumber_pushNumber_witness :
  exists st' code,
    pushNumber 258 (Some 0) Sample.one_page = (Ok tt, st') /\
    page 0 st' = Some code /\
    length code = (length (@nil Z) + 2)%nat /\
    forall rest,
      readNumber (code ++ rest) (Z.of_nat (length (@nil Z))) =
      Done (258, Z.of_nat (length (@nil Z)) + 1).
Proof.
  apply (readNumber_pushNumber 258 0 Sample.one_page []); [lia | reflexivity].
Defined.

(** Three pages of 4, 0 and 3 bytes, on a machine whose [std::size_t] has
    64 bits. *)
Lemma getPageSize_offsets_witness :
  let m_pages := [1; 0; 0; 9; 2; 0; 9] in
  (forall pp n, [4; 0; 3]%nat !! pp = Some n ->
     getPageSize 64 (offsets 0 [4; 0; 3]%nat) m_pages (Z.of_nat pp) = Done (Z.of_nat n)) /\
  (forall pp, (length [4; 0; 3]%nat <= pp)%nat ->
     getPageSize 64 (offsets 0 [4; 0; 3]%nat) m_pages (Z.of_nat pp) = Undefined_behaviour).
Proof.
  intros m_pages.
  apply (getPageSize_offsets 64 0 [4; 0; 3]%nat m_pages); [lia | reflexivity | reflexivity].
Defined.

End VM_pages.

(** * The VM: when a return is defined *)

Module VM_returns.
Import VM_t.

Section VM.

Context {Value : Type}.

Lemma removelast_take {A} (l : list A) : removelast l = take (length l - 1) l.
Proof.
  induction l as [|a l IH]; [reflexivity |].
  destruct l as [|b l]; [reflexivity |].
  change (removelast (a :: b :: l)) with (a :: removelast (b :: l)). rewrite IH.
  cbn [length]. replace (S (S (length l)) - 1)%nat with (S (S (length l) - 1)) by lia.
  reflexivity.
Qed.

(** The loop that pops [del_counter] scopes: defined when there are that
    many. *)
Lemma pop_scopes_take del_counter (locals : list (list Value)) :
  pop_scopes del_counter locals =
  if (del_counter <=? length locals)%nat
  then Done (take (length locals - del_counter) locals)
  else Undefined_behaviour.
Proof.
  revert locals. induction del_counter as [|n IH]; intros locals.
  - cbn [pop_scopes Nat.leb]. rewrite Nat.sub_0_r, firstn_all. reflexivity.
  - cbn [pop_scopes]. destruct locals as [|s locals]; [reflexivity |].
    unfold pop_back. rewrite IH, removelast_take, length_take.
    cbn [length]. replace (S (length locals) - 1)%nat with (length locals) by lia.
    replace (length locals `min` S (length locals))%nat with (length locals) by lia.
    change (S n <=? S (length locals))%nat with (n <=? length locals)%nat.
    destruct (n <=? length locals)%nat eqn:E; [| reflexivity].
    apply Nat.leb_le in E. rewrite take_take. f_equal. f_equal. lia.
Qed.

(** The counter [returnFromFuncCall] reads: that of the frame under the
    topmost one, as a [uint8_t]. *)
Definition del_counter_of (vm : @VM Value) : option nat :=
  f ← last (removelast (m_frames vm)); Some (Z.to_nat (u8 (scopeCountToDelete f))).

(** [returnFromFuncCall], run. *)
Lemma returnFromFuncCall_eq (vm : @VM Value) :
  returnFromFuncCall vm =
  match del_counter_of vm with
  | Some n =>
      if (S n <=? length (m_locals vm))%nat
      then Done (set_locals (take (length (m_locals vm) - S n) (m_locals vm))
                   (set_frames (reset_back (removelast (m_frames vm))) vm))
      else Undefined_behaviour
  | None => Undefined_behaviour
  end.
Proof.
  unfold returnFromFuncCall, del_counter_of.
  destruct (m_frames vm) as [|f0 frames]; [reflexivity |].
  change (pop_back (f0 :: frames)) with (Done (removelast (f0 :: frames))). cbv iota.
  destruct (last (removelast (f0 :: frames))) as [back|]; [| reflexivity].
  cbn [mbind option_bind]. set (n := Z.to_nat (u8 (scopeCountToDelete back))).
  destruct (m_locals vm) as [|s locals]; [reflexivity |].
  change (pop_back (s :: locals)) with (Done (removelast (s :: locals))). cbv iota.
  rewrite pop_scopes_take, removelast_take, length_take. cbn [length].
  replace (S (length locals) - 1)%nat with (length locals) by lia.
  replace (length locals `min` S (length locals))%nat with (length locals) by lia.
  change (S n <=? S (length locals))%nat with (n <=? length locals)%nat.
  destruct (n <=? length locals)%nat eqn:E; [| reflexivity].
  apply Nat.leb_le in E. rewrite take_take. unfold set_locals. repeat f_equal. cbn [length]. lia.
Qed.

(** X14. [returnFromFuncCall] throws nothing, and it is defined exactly when
    there is a frame under the topmost one and the scope chain holds one
    scope more than the counter of that frame; otherwise it pops or reads
    an empty vector. When it is defined it removes one frame and that many
    scopes, from the end of the chain, and leaves the stack, the page id
    and the instruction offset alone. *)
Theorem returnFromFuncCall_defined (vm : @VM Value) :
  (forall message, returnFromFuncCall vm <> VMError message) /\
  ((exists vm', returnFromFuncCall vm = Done vm') <->
   (exists n, del_counter_of vm = Some n /\ (S n <= length (m_locals vm))%nat)) /\
  (forall vm', returnFromFuncCall vm = Done vm' ->
     exists n, del_counter_of vm = Some n /\
       m_locals vm' = take (length (m_locals vm) - S n) (m_locals vm) /\
       length (m_frames vm') = (length (m_frames vm) - 1)%nat /\
       m_stack vm' = m_stack vm /\ m_pp vm' = m_pp vm /\ m_ip vm' = m_ip vm).
Proof.
  rewrite returnFromFuncCall_eq.
  destruct (del_counter_of vm) as [n|] eqn:En.
  2:{ split; [discriminate |]. split; [| discriminate].
      split; [intros [? ?]; discriminate | intros (n & ? & _); discriminate]. }
  destruct (S n <=? length (m_locals vm))%nat eqn:E.
  - apply Nat.leb_le in E. split; [discriminate |]. split.
    + split; [intros _; exists n; split; [reflexivity | lia] | eauto].
    + intros vm' Hvm. injection Hvm as <-. exists n. split; [reflexivity |].
      cbn [m_locals set_locals m_frames set_frames m_stack m_pp m_ip].
      split; [reflexivity |]. split; [| auto].
      unfold del_counter_of in En. unfold reset_back.
      destruct (last (removelast (m_frames vm))) as [back|] eqn:EL; [| discriminate].
      assert (1 <= length (removelast (m_frames vm)))%nat as Hlen
        by (destruct (removelast (m_frames vm)); [discriminate | simpl; lia]).
      revert Hlen. rewrite length_app, !removelast_take, !length_take. cbn [length]. lia.
  - apply Nat.leb_gt in E. split; [discriminate |]. split; [| discriminate].
    split; [intros [? ?]; discriminate |].
    intros (k & Hk & Hle). injection Hk as <-. lia.
Qed.

End VM.

(** On the machine [vm_in_call] the return is defined; on a machine with a
    single frame it is not. *)
Example returnFromFuncCall_outermost :
  exists vm', returnFromFuncCall VM_proofs.vm_in_call = Done vm' /\
  returnFromFuncCall (set_frames [mkFrame 0 0 0 0] VM_proofs.vm_in_call) = Undefined_behaviour.
Proof. eexists. split; reflexivity. Qed.

End VM_returns.

(** * The VM: scopes as shared vectors

    A [Scope_t] is a [std::shared_ptr] to a vector of values: [m_locals]
    holds pointers, and a write through one pointer is seen through every
    copy of it. Here the vectors live in a store and a pointer is an index
    into it. *)

Module VM_scopes.

Abbreviation Outcome := VM_t.Outcome.
Abbreviation Done := VM_t.Done.
Abbreviation Undefined_behaviour := VM_t.Undefined_behaviour.

Section Scopes.

Context {Value : Type} `{EqDecision Value}.
Variable undefined : Value.

Record VM := mkVM {
  store : list (list Value);
  m_locals : list nat;
  m_symbols_size : nat
}.

Definition bindO {A B} (o : Outcome A) (f : A -> Outcome B) : Outcome B :=
  match o with
  | VM_t.Done a => f a
  | VM_t.Undefined_behaviour => Undefined_behaviour
  | VM_t.VMError m => VM_t.VMError m
  end.

(** [v[i]], undefined out of range. *)
Definition index {A} (v : list A) (i : nat) : Outcome A :=
  match v !! i with
  | Some a => Done a
  | None => Undefined_behaviour
  end.

(** [m_locals.back()] for the template argument [-1], else [m_locals[pp]],
    where a negative [pp] becomes an index out of range. *)
Definition scope_ptr (pp : Z) (vm : VM) : Outcome nat :=
  if pp =? -1 then
    match last (m_locals vm) with
    | Some ptr => Done ptr
    | None => Undefined_behaviour
    end
  else if 0 <=? pp then index (m_locals vm) (Z.to_nat pp)
  else Undefined_behaviour.

(** [registerVariable<pp>(id, value)]: the slot [id] of the vector the scope
    points to takes [value]. *)
Definition registerVariable (pp : Z) (id : nat) (value : Value) (vm : VM) : Outcome VM :=
  bindO (scope_ptr pp vm) (fun ptr =>
  bindO (index (store vm) ptr) (fun scope =>
  if (id <? length scope)%nat
  then Done (mkVM (<[ptr := <[id := value]> scope]> (store vm)) (m_locals vm)
               (m_symbols_size vm))
  else Undefined_behaviour)).

(** [getVariableInScope<pp>(id)] *)
Definition getVariableInScope (pp : Z) (id : nat) (vm : VM) : Outcome Value :=
  bindO (scope_ptr pp vm) (fun ptr =>
  bindO (index (store vm) ptr) (fun scope => index scope id)).

(** [createNewScope()]: a new vector of [m_symbols.size()] times
    [undefined], and a pointer to it at the end of [m_locals]. *)
Definition createNewScope (vm : VM) : VM :=
  mkVM (store vm ++ [replicate (m_symbols_size vm) undefined])
    (m_locals vm ++ [length (store vm)]) (m_symbols_size vm).

(** The loop of [findNearestVariable] over [m_locals.rbegin() .. rend()],
    with [n] scopes still to visit; the result is the pointer to the vector
    whose slot [id] is returned, [None] for [nullptr]. *)
Fixpoint findNearestVariable_from (vm : VM) (id : nat) (n : nat) : Outcome (option nat) :=
  match n with
  | O => Done None
  | S n' =>
      bindO (index (m_locals vm) n') (fun ptr =>
      bindO (index (store vm) ptr) (fun scope =>
      bindO (index scope id) (fun v =>
      if decide (v <> undefined) then Done (Some ptr)
      else findNearestVariable_from vm id n')))
  end.

Definition findNearestVariable (id : nat) (vm : VM) : Outcome (option nat) :=
  findNearestVariable_from vm id (length (m_locals vm)).

(** The value seen at the slot [id] through the entry [j] of [m_locals]. *)
Definition seen (vm : VM) (j id : nat) : option Value :=
  ptr ← m_locals vm !! j; scope ← store vm !! ptr; scope !! id.

(** Every pointer of [m_locals] points to a vector of the store. *)
Definition valid (vm : VM) : Prop := Forall (fun ptr => (ptr < length (store vm))%nat) (m_locals vm).

End Scopes.

Arguments VM Value : clear implicits.

Section Scope_proofs.

Context {Value : Type} `{EqDecision Value}.
Variable undefined : Value.

Lemma registerVariable_Done pp id value (vm vm' : VM Value) :
  registerVariable pp id value vm = Done vm' ->
  exists ptr scope,
    scope_ptr pp vm = Done ptr /\ store vm !! ptr = Some scope /\ (id < length scope)%nat /\
    vm' = mkVM (<[ptr := <[id := value]> scope]> (store vm)) (m_locals vm) (m_symbols_size vm).
Proof.
  unfold registerVariable, bindO, index. intros E.
  destruct (scope_ptr pp vm) as [ptr| |]; try discriminate.
  destruct (store vm !! ptr) as [scope|] eqn:Es; [| discriminate].
  destruct (id <? length scope)%nat eqn:El; [| discriminate].
  apply Nat.ltb_lt in El. injection E as <-. eauto 6.
Qed.

(** X20. A write through one pointer is seen through every copy of it.
    When [registerVariable<pp>(id, value)] is defined, [m_locals] is as it
    was, [getVariableInScope<pp>(id)] gives [value], and so does every other
    entry of [m_locals] that holds the same pointer; the entries that hold
    another pointer, and every other slot, show what they showed. It is
    defined exactly when the scope exists and has a slot [id]. *)
Theorem registerVariable_shared pp id value (vm : VM Value) :
  ((exists vm', registerVariable pp id value vm = Done vm') <->
   (exists old, getVariableInScope pp id vm = Done old)) /\
  (forall vm', registerVariable pp id value vm = Done vm' ->
     m_locals vm' = m_locals vm /\
     getVariableInScope pp id vm' = Done value /\
     exists ptr, scope_ptr pp vm = Done ptr /\
       forall j ptr' id', m_locals vm !! j = Some ptr' ->
         seen vm' j id' =
         if decide (ptr' = ptr /\ id' = id) then Some value else seen vm j id').
Proof.
  split.
  - unfold registerVariable, getVariableInScope, bindO, index.
    destruct (scope_ptr pp vm) as [ptr| |];
      try (split; intros [? ?]; discriminate).
    destruct (store vm !! ptr) as [scope|]; [| split; intros [? ?]; discriminate].
    destruct (id <? length scope)%nat eqn:El.
    + apply Nat.ltb_lt in El. destruct (lookup_lt_is_Some_2 scope id El) as [old ->].
      split; eauto.
    + apply Nat.ltb_ge in El. rewrite (lookup_ge_None_2 scope id El).
      split; intros [? ?]; discriminate.
  - intros vm' E. apply registerVariable_Done in E as (ptr & scope & Hptr & Hs & Hid & ->).
    cbn [m_locals]. split; [reflexivity |]. split.
    + unfold getVariableInScope, bindO.
      assert (scope_ptr pp (mkVM (<[ptr:=<[id:=value]> scope]> (store vm)) (m_locals vm)
                              (m_symbols_size vm)) = scope_ptr pp vm) as -> by reflexivity.
      rewrite Hptr. unfold index. cbn [store].
      rewrite list_lookup_insert_eq by (eapply lookup_lt_Some, Hs).
      rewrite list_lookup_insert_eq by exact Hid. reflexivity.
    + exists ptr. split; [exact Hptr |]. intros j ptr' id' Hj.
      unfold seen. cbn [m_locals store]. rewrite Hj. cbn [mbind option_bind].
      destruct (decide (ptr' = ptr)) as [->|Hne].
      * rewrite list_lookup_insert_eq by (eapply lookup_lt_Some, Hs). rewrite Hs.
        cbn [mbind option_bind]. destruct (decide (id' = id)) as [->|Hid'].
        -- rewrite list_lookup_insert_eq by exact Hid.
           rewrite decide_True by auto. reflexivity.
        -- rewrite list_lookup_insert_ne by auto.
           rewrite decide_False by (intros [_ ?]; contradiction). reflexivity.
      * rewrite list_lookup_insert_ne by auto.
        rewrite decide_False by (intros [? _]; contradiction). reflexivity.
Qed.

(** X21. A variable registered in the innermost scope shadows: after
    [registerVariable(id, value)] with a value that is not the sentinel,
    [findNearestVariable(id)] returns the slot of the innermost scope, and
    that slot holds [value]. *)
Theorem registerVariable_shadows id value (vm vm' : VM Value) :
  registerVariable (-1) id value vm = Done vm' ->
  value <> undefined ->
  exists ptr,
    last (m_locals vm') = Some ptr /\
    findNearestVariable undefined id vm' = Done (Some ptr) /\
    (exists scope, store vm' !! ptr = Some scope /\ scope !! id = Some value).
Proof.
  intros E Hv. apply registerVariable_Done in E as (ptr & scope & Hptr & Hs & Hid & ->).
  unfold scope_ptr in Hptr. cbn [Z.eqb] in Hptr.
  change (-1 =? -1) with true in Hptr. cbv iota in Hptr.
  destruct (last (m_locals vm)) as [ptr0|] eqn:EL; [| discriminate]. injection Hptr as ->.
  exists ptr. cbn [m_locals store]. split; [exact EL |].
  assert ((<[ptr:=<[id:=value]> scope]> (store vm)) !! ptr = Some (<[id:=value]> scope)) as Hst
    by (apply list_lookup_insert_eq; eapply lookup_lt_Some, Hs).
  split; [| exists (<[id:=value]> scope); split;
              [exact Hst | apply list_lookup_insert_eq, Hid]].
  unfold findNearestVariable. cbn [m_locals].
  destruct (m_locals vm) as [|p0 l] eqn:ELoc using rev_ind; [discriminate |]. clear IHl.
  rewrite last_snoc in EL. injection EL as ->.
  rewrite length_app. cbn [length]. rewrite Nat.add_1_r. cbn [findNearestVariable_from].
  unfold bindO, index. cbn [m_locals store].
  rewrite lookup_app_r, Nat.sub_diag by lia. cbn [lookup list_lookup].
  rewrite Hst. rewrite list_lookup_insert_eq by exact Hid.
  rewrite decide_True by exact Hv. reflexivity.
Qed.

Lemma findNearestVariable_from_fresh (vm : VM Value) id v n :
  valid vm -> (n <= length (m_locals vm))%nat ->
  findNearestVariable_from undefined
    (mkVM (store vm ++ [v]) (m_locals vm ++ [length (store vm)]) (m_symbols_size vm)) id n =
  findNearestVariable_from undefined vm id n.
Proof.
  intros Hval. induction n as [|n IH]; intros Hn; [reflexivity |].
  cbn [findNearestVariable_from]. unfold bindO, index. cbn [m_locals store].
  rewrite lookup_app_l by lia.
  destruct (m_locals vm !! n) as [ptr|] eqn:En; [| reflexivity].
  assert (ptr < length (store vm))%nat as Hptr
    by (eapply (proj1 (Forall_lookup _ _) Hval), En).
  rewrite lookup_app_l by exact Hptr.
  destruct (store vm !! ptr) as [scope|]; [| reflexivity].
  destruct (scope !! id) as [w|]; [| reflexivity].
  destruct (decide (w <> undefined)); [reflexivity |]. apply IH. lia.
Qed.

(** X22. [createNewScope] shadows nothing and shares nothing: the new
    scope has a slot, holding the sentinel, for every symbol;
    [findNearestVariable] finds for every symbol what it found before; and
    a variable registered in the new scope changes what no older entry of
    [m_locals] shows. *)
Theorem createNewScope_fresh (vm : VM Value) id :
  valid vm ->
  (id < m_symbols_size vm)%nat ->
  let vm1 := createNewScope undefined vm in
  valid vm1 /\
  getVariableInScope (-1) id vm1 = Done undefined /\
  findNearestVariable undefined id vm1 = findNearestVariable undefined id vm /\
  (forall j id', (j < length (m_locals vm))%nat -> seen vm1 j id' = seen vm j id') /\
  (forall value, exists vm2,
     registerVariable (-1) id value vm1 = Done vm2 /\
     forall j id', (j < length (m_locals vm))%nat -> seen vm2 j id' = seen vm j id').
Proof.
  intros Hval Hid vm1.
  assert (forall j id', (j < length (m_locals vm))%nat -> seen vm1 j id' = seen vm j id')
    as Hseen.
  { intros j id' Hj. unfold seen, vm1, createNewScope. cbn [m_locals store].
    rewrite lookup_app_l by exact Hj.
    destruct (m_locals vm !! j) as [ptr|] eqn:Ej; [| reflexivity].
    cbn [mbind option_bind]. rewrite lookup_app_l; [reflexivity |].
    eapply (proj1 (Forall_lookup _ _) Hval), Ej. }
  assert (scope_ptr (-1) vm1 = Done (length (store vm))) as Hback.
  { unfold scope_ptr. change (-1 =? -1) with true. cbv iota.
    unfold vm1, createNewScope. cbn [m_locals]. rewrite last_snoc. reflexivity. }
  assert (store vm1 !! length (store vm) = Some (replicate (m_symbols_size vm) undefined))
    as Hnew.
  { unfold vm1, createNewScope. cbn [store].
    rewrite lookup_app_r, Nat.sub_diag by lia. reflexivity. }
  split; [| split; [| split; [| split]]].
  - unfold valid, vm1, createNewScope. cbn [m_locals store]. rewrite length_app.
    apply Forall_app. split.
    + eapply Forall_impl; [exact Hval |]. intros ptr Hptr. simpl in *. lia.
    + constructor; [cbn [length]; lia | constructor].
  - unfold getVariableInScope, bindO. rewrite Hback. unfold index. rewrite Hnew.
    rewrite lookup_replicate_2 by exact Hid. reflexivity.
  - unfold findNearestVariable, vm1, createNewScope. cbn [m_locals].
    rewrite length_app. cbn [length]. rewrite Nat.add_1_r.
    cbn [findNearestVariable_from]. unfold bindO, index. cbn [m_locals store].
    rewrite lookup_app_r, Nat.sub_diag by lia. cbn [lookup list_lookup].
    rewrite lookup_app_r, Nat.sub_diag by lia. cbn [lookup list_lookup].
    rewrite lookup_replicate_2 by exact Hid.
    rewrite decide_False by (intros Hn; apply Hn; reflexivity).
    apply findNearestVariable_from_fresh; [exact Hval | lia].
  - exact Hseen.
  - intros value.
    eexists. split.
    { unfold registerVariable, bindO. rewrite Hback. unfold index. rewrite Hnew.
      rewrite length_replicate. replace (id <? m_symbols_size vm)%nat with true
        by (symmetry; apply Nat.ltb_lt, Hid). reflexivity. }
    intros j id' Hj. rewrite <- (Hseen j id' Hj). unfold seen. cbn [m_locals store].
    destruct (m_locals vm1 !! j) as [ptr'|] eqn:Ej; [| reflexivity].
    cbn [mbind option_bind]. rewrite list_lookup_insert_ne; [reflexivity |].
    intros E. subst ptr'. unfold vm1, createNewScope in Ej. cbn [m_locals] in Ej.
    rewrite lookup_app_l in Ej by exact Hj.
    pose proof (proj1 (Forall_lookup _ _) Hval j _ Ej). simpl in *. lia.
Qed.

End Scope_proofs.

(** A machine whose values are integers, [0] for the sentinel, with two
    symbols and two scopes; and one whose [m_locals] holds the same pointer
    twice. *)
Definition two_scopes : VM Z := mkVM [[0; 5]; [0; 0]] [0; 1]%nat 2.
Definition shared_scope : VM Z := mkVM [[0; 5]] [0; 0]%nat 2.

Lemma registerVariable_shadows_witness :
  exists ptr,
    last (m_locals (mkVM [[0; 5]; [0; 7]] [0; 1]%nat 2)) = Some ptr /\
    findNearestVariable 0 1 (mkVM [[0; 5]; [0; 7]] [0; 1]%nat 2) = Done (Some ptr) /\
    (exists scope, store (mkVM [[0; 5]; [0; 7]] [0; 1]%nat 2) !! ptr = Some scope /\
                   scope !! 1%nat = Some 7).
Proof.
  apply (registerVariable_shadows 0 1 7 two_scopes (mkVM [[0; 5]; [0; 7]] [0; 1]%nat 2));
    [reflexivity | discriminate].
Defined.

Lemma createNewScope_fresh_witness :
  let vm1 := createNewScope 0 two_scopes in
  valid vm1 /\
  getVariableInScope (-1) 1 vm1 = Done 0 /\
  findNearestVariable 0 1 vm1 = findNearestVariable 0 1 two_scopes /\
  (forall j id', (j < length (m_locals two_scopes))%nat ->
     seen vm1 j id' = seen two_scopes j id') /\
  (forall value, exists vm2,
     registerVariable (-1) 1 value vm1 = Done vm2 /\
     forall j id', (j < length (m_locals two_scopes))%nat ->
       seen vm2 j id' = seen two_scopes j id').
Proof.
  apply (createNewScope_fresh 0 two_scopes 1).
  - repeat constructor.
  - repeat constructor.
Defined.

(** Through the two copies of the pointer the write is seen twice. *)
Example registerVariable_aliased :
  exists vm',
    registerVariable (-1) 0 9 shared_scope = Done vm' /\
    seen vm' 0 0 = Some 9 /\ seen vm' 1 0 = Some 9 /\ seen shared_scope 0 0 = Some 0.
Proof. eexists. repeat split. Qed.

End VM_scopes.

(** * Chains of operands *)

Section Chains.

Context {isa : Instruction}.
Variable operators : list string.
Variable builtins : list string.
Variable isSpecific : string -> option Z.

Local Abbreviation _compile' := (_compile operators builtins isSpecific).

(** The count the operator loop returns. *)
Lemma handleCallsOperands_count l (acts : children_t) op_inst count : forall index e p st n st',
  handleCallsOperands l acts op_inst count index e p st = (Ok n, st') ->
  n = (e + count_ends l index count)%nat.
Proof.
  induction count as [|count IH]; intros index e p st n st' H.
  - cbn in H. injection H as <- _. unfold count_ends. simpl. lia.
  - cbn [handleCallsOperands] in H.
    apply bind_Ok in H as ([] & s1 & _ & H). apply bind_Ok in H as ([] & s2 & _ & H).
    apply IH in H. rewrite count_ends_S. destruct (expressionEnds l index); lia.
Qed.

Lemma filter_Forall_id {A} (P : A -> Prop) `{forall a, Decision (P a)} l :
  Forall P l -> filter P l = l.
Proof.
  induction 1 as [|a l Ha _ IH]; [reflexivity |].
  rewrite filter_cons_True by exact Ha. rewrite IH. reflexivity.
Qed.

(** X24. [(op a b c ...)] with three or more operands, none of them a
    field or a capture: the operands are compiled, with the operator after
    the second and after every later one, and the loop counts as many
    expressions as there are operands. For [+], [-], [/], [*], [mod],
    [and] and [or] this is the result; for every other operator
    [handleCalls] then throws the compile error on the chained expression,
    with the code of the operands already on the page. *)
Theorem handleCalls_chain name pos0 args pos k p st n st1 :
  let callee := Symbol name pos0 in
  let x := List (callee :: args) pos in
  let op_inst := u8 (FIRST_OPERATOR + Z.of_nat k) in
  isBuiltin builtins name = None ->
  isOperator operators name = Some k ->
  0 <= FIRST_OPERATOR -> FIRST_OPERATOR + Z.of_nat k < 256 ->
  Forall (fun a => plain a = true) args ->
  (3 <= length args)%nat ->
  handleCallsOperands (callee :: args) (map _compile' (callee :: args)) op_inst
    (length args) 1 0 p st = (Ok n, st1) ->
  n = length args /\
  (In op_inst [ADD; SUB; DIV; MUL; MOD; AND_; OR_] ->
   handleCalls operators x (map _compile' (constList x)) p st = (Ok tt, st1)) /\
  (~ In op_inst [ADD; SUB; DIV; MUL; MOD; AND_; OR_] ->
   handleCalls operators x (map _compile' (constList x)) p st =
   (Err (CompilationError
           ("can not create a chained expression (of length " +:+ pretty n +:+
            ") for operator `" +:+ name +:+ "'. You most likely forgot a `)'.")
           (Some x)), st1)).
Proof.
  intros callee x op_inst HB HO HF0 HF1 Hplain Hlen H.
  assert (n = length args) as Hn.
  { apply handleCallsOperands_count in H. rewrite H. cbn [Nat.add].
    destruct args as [|a rest]; [simpl in Hlen; lia |].
    change (count_ends (callee :: a :: rest) 1 (length (a :: rest)))
      with (count_ends ([callee] ++ a :: rest) (length [callee]) (S (length rest))).
    rewrite (count_ends_plain [callee] a rest). cbn [length]. f_equal.
    inversion Hplain; subst. rewrite filter_Forall_id by assumption. reflexivity. }
  assert (match args with a :: _ => isGetField a = false | [] => True end) as Hfirst.
  { destruct args as [|a rest]; [exact I |]. inversion Hplain as [|? ? Ha _]; subst.
    unfold plain in Ha. apply andb_true_iff in Ha as [Ha _].
    apply negb_true_iff, Ha. }
  assert (handleCalls operators x (map _compile' (constList x)) p st =
          (if (2 <? n)%nat then checkChainedOperator operators x op_inst n else ret tt) st1)
    as Hrun.
  { subst x. cbn [constList].
    rewrite (handleCalls_operator operators builtins isSpecific name pos0 args pos k p st
               HB HO Hfirst).
    fold callee. fold op_inst. rewrite (bind_run _ _ _ _ _ H).
    replace (n =? 1)%nat with false by (symmetry; apply Nat.eqb_neq; lia). reflexivity. }
  replace (2 <? n)%nat with true in Hrun by (symmetry; apply Nat.ltb_lt; lia).
  split; [exact Hn |]. unfold checkChainedOperator in Hrun. split.
  - intros Hin. rewrite Hrun.
    assert ((op_inst =? ADD) || (op_inst =? SUB) || (op_inst =? DIV) || (op_inst =? MUL) ||
            (op_inst =? MOD) || (op_inst =? AND_) || (op_inst =? OR_) = true) as ->;
      [| reflexivity].
    cbn [In] in Hin. rewrite !orb_true_iff, !Z.eqb_eq. intuition auto.
  - intros Hin. rewrite Hrun.
    assert ((op_inst =? ADD) || (op_inst =? SUB) || (op_inst =? DIV) || (op_inst =? MUL) ||
            (op_inst =? MOD) || (op_inst =? AND_) || (op_inst =? OR_) = false) as ->.
    { apply not_true_iff_false. intros E. apply Hin. cbn [In].
      rewrite !orb_true_iff, !Z.eqb_eq in E. intuition auto. }
    cbv zeta. unfold op_inst, u8. rewrite Z.mod_small by lia.
    replace (FIRST_OPERATOR + Z.of_nat k - FIRST_OPERATOR) with (Z.of_nat k) by lia.
    replace (0 <=? Z.of_nat k) with true by (symmetry; apply Z.leb_le; lia).
    rewrite Nat2Z.id. unfold isOperator in HO.
    destruct (find_index_Some _ _ _ HO) as (_ & a & Ha & Ea).
    apply String.eqb_eq in Ea. subst a. rewrite Ha. reflexivity.
Qed.

End Chains.

(** [(< a b c)] does not compile; the page holds the code of the operands. *)
Lemma handleCalls_chain_witness :
  let args := [Sample.sym "a"; Sample.sym "b"; Sample.sym "c"] in
  let x := Sample.form (Sample.sym "<" :: args) in
  let run := handleCallsOperands (Sample.sym "<" :: args)
               (map Sample._compile (Sample.sym "<" :: args)) 37 3 1 0 0 Sample.one_page in
  (In 37 [@ADD Sample.isa; @SUB Sample.isa; @DIV Sample.isa; @MUL Sample.isa;
          @MOD Sample.isa; @AND_ Sample.isa; @OR_ Sample.isa] ->
   @handleCalls Sample.isa Sample.operators x (map Sample._compile (constList x)) 0
     Sample.one_page = (Ok tt, snd run)) /\
  (~ In 37 [@ADD Sample.isa; @SUB Sample.isa; @DIV Sample.isa; @MUL Sample.isa;
            @MOD Sample.isa; @AND_ Sample.isa; @OR_ Sample.isa] ->
   @handleCalls Sample.isa Sample.operators x (map Sample._compile (constList x)) 0
     Sample.one_page =
   (Err (CompilationError
           ("can not create a chained expression (of length " +:+ pretty 3%nat +:+
            ") for operator `" +:+ "<" +:+ "'. You most likely forgot a `)'.")
           (Some x)), snd run)).
Proof.
  intros args x run.
  assert (run = (Ok 3%nat, snd run)) as Hrun by (vm_compute; reflexivity).
  assert (Forall (fun a => plain a = true) args) as Hplain by (repeat constructor).
  assert (3 <= length args)%nat as Hlen by (simpl; lia).
  destruct (@handleCalls_chain Sample.isa Sample.operators Sample.builtins Sample.isSpecific
              "<" Sample.at_ args Sample.at_ 5 0 Sample.one_page 3 (snd run)
              eq_refl eq_refl ltac:(vm_compute; discriminate) ltac:(vm_compute; reflexivity)
              Hplain Hlen Hrun) as (_ & H1 & H2).
  split; assumption.
Defined.

Example handleCalls_lt_a_b_c :
  exists st,
    Sample._compile (Sample.form [Sample.sym "<"; Sample.sym "a"; Sample.sym "b";
                                  Sample.sym "c"]) 0 Sample.one_page =
    (Err (CompilationError
            "can not create a chained expression (of length 3) for operator `<'. You most likely forgot a `)'."
            (Some (Sample.form [Sample.sym "<"; Sample.sym "a"; Sample.sym "b";
                                Sample.sym "c"]))), st) /\
    m_code_pages st = [[@LOAD_SYMBOL Sample.isa; 0; 0; @LOAD_SYMBOL Sample.isa; 0; 1; 37;
                        @LOAD_SYMBOL Sample.isa; 0; 2; 37]].
Proof. eexists. vm_compute. repeat split. Qed.

(** * The tables stay within the range of an index

    [addSymbol] and [addValue] refuse the entry whose index would not be
    below 65535: a table that lowering has left holds at most 65535
    entries, and its length fits the two bytes the container has for it. *)

Definition within_limits (st : Compiler) : Prop :=
  Z.of_nat (length (m_symbols st)) <= 65535 /\ Z.of_nat (length (m_values st)) <= 65535.

Definition limits_kept (st st' : Compiler) : Prop := within_limits st -> within_limits st'.

Lemma limits_kept_refl st : limits_kept st st.
Proof. intros H. exact H. Qed.

Lemma limits_kept_trans st1 st2 st3 :
  limits_kept st1 st2 -> limits_kept st2 st3 -> limits_kept st1 st3.
Proof. unfold limits_kept. auto. Qed.

Lemma limits_kept_same st st' :
  m_symbols st' = m_symbols st -> m_values st' = m_values st ->
  m_defined_symbols st' = m_defined_symbols st -> m_plugins st' = m_plugins st ->
  limits_kept st st'.
Proof. intros E1 E2 _ _. unfold limits_kept, within_limits. rewrite E1, E2. auto. Qed.

Abbreviation Limits := (Keeps limits_kept).

Create HintDb limits discriminated.

Lemma Limits_ret {A} (a : A) : Limits (ret a).
Proof. apply Keeps_ret, limits_kept_refl. Qed.

Lemma Limits_throw {A} e : Limits (@throw A e).
Proof. apply Keeps_throw. Qed.

Lemma Limits_throwCompilerError {A} m n : Limits (@throwCompilerError A m n).
Proof. apply Keeps_throw. Qed.

Lemma Limits_bind {A B} (m : M A) (f : A -> M B) :
  Limits m -> (forall a, Limits (f a)) -> Limits (bind m f).
Proof. apply Keeps_bind, limits_kept_trans. Qed.

Lemma Limits_get_bind {B} (f : Compiler -> M B) :
  (forall st, Limits (f st)) -> Limits (bind get f).
Proof. apply Keeps_get_bind; [apply limits_kept_refl | apply limits_kept_trans]. Qed.

Lemma Limits_for_each {A} (f : A -> M unit) l :
  (forall a, Limits (f a)) -> Limits (for_each f l).
Proof.
  intros Hf. apply Keeps_for_each; [apply limits_kept_refl | apply limits_kept_trans | auto].
Qed.

Lemma Limits_if {A} (b : bool) (m1 m2 : M A) :
  Limits m1 -> Limits m2 -> Limits (if b then m1 else m2).
Proof. apply Keeps_if. Qed.

Lemma Limits_set_page p pg : Limits (modify (set_page p pg)).
Proof.
  intros st a st' E. inv_M.
  apply limits_kept_same; unfold set_page; destruct (0 <=? p); reflexivity.
Qed.

Lemma Limits_modify_pages (f : Compiler -> Compiler) :
  (forall st, m_symbols (f st) = m_symbols st) ->
  (forall st, m_values (f st) = m_values st) ->
  (forall st, m_defined_symbols (f st) = m_defined_symbols st) ->
  (forall st, m_plugins (f st) = m_plugins st) ->
  Limits (modify f).
Proof. intros H1 H2 H3 H4 st a st' E. inv_M. apply limits_kept_same; auto. Qed.

Lemma Limits_page_get p : Limits (page_get p).
Proof. intros st a st' E. apply page_get_Ok in E as [_ ->]. apply limits_kept_refl. Qed.

Lemma Limits_page_size p : Limits (page_size p).
Proof. apply Limits_bind; [apply Limits_page_get | intros; apply Limits_ret]. Qed.

Lemma Limits_page_push p b : Limits (page_push p b).
Proof. apply Limits_bind; [apply Limits_page_get | intros; apply Limits_set_page]. Qed.

Lemma Limits_pushNumber p n : Limits (pushNumber n (Some p)).
Proof. apply Limits_bind; [apply Limits_page_push | intros; apply Limits_page_push]. Qed.

Lemma Limits_page_store p pos v : Limits (page_store p pos v).
Proof.
  apply Limits_bind; [apply Limits_page_get | intros pg].
  apply Limits_if; [apply Limits_set_page | apply Limits_throw].
Qed.

Lemma Limits_temp_back : Limits temp_back.
Proof. intros st a st' E. apply temp_back_Ok in E as [-> _]. apply limits_kept_refl. Qed.

Lemma Limits_temp_pop_back : Limits temp_pop_back.
Proof.
  intros st a st' E. apply temp_pop_back_Ok in E as ->. apply limits_kept_same; reflexivity.
Qed.

Lemma Limits_child x i : Limits (child x i).
Proof. unfold child. destruct (_ !! _); [apply Limits_ret | apply Limits_throw]. Qed.

Lemma Limits_addSymbol sym : Limits (addSymbol sym).
Proof.
  intros st i st' E [Hs Hv]. rewrite addSymbol_run in E.
  destruct (find_index _ _) eqn:EF; injection E as Hi <-; [split; assumption |].
  unfold symbol_index, uint16_max in Hi.
  destruct (Z.of_nat (length (m_symbols st)) <? 65535) eqn:El; [| discriminate].
  apply Z.ltb_lt in El. split; cbn [set_symbols m_symbols m_values]; [| exact Hv].
  rewrite length_app. cbn [length]. lia.
Qed.

Lemma Limits_addValueElem v current : Limits (addValueElem v current).
Proof.
  intros st i st' E [Hs Hv]. unfold addValueElem in E. rewrite get_bind_run in E.
  destruct (find_index _ _).
  - unfold bind, ret in E. destruct (_ <? _); [| discriminate].
    injection E as _ <-. split; assumption.
  - unfold bind, ret, modify, uint16_max in E.
    destruct (Z.of_nat (length (m_values st)) <? 65535) eqn:El; [| discriminate].
    apply Z.ltb_lt in El. injection E as _ <-.
    split; cbn [set_values m_symbols m_values]; [exact Hs |].
    rewrite length_app. cbn [length]. lia.
Qed.

Lemma Limits_addValue x : Limits (addValue x).
Proof.
  unfold addValue. destruct (CValue_of_node x); [apply Limits_addValueElem | apply Limits_throw].
Qed.

Lemma Limits_addDefinedSymbol sym : Limits (addDefinedSymbol sym).
Proof.
  intros st a st' H. unfold addDefinedSymbol in H. rewrite get_bind_run in H.
  destruct (contains sym (m_defined_symbols st)); inv_M; intros Hw; exact Hw.
Qed.

Lemma Limits_add_plugin name :
  Limits (modify (fun st => set_plugins (m_plugins st ++ [name]) st)).
Proof. intros s a s' H. inv_M. intros Hw. exact Hw. Qed.

#[local] Hint Resolve Limits_ret Limits_throw Limits_throwCompilerError Limits_page_get
  Limits_page_size Limits_page_push Limits_pushNumber Limits_page_store Limits_temp_back
  Limits_temp_pop_back Limits_child Limits_addSymbol Limits_addValueElem Limits_addValue
  Limits_addDefinedSymbol Limits_add_plugin : limits.

(** One step through a computation built from the pieces above. *)
Ltac limits_step :=
  first
    [ solve [auto with limits]
    | match goal with
      | |- Keeps _ (bind get _) => apply Limits_get_bind; intros ?
      | |- Keeps _ (bind _ _) => apply Limits_bind; [| intros ?]
      | |- Keeps _ (for_each _ _) => apply Limits_for_each; intros ?
      | |- Keeps _ (if _ then _ else _) => apply Limits_if
      | |- Keeps _ (modify _) => apply Limits_modify_pages; reflexivity
      | |- Keeps _ (match ?e with _ => _ end) => destruct e
      end ].
Ltac limits := cbv zeta; repeat limits_step.

(** The children of a node, compiled, keep the tables within the limits. *)
Definition ChildrenLimits (acts : children_t) : Prop :=
  Forall (fun a => forall p, Limits (a p)) acts.

Lemma Limits_compileChild (acts : children_t) i p :
  ChildrenLimits acts -> Limits (compileChild acts i p).
Proof. apply Keeps_compileChild. Qed.

Section Limits_compiler.

Context {isa : Instruction}.
Variable operators : list string.
Variable builtins : list string.
Variable isSpecific : string -> option Z.

Lemma Limits_skipGetFields fuel l j : Limits (skipGetFields fuel l j).
Proof.
  revert j. induction fuel as [|fuel IH]; intros j; simpl; [apply Limits_throw |].
  destruct (l !! _); [| apply Limits_throw].
  apply Limits_if; [apply IH | apply Limits_ret].
Qed.

Lemma Limits_compileSpecificArgs fuel l acts i p :
  ChildrenLimits acts -> Limits (compileSpecificArgs fuel l acts i p).
Proof.
  intros HA. revert i. induction fuel as [|fuel IH]; intros i; simpl.
  - apply Limits_if; [apply Limits_throw | apply Limits_ret].
  - apply Limits_if; [| apply Limits_ret].
    apply Limits_bind; [apply Limits_skipGetFields | intros j].
    apply Limits_bind;
      [apply Limits_for_each; intros; apply Limits_compileChild, HA | intros _].
    apply Limits_bind; [apply Limits_compileChild, HA | intros _; apply IH].
Qed.

Lemma Limits_handleCallsFields l acts count n proc_page :
  ChildrenLimits acts -> Limits (handleCallsFields l acts count n proc_page).
Proof.
  intros HA. revert n. induction count as [|count IH]; intros n; simpl.
  - apply Limits_ret.
  - destruct (l !! n); [| apply Limits_throw].
    apply Limits_if; [| apply Limits_ret].
    apply Limits_bind; [apply Limits_compileChild, HA | intros _; apply IH].
Qed.

Lemma Limits_handleCallsOperands l acts op_inst count index exp_count p :
  ChildrenLimits acts ->
  Limits (handleCallsOperands l acts op_inst count index exp_count p).
Proof.
  intros HA. revert index exp_count. induction count as [|count IH];
    intros index exp_count; simpl.
  - apply Limits_ret.
  - apply Limits_bind; [apply Limits_compileChild, HA | intros _].
    apply Limits_bind; [apply Limits_if; auto with limits | intros _]. apply IH.
Qed.

Section Children.

Variable acts : children_t.
Hypothesis HA : ChildrenLimits acts.

Local Hint Resolve Limits_compileChild Limits_compileSpecificArgs Limits_handleCallsFields
  Limits_handleCallsOperands : limits.

Lemma Limits_compileSymbol x p : Limits (compileSymbol operators builtins x p).
Proof. unfold compileSymbol. limits. Qed.

Lemma Limits_compileSpecific c0 x p : Limits (compileSpecific isSpecific c0 x acts p).
Proof. unfold compileSpecific, pushSpecificInstArgc. limits. Qed.

Lemma Limits_compileIf x p : Limits (compileIf x acts p).
Proof. unfold compileIf. limits. Qed.

Lemma Limits_compileFunction x p : Limits (compileFunction x acts p).
Proof. unfold compileFunction, addValue_page. limits. Qed.

Lemma Limits_compileLetMut n x p : Limits (compileLetMut n x acts p).
Proof. unfold compileLetMut, putValue. limits. Qed.

Lemma Limits_compileWhile x p : Limits (compileWhile x acts p).
Proof. unfold compileWhile. limits. Qed.

Lemma Limits_compileSet x p : Limits (compileSet x acts p).
Proof. unfold compileSet, putValue. limits. Qed.

Lemma Limits_compileQuote x p : Limits (compileQuote x acts p).
Proof. unfold compileQuote, addValue_page. limits. Qed.

Lemma Limits_compilePluginImport x p : Limits (compilePluginImport x acts p).
Proof. unfold compilePluginImport. limits. Qed.

Lemma Limits_compileDel x p : Limits (compileDel x acts p).
Proof. unfold compileDel. limits. Qed.

Lemma Limits_handleCalls x p : Limits (handleCalls operators x acts p).
Proof.
  assert (forall n q, Limits (for_each (fun exp : Z -> M unit => exp q) (drop n acts))) as HD.
  { intros n q. apply Keeps_for_each; [apply limits_kept_refl | apply limits_kept_trans |].
    intros a Ha. eapply (proj1 (Forall_forall _ _) HA), (subseteq_drop n), Ha. }
  unfold handleCalls, checkChainedOperator. limits.
Qed.

Lemma Limits_compileNode x p : Limits (compileNode operators builtins isSpecific x acts p).
Proof.
  unfold compileNode.
  apply Limits_if; [apply Limits_compileSymbol |].
  apply Limits_if; [limits |]. apply Limits_if; [limits |].
  destruct (constList x) as [|c0 l] eqn:El; [limits |].
  apply Limits_if; [apply Limits_compileSpecific |].
  apply Limits_if; [| apply Limits_handleCalls].
  destruct (keyword c0) as [[]|]; auto using Limits_compileIf, Limits_compileSet,
    Limits_compileLetMut, Limits_compileFunction, Limits_compileWhile,
    Limits_compilePluginImport, Limits_compileQuote, Limits_compileDel, Limits_ret.
  apply Limits_for_each. intros i. apply Limits_compileChild, HA.
Qed.

End Children.

Lemma Limits_compile x : forall p, Limits (_compile operators builtins isSpecific x p).
Proof.
  induction x as [s pos|s pos|s pos|k pos|s pos|n pos|l pos IH] using Node_ind';
    intros p; simpl; try (apply Limits_compileNode; constructor).
  apply Limits_compileNode. unfold ChildrenLimits. apply Forall_fmap.
  eapply Forall_impl; [exact IH |]. intros c Hc q. apply Hc.
Qed.

End Limits_compiler.

Section Table_counts.

Context {isa : Instruction}.
Variable operators : list string.
Variable builtins : list string.
Variable isSpecific : string -> option Z.
Variable stem : string -> string.
Variable to_string : float -> string.
Variable hash256 : list Z -> list Z.
Variable ARK_VERSION_MAJOR : Z.
Variable ARK_VERSION_MINOR : Z.
Variable ARK_VERSION_PATCH : Z.

(** X25. In the container [compile()] makes of a fresh compiler, the two
    bytes after [SYM_TABLE_START] and after [VAL_TABLE_START] are the
    numbers of symbols and of values, not these numbers modulo 2^16: the
    tables hold at most 65535 entries each. *)
Theorem compile_table_counts ast timestamp st' :
  compile operators builtins isSpecific stem to_string hash256
    ARK_VERSION_MAJOR ARK_VERSION_MINOR ARK_VERSION_PATCH ast timestamp Compiler_new
    = (Ok tt, st') ->
  let symbols := Z.of_nat (length (m_symbols st')) in
  let values := Z.of_nat (length (m_values st')) in
  symbols <= 65535 /\ values <= 65535 /\
  readNumber2 (hi_byte symbols) (lo_byte symbols) = symbols /\
  readNumber2 (hi_byte values) (lo_byte values) = values /\
  drop 50 (m_bytecode st') =
    SYM_TABLE_START :: be16 symbols ++
    concat (map (fun sym => bytes_of_string (string_of sym) ++ [0]) (m_symbols st')) ++
    VAL_TABLE_START :: be16 values ++
    concat (map (value_bytes to_string) (m_values st')) ++
    segments (m_code_pages st').
Proof.
  intros H symbols values.
  apply compile_Ok in H as (st1 & HL & _ & ->); [| reflexivity].
  unfold lower in HL. apply Limits_compile in HL.
  assert (within_limits st1) as [Hs Hv] by (apply HL; split; simpl; lia).
  subst symbols values. cbn [m_symbols m_values m_bytecode m_code_pages set_bytecode].
  split; [exact Hs |]. split; [exact Hv |].
  split; [apply readNumber2_be16; lia |]. split; [apply readNumber2_be16; lia |].
  rewrite app_assoc, drop_app_length'.
  2:{ rewrite length_app. unfold digest. rewrite length_take, length_app, repeat_length.
      rewrite header_length. unfold k_digest_size, header_size. lia. }
  unfold body, tables. rewrite !u16_small by lia.
  cbn [app]. rewrite <- !app_assoc. cbn [app]. rewrite <- !app_assoc. reflexivity.
Qed.

End Table_counts.

Lemma compile_table_counts_witness :
  let st' := Sample.product_compiled in
  let symbols := Z.of_nat (length (m_symbols st')) in
  let values := Z.of_nat (length (m_values st')) in
  symbols <= 65535 /\ values <= 65535 /\
  readNumber2 (hi_byte symbols) (lo_byte symbols) = symbols /\
  readNumber2 (hi_byte values) (lo_byte values) = values /\
  drop 50 (m_bytecode st') =
    @SYM_TABLE_START Sample.isa :: be16 symbols ++
    concat (map (fun sym => bytes_of_string (string_of sym) ++ [0]) (m_symbols st')) ++
    @VAL_TABLE_START Sample.isa :: be16 values ++
    concat (map (@value_bytes Sample.isa Sample.to_string) (m_values st')) ++
    @segments Sample.isa (m_code_pages st').
Proof.
  apply (@compile_table_counts Sample.isa Sample.operators Sample.builtins
           Sample.isSpecific Sample.stem Sample.to_string Sample.hash256 3 0 13
           Sample.product 1600000000).
  vm_compute. reflexivity.
Defined.
